(* ===== verification/_CoqProject ===== *)
-Q . S2P
Prelude.v
Utf8.v
JsNumber.v
NumToString.v
Json.v
JsonText.v
NodePath.v
NodeFs.v
Rimraf.v
Async.v
Handlers.v
Server.v
Cors.v
Findings.v
Gateway.v
Wire.v
Concurrency.v
Lifecycle.v
Listen.v
