(* ===== verification/Prelude.v ===== *)
(** * A verified model of the MCP filesystem gateway

    The program is [src/servers/filesystem/index.js]: an Express server
    that exposes list, read, write and delete over HTTP.  Each path is
    resolved against the fixed root [DATA_DIR = '/data'] with Node's
    [path.join] and the operation runs with Node's [fs.promises].  This
    development models the program and the parts of Node and Express it
    calls, and proves the properties that make each part correct.

    ** The parts and how they interact

    A request goes through Express: the [cors()] and [express.json()]
    middleware run first, then the request is routed to one of the six
    handlers (index.js lines 10-107), and Express's final handler answers
    what no route took.  A handler reads fields from the parsed JSON body
    and tests them with JavaScript truthiness.  It resolves the path with
    [path.join(DATA_DIR, p)] and [await]s one or more [fs.promises]
    calls.  Inside its [try]/[catch], a thrown error becomes a [500]
    response.  Node validates each path (no NUL) and passes it to the
    kernel as UTF-8 bytes, where Linux's length limits apply.  File
    contents are encoded to UTF-8 on write and decoded from it on read.
    Requests run concurrently: a handler gives up the thread at each
    [await].

    ** Files, in dependency order

    - [Prelude]: this header.  JavaScript strings as lists of UTF-16 code
      units ([jstr]), the literal notation [‹"..."›], the tactics, the
      [gw] hint databases, and the shared lemmas on lists and bitwise
      arithmetic.
    - [Utf8] (Module [Utf8]): the encoder behind [Buffer.from(s,'utf8')]
      and every path given to the kernel, which turns a lone surrogate
      into U+FFFD, and the WHATWG decoder behind [fs.readFile(p,'utf-8')]
      and [readdir] names.  [decode_encode]: decoding the encoding of a
      well-formed string returns it.  The decoder emits only scalar
      values, so every string read is well formed (C26).
    - [JsNumber]: the JavaScript number type [num] ([NaN], the two
      infinities, a finite double as the exact rational it denotes, and
      [-0] as its own value), ECMAScript's [StringToNumber] with the
      exact rounding to a double, [ToUint32], [ToInt32] and [trim].
    - [NumToString] (Module [NumToString]): [Number::toString] for
      doubles (ECMA-262 6.1.6.1.20).  [shortest] searches the fewest
      digits that read back as the double, nearest and even on a tie;
      [layout] prints the five forms.  C27: [Number(String(x))] is [x].
    - [Json]: the values [express.json()] produces, truthiness ([!x]),
      property access that may give [undefined], Node's error objects and
      their [message]: the [uvException] text, [ERR_INVALID_ARG_TYPE]
      with [determineSpecificType], and [ERR_INVALID_ARG_VALUE] of a path
      with a NUL, built on [util.inspect] of a string ([inspect_string]:
      the quote [strEscape] picks, its escapes, the lines of a long
      string).
    - [JsonText] (Module [JsonText]): [JSON.parse] as a recursive descent
      over code units and [JSON.stringify] with ES2019's
      [QuoteJSONString].  C5: the round trip through the UTF-8 bytes
      [res.json] sends.
    - [NodePath]: [path.posix.normalize], [join] and [dirname] at the
      level of segments, with their normal forms.
    - [NodeFs]: the kernel file tree as a [gmap] from byte paths to nodes
      (file with its bytes, or directory).  [walk] is namei ([.], [..],
      [ENOENT], [ENOTDIR], trailing slash, [ENAMETOOLONG] for a missing
      name of more than [NAME_MAX] bytes); [resolve] and [lookup] first
      refuse a path of [PATH_MAX] bytes or more.  One definition per
      system call sequence behind [readdir], [readFile], [mkdir -p]
      ([mkdirp_go], which keeps what it created before an error),
      [open(O_TRUNC)], [write], [stat], [unlink], [rmdir] and Node's
      rimraf.  [exec] is one step of an [fs_call]: Node's check for a NUL
      ([nul_path], [null_bytes_error]), then the system call ([kexec]).
      [exec_wf]: every call keeps the tree invariant [fs_wf].
    - [Rimraf] (Module [Rimraf]): Node's [rimrafPromises] one system
      call at a time, as a tree of callbacks, with the children removed
      together.  An invariant ([minv]) and a measure ([weight]) give C7:
      with nothing else running, every run ends, in any order of the
      children, with the state and outcome of [NodeFs.rimraf].  [istep]
      lets another request's call run between two of rimraf's.
    - [Async]: [async]/[await] as an inductive program type [io]
      ([Ret], [Throw], [Await] of one call), with [bind], [catch], and
      the sequential interpreter [run]; [only_calls] and [returns] bound
      the calls a program makes and what it returns.
    - [Handlers]: the six handlers, one definition each, written from
      their lines.  Node's [writeFile] (open, then write unless the data
      is empty; an array chunk by chunk, a chunk that is not a string
      through [Buffer.from] as [buffer_from]) and [rmdir] with
      [recursive] ([stat], then rimraf) are [io] programs.  C19: a write
      without [content] answers 400.
    - [Server]: the Express pipeline [dispatch] on a request whose body
      is already a JSON value (CORS preflight, strict JSON parser,
      case-insensitive routes with an optional trailing slash, [HEAD]
      served by [GET]) and the final handler's HTML page
      ([error_page], [encode_url]).  [serve] runs requests one after the
      other.  C16: no error escapes a handler.
    - [Cors]: the headers [cors()] sets around [dispatch], as
      [serve_http] (C30).
    - [Findings]: the concrete inputs of the witnesses and examples
      computed on them: the spec's scenario and illustrations of the
      findings.
    - [Gateway] (Section [SafePath]): a request path [p] whose [..]
      segments never go above [/data] resolves to [full_path p], whose
      kernel names are [data_key p]; [kernel_path p] says Node and the
      kernel accept it.  The handlers' specifications in terms of the
      kernel map: write (C2), the write/read round trip (C3), idempotence
      on every path (C11), list after write (C12), delete of a subtree
      (C13) and of a file (C14), read of a missing file (C15).
      Confinement of any sequence of requests to [/data] (C1) and that
      only write and delete change the state (C10).  What the code does
      beyond the spec: [..] leaves [/data] (C9), a [content] that is not
      a string fails after [mkdir] created the parents (C20), an array
      is written chunk by chunk (C21), a NUL in the path is refused by
      Node (C22), a name longer than 255 bytes fails in [open] after
      [mkdir] (C23), a lone surrogate is not read back (C24), a [path]
      that is not a string makes [list] fail (C25).
    - [Wire] (Module [Wire], Sections [BodyParser], [Refinement],
      [Post]): the bytes around [Server].  [body_json] is body-parser's
      [json()] (no body or another media type gives [{}]; a charset not
      starting with [utf-] gives 415; more than 102400 bytes gives 413;
      UTF-8 decoding with the byte order mark dropped; strict mode and
      [JSON.parse] give 400), [wire_dispatch] the middleware chain, and
      [send] the bytes of [res.json].  C6: [wire_dispatch] refines
      [Server.dispatch].  C4: a write and a read sent as JSON bytes give
      back the content.  C18: a body over the limit answers 413 and
      changes nothing.  C17: every answer has one of the codes 200, 204,
      400, 404, 413, 415 and 500.
    - [Concurrency]: configurations of requests in flight and the
      relation [step] that moves one of them, with reachability [rtc
      step] and a computed scheduler [step_at] equivalent to it.  The
      invariant and confinement hold in every interleaving (C8, by rule
      induction).  [serve] is one interleaving; every interleaving is
      finite, and one that cannot move on has answered every request.
    - [Lifecycle]: the process.  [app.listen] accepts requests over time
      and [SIGTERM] calls [process.exit(0)]; confinement holds for the
      whole process, and the exit drops requests in flight, despite the
      comment calling it graceful.
    - [Listen]: startup.  [PORT = process.env.PORT || 3000] and Node's
      [normalizeArgs]/[validatePort] decide between a TCP port, a Unix
      socket and a [RangeError] thrown at the top level.  A decimal
      [PORT] listens at its value up to 65535 and ends the process above
      it (C28); every TCP port is in [0 .. 65535] and equals
      [Number(PORT)] (C29).

    ** Bounds, fuel and approximations

    The handlers need no fuel.  Every handler is a finite [io] tree,
    [run] is structural on it, and a schedule is a finite list of moves.
    The rimraf machine needs none either: its runs are finite because
    each move lowers [weight].  Two searches take fuel, and both are
    shown to have enough: [NumToString.shortest] tries at most 1400
    digit counts, and [shortest_complete] proves that it always finds
    one for a double; [JsonText.json_parse] gives its descent
    [2 * length + 1] units, and [jsize_le] with [parse_stringify] prove
    that this is enough for every text [JSON.stringify] writes.  Linux's
    limits are [NAME_MAX = 255] and [PATH_MAX = 4096] bytes; the tree
    invariant does not bound names, and [walk] refuses a long name only
    where the entry is missing, which is where the kernel's file system
    refuses it.  File descriptors are not modelled: [fs.writeFile] is an
    open with truncation followed by appends to the same path.  Each
    system call is one atomic step, and so are [mkdir -p] and
    [readFile], which libuv runs as several calls on its thread pool:
    another request's call cannot come between them in the model.
    Rimraf's own [lstat] and the paths of the children it builds are
    not checked against [PATH_MAX].  Permissions, symbolic links and
    other processes that touch [/data] are not modelled: every error a
    model call returns is one of [ENOENT], [ENOTDIR], [EISDIR],
    [EEXIST], [ENOTEMPTY], [EBUSY], [ENAMETOOLONG], or Node's refusal of
    a NUL.

    ** Not modelled

    - The HTTP transport and the socket of [app.listen] (index.js
      110-113), the bind errors Node emits after [listen] returns
      ([EADDRINUSE]), and the log lines (111-112, 117).  These are pure
      I/O: a request enters as a [Wire.wire_request] value (its method,
      path without query string, [Content-Type] and body bytes) when it
      arrives.
    - The parsing of the [Content-Type] header itself, the inflation of
      a gzip or deflate [Content-Encoding], and the decoders of the
      UTF-16, UTF-32 and UTF-7 charsets (a section variable of [Wire]:
      every theorem holds for any of them).
    - That the fuel of [json_parse] is enough on texts that
      [JSON.stringify] did not write: it is argued but not proved.
    - The final handler's page for a body-parser error when
      [NODE_ENV] is not [production]: it shows the error's stack, whose
      text depends on the install; the model gives the production page,
      with the same status.
    - Response headers other than those [cors()] sets, and the omission
      of the body in an answer to [HEAD]: they change no state.
    - A parsed object chunk of an array [content] whose own
      [constructor] member would change the type named in
      [ERR_INVALID_ARG_TYPE]'s message.
*)

From stdpp Require Export base list gmap strings pretty.
From Stdlib Require Export ZArith Lia.

(** ** JavaScript strings *)

(** A JavaScript string is a sequence of UTF-16 code units.  [js] turns a
    Rocq literal into one, character by character. *)
Abbreviation jstr := (list Z).

Definition js (s : string) : jstr :=
  map (fun a => Z.of_nat (Ascii.nat_of_ascii a)) (String.list_ascii_of_string s).

Declare Scope gw_scope.
Delimit Scope gw_scope with gw.
Notation "'‹' s '›'" := (js s%string) (at level 0, format "‹ s ›") : gw_scope.
Open Scope gw_scope.

(** The code units of the two characters that Node's path module treats
    specially. *)
Definition CH_SLASH : Z := 47.
Definition CH_DOT : Z := 46.

(** ** Automation *)

Create HintDb gw.
Create Rewrite HintDb gw_rw.

(** Invert an equation between two constructor applications, substituting
    the results. *)
Ltac invc H := inversion H; subst; clear H.

(** Prove a closed decidable proposition by evaluation. *)
Ltac decide_it := apply (bool_decide_unpack _); vm_compute; exact I.

(** [lia] after the divisions and remainders by constants are turned into
    their defining equations. *)
Ltac zlia := Z.div_mod_to_equations; lia.

(** Decide every comparison of integers in the goal, closing the branches
    that contradict the context. *)
Ltac zbool :=
  repeat match goal with
  | |- context [(?a <=? ?b)%Z] => destruct (Z.leb_spec a b); try zlia
  | |- context [(?a <? ?b)%Z] => destruct (Z.ltb_spec a b); try zlia
  | |- context [(?a =? ?b)%Z] => destruct (Z.eqb_spec a b); try zlia
  end.

(** Evaluate the powers of two in the goal. *)
Ltac pow_num :=
  repeat match goal with
  | |- context [(2 ^ ?n)%Z] => let v := eval compute in (2 ^ n)%Z in change (2 ^ n)%Z with v
  end.

(** Turn shifts and masks by constants into arithmetic. *)
Ltac bits :=
  repeat first
  [ rewrite Z.shiftr_div_pow2 by lia
  | rewrite Z.shiftl_mul_pow2 by lia
  | progress change 0x3F%Z with (Z.ones 6) | progress change 0x1F%Z with (Z.ones 5)
  | progress change 0xF%Z with (Z.ones 4) | progress change 0x7%Z with (Z.ones 3)
  | rewrite Z.land_ones by lia ].

(** ** Generic lemmas on bitwise arithmetic *)

Section Bits.
Open Scope Z_scope.

(** OR-ing a value below [2^n] into a multiple of [2^n] adds it. *)
Lemma lor_shiftl_low a b n :
  0 <= n -> 0 <= b < 2 ^ n -> Z.lor (a * 2 ^ n) b = a * 2 ^ n + b.
Proof.
  intros Hn Hb.
  assert (Hl : Z.land (a * 2 ^ n) b = 0).
  { apply Z.bits_inj_0. intros i. rewrite Z.land_spec, <- Z.shiftl_mul_pow2 by lia.
    destruct (Z.lt_ge_cases i 0); [by rewrite Z.testbit_neg_r|].
    destruct (Z.lt_ge_cases i n).
    - by rewrite Z.shiftl_spec_low.
    - rewrite <- (Z.mod_small b (2 ^ n)) by lia.
      by rewrite Z.mod_pow2_bits_high, andb_false_r by lia. }
  by rewrite <- Z.lxor_lor, <- Z.add_nocarry_lxor.
Qed.

(** The remainder of a value placed above a multiple of [n]. *)
Lemma mod_lead k n x : 0 < n -> k mod n = 0 -> 0 <= x < n -> (k + x) mod n = x.
Proof.
  intros Hn Hk Hx. rewrite Z.add_mod, Hk by lia.
  rewrite Z.add_0_l, !Z.mod_mod, Z.mod_small; lia.
Qed.
End Bits.

(** Simplify remainders of a constant plus a small digit. *)
Ltac mods := rewrite ?mod_lead by first [reflexivity | lia].

(** ** Generic lemmas on lists *)

Lemma app_single_neq_nil {A} (l : list A) x : l ++ [x] <> [].
Proof. by destruct l. Qed.

Lemma length_removelast {A} (l : list A) : length (removelast l) = pred (length l).
Proof. rewrite removelast_firstn_len, length_take. lia. Qed.

Lemma removelast_neq {A} (l : list A) : l <> [] -> removelast l <> l.
Proof.
  intros Hne E. apply (f_equal length) in E. rewrite length_removelast in E.
  destruct l; [done|]. simpl in E. lia.
Qed.

Lemma Forall_removelast {A} (P : A -> Prop) l : Forall P l -> Forall P (removelast l).
Proof. rewrite removelast_firstn_len. apply Forall_take. Qed.

Lemma filter_all {A} (P : A -> Prop) `{forall x, Decision (P x)} (l : list A) :
  Forall P l -> filter P l = l.
Proof. induction 1; [done|]. rewrite filter_cons_True by done. by f_equal. Qed.

Lemma removelast_map {A B} (f : A -> B) (l : list A) :
  removelast (map f l) = map f (removelast l).
Proof. induction l as [|x [|y l] IH]; [done|done|]. simpl in *. by rewrite IH. Qed.

Lemma Forall_filter_sub {A} (P Q : A -> Prop) `{forall x, Decision (Q x)} (l : list A) :
  Forall P l -> Forall P (filter Q l).
Proof.
  rewrite !Forall_forall. intros HP x Hx. apply list_elem_of_filter in Hx. naive_solver.
Qed.

#[export] Hint Resolve app_single_neq_nil Forall_filter_sub : gw.
#[export] Hint Rewrite @removelast_last : gw_rw.
