(* ===== verification/Utf8.v ===== *)
(** * UTF-8 at the boundary between JavaScript strings and the kernel

    Node hands the kernel bytes.  Strings become bytes through V8's UTF-8
    encoder ([Buffer.from(s, 'utf8')]), and bytes become strings through
    the decoder of the WHATWG Encoding Standard ([buf.toString('utf8')]).
    index.js uses both, implicitly:
    - at line 78 ([fs.writeFile(fullPath, content, 'utf-8')]) and for
      every path it passes to [fs];
    - at line 57 ([fs.readFile(fullPath, 'utf-8')]) and for the names
      that [fs.readdir] returns at line 35.

    The encoder replaces a lone surrogate with U+FFFD.  So a write
    followed by a read returns the content unchanged exactly when the
    content is well-formed UTF-16; [decode_encode] proves it.  The
    decoder emits only scalar values, so a string read from any file is
    well formed (C26) and survives being written back ([reread_stable]);
    the encoder emits only bytes ([encode_bytes]).  Well-formed strings
    are closed under concatenation ([well_formed_app]), and ASCII text is
    well formed. *)

From S2P Require Import Prelude.

Open Scope Z_scope.

Module Utf8.

(** ** UTF-16 code units and code points *)

Definition is_high_surrogate (u : Z) : bool := (0xD800 <=? u) && (u <=? 0xDBFF).
Definition is_low_surrogate (u : Z) : bool := (0xDC00 <=? u) && (u <=? 0xDFFF).

Definition REPLACEMENT : Z := 0xFFFD.

(** The code points V8 encodes: a high surrogate followed by a low one
    combine; any other surrogate is replaced by U+FFFD. *)
Fixpoint code_points (s : jstr) : list Z :=
  match s with
  | [] => []
  | u :: s' =>
      if is_high_surrogate u then
        match s' with
        | v :: s'' =>
            if is_low_surrogate v
            then (0x10000 + (u - 0xD800) * 0x400 + (v - 0xDC00)) :: code_points s''
            else REPLACEMENT :: code_points s'
        | [] => [REPLACEMENT]
        end
      else if is_low_surrogate u then REPLACEMENT :: code_points s'
      else u :: code_points s'
  end.

(** A string is well formed when its units are 16-bit and its surrogates
    come in high-low pairs. *)
Fixpoint well_formed (s : jstr) : bool :=
  match s with
  | [] => true
  | u :: s' =>
      (0 <=? u) && (u <=? 0xFFFF) &&
      if is_high_surrogate u then
        match s' with
        | v :: s'' => is_low_surrogate v && well_formed s''
        | [] => false
        end
      else negb (is_low_surrogate u) && well_formed s'
  end.

(** A Unicode scalar value: a code point that is not a surrogate. *)
Definition scalar (c : Z) : Prop := (0 <= c <= 0x10FFFF) /\ ~ (0xD800 <= c <= 0xDFFF).

(** The UTF-16 form of a list of code points. *)
Definition utf16_of_cp (c : Z) : jstr :=
  if c <? 0x10000 then [c]
  else [0xD800 + (c - 0x10000) / 0x400; 0xDC00 + (c - 0x10000) mod 0x400].

Definition utf16_of_cps (cs : list Z) : jstr := flat_map utf16_of_cp cs.

(** ** The encoder *)

Definition encode_cp (c : Z) : list Z :=
  if c <? 0x80 then [c]
  else if c <? 0x800 then
    [Z.lor 0xC0 (Z.shiftr c 6); Z.lor 0x80 (Z.land c 0x3F)]
  else if c <? 0x10000 then
    [Z.lor 0xE0 (Z.shiftr c 12); Z.lor 0x80 (Z.land (Z.shiftr c 6) 0x3F);
     Z.lor 0x80 (Z.land c 0x3F)]
  else
    [Z.lor 0xF0 (Z.shiftr c 18); Z.lor 0x80 (Z.land (Z.shiftr c 12) 0x3F);
     Z.lor 0x80 (Z.land (Z.shiftr c 6) 0x3F); Z.lor 0x80 (Z.land c 0x3F)].

Definition encode (s : jstr) : list Z := flat_map encode_cp (code_points s).

(** ** The decoder (Encoding Standard, "UTF-8 decoder") *)

(** Between bytes the decoder either waits for a lead byte or needs
    [need] more continuation bytes, each in [lower..upper]. *)
Inductive dstate :=
| DStart
| DCont (need : nat) (cp lower upper : Z).

(** A byte read in the start state: what it emits and the next state. *)
Definition start_byte (b : Z) : list Z * dstate :=
  if b <=? 0x7F then ([b], DStart)
  else if (0xC2 <=? b) && (b <=? 0xDF) then ([], DCont 1 (Z.land b 0x1F) 0x80 0xBF)
  else if (0xE0 <=? b) && (b <=? 0xEF) then
    ([], DCont 2 (Z.land b 0xF) (if b =? 0xE0 then 0xA0 else 0x80)
                                (if b =? 0xED then 0x9F else 0xBF))
  else if (0xF0 <=? b) && (b <=? 0xF4) then
    ([], DCont 3 (Z.land b 0x7) (if b =? 0xF0 then 0x90 else 0x80)
                               (if b =? 0xF4 then 0x8F else 0xBF))
  else ([REPLACEMENT], DStart).

(** The byte loop.  A byte outside [lower..upper] ends the sequence with
    U+FFFD and is then read again in the start state. *)
Fixpoint decode_go (st : dstate) (bs : list Z) : list Z :=
  match bs with
  | [] => match st with DStart => [] | DCont _ _ _ _ => [REPLACEMENT] end
  | b :: bs' =>
      match st with
      | DStart => let '(out, st') := start_byte b in out ++ decode_go st' bs'
      | DCont need cp lo hi =>
          if (lo <=? b) && (b <=? hi) then
            let cp' := Z.lor (Z.shiftl cp 6) (Z.land b 0x3F) in
            match need with
            | S (S n) => decode_go (DCont (S n) cp' 0x80 0xBF) bs'
            | _ => cp' :: decode_go DStart bs'
            end
          else
            REPLACEMENT :: (let '(out, st') := start_byte b in out ++ decode_go st' bs')
      end
  end.

Definition decode_cps (bs : list Z) : list Z := decode_go DStart bs.

(** [buf.toString('utf8')]: the decoded code points as UTF-16. *)
Definition decode (bs : list Z) : jstr := utf16_of_cps (decode_cps bs).

(** ** The bytes of one code point *)

Lemma byte_lead2 c : 0x80 <= c < 0x800 -> Z.lor 0xC0 (Z.shiftr c 6) = 0xC0 + c / 64.
Proof. intros. bits. change 0xC0 with (6 * 2^5). rewrite lor_shiftl_low; pow_num; zlia. Qed.

Lemma byte_lead3 c : 0x800 <= c < 0x10000 -> Z.lor 0xE0 (Z.shiftr c 12) = 0xE0 + c / 4096.
Proof. intros. bits. change 0xE0 with (14 * 2^4). rewrite lor_shiftl_low; pow_num; zlia. Qed.

Lemma byte_lead4 c : 0x10000 <= c < 0x110000 -> Z.lor 0xF0 (Z.shiftr c 18) = 0xF0 + c / 262144.
Proof. intros. bits. change 0xF0 with (30 * 2^3). rewrite lor_shiftl_low; pow_num; zlia. Qed.

Lemma byte_cont x : Z.lor 0x80 (Z.land x 0x3F) = 0x80 + x mod 64.
Proof. bits. change 0x80 with (2 * 2^6). rewrite lor_shiftl_low; pow_num; zlia. Qed.

Lemma shift_acc cp b : Z.lor (Z.shiftl cp 6) (Z.land b 0x3F) = cp * 64 + b mod 64.
Proof. bits. rewrite lor_shiftl_low; pow_num; zlia. Qed.

(** The encoder writes the base-64 digits of the code point after a lead
    byte that carries the length. *)
Lemma encode_cp_2 c : 0x80 <= c < 0x800 ->
  exists x y, c = x * 64 + y /\ 2 <= x < 32 /\ 0 <= y < 64 /\
  encode_cp c = [0xC0 + x; 0x80 + y].
Proof.
  intros Hc. exists (c / 64), (c mod 64). unfold encode_cp. zbool.
  rewrite byte_lead2, byte_cont by lia. repeat split; try zlia.
Qed.

Lemma encode_cp_3 c : 0x800 <= c < 0x10000 ->
  exists x y z, c = x * 4096 + y * 64 + z /\ 0 <= x < 16 /\ 0 <= y < 64 /\ 0 <= z < 64 /\
  encode_cp c = [0xE0 + x; 0x80 + y; 0x80 + z].
Proof.
  intros Hc. exists (c / 4096), ((c / 64) mod 64), (c mod 64). unfold encode_cp. zbool.
  rewrite byte_lead3, !byte_cont by lia. bits. pow_num. repeat split; try zlia.
Qed.

Lemma encode_cp_4 c : 0x10000 <= c < 0x110000 ->
  exists w x y z, c = w * 262144 + x * 4096 + y * 64 + z /\ 0 <= w < 8 /\ 0 <= x < 64 /\
  0 <= y < 64 /\ 0 <= z < 64 /\
  encode_cp c = [0xF0 + w; 0x80 + x; 0x80 + y; 0x80 + z].
Proof.
  intros Hc. exists (c / 262144), ((c / 4096) mod 64), ((c / 64) mod 64), (c mod 64).
  unfold encode_cp. zbool.
  rewrite byte_lead4, !byte_cont by lia. bits. pow_num. repeat split; try zlia.
Qed.

(** One decoder step on known bytes: decide the range tests, reduce, and
    turn the accumulated bits into arithmetic. *)
Local Ltac dec_step :=
  cbn [app decode_go]; unfold start_byte;
  do 4 (zbool; cbn; rewrite ?shift_acc; bits; pow_num; mods); try (f_equal; lia).

(** The decoder reads back the bytes of a scalar value as that value. *)
Lemma decode_encode_cp c rest : scalar c ->
  decode_go DStart (encode_cp c ++ rest) = c :: decode_go DStart rest.
Proof.
  intros [Hc Hs].
  destruct (Z.ltb_spec c 0x80).
  { unfold encode_cp. zbool. simpl. unfold start_byte. zbool. reflexivity. }
  destruct (Z.ltb_spec c 0x800).
  { destruct (encode_cp_2 c) as (x & y & -> & ? & ? & ->); [lia|]. dec_step. }
  destruct (Z.ltb_spec c 0x10000).
  { destruct (encode_cp_3 c) as (x & y & z & -> & ? & ? & ? & ->); [lia|]. dec_step. }
  destruct (encode_cp_4 c) as (w & x & y & z & -> & ? & ? & ? & ? & ->); [lia|]. dec_step.
Qed.

Lemma decode_cps_encode cs : Forall scalar cs -> decode_cps (flat_map encode_cp cs) = cs.
Proof.
  unfold decode_cps. induction 1 as [|c cs Hc _ IH]; [done|].
  simpl. by rewrite decode_encode_cp, IH.
Qed.

(** ** Code points of well-formed strings *)

Lemma surrogate_pair_scalar u v :
  is_high_surrogate u = true -> is_low_surrogate v = true ->
  scalar (0x10000 + (u - 0xD800) * 0x400 + (v - 0xDC00)) /\
  utf16_of_cp (0x10000 + (u - 0xD800) * 0x400 + (v - 0xDC00)) = [u; v].
Proof.
  unfold is_high_surrogate, is_low_surrogate, utf16_of_cp, scalar.
  intros Hu Hv. apply andb_true_iff in Hu as [Hu1 Hu2], Hv as [Hv1 Hv2].
  apply Z.leb_le in Hu1, Hu2, Hv1, Hv2.
  split; [zlia|]. zbool. f_equal; [|f_equal]; zlia.
Qed.

Lemma code_points_well_formed s :
  well_formed s = true ->
  Forall scalar (code_points s) /\ utf16_of_cps (code_points s) = s.
Proof.
  induction s as [s IH] using (induction_ltof1 _ (@length Z)); unfold ltof in IH.
  destruct s as [|u s']; [done|]. cbn [well_formed code_points].
  intros Hwf. apply andb_true_iff in Hwf as [Hr Hwf].
  apply andb_true_iff in Hr as [Hr1 Hr2]. apply Z.leb_le in Hr1, Hr2.
  destruct (is_high_surrogate u) eqn:Hhi.
  - destruct s' as [|v s'']; [done|]. apply andb_true_iff in Hwf as [Hlo Hwf].
    rewrite Hlo. destruct (IH s'') as [IH1 IH2]; [simpl; lia|done|].
    destruct (surrogate_pair_scalar u v) as [Hsc Hu]; [done|done|].
    split; [by constructor|]. unfold utf16_of_cps in *. simpl. by rewrite Hu, IH2.
  - apply andb_true_iff in Hwf as [Hlo Hwf]. apply negb_true_iff in Hlo. rewrite Hlo.
    destruct (IH s') as [IH1 IH2]; [simpl; lia|done|].
    unfold is_high_surrogate, is_low_surrogate in *.
    split.
    + constructor; [|done]. split; [lia|].
      intros Hs. revert Hhi Hlo. zbool; simpl; congruence.
    + unfold utf16_of_cps in *. simpl. rewrite IH2. unfold utf16_of_cp. by zbool.
Qed.

(** ** Round trips *)

(** Writing a well-formed string as UTF-8 and decoding it returns the
    string: the round trip of [fs.writeFile] and [fs.readFile]. *)
Theorem decode_encode s : well_formed s = true -> decode (encode s) = s.
Proof.
  intros Hwf. destruct (code_points_well_formed s Hwf) as [Hsc Hs].
  unfold decode, encode. by rewrite decode_cps_encode.
Qed.

(** ** Well-formed strings put together *)

Lemma well_formed_cons_plain c s :
  0 <= c <= 0xFFFF -> is_high_surrogate c = false -> is_low_surrogate c = false ->
  well_formed (c :: s) = well_formed s.
Proof. intros Hc Hh Hl. simpl. rewrite Hh, Hl. by zbool. Qed.

Lemma well_formed_app a b : well_formed a = true -> well_formed b = true -> well_formed (a ++ b) = true.
Proof.
  intros Ha Hb. induction a as [a IH] using (induction_ltof1 _ (@length Z)); unfold ltof in IH.
  destruct a as [|u a]; [done|]. cbn [app well_formed] in *.
  apply andb_prop in Ha as [Hu Ha]. rewrite Hu. simpl.
  destruct (is_high_surrogate u).
  - destruct a as [|v a]; [done|]. cbn [app]. apply andb_prop in Ha as [Hv Ha].
    rewrite Hv. apply IH; [simpl; lia|done].
  - apply andb_prop in Ha as [Hl Ha]. rewrite Hl. apply IH; [simpl; lia|done].
Qed.

(** Text made of ASCII characters is well formed. *)
Definition ascii (s : jstr) : Prop := Forall (fun u => 0 <= u < 0x80) s.

Lemma ascii_well_formed s : ascii s -> well_formed s = true.
Proof.
  induction 1 as [|u s Hu _ IH]; [done|].
  rewrite well_formed_cons_plain; [done|lia|..]; unfold is_high_surrogate, is_low_surrogate; zbool; done.
Qed.

(** ** Encoding and the path separator *)

Definition surrogate (c : Z) : bool := is_high_surrogate c || is_low_surrogate c.

(** A character that is not a surrogate separates the code points. *)
Lemma code_points_sep a c b :
  surrogate c = false -> code_points (a ++ c :: b) = code_points a ++ c :: code_points b.
Proof.
  unfold surrogate. intros Hc. apply orb_false_iff in Hc as [Hc1 Hc2].
  induction a as [a IH] using (induction_ltof1 _ (@length Z)); unfold ltof in IH.
  destruct a as [|u a'].
  - cbn [app code_points]. by rewrite Hc1, Hc2.
  - cbn [app code_points].
    destruct (is_high_surrogate u) eqn:Hu.
    + destruct a' as [|v a''].
      * cbn [app code_points]. rewrite Hc1, Hc2. reflexivity.
      * cbn [app]. destruct (is_low_surrogate v).
        -- rewrite IH by (simpl; lia). done.
        -- change (v :: a'' ++ c :: b) with ((v :: a'') ++ c :: b).
           rewrite IH by (simpl; lia). done.
    + destruct (is_low_surrogate u); rewrite IH by (simpl; lia); done.
Qed.

Lemma encode_sep a c b :
  surrogate c = false -> 0 <= c < 0x80 -> encode (a ++ c :: b) = encode a ++ c :: encode b.
Proof.
  intros Hs Hc. unfold encode. rewrite code_points_sep by done.
  rewrite flat_map_app. simpl. unfold encode_cp at 2. by zbool.
Qed.

Lemma encode_nil : encode [] = [].
Proof. reflexivity. Qed.

(** Every byte of a code point's encoding is at least [0x80], except the
    single byte of a code point below [0x80]. *)
Lemma encode_cp_high c : 0x80 <= c -> 0x10FFFF >= c -> Forall (fun b => 0x80 <= b) (encode_cp c).
Proof.
  intros H1 H2. destruct (Z.ltb_spec c 0x800).
  { destruct (encode_cp_2 c) as (x & y & -> & ? & ? & ->); [lia|]. repeat constructor; lia. }
  destruct (Z.ltb_spec c 0x10000).
  { destruct (encode_cp_3 c) as (x & y & z & -> & ? & ? & ? & ->); [lia|]. repeat constructor; lia. }
  destruct (encode_cp_4 c) as (w & x & y & z & -> & ? & ? & ? & ? & ->); [lia|].
  repeat constructor; lia.
Qed.

Lemma encode_cp_not_nil c : encode_cp c <> [].
Proof. unfold encode_cp. by repeat destruct (_ <? _). Qed.

(** The units of a JavaScript string are 16-bit. *)
Definition units16 (s : jstr) : Prop := Forall (fun u => 0 <= u <= 0xFFFF) s.

Lemma well_formed_units16 s : well_formed s = true -> units16 s.
Proof.
  induction s as [s IH] using (induction_ltof1 _ (@length Z)); unfold ltof in IH.
  destruct s as [|u s]; [constructor|]. cbn [well_formed]. intros H.
  apply andb_prop in H as [Hu H]. apply andb_prop in Hu as [H1 H2]. apply Z.leb_le in H1, H2.
  destruct (is_high_surrogate u).
  - destruct s as [|v s]; [done|]. apply andb_prop in H as [Hv H].
    unfold is_low_surrogate in Hv. apply andb_prop in Hv as [H3 H4]. apply Z.leb_le in H3, H4.
    repeat constructor; try lia. apply IH; [simpl; lia|done].
  - apply andb_prop in H as [_ H]. constructor; [lia|]. apply IH; [simpl; lia|done].
Qed.

Lemma encode_cons_ascii u s : 0 <= u < 0x80 -> encode (u :: s) = u :: encode s.
Proof.
  intros Hu. unfold encode. cbn [code_points].
  unfold is_high_surrogate, is_low_surrogate. zbool. simpl. unfold encode_cp. by zbool.
Qed.

(** A unit of [0x80] or more starts a code point of [0x80] or more; the
    rest of the string is encoded after it. *)
Lemma encode_cons_high u s :
  0x80 <= u <= 0xFFFF ->
  exists c rest, encode (u :: s) = encode_cp c ++ encode rest /\
    0x80 <= c <= 0x10FFFF /\ (rest = s \/ exists v, s = v :: rest).
Proof.
  intros Hu. unfold encode. cbn [code_points]. unfold is_high_surrogate, is_low_surrogate.
  destruct ((0xD800 <=? u) && (u <=? 0xDBFF)) eqn:Hhi.
  - apply andb_true_iff in Hhi as [Hh1 Hh2]. apply Z.leb_le in Hh1, Hh2.
    destruct s as [|v s''].
    + exists REPLACEMENT, []. unfold REPLACEMENT. split; [done|]. split; [lia|by left].
    + destruct ((0xDC00 <=? v) && (v <=? 0xDFFF)) eqn:Hlo.
      * apply andb_true_iff in Hlo as [Hl1 Hl2]. apply Z.leb_le in Hl1, Hl2.
        eexists _, s''. split; [done|]. split; [lia|right; by exists v].
      * exists REPLACEMENT, (v :: s''). unfold REPLACEMENT. split; [done|]. split; [lia|by left].
  - destruct ((0xDC00 <=? u) && (u <=? 0xDFFF)) eqn:Hlo.
    + exists REPLACEMENT, s. unfold REPLACEMENT. split; [done|]. split; [lia|by left].
    + exists u, s. split; [done|]. split; [lia|by left].
Qed.

Lemma units16_cons u s : units16 (u :: s) <-> 0 <= u <= 0xFFFF /\ units16 s.
Proof. unfold units16. by rewrite Forall_cons. Qed.

Lemma code_points_cons_not_nil u s : code_points (u :: s) <> [].
Proof. cbn [code_points]. repeat case_match; discriminate. Qed.

Lemma encode_not_nil s : s <> [] -> encode s <> [].
Proof.
  destruct s as [|u s]; [done|]. intros _. unfold encode.
  destruct (code_points (u :: s)) as [|c cs] eqn:E; [by apply code_points_cons_not_nil in E|].
  simpl. intros H. apply app_eq_nil in H as [H _]. by apply encode_cp_not_nil in H.
Qed.

(** The separator byte appears in the encoding only where the string has
    the separator. *)
Lemma encode_no_ascii s b :
  units16 s -> 0 <= b < 0x80 -> b ∉ s -> b ∉ encode s.
Proof.
  induction s as [s IH] using (induction_ltof1 _ (@length Z)); unfold ltof in IH.
  intros H16 Hb Hs. destruct s as [|u s']; [apply not_elem_of_nil|].
  apply units16_cons in H16 as [Hu H16]. rewrite elem_of_cons in Hs.
  destruct (Z.ltb_spec u 0x80).
  - rewrite encode_cons_ascii by lia. rewrite elem_of_cons. intros [->|Hin]; [naive_solver|].
    revert Hin. apply IH; [simpl; lia|done|done|naive_solver].
  - destruct (encode_cons_high u s') as (c & rest & -> & Hc & Hrest); [lia|].
    rewrite elem_of_app. intros [Hin|Hin].
    + pose proof (encode_cp_high c ltac:(lia) ltac:(lia)) as Hf.
      rewrite Forall_forall in Hf. specialize (Hf b Hin). lia.
    + destruct Hrest as [->|[v ->]].
      * revert Hin. apply IH; [simpl; lia|done|done|naive_solver].
      * apply units16_cons in H16 as [_ H16]. revert Hin. apply IH; [simpl; lia|done|done|].
        intros Hr. apply Hs. right. by right.
Qed.

(** Encodings that are ASCII come from the same ASCII string. *)
Lemma encode_ascii_inv s t :
  units16 s -> Forall (fun b => 0 <= b < 0x80) t -> encode s = t -> s = t.
Proof.
  revert t. induction s as [s IH] using (induction_ltof1 _ (@length Z)); unfold ltof in IH.
  intros t H16 Ht He. destruct s as [|u s'].
  - done.
  - apply units16_cons in H16 as [Hu H16]. destruct (Z.ltb_spec u 0x80).
    + rewrite encode_cons_ascii in He by lia. destruct t as [|b t]; [done|].
      injection He as -> He. inversion Ht; subst. f_equal. apply IH; [simpl; lia|done|done|done].
    + destruct (encode_cons_high u s') as (c & rest & Hc & Hcr & _); [lia|].
      rewrite Hc in He. pose proof (encode_cp_high c ltac:(lia) ltac:(lia)) as Hf.
      destruct (encode_cp c) as [|b0 bs] eqn:E; [by apply encode_cp_not_nil in E|].
      subst t. inversion Hf; inversion Ht; subst. lia.
Qed.

(** ** What the decoder emits *)

Definition byte (b : Z) : Prop := 0 <= b <= 0xFF.

(** Every value in [a..z] is a scalar value. *)
Definition scalar_range (a z : Z) : Prop := 0 <= a /\ z <= 0x10FFFF /\ (z < 0xD800 \/ 0xDFFF < a).

Lemma scalar_range_in a z c : scalar_range a z -> a <= c <= z -> scalar c.
Proof. unfold scalar_range, scalar. lia. Qed.

Lemma scalar_range_sub a z a' z' : scalar_range a z -> a <= a' -> z' <= z -> scalar_range a' z'.
Proof. unfold scalar_range. lia. Qed.

(** A continuation state can only end in a scalar value: the code points
    it can still produce, whatever continuation bytes in range follow,
    form a range of scalar values. *)
Definition dstate_ok (st : dstate) : Prop :=
  match st with
  | DStart => True
  | DCont n cp lo hi =>
      let w := match n with 1%nat => 1 | 2%nat => 64 | _ => 4096 end in
      (1 <= n <= 3)%nat /\ 0x80 <= lo <= hi /\ hi <= 0xBF /\ 0 <= cp /\
      scalar_range ((cp * 64 + lo mod 64) * w) ((cp * 64 + hi mod 64) * w + w - 1)
  end.

Lemma scalar_replacement : scalar REPLACEMENT.
Proof. unfold scalar, REPLACEMENT. lia. Qed.

Lemma start_byte_ok b : byte b -> Forall scalar (start_byte b).1 /\ dstate_ok (start_byte b).2.
Proof.
  unfold byte, start_byte, dstate_ok, scalar_range. intros Hb.
  pose proof scalar_replacement.
  change 0x1F with (Z.ones 5). change 0xF with (Z.ones 4). change 0x7 with (Z.ones 3).
  rewrite !Z.land_ones by lia. pow_num.
  zbool; cbn [andb fst snd];
    (split; [first [apply Forall_nil | apply Forall_singleton; (done || (unfold scalar; lia))]|]);
    repeat split; zlia.
Qed.

Lemma decode_go_scalar st bs : dstate_ok st -> Forall byte bs -> Forall scalar (decode_go st bs).
Proof.
  revert st. induction bs as [|b bs IH]; intros st Hst Hbs.
  - destruct st; cbn [decode_go]; [constructor|constructor; [apply scalar_replacement|constructor]].
  - inversion Hbs as [|? ? Hb Hbs']; subst.
    assert (Hstart : Forall scalar (let '(out, st') := start_byte b in out ++ decode_go st' bs)).
    { destruct (start_byte_ok b Hb) as [H1 H2].
      destruct (start_byte b) as [out st']. apply Forall_app. auto. }
    destruct st as [|n cp lo hi]; [done|]. cbn [decode_go].
    destruct ((lo <=? b) && (b <=? hi)) eqn:Hin;
      [|constructor; [apply scalar_replacement|done]].
    apply andb_true_iff in Hin as [Hin1 Hin2]. apply Z.leb_le in Hin1, Hin2.
    rewrite shift_acc. destruct Hst as (Hn & Hlo & Hhi & Hcp & Hr).
    destruct n as [|[|[|[|n]]]]; try lia; cbv zeta beta iota in Hr.
    + constructor; [|apply IH; done]. eapply scalar_range_in; [exact Hr|]. zlia.
    + apply IH; [|done]. unfold dstate_ok, scalar_range in *. cbv zeta beta iota.
      split_and!; zlia.
    + apply IH; [|done]. unfold dstate_ok, scalar_range in *. cbv zeta beta iota.
      split_and!; zlia.
Qed.

Lemma decode_cps_scalar bs : Forall byte bs -> Forall scalar (decode_cps bs).
Proof. apply decode_go_scalar. done. Qed.

(** The UTF-16 form of scalar values is well formed. *)
Lemma well_formed_utf16_app c s : scalar c -> well_formed (utf16_of_cp c ++ s) = well_formed s.
Proof.
  unfold scalar, utf16_of_cp. intros [Hc Hs]. destruct (Z.ltb_spec c 0x10000).
  - cbn [app well_formed]. unfold is_high_surrogate, is_low_surrogate.
    rewrite (proj2 (Z.leb_le 0 c)), (proj2 (Z.leb_le c 0xFFFF)) by lia.
    destruct (Z.leb_spec 0xD800 c), (Z.leb_spec c 0xDBFF), (Z.leb_spec 0xDC00 c), (Z.leb_spec c 0xDFFF);
      cbn [andb negb]; (done || lia).
  - set (hi := 0xD800 + (c - 0x10000) / 0x400). set (lo := 0xDC00 + (c - 0x10000) mod 0x400).
    assert (Hhi : is_high_surrogate hi = true /\ 0 <= hi <= 0xFFFF).
    { unfold is_high_surrogate, hi. split; [apply andb_true_iff; split; apply Z.leb_le|]; zlia. }
    assert (Hlo : is_low_surrogate lo = true /\ 0 <= lo <= 0xFFFF).
    { unfold is_low_surrogate, lo. split; [apply andb_true_iff; split; apply Z.leb_le|]; zlia. }
    destruct Hhi as [Hh [Hh1 Hh2]], Hlo as [Hl [Hl1 Hl2]].
    cbn [app well_formed]. rewrite Hh, Hl.
    rewrite (proj2 (Z.leb_le 0 hi)), (proj2 (Z.leb_le hi 0xFFFF)) by lia. done.
Qed.

Lemma utf16_of_cps_well_formed cs : Forall scalar cs -> well_formed (utf16_of_cps cs) = true.
Proof.
  unfold utf16_of_cps. induction 1 as [|c cs Hc _ IH]; [done|].
  cbn [flat_map]. by rewrite well_formed_utf16_app.
Qed.

(** ** The bytes the encoder writes *)

Lemma code_points_range s :
  units16 s -> Forall (fun c => 0 <= c <= 0x10FFFF) (code_points s).
Proof.
  induction s as [s IH] using (induction_ltof1 _ (@length Z)); unfold ltof in IH.
  destruct s as [|u s']; [constructor|]. intros [Hu H16]%units16_cons. cbn [code_points].
  unfold is_high_surrogate, is_low_surrogate, REPLACEMENT.
  destruct s' as [|v s''].
  - zbool; repeat constructor; lia.
  - apply units16_cons in H16 as H16'. destruct H16' as [Hv H16''].
    zbool; constructor; try lia; apply IH; simpl; (lia || done).
Qed.

Lemma encode_cp_bytes c : 0 <= c <= 0x10FFFF -> Forall byte (encode_cp c).
Proof.
  unfold byte. intros Hc. destruct (Z.ltb_spec c 0x80).
  { unfold encode_cp. zbool. repeat constructor; lia. }
  destruct (Z.ltb_spec c 0x800).
  { destruct (encode_cp_2 c) as (x & y & -> & ? & ? & ->); [lia|]. repeat constructor; lia. }
  destruct (Z.ltb_spec c 0x10000).
  { destruct (encode_cp_3 c) as (x & y & z & -> & ? & ? & ? & ->); [lia|]. repeat constructor; lia. }
  destruct (encode_cp_4 c) as (w & x & y & z & -> & ? & ? & ? & ? & ->); [lia|].
  repeat constructor; lia.
Qed.

(** C26. Every string [fs.readFile(p, 'utf-8')] returns is well-formed
    UTF-16, whatever bytes the file holds: invalid sequences become
    U+FFFD, never a lone surrogate. *)
Theorem decode_well_formed bs : Forall byte bs -> well_formed (decode bs) = true.
Proof. intros Hbs. by apply utf16_of_cps_well_formed, decode_cps_scalar. Qed.

Lemma decode_well_formed_witness :
  Forall byte [0x68; 0xFF; 0xE2; 0x82; 0xED; 0xA0; 0x80] /\
  well_formed (decode [0x68; 0xFF; 0xE2; 0x82; 0xED; 0xA0; 0x80]) = true.
Proof. split; [decide_it|]. apply decode_well_formed. decide_it. Defined.

(** Writing back a string that was read and reading it again gives
    the same string, whatever bytes the file held. *)
Theorem reread_stable bs : Forall byte bs -> decode (encode (decode bs)) = decode bs.
Proof. intros Hbs. by apply decode_encode, utf16_of_cps_well_formed, decode_cps_scalar. Qed.

Lemma reread_stable_witness :
  Forall byte [0x68; 0xFF; 0xE2; 0x82] /\
  decode (encode (decode [0x68; 0xFF; 0xE2; 0x82])) = decode [0x68; 0xFF; 0xE2; 0x82].
Proof. split; [decide_it|]. apply reread_stable. decide_it. Defined.

(** The encoder writes bytes: every value of the UTF-8 form of a
    JavaScript string is in [0..255]. *)
Theorem encode_bytes s : units16 s -> Forall byte (encode s).
Proof.
  intros H16. unfold encode. induction (code_points_range s H16) as [|c cs Hc _ IH]; [constructor|].
  cbn [flat_map]. apply Forall_app. split; [by apply encode_cp_bytes|done].
Qed.

Lemma encode_bytes_witness :
  units16 [0x41; 0xD83D; 0xDE00; 0xDC00] /\ Forall byte (encode [0x41; 0xD83D; 0xDE00; 0xDC00]).
Proof. split; [decide_it|]. apply encode_bytes. decide_it. Defined.

Lemma decode_encode_witness :
  well_formed [0x48; 0xE9; 0x20AC; 0xD83D; 0xDE00] = true /\
  decode (encode [0x48; 0xE9; 0x20AC; 0xD83D; 0xDE00]) = [0x48; 0xE9; 0x20AC; 0xD83D; 0xDE00].
Proof. split; [reflexivity|]. apply decode_encode. reflexivity. Defined.

End Utf8.
