(* ===== verification/JsNumber.v ===== *)
(** * JavaScript's conversion of strings to numbers

    [process.env.PORT] is a string, and Node decides what [app.listen]
    does with it through [Number(s)] (index.js line 110, in [net]'s
    [toNumber] and [validatePort]).  This file models the conversions
    involved, from ECMA-262:
    - [StringToNumber]: the text is trimmed of white space and line
      terminators; an empty text is [0]; otherwise it must be a
      [StrNumericLiteral] (a decimal literal with optional sign, fraction
      and exponent, [Infinity], or a [0x], [0o] or [0b] integer), and any
      other text is [NaN];
    - the mathematical value of the literal is rounded to the nearest
      IEEE double, ties to even, with overflow to [Infinity]
      ([round_double]);
    - [ToUint32] and [ToInt32], behind [x >>> 0] and [x | 0];
    - [String.prototype.trim].
    A finite double other than [-0] is kept as the exact rational it
    denotes, reduced by [Qred], so that equal numbers are equal terms;
    [-0] is a value of its own ([NegZero]): it compares equal to [0] but
    [util.inspect] prints it as [-0]. *)

From S2P Require Import Prelude.
From Stdlib Require Import QArith Qround Qpower.

Module JsNumber.

Inductive num := NaN | PosInf | NegInf | Fin (q : Q) | NegZero.

#[export] Instance Q_eq_dec : EqDecision Q.
Proof. intros [a b] [c d]. destruct (decide (a = c)), (decide (b = d)); [left|right..]; congruence. Defined.

#[export] Instance num_eq_dec : EqDecision num.
Proof. solve_decision. Defined.

(** ** White space *)

(** [WhiteSpace] and [LineTerminator]: TAB, VT, FF, ZWNBSP, the [Zs]
    spaces, LF, CR, LS and PS. *)
Definition is_ws (c : Z) : bool :=
  bool_decide (c ∈ [9; 10; 11; 12; 13; 32; 160; 5760; 8232; 8233; 8239; 8287; 12288; 65279]%Z)
  || ((8192 <=? c) && (c <=? 8202))%Z.

Fixpoint drop_ws (s : jstr) : jstr :=
  match s with
  | c :: s' => if is_ws c then drop_ws s' else s
  | [] => []
  end.

(** [String.prototype.trim]. *)
Definition trim (s : jstr) : jstr := rev (drop_ws (rev (drop_ws s))).

(** ** Literals *)

Definition CH_PLUS : Z := 43.
Definition CH_MINUS : Z := 45.

(** The value of a digit in [base]: [0-9], then letters either case. *)
Definition digit_val (base c : Z) : option Z :=
  let d := if ((48 <=? c) && (c <=? 57))%Z then Some (c - 48)%Z
           else if ((97 <=? c) && (c <=? 122))%Z then Some (c - 87)%Z
           else if ((65 <=? c) && (c <=? 90))%Z then Some (c - 55)%Z
           else None in
  match d with Some v => if (v <? base)%Z then Some v else None | None => None end.

(** The longest run of digits at the front of [s], as digit values. *)
Fixpoint take_digits (base : Z) (s : jstr) : list Z * jstr :=
  match s with
  | c :: s' =>
      match digit_val base c with
      | Some d => let '(ds, r) := take_digits base s' in (d :: ds, r)
      | None => ([], s)
      end
  | [] => ([], [])
  end.

Definition value_of (base : Z) (ds : list Z) : Z := foldl (fun acc d => acc * base + d)%Z 0%Z ds.

(** [s] is exactly a non-empty run of digits. *)
Definition all_digits (base : Z) (s : jstr) : option Z :=
  let '(ds, rest) := take_digits base s in
  match ds, rest with
  | _ :: _, [] => Some (value_of base ds)
  | _, _ => None
  end.

(** [SignedInteger]. *)
Definition signed_integer (s : jstr) : option Z :=
  match s with
  | c :: r =>
      if (c =? CH_PLUS)%Z then all_digits 10 r
      else if (c =? CH_MINUS)%Z then Z.opp <$> all_digits 10 r
      else all_digits 10 s
  | [] => None
  end.

(** [ExponentPart] or nothing. *)
Definition exponent_part (s : jstr) : option Z :=
  match s with
  | [] => Some 0%Z
  | c :: r => if ((c =? 101) || (c =? 69))%Z then signed_integer r else None
  end.

(** [10^k] as a rational. *)
Definition pow10 (k : Z) : Q :=
  if (0 <=? k)%Z then inject_Z (10 ^ k) else 1 # Z.to_pos (10 ^ (- k)).

(** The mathematical value of a [StrUnsignedDecimalLiteral] other than
    [Infinity]: digits, an optional [.] with digits, an optional
    exponent, with at least one digit before the exponent. *)
Definition unsigned_decimal (s : jstr) : option Q :=
  let '(int, r1) := take_digits 10 s in
  let '(frac, r2) :=
    match r1 with
    | c :: r => if (c =? CH_DOT)%Z then take_digits 10 r else ([], r1)
    | [] => ([], [])
    end in
  match int ++ frac with
  | [] => None
  | ds =>
      match exponent_part r2 with
      | Some e => Some (inject_Z (value_of 10 ds) * pow10 (e - Z.of_nat (length frac)))%Q
      | None => None
      end
  end.

(** ** Rounding to a double *)

Definition pow2 (k : Z) : Q :=
  if (0 <=? k)%Z then inject_Z (2 ^ k) else 1 # Z.to_pos (2 ^ (- k)).

(** The binary exponent of a positive [q]: [2^e <= q < 2^(e+1)]. *)
Definition qlog2 (q : Q) : Z :=
  let e := (Z.log2 (Qnum q) - Z.log2 (Zpos (Qden q)))%Z in
  if negb (Qle_bool (pow2 e) q) then (e - 1)%Z else e.

Definition round_half_even (r : Q) : Z :=
  let f := Qfloor r in
  match (r - inject_Z f ?= 1 # 2)%Q with
  | Lt => f
  | Gt => (f + 1)%Z
  | Eq => if Z.even f then f else (f + 1)%Z
  end.

(** The double nearest to [q >= 0]: 53 significant bits, or a multiple of
    [2^-1074] below the normal range; [Infinity] from [2^1024] on. *)
Definition round_double (q : Q) : num :=
  if Qeq_bool q 0 then Fin 0 else
  let u := Z.max (qlog2 q - 52) (-1074) in
  let v := Qred (inject_Z (round_half_even (q / pow2 u)) * pow2 u) in
  if Qle_bool (pow2 1024) v then PosInf else Fin v.

Definition neg_num (n : num) : num :=
  match n with
  | Fin q => if Qeq_bool q 0 then NegZero else Fin (Qred (- q))
  | NegZero => Fin 0
  | PosInf => NegInf
  | NegInf => PosInf
  | NaN => NaN
  end.

(** ** [StringToNumber] *)

(** [StrDecimalLiteral]: an optional sign before [Infinity] or an unsigned
    decimal literal. *)
Definition str_decimal (s : jstr) : option num :=
  let '(neg, u) :=
    match s with
    | c :: r =>
        if (c =? CH_PLUS)%Z then (false, r)
        else if (c =? CH_MINUS)%Z then (true, r) else (false, s)
    | [] => (false, [])
    end in
  let sign := fun n => if neg then neg_num n else n in
  if decide (u = ‹"Infinity"›) then Some (sign PosInf)
  else (fun q => sign (round_double q)) <$> unsigned_decimal u.

(** [NonDecimalIntegerLiteral]: [0x], [0o] or [0b] and digits, no sign. *)
Definition non_decimal (s : jstr) : option num :=
  match s with
  | z :: c :: r =>
      let base := if (c =? 120) || (c =? 88) then 16
                  else if (c =? 111) || (c =? 79) then 8
                  else if (c =? 98) || (c =? 66) then 2 else 0 in
      if (z =? 48) && negb (base =? 0) then (fun v => round_double (inject_Z v)) <$> all_digits base r
      else None
  | _ => None
  end%Z.

Definition string_to_number (s : jstr) : num :=
  match trim s with
  | [] => Fin 0
  | t =>
      match non_decimal t with
      | Some n => n
      | None => default NaN (str_decimal t)
      end
  end.

(** ** Integer conversions *)

(** [x === z] for an integer [z]: [-0] is [0]. *)
Definition num_is_Z (x : num) (z : Z) : Prop :=
  match x with
  | Fin q => (q == inject_Z z)%Q
  | NegZero => z = 0%Z
  | NaN | PosInf | NegInf => False
  end.


Definition Qtrunc (q : Q) : Z := if Qle_bool 0 q then Qfloor q else Qceiling q.

(** [ToUint32]: [x >>> 0]. *)
Definition to_uint32 (n : num) : Z :=
  match n with
  | Fin q => (Qtrunc q mod 2 ^ 32)%Z
  | _ => 0%Z
  end.

(** [ToInt32]: [x | 0]. *)
Definition to_int32 (n : num) : Z :=
  let u := to_uint32 n in if (2 ^ 31 <=? u)%Z then (u - 2 ^ 32)%Z else u.

(** ** Decimal digit strings *)

Definition is_digit (c : Z) : bool := ((48 <=? c) && (c <=? 57))%Z.

(** The number a string of decimal digits denotes. *)
Definition digits_value (ds : jstr) : Z := value_of 10 (map (fun c => c - 48)%Z ds).

Lemma is_digit_not_ws c : is_digit c = true -> is_ws c = false.
Proof.
  unfold is_digit, is_ws. intros Hc. apply andb_prop in Hc as [H1 H2].
  apply Z.leb_le in H1, H2. apply orb_false_intro.
  - apply bool_decide_false. rewrite !elem_of_cons, elem_of_nil. lia.
  - apply andb_false_iff. destruct (Z.leb_spec 8192 c); [right|left]; [apply Z.leb_gt|]; lia.
Qed.

Lemma drop_ws_keep s : Forall (fun c => is_ws c = false) (take 1 s) -> drop_ws s = s.
Proof. destruct s as [|c s]; [done|]. intros Hc. apply Forall_cons_1 in Hc as [Hc _]. simpl. by rewrite Hc. Qed.

Lemma trim_digits ds : Forall (fun c => is_digit c = true) ds -> trim ds = ds.
Proof.
  intros Hd. assert (Hw : Forall (fun c => is_ws c = false) ds)
    by (eapply Forall_impl; [exact Hd|]; apply is_digit_not_ws).
  unfold trim. rewrite (drop_ws_keep ds) by (by apply Forall_take).
  rewrite drop_ws_keep, rev_involutive; [done|]. by apply Forall_take, Forall_rev.
Qed.

Lemma take_digits_dec ds :
  Forall (fun c => is_digit c = true) ds -> take_digits 10 ds = (map (fun c => c - 48)%Z ds, []).
Proof.
  induction 1 as [|c ds Hc _ IH]; [done|]. simpl. rewrite IH.
  unfold digit_val, is_digit in *. rewrite Hc. apply andb_prop in Hc as [H1 H2].
  apply Z.leb_le in H1, H2. by rewrite (proj2 (Z.ltb_lt (c - 48) 10)) by lia.
Qed.

Lemma non_decimal_digits ds : Forall (fun c => is_digit c = true) ds -> non_decimal ds = None.
Proof.
  intros Hd. destruct ds as [|z [|c r]]; [done|done|]. inversion Hd as [|? ? _ Hd']. subst.
  inversion Hd' as [|? ? Hc _]. subst. unfold is_digit in Hc. apply andb_prop in Hc as [H1 H2].
  apply Z.leb_le in H1, H2. simpl.
  repeat (rewrite (proj2 (Z.eqb_neq c _)) by lia; simpl). by rewrite andb_false_r.
Qed.

(** ** Rounding integers *)

Lemma Qle_bool_Z a b : Qle_bool (inject_Z a) (inject_Z b) = (a <=? b)%Z.
Proof. unfold Qle_bool. simpl. by rewrite !Z.mul_1_r. Qed.

Lemma Qle_bool_0_Z a : Qle_bool 0 (inject_Z a) = (0 <=? a)%Z.
Proof. apply (Qle_bool_Z 0). Qed.

Lemma Qred_Z z : Qred (inject_Z z) = inject_Z z.
Proof.
  unfold Qred, inject_Z. pose proof (Z.ggcd_gcd z 1) as Hg.
  pose proof (Z.ggcd_correct_divisors z 1) as Hd.
  destruct (Z.ggcd z 1) as [g [a b]]. simpl in *. rewrite Z.gcd_1_r in Hg. subst g.
  destruct Hd as [Ha Hb]. replace a with z by lia. by replace b with 1%Z by lia.
Qed.

Lemma round_half_even_Z w : round_half_even (inject_Z w) = w.
Proof.
  unfold round_half_even. rewrite Qfloor_Z.
  replace (inject_Z w - inject_Z w ?= 1 # 2)%Q with Lt; [done|].
  symmetry. apply Qlt_alt. unfold Qminus. rewrite Qplus_opp_r. reflexivity.
Qed.

Lemma round_half_even_ge r : (Qfloor r <= round_half_even r)%Z.
Proof. unfold round_half_even. destruct (_ ?= _)%Q; [destruct (Z.even _)|..]; lia. Qed.

Lemma qlog2_Z z : (0 < z)%Z -> qlog2 (inject_Z z) = Z.log2 z.
Proof.
  intros Hz. unfold qlog2. simpl. rewrite Z.sub_0_r.
  unfold pow2. rewrite (proj2 (Z.leb_le 0 _)) by apply Z.log2_nonneg.
  rewrite Qle_bool_Z, (proj2 (Z.leb_le _ _)); [done|]. by apply Z.log2_spec.
Qed.

Lemma pow2_neg k : (0 <= k)%Z -> pow2 (- k) = 1 # Z.to_pos (2 ^ k).
Proof.
  intros Hk. unfold pow2. destruct (Z.leb_spec 0 (- k)).
  - assert (k = 0%Z) as -> by lia. done.
  - by rewrite Z.opp_involutive.
Qed.

(** ** Powers and exponents *)

(** [b^k] as a rational, for any integer [k]: [pow10] and [pow2]. *)
Definition powQ (b k : Z) : Q := if (0 <=? k)%Z then inject_Z (b ^ k) else 1 # Z.to_pos (b ^ (- k)).

Lemma powQ_Qpower b k : (1 < b)%Z -> powQ b k == inject_Z b ^ k.
Proof.
  intros Hb. unfold powQ. destruct (Z.leb_spec 0 k).
  - by apply Zpower_Qpower.
  - replace k with (- (- k))%Z at 2 by lia. rewrite Qpower_opp, <- Zpower_Qpower by lia.
    assert (Hp : Zpos (Z.to_pos (b ^ (- k))) = (b ^ (- k))%Z) by (apply Z2Pos.id, Z.pow_pos_nonneg; lia).
    rewrite <- Hp. reflexivity.
Qed.

Lemma powQ_pos b k : (1 < b)%Z -> 0 < powQ b k.
Proof. intros Hb. rewrite powQ_Qpower by done. apply Qpower_0_lt. unfold Qlt; simpl; lia. Qed.

Lemma powQ_add b x y : (1 < b)%Z -> powQ b (x + y) == powQ b x * powQ b y.
Proof.
  intros Hb. rewrite !powQ_Qpower by done. apply Qpower_plus.
  intros E. apply Qeq_alt in E. unfold Qcompare in E. simpl in E. apply Z.compare_eq in E. lia.
Qed.

Lemma powQ_lt b x y : (1 < b)%Z -> (x < y)%Z -> powQ b x < powQ b y.
Proof. intros Hb Hxy. rewrite !powQ_Qpower by done. apply Qpower_lt_compat_l; [done|]. unfold Qlt; simpl; lia. Qed.

Lemma powQ_le b x y : (1 < b)%Z -> (x <= y)%Z -> powQ b x <= powQ b y.
Proof. intros Hb Hxy. rewrite !powQ_Qpower by done. apply Qpower_le_compat_l; [done|]. unfold Qle; simpl; lia. Qed.

Lemma powQ_Z b k : (0 <= k)%Z -> powQ b k = inject_Z (b ^ k).
Proof. intros Hk. unfold powQ. by rewrite (proj2 (Z.leb_le 0 k)). Qed.

(** A positive [a # c] with [b^x <= a < b^(x+1)] and [b^y <= c < b^(y+1)]
    lies strictly between [b^(x-y-1)] and [b^(x-y+1)]. *)
Lemma powQ_between b x y a c :
  (1 < b)%Z -> (0 <= x)%Z -> (0 <= y)%Z ->
  (b ^ x <= a < b ^ (x + 1))%Z -> (b ^ y <= Zpos c < b ^ (y + 1))%Z ->
  powQ b (x - y - 1) < a # c /\ a # c < powQ b (x - y + 1).
Proof.
  intros Hb Hx Hy [Ha1 Ha2] [Hc1 Hc2]. rewrite Qmake_Qdiv.
  assert (HC : 0 < inject_Z (Zpos c)) by (unfold Qlt; simpl; lia).
  assert (Hz : forall k, (0 <= k)%Z -> inject_Z (b ^ k) = powQ b k) by (intros; by rewrite powQ_Z).
  rewrite Zle_Qle in Ha1, Hc1. rewrite Zlt_Qlt in Ha2, Hc2. rewrite !Hz in Ha1, Ha2, Hc1, Hc2 by lia.
  split.
  - apply Qlt_shift_div_l; [done|]. eapply Qlt_le_trans; [|exact Ha1].
    eapply Qlt_le_trans; [apply Qmult_lt_l; [apply powQ_pos; lia|exact Hc2]|].
    rewrite <- powQ_add by lia. apply powQ_le; lia.
  - apply Qlt_shift_div_r; [done|]. eapply Qlt_le_trans; [exact Ha2|].
    eapply Qle_trans; [|apply Qmult_le_l; [apply powQ_pos; lia|exact Hc1]].
    rewrite <- powQ_add by lia. apply powQ_le; lia.
Qed.

(** The corrected estimate of [floor(log_b q)] is exact. *)
Lemma powQ_floor b x y a c :
  (1 < b)%Z -> (0 <= x)%Z -> (0 <= y)%Z ->
  (b ^ x <= a < b ^ (x + 1))%Z -> (b ^ y <= Zpos c < b ^ (y + 1))%Z ->
  let e := if Qle_bool (powQ b (x - y)) (a # c) then (x - y)%Z else (x - y - 1)%Z in
  powQ b e <= a # c /\ a # c < powQ b (e + 1).
Proof.
  intros Hb Hx Hy Ha Hc e. destruct (powQ_between b x y a c) as [Hl Hu]; [done..|].
  subst e. destruct (Qle_bool _ _) eqn:E.
  - apply Qle_bool_iff in E. by split.
  - apply not_true_iff_false in E. rewrite Qle_bool_iff in E. apply Qnot_le_lt in E.
    split; [by apply Qlt_le_weak|]. by replace (x - y - 1 + 1)%Z with (x - y)%Z by lia.
Qed.

(** The exponent is unique. *)
Lemma powQ_floor_unique b e e' q :
  (1 < b)%Z -> powQ b e <= q -> q < powQ b (e + 1) -> powQ b e' <= q -> q < powQ b (e' + 1) -> e = e'.
Proof.
  intros Hb H1 H2 H3 H4. destruct (Z.lt_trichotomy e e') as [H|[H|H]]; [exfalso| done |exfalso].
  - apply (Qlt_irrefl q). eapply Qlt_le_trans; [exact H2|]. eapply Qle_trans; [|exact H3]. apply powQ_le; lia.
  - apply (Qlt_irrefl q). eapply Qlt_le_trans; [exact H4|]. eapply Qle_trans; [|exact H1]. apply powQ_le; lia.
Qed.

Lemma qlog2_spec q : 0 < q -> pow2 (qlog2 q) <= q /\ q < pow2 (qlog2 q + 1).
Proof.
  destruct q as [a c]. intros Hq. unfold Qlt in Hq. simpl in Hq.
  pose proof (powQ_floor 2 (Z.log2 a) (Z.log2 (Zpos c)) a c) as H. cbv zeta in H.
  unfold qlog2. cbn [Qnum Qden]. change pow2 with (powQ 2).
  destruct (Qle_bool _ _); apply H; try lia; try apply Z.log2_nonneg; rewrite Z.add_1_r; apply Z.log2_spec; lia.
Qed.

Lemma qlog2_Qeq q q' : 0 < q -> q == q' -> qlog2 q = qlog2 q'.
Proof.
  intros Hq E. assert (Hq' : 0 < q') by (by rewrite <- E).
  destruct (qlog2_spec q Hq) as [H1 H2], (qlog2_spec q' Hq') as [H3 H4].
  apply (powQ_floor_unique 2 _ _ q); [lia|done|done|by rewrite E|by rewrite E].
Qed.

Lemma round_half_even_Qeq r r' : r == r' -> round_half_even r = round_half_even r'.
Proof.
  intros E. unfold round_half_even. rewrite (Qfloor_comp r r' E).
  replace (r - _ ?= 1 # 2) with (r' - inject_Z (Qfloor r') ?= 1 # 2); [done|].
  apply Qcompare_comp; [rewrite E|]; reflexivity.
Qed.

(** Rounding depends on the value only. *)
Lemma round_double_Qeq q q' : 0 <= q -> q == q' -> round_double q = round_double q'.
Proof.
  intros Hq E. unfold round_double.
  replace (Qeq_bool q 0) with (Qeq_bool q' 0) by (apply Bool.eq_true_iff_eq; rewrite !Qeq_bool_iff, E; done).
  destruct (Qeq_bool q' 0) eqn:E0; [done|].
  assert (Hq0 : 0 < q).
  { apply Qle_lt_or_eq in Hq as [Hq|Hq]; [done|]. apply Qeq_bool_neq in E0. exfalso. apply E0. rewrite <- E. symmetry. exact Hq. }
  rewrite (qlog2_Qeq q q' Hq0 E). erewrite round_half_even_Qeq; [reflexivity|]. rewrite E. reflexivity.
Qed.

(** An integer below [2^53] is a double. *)
Lemma round_double_small z : (0 <= z < 2 ^ 53)%Z -> round_double (inject_Z z) = Fin (inject_Z z).
Proof.
  intros Hz. destruct (Z.eq_dec z 0) as [->|Hz0]; [done|].
  unfold round_double. replace (Qeq_bool (inject_Z z) 0) with false
    by (symmetry; apply not_true_iff_false; rewrite Qeq_bool_iff; unfold Qeq; simpl; lia).
  rewrite qlog2_Z by lia.
  assert (Hl : (Z.log2 z < 53)%Z) by (apply Z.log2_lt_pow2; lia).
  pose proof (Z.log2_nonneg z).
  replace (Z.max (Z.log2 z - 52) (-1074)) with (- (52 - Z.log2 z))%Z by lia.
  rewrite pow2_neg by lia. set (k := (52 - Z.log2 z)%Z).
  assert (Hp : Zpos (Z.to_pos (2 ^ k)) = (2 ^ k)%Z) by (apply Z2Pos.id, Z.pow_pos_nonneg; lia).
  replace (inject_Z z / (1 # Z.to_pos (2 ^ k)))%Q with (inject_Z (z * 2 ^ k))
    by (unfold Qdiv, Qmult, inject_Z; simpl; by rewrite Hp).
  rewrite round_half_even_Z.
  replace (Qred (inject_Z (z * 2 ^ k) * (1 # Z.to_pos (2 ^ k)))) with (inject_Z z).
  - unfold pow2. simpl. rewrite Qle_bool_Z, (proj2 (Z.leb_gt _ _)); [done|].
    apply (Z.lt_trans _ (2 ^ 53)); [lia|]. by apply Z.pow_lt_mono_r.
  - rewrite <- (Qred_Z z). apply Qred_complete. unfold Qeq, Qmult. simpl. rewrite Pos.mul_1_l, Hp. lia.
Qed.

(** An integer from [2^53] on becomes a double no smaller than [2^53],
    or [Infinity]. *)
Lemma round_double_large z :
  (2 ^ 53 <= z)%Z ->
  match round_double (inject_Z z) with
  | Fin q => (inject_Z (2 ^ 53) <= q)%Q
  | PosInf => True
  | _ => False
  end.
Proof.
  intros Hz. unfold round_double.
  replace (Qeq_bool (inject_Z z) 0) with false
    by (symmetry; apply not_true_iff_false; rewrite Qeq_bool_iff; unfold Qeq; simpl; lia).
  rewrite qlog2_Z by lia.
  assert (Hl : (53 <= Z.log2 z)%Z) by (apply Z.log2_le_pow2; lia).
  replace (Z.max (Z.log2 z - 52) (-1074)) with (Z.log2 z - 52)%Z by lia.
  set (u := (Z.log2 z - 52)%Z).
  assert (Hpu : pow2 u = inject_Z (2 ^ u)) by (unfold pow2; rewrite (proj2 (Z.leb_le 0 u)) by lia; done).
  rewrite Hpu. set (n := round_half_even (inject_Z z / inject_Z (2 ^ u))).
  assert (Hn : (2 ^ 52 <= n)%Z).
  { eapply Z.le_trans; [|apply round_half_even_ge]. rewrite <- Zdiv_Qdiv.
    apply Z.div_le_lower_bound; [apply Z.pow_pos_nonneg; lia|].
    rewrite <- Z.pow_add_r by lia. replace (u + 52)%Z with (Z.log2 z) by lia.
    apply Z.log2_spec. lia. }
  destruct (Qle_bool _ _); [done|]. rewrite Qred_correct.
  rewrite <- inject_Z_mult, <- Zle_Qle. transitivity (2 ^ 52 * 2 ^ 1)%Z; [done|].
  apply Z.mul_le_mono_nonneg; [lia|done|lia|]. apply Z.pow_le_mono_r; lia.
Qed.

(** [Number(ds)] for a non-empty string of decimal digits: its value,
    rounded. *)
Lemma string_to_number_digits ds :
  ds <> [] -> Forall (fun c => is_digit c = true) ds ->
  string_to_number ds = round_double (inject_Z (digits_value ds)).
Proof.
  intros Hne Hd. unfold string_to_number. rewrite trim_digits by done.
  destruct ds as [|c ds']; [done|]. cbv beta iota.
  rewrite (non_decimal_digits (c :: ds')) by done. cbn [default].
  inversion Hd as [|? ? Hc _]. subst. unfold is_digit in Hc. apply andb_prop in Hc as [H1 H2].
  apply Z.leb_le in H1, H2. unfold str_decimal.
  rewrite (proj2 (Z.eqb_neq c CH_PLUS)), (proj2 (Z.eqb_neq c CH_MINUS)) by (unfold CH_PLUS, CH_MINUS; lia).
  rewrite decide_False by (intros E; cbv in E; injection E; lia).
  unfold unsigned_decimal. rewrite take_digits_dec by done.
  rewrite app_nil_r. cbn -[round_double value_of]. unfold digits_value. cbn [map].
  f_equal. unfold pow10. simpl. unfold Qmult, inject_Z. simpl. by rewrite Z.mul_1_r.
Qed.

Lemma value_of_nonneg base ds :
  (0 <= base)%Z -> Forall (fun d => 0 <= d)%Z ds -> (0 <= value_of base ds)%Z.
Proof.
  intros Hb Hd. unfold value_of.
  enough (H : forall acc, (0 <= acc)%Z -> (0 <= foldl (fun acc d => acc * base + d) acc ds)%Z)
    by (apply H; lia).
  induction Hd as [|d ds Hd _ IH]; intros acc Hacc; simpl; [done|]. apply IH. nia.
Qed.

Lemma digits_value_nonneg ds : Forall (fun c => is_digit c = true) ds -> (0 <= digits_value ds)%Z.
Proof.
  intros Hd. apply value_of_nonneg; [lia|]. apply Forall_map. eapply Forall_impl; [exact Hd|].
  intros c Hc. unfold is_digit in Hc. apply andb_prop in Hc as [H1 _]. apply Z.leb_le in H1. lia.
Qed.

End JsNumber.
