(* ===== verification/NumToString.v ===== *)
(** * JavaScript's conversion of numbers to strings

    [Number::toString(x)] of ECMA-262 (section 6.1.6.1.20) is the text a
    number takes in [JSON.stringify] (the [uptime] of [/health], index.js
    line 16) and in [util.inspect], which Node uses for the value a
    [TypeError] reports.  For a finite non-zero [x] it takes the
    shortest decimal [s × 10^(n-k)] ([k] digits) that rounds back to
    [x], the closest to [x] among those, and prints it in one of five
    layouts decided by [n] and [k]: an integer, a decimal point inside
    the digits, [0.000ddd], or an exponent [d.ddde±x].

    [shortest] searches [k = 1, 2, ...].  For one [k] the candidates are
    the two [k]-digit decimals around [x] ([candidates]); the one below
    [x] is [floor(x·10^(k-e-1))] at [n = e + 1] with [e = floor(log10 x)],
    and the one above is its ceiling, written [10^(k-1)] at [n = e + 2]
    when it reaches [10^k].  The bound of the search, [1400], is reached
    only by numbers that are not doubles: a double [z·2^u] with
    [u >= -1074] and [x < 2^1024] is itself a decimal of at most [1384]
    digits ([shortest_complete]). *)

From S2P Require Import Prelude JsNumber.
From Stdlib Require Import QArith Qround Qabs.
Import JsNumber.

Module NumToString.

(** ** Decimal digits *)

Fixpoint digits_go (fuel : nat) (z : Z) (acc : list Z) : list Z :=
  match fuel with
  | O => acc
  | S fuel' => if (z <=? 0)%Z then acc else digits_go fuel' (z / 10)%Z ((z mod 10)%Z :: acc)
  end.

(** The decimal digits of [z > 0], most significant first; a positive
    number has no more decimal digits than binary ones. *)
Definition dec_digits (z : Z) : list Z := digits_go (S (Z.to_nat (Z.log2 z))) z [].

Definition digit_chars (ds : list Z) : jstr := map (fun d => d + 48)%Z ds.

(** [floor(log10 q)] for [q > 0], from the digit counts of its numerator
    and denominator, corrected by one comparison. *)
Definition qlog10 (q : Q) : Z :=
  let e := (Z.of_nat (length (dec_digits (Qnum q))) - Z.of_nat (length (dec_digits (Zpos (Qden q)))))%Z in
  if Qle_bool (pow10 e) q then e else (e - 1)%Z.

(** ** The shortest decimal *)

(** [s × 10^(n-k)]. *)
Definition dec_value (s n : Z) (k : nat) : Q := (inject_Z s * pow10 (n - Z.of_nat k))%Q.

(** [𝔽(s × 10^(n-k))] is [x], with [s] of [k] digits. *)
Definition valid (q : Q) (k : nat) (c : Z * Z) : bool :=
  let '(s, n) := c in
  ((10 ^ (Z.of_nat k - 1) <=? s) && (s <? 10 ^ Z.of_nat k))%Z &&
  bool_decide (round_double (dec_value s n k) = Fin q).

(** The [k]-digit decimals next to [q]: below it and above it. *)
Definition candidates (q : Q) (k : nat) : (Z * Z) * (Z * Z) :=
  let e := qlog10 q in
  let t := (q * pow10 (Z.of_nat k - e - 1))%Q in
  let lo := Qfloor t in
  let hi := Qceiling t in
  ((lo, e + 1), if (hi =? 10 ^ Z.of_nat k)%Z then (10 ^ (Z.of_nat k - 1), e + 2) else (hi, e + 1))%Z.

(** Among the valid candidates, the one closest to [q]; at equal
    distance, the one with an even [s]. *)
Definition choose (q : Q) (k : nat) : option (Z * Z) :=
  let '(c1, c2) := candidates q k in
  match valid q k c1, valid q k c2 with
  | true, true =>
      let d1 := (q - dec_value c1.1 c1.2 k)%Q in
      let d2 := (dec_value c2.1 c2.2 k - q)%Q in
      match (d1 ?= d2)%Q with
      | Lt => Some c1
      | Gt => Some c2
      | Eq => if Z.even c1.1 then Some c1 else Some c2
      end
  | true, false => Some c1
  | false, true => Some c2
  | false, false => None
  end.

Fixpoint search (fuel : nat) (k : nat) (q : Q) : option (Z * Z * nat) :=
  match fuel with
  | O => None
  | S fuel' =>
      match choose q k with
      | Some (s, n) => Some (s, n, k)
      | None => search fuel' (S k) q
      end
  end.

Definition shortest (q : Q) : option (Z * Z * nat) := search 1400 1 q.

(** ** The five layouts *)

Definition CH_E : Z := 101.

(** Steps 6 to 10 of [Number::toString], for the digits [ds] of [s] and
    the exponent [n]. *)
Definition layout (ds : list Z) (n : Z) : jstr :=
  let k := Z.of_nat (length ds) in
  if ((k <=? n) && (n <=? 21))%Z then digit_chars ds ++ digit_chars (replicate (Z.to_nat (n - k)) 0%Z)
  else if ((0 <? n) && (n <=? 21))%Z then
    digit_chars (take (Z.to_nat n) ds) ++ CH_DOT :: digit_chars (drop (Z.to_nat n) ds)
  else if ((-6 <? n) && (n <=? 0))%Z then
    digit_chars [0%Z] ++ CH_DOT :: digit_chars (replicate (Z.to_nat (- n)) 0%Z ++ ds)
  else
    let ex := (n - 1)%Z in
    digit_chars (take 1 ds) ++
    (if (k =? 1)%Z then [] else CH_DOT :: digit_chars (drop 1 ds)) ++
    CH_E :: (if (0 <=? ex)%Z then CH_PLUS else CH_MINUS) :: digit_chars (dec_digits (Z.abs ex)).

(** [Number::toString] of a positive finite number. *)
Definition pos_to_string (q : Q) : jstr :=
  match shortest q with
  | Some (s, n, _) => layout (dec_digits s) n
  | None => ‹"0"›
  end.

Definition number_to_string (x : num) : jstr :=
  match x with
  | NaN => ‹"NaN"›
  | PosInf => ‹"Infinity"›
  | NegInf => ‹"-Infinity"›
  | NegZero => ‹"0"›
  | Fin q =>
      if Qeq_bool q 0 then ‹"0"›
      else if Qle_bool 0 q then pos_to_string q
      else CH_MINUS :: pos_to_string (- q)
  end.

(** ** Digits *)

Definition is_dec (d : Z) : Prop := (0 <= d < 10)%Z.

Lemma digits_go_acc fuel z acc : digits_go fuel z acc = digits_go fuel z [] ++ acc.
Proof.
  revert z acc. induction fuel as [|fuel IH]; intros z acc; simpl; [done|].
  destruct (z <=? 0)%Z; [done|]. rewrite IH, (IH _ [_]). by rewrite <- app_assoc.
Qed.

Lemma digits_go_zero fuel : digits_go fuel 0 [] = [].
Proof. by destruct fuel. Qed.

Lemma value_of_snoc b ds d : value_of b (ds ++ [d]) = (value_of b ds * b + d)%Z.
Proof. unfold value_of. by rewrite foldl_app. Qed.

Lemma value_of_app b ds1 ds2 :
  value_of b (ds1 ++ ds2) = (value_of b ds1 * b ^ Z.of_nat (length ds2) + value_of b ds2)%Z.
Proof.
  induction ds2 as [|d ds2 IH] using rev_ind; [rewrite app_nil_r; cbn [length Z.of_nat]; rewrite Z.pow_0_r; change (value_of b []) with 0%Z; lia|].
  rewrite app_assoc, !value_of_snoc, IH, length_app. simpl length.
  rewrite Nat2Z.inj_add, Z.pow_add_r, Z.pow_1_r by lia. ring.
Qed.

(** The digits of [0 < z < 10^fuel]: decimal digits, the first not
    zero, whose value is [z] and whose count [k] has
    [10^(k-1) <= z < 10^k]. *)
Lemma digits_go_spec fuel z :
  (0 < z < 10 ^ Z.of_nat fuel)%Z ->
  let ds := digits_go fuel z [] in
  Forall is_dec ds /\ head ds <> Some 0%Z /\ value_of 10 ds = z /\
  (10 ^ (Z.of_nat (length ds) - 1) <= z < 10 ^ Z.of_nat (length ds))%Z.
Proof.
  revert z. induction fuel as [|fuel IH]; intros z Hz; [simpl in Hz; lia|].
  cbn zeta. simpl. rewrite (proj2 (Z.leb_gt z 0)) by lia. rewrite digits_go_acc.
  destruct (Z.eq_dec (z / 10) 0) as [E|E].
  - rewrite E, digits_go_zero. simpl.
    assert (Hm : (z mod 10 = z)%Z) by (apply Z.mod_small; zlia). rewrite Hm.
    split_and!; [repeat constructor; unfold is_dec; zlia|intros [=]; lia|done|zlia|zlia].
  - rewrite Nat2Z.inj_succ, Z.pow_succ_r in Hz by lia.
    destruct (IH (z / 10)%Z ltac:(zlia)) as (Hd & Hh & Hv & Hb).
    set (ds := digits_go fuel (z / 10) []) in *. clearbody ds. split_and!.
    + apply Forall_app; split; [done|]. repeat constructor; unfold is_dec; zlia.
    + destruct ds; [exfalso; simpl in Hb; zlia|done].
    + rewrite value_of_snoc, Hv. zlia.
    + assert (HL : (1 <= Z.of_nat (length ds))%Z) by (destruct ds; [exfalso; simpl in Hb; zlia|simpl; lia]).
      rewrite length_app, Nat2Z.inj_add. change (Z.of_nat (length [(z mod 10)%Z])) with 1%Z.
      replace (Z.of_nat (length ds) + 1 - 1)%Z with (Z.of_nat (length ds) - 1 + 1)%Z by lia.
      rewrite Z.pow_add_r by lia. zlia.
    + rewrite length_app, Nat2Z.inj_add. change (Z.of_nat (length [(z mod 10)%Z])) with 1%Z.
      rewrite Z.pow_add_r by lia. zlia.
Qed.

Lemma pow2_le_pow10 k : (0 <= k)%Z -> (2 ^ k <= 10 ^ k)%Z.
Proof. intros Hk. apply Z.pow_le_mono_l. lia. Qed.

Lemma dec_digits_spec z :
  (0 < z)%Z ->
  Forall is_dec (dec_digits z) /\ head (dec_digits z) <> Some 0%Z /\ value_of 10 (dec_digits z) = z /\
  (10 ^ (Z.of_nat (length (dec_digits z)) - 1) <= z < 10 ^ Z.of_nat (length (dec_digits z)))%Z.
Proof.
  intros Hz. apply digits_go_spec. split; [done|]. rewrite Nat2Z.inj_succ, Z2Nat.id by apply Z.log2_nonneg.
  eapply Z.lt_le_trans; [apply Z.log2_spec; lia|]. apply pow2_le_pow10. pose proof (Z.log2_nonneg z). lia.
Qed.

(** The count of digits is the [k] of [10^(k-1) <= z < 10^k]. *)
Lemma pow10_count a b z :
  (0 <= a)%Z -> (0 <= b)%Z -> (10 ^ (a - 1) <= z < 10 ^ a)%Z -> (10 ^ (b - 1) <= z < 10 ^ b)%Z -> a = b.
Proof.
  intros Ha Hb [Ha1 Ha2] [Hb1 Hb2]. destruct (Z.lt_trichotomy a b) as [H|[H|H]]; [|done|].
  - assert (10 ^ a <= 10 ^ (b - 1))%Z by (apply Z.pow_le_mono_r; lia). lia.
  - assert (10 ^ b <= 10 ^ (a - 1))%Z by (apply Z.pow_le_mono_r; lia). lia.
Qed.

Lemma dec_digits_length z k :
  (1 <= k)%nat -> (10 ^ (Z.of_nat k - 1) <= z < 10 ^ Z.of_nat k)%Z -> length (dec_digits z) = k.
Proof.
  intros Hk Hz. assert (Hz0 : (0 < z)%Z) by (pose proof (Z.pow_pos_nonneg 10 (Z.of_nat k - 1)); lia).
  destruct (dec_digits_spec z Hz0) as (_ & _ & _ & Hb). apply Nat2Z.inj. apply pow10_count with z; lia.
Qed.

(** ** The decimal exponent *)

Lemma qlog10_spec q : 0 < q -> pow10 (qlog10 q) <= q /\ q < pow10 (qlog10 q + 1).
Proof.
  destruct q as [a c]. intros Hq. unfold Qlt in Hq. simpl in Hq.
  destruct (dec_digits_spec a ltac:(lia)) as (_ & _ & _ & Ha).
  destruct (dec_digits_spec (Zpos c) ltac:(lia)) as (_ & _ & _ & Hc).
  set (x := (Z.of_nat (length (dec_digits a)) - 1)%Z) in *.
  set (y := (Z.of_nat (length (dec_digits (Zpos c))) - 1)%Z) in *.
  assert (Hx : (0 <= x)%Z) by (subst x; destruct (dec_digits a); simpl in Ha |- *; lia).
  assert (Hy : (0 <= y)%Z) by (subst y; destruct (dec_digits (Zpos c)); simpl in Hc |- *; lia).
  pose proof (powQ_floor 10 x y a c) as H. cbv zeta in H.
  replace (x - y)%Z with (Z.of_nat (length (dec_digits a)) - Z.of_nat (length (dec_digits (Zpos c))))%Z in H
    by (subst x y; lia).
  unfold qlog10. cbn [Qnum Qden]. change pow10 with (powQ 10).
  apply H; [lia|done|done|replace (x + 1)%Z with (Z.of_nat (length (dec_digits a))) by lia; done|
            replace (y + 1)%Z with (Z.of_nat (length (dec_digits (Zpos c)))) by lia; done].
Qed.

(** ** The search *)

Lemma choose_valid q k s n : choose q k = Some (s, n) -> valid q k (s, n) = true.
Proof.
  unfold choose. destruct (candidates q k) as [c1 c2].
  destruct (valid q k c1) eqn:V1, (valid q k c2) eqn:V2; try discriminate;
    [destruct (_ ?= _)%Q; [destruct (Z.even _)|..]|..]; intros [= <-]; done.
Qed.

Lemma choose_first q k c1 c2 : candidates q k = (c1, c2) -> valid q k c1 = true -> choose q k <> None.
Proof.
  intros Hc V1. unfold choose. rewrite Hc, V1.
  destruct (valid q k c2); [destruct (_ ?= _)%Q; [destruct (Z.even _)|..]|]; done.
Qed.

Lemma search_valid fuel k q s n k' :
  search fuel k q = Some (s, n, k') -> valid q k' (s, n) = true /\ (k <= k')%nat.
Proof.
  revert k. induction fuel as [|fuel IH]; intros k; simpl; [done|].
  destruct (choose q k) as [[s' n']|] eqn:Hc.
  - intros [= <- <- <-]. split; [by apply choose_valid|lia].
  - intros Hs. destruct (IH (S k) Hs). split; [done|lia].
Qed.

Lemma search_complete fuel k k0 q :
  (k <= k0 < k + fuel)%nat -> choose q k0 <> None -> search fuel k q <> None.
Proof.
  revert k. induction fuel as [|fuel IH]; intros k Hk Hc; [lia|]. simpl.
  destruct (choose q k) as [[s' n']|] eqn:Hq; [done|].
  destruct (decide (k = k0)) as [->|Hne]; [done|]. apply IH; [lia|done].
Qed.

(** What [shortest] returns: [k] digits of [s] whose value rounds to [q]. *)
Lemma shortest_valid q s n k :
  shortest q = Some (s, n, k) ->
  (1 <= k)%nat /\ (10 ^ (Z.of_nat k - 1) <= s < 10 ^ Z.of_nat k)%Z /\ round_double (dec_value s n k) = Fin q.
Proof.
  intros Hs. destruct (search_valid _ _ _ _ _ _ Hs) as [V Hk]. unfold valid in V.
  apply andb_prop in V as [R V]. apply andb_prop in R as [R1 R2]. apply bool_decide_eq_true in V.
  apply Z.leb_le in R1. apply Z.ltb_lt in R2. done.
Qed.

(** ** Doubles *)

(** A double is the rounding of a rational: [z·2^u] with [u >= -1074],
    below [2^1024]. *)
Lemma double_form q r :
  round_double r = Fin q ->
  exists z u, (-1074 <= u)%Z /\ q == inject_Z z * pow2 u /\ q < pow2 1024.
Proof.
  unfold round_double. destruct (Qeq_bool r 0).
  - intros [= <-]. exists 0%Z, 0%Z. split_and!; [lia|reflexivity|reflexivity].
  - set (u := Z.max _ _). set (v := Qred _). destruct (Qle_bool (pow2 1024) v) eqn:B; [done|].
    intros [= <-]. exists (round_half_even (r / pow2 u)), u. split_and!.
    + subst u. lia.
    + apply Qred_correct.
    + apply not_true_iff_false in B. rewrite Qle_bool_iff in B. by apply Qnot_le_lt.
Qed.

Lemma pow10_Z k : (0 <= k)%Z -> pow10 k = inject_Z (10 ^ k).
Proof. apply powQ_Z. Qed.

(** The exponent of a positive double is between [-324] and [308]. *)
Lemma double_exponent q :
  0 < q -> round_double q = Fin q -> (-325 <= qlog10 q <= 308)%Z.
Proof.
  intros Hq Hd. destruct (double_form q q Hd) as (z & u & Hu & Hz & Hmax).
  destruct (qlog10_spec q Hq) as [Hl Hh]. split.
  - destruct (Z.le_gt_cases (-325) (qlog10 q)) as [|Hlt]; [done|exfalso].
    assert (Hz1 : (1 <= z)%Z).
    { assert (H0 : 0 < inject_Z z).
      { apply (Qmult_lt_r _ _ (pow2 u)); [apply powQ_pos; lia|]. rewrite Qmult_0_l, <- Hz. exact Hq. }
      unfold Qlt in H0. simpl in H0. lia. }
    assert (H1 : pow2 (-1074) <= q).
    { rewrite Hz. eapply Qle_trans; [|apply Qmult_le_compat_r; [|apply Qlt_le_weak, powQ_pos; lia]].
      2:{ rewrite <- Zle_Qle. exact Hz1. }
      rewrite Qmult_1_l. apply powQ_le; lia. }
    apply (Qlt_irrefl q). eapply Qlt_le_trans; [exact Hh|]. eapply Qle_trans; [|exact H1].
    eapply Qle_trans; [apply (powQ_le 10 _ (-325)); lia|]. vm_compute. discriminate.
  - destruct (Z.le_gt_cases (qlog10 q) 308) as [|Hlt]; [done|exfalso].
    apply (Qlt_irrefl q). eapply Qlt_le_trans; [exact Hmax|]. eapply Qle_trans; [|exact Hl].
    eapply Qle_trans; [|apply (powQ_le 10 309); lia]. vm_compute. discriminate.
Qed.

(** Every positive double has a decimal form of at most [1384] digits
    that [shortest] reaches: [q·10^1074] is an integer. *)
Lemma shortest_complete q : 0 < q -> round_double q = Fin q -> shortest q <> None.
Proof.
  intros Hq Hd. destruct (double_exponent q Hq Hd) as [He1 He2].
  destruct (double_form q q Hd) as (z & u & Hu & Hz & _).
  destruct (qlog10_spec q Hq) as [Hl Hh].
  set (k := Z.to_nat (qlog10 q + 1075)).
  assert (Hk : Z.of_nat k = (qlog10 q + 1075)%Z) by (subst k; lia).
  set (P := pow10 (Z.of_nat k - qlog10 q - 1)).
  set (m := (z * 2 ^ (u + 1074) * 5 ^ 1074)%Z).
  assert (Ht : q * P == inject_Z m).
  { subst P. rewrite Hk. replace (qlog10 q + 1075 - qlog10 q - 1)%Z with 1074%Z by lia. rewrite Hz.
    subst m. rewrite pow10_Z by lia.
    replace (10 ^ 1074)%Z with (2 ^ 1074 * 5 ^ 1074)%Z by (rewrite <- Z.pow_mul_l; reflexivity).
    rewrite !inject_Z_mult, <- (powQ_Z 2 1074), <- (powQ_Z 2 (u + 1074)), (powQ_add 2 u 1074) by lia.
    change pow2 with (powQ 2). ring. }
  assert (HP : pow10 (qlog10 q) * P == pow10 (Z.of_nat k - 1)).
  { subst P. change pow10 with (powQ 10). rewrite <- powQ_add by lia.
    by replace (qlog10 q + (Z.of_nat k - qlog10 q - 1))%Z with (Z.of_nat k - 1)%Z by lia. }
  assert (HP1 : pow10 (qlog10 q + 1) * P == pow10 (Z.of_nat k)).
  { subst P. change pow10 with (powQ 10). rewrite <- powQ_add by lia.
    by replace (qlog10 q + 1 + (Z.of_nat k - qlog10 q - 1))%Z with (Z.of_nat k) by lia. }
  assert (HPpos : 0 < P) by apply powQ_pos, eq_refl.
  unfold shortest. apply (search_complete 1400 1 k); [lia|].
  apply (choose_first q k (m, qlog10 q + 1)%Z (snd (candidates q k))).
  { unfold candidates. cbv zeta. fold P. rewrite (Qfloor_comp _ _ Ht), Qfloor_Z. done. }
  unfold valid. apply andb_true_intro. split; [apply andb_true_intro; split|].
  - apply Z.leb_le. rewrite Zle_Qle, <- pow10_Z by lia. rewrite <- HP, <- Ht.
    apply Qmult_le_compat_r; [done|by apply Qlt_le_weak].
  - apply Z.ltb_lt. rewrite Zlt_Qlt, <- pow10_Z by lia. rewrite <- HP1, <- Ht.
    by apply Qmult_lt_compat_r.
  - apply bool_decide_eq_true. rewrite <- Hd. apply round_double_Qeq.
    + unfold dec_value. apply Qmult_le_0_compat; [|apply Qlt_le_weak, powQ_pos; lia].
      rewrite <- Ht. apply Qmult_le_0_compat; by apply Qlt_le_weak.
    + unfold dec_value. rewrite <- Ht. subst P. rewrite <- Qmult_assoc. change pow10 with (powQ 10).
      rewrite <- powQ_add by lia. replace (Z.of_nat k - qlog10 q - 1 + (qlog10 q + 1 - Z.of_nat k))%Z with 0%Z by lia.
      rewrite Qmult_1_r. reflexivity.
Qed.

(** ** Reading the layouts back *)

Lemma digit_val_dec d : is_dec d -> digit_val 10 (d + 48) = Some d.
Proof.
  unfold is_dec, digit_val. intros Hd.
  rewrite (proj2 (Z.leb_le 48 (d + 48))), (proj2 (Z.leb_le (d + 48) 57)) by lia. simpl.
  rewrite Z.add_simpl_r, (proj2 (Z.ltb_lt d 10)) by lia. done.
Qed.

(** Text after a literal's digits: nothing, or a character that is not a
    digit nor a [.]. *)
Definition tail_ok (X : jstr) : Prop :=
  match X with [] => True | c :: _ => digit_val 10 c = None /\ c <> CH_DOT end.

Lemma take_digits_chars ds X :
  Forall is_dec ds -> (match X with [] => True | c :: _ => digit_val 10 c = None end) ->
  take_digits 10 (digit_chars ds ++ X) = (ds, X).
Proof.
  induction 1 as [|d ds Hd _ IH]; intros HX.
  - destruct X as [|c X]; [done|]. simpl. by rewrite HX.
  - simpl. rewrite digit_val_dec by done. by rewrite IH.
Qed.

Lemma ud_int I X e :
  Forall is_dec I -> I <> [] -> tail_ok X -> exponent_part X = Some e ->
  unsigned_decimal (digit_chars I ++ X) = Some (inject_Z (value_of 10 I) * pow10 e).
Proof.
  intros HI Hne HX He. unfold unsigned_decimal.
  rewrite take_digits_chars by (done || by destruct X as [|c X]; [|apply HX]).
  destruct X as [|c X].
  - rewrite app_nil_r. destruct I; [done|]. simpl in He |- *. injection He as <-. by rewrite Z.sub_0_r.
  - destruct HX as [_ Hc]. rewrite (proj2 (Z.eqb_neq c CH_DOT)) by done. rewrite app_nil_r.
    destruct I; [done|]. cbv beta iota. rewrite He. by rewrite Z.sub_0_r.
Qed.

Lemma ud_frac I F X e :
  Forall is_dec I -> Forall is_dec F -> I <> [] -> tail_ok X -> exponent_part X = Some e ->
  unsigned_decimal (digit_chars I ++ CH_DOT :: digit_chars F ++ X) =
    Some (inject_Z (value_of 10 (I ++ F)) * pow10 (e - Z.of_nat (length F))).
Proof.
  intros HI HF Hne HX He. unfold unsigned_decimal.
  rewrite take_digits_chars by done. cbv beta iota. rewrite Z.eqb_refl.
  rewrite take_digits_chars by (done || by destruct X as [|c X]; [|apply HX]).
  destruct I; [done|]. cbv beta iota. by rewrite He.
Qed.

Lemma value_of_zeros j : value_of 10 (replicate j 0%Z) = 0%Z.
Proof.
  unfold value_of. enough (H : forall acc, acc = 0%Z -> foldl (fun acc d => acc * 10 + d)%Z acc (replicate j 0%Z) = 0%Z)
    by (by apply H). induction j as [|j IH]; intros acc ->; [done|]. by apply IH.
Qed.

Lemma value_of_leading_zeros j ds : value_of 10 (replicate j 0%Z ++ ds) = value_of 10 ds.
Proof. rewrite value_of_app, value_of_zeros. lia. Qed.

Lemma exponent_digits sgn a :
  (0 < a)%Z -> (sgn = CH_PLUS \/ sgn = CH_MINUS) ->
  exponent_part (CH_E :: sgn :: digit_chars (dec_digits a)) =
    Some (if (sgn =? CH_PLUS)%Z then a else (- a))%Z.
Proof.
  intros Ha Hs. destruct (dec_digits_spec a Ha) as (Hd & _ & Hv & _).
  assert (Hall : all_digits 10 (digit_chars (dec_digits a)) = Some a).
  { unfold all_digits. rewrite <- (app_nil_r (digit_chars _)), take_digits_chars by done.
    destruct (dec_digits a); [cbv [value_of foldl] in Hv; lia|]. by rewrite Hv. }
  simpl. destruct Hs as [-> | ->]; simpl; by rewrite Hall.
Qed.

Lemma tail_ok_exp sgn r : tail_ok (CH_E :: sgn :: r).
Proof. split; [reflexivity|discriminate]. Qed.

Lemma digit_chars_app a b : digit_chars (a ++ b) = digit_chars a ++ digit_chars b.
Proof. apply map_app. Qed.

Lemma value_take_drop n ds : value_of 10 (take n ds ++ drop n ds) = value_of 10 ds.
Proof. by rewrite take_drop. Qed.

(** The value a layout reads as: the digits times [10^(n-k)]. *)
Lemma layout_value ds n :
  Forall is_dec ds -> ds <> [] ->
  exists mv, unsigned_decimal (layout ds n) = Some mv /\
             mv == inject_Z (value_of 10 ds) * pow10 (n - Z.of_nat (length ds)).
Proof.
  intros Hd Hne. unfold layout. set (k := Z.of_nat (length ds)).
  assert (Hk : (1 <= k)%Z) by (subst k; destruct ds; [done|simpl; lia]).
  destruct ((k <=? n) && (n <=? 21))%Z eqn:C1; [|destruct ((0 <? n) && (n <=? 21))%Z eqn:C2;
    [|destruct ((-6 <? n) && (n <=? 0))%Z eqn:C3]].
  - apply andb_prop in C1 as [C1 _]. apply Z.leb_le in C1.
    rewrite <- digit_chars_app, <- (app_nil_r (digit_chars _)), (ud_int _ [] 0%Z); [eexists; split; [done|]| |..|done].
    + rewrite value_of_app, value_of_zeros, length_replicate, Z2Nat.id, pow10_Z by lia.
      rewrite pow10_Z by lia. rewrite Z.add_0_r, inject_Z_mult. simpl. rewrite Qmult_1_r. reflexivity.
    + apply Forall_app; split; [done|]. apply Forall_replicate. unfold is_dec; lia.
    + destruct ds; [done|discriminate].
    + done.
  - apply andb_prop in C2 as [C2 C2']. apply Z.ltb_lt in C2. apply Z.leb_le in C2'.
    assert (Hlt : (n < k)%Z) by (apply andb_false_iff in C1 as [C1|C1]; apply Z.leb_gt in C1; lia).
    rewrite <- (app_nil_r (digit_chars (drop _ ds))), (ud_frac _ _ [] 0%Z) by
      (done || by apply Forall_take || by apply Forall_drop || (destruct ds, (Z.to_nat n) eqn:?; simpl; lia || done)).
    eexists; split; [done|]. rewrite value_take_drop, length_drop.
    replace (0 - Z.of_nat (length ds - Z.to_nat n))%Z with (n - k)%Z by (subst k; lia). reflexivity.
  - apply andb_prop in C3 as [C3 C3']. apply Z.ltb_lt in C3. apply Z.leb_le in C3'.
    rewrite <- (app_nil_r (digit_chars (_ ++ ds))), (ud_frac _ _ [] 0%Z); [|repeat constructor; unfold is_dec; lia|
      apply Forall_app; split; [apply Forall_replicate; unfold is_dec; lia|done]|discriminate|done|done].
    eexists; split; [done|].
    change ([0%Z] ++ replicate (Z.to_nat (- n)) 0%Z ++ ds) with (replicate (S (Z.to_nat (- n))) 0%Z ++ ds).
    rewrite value_of_leading_zeros, length_app, length_replicate.
    replace (0 - Z.of_nat (Z.to_nat (- n) + length ds))%Z with (n - k)%Z by (subst k; lia). reflexivity.
  - assert (Hex : (n - 1 <> 0)%Z).
    { intros E. assert (n = 1%Z) as -> by lia. cbv in C2. discriminate. }
    assert (He : exponent_part (CH_E :: (if (0 <=? n - 1) then CH_PLUS else CH_MINUS)%Z ::
                                digit_chars (dec_digits (Z.abs (n - 1)))) = Some (n - 1)%Z).
    { rewrite exponent_digits by (lia || by destruct (0 <=? n - 1)%Z; [left|right]).
      destruct (Z.leb_spec 0 (n - 1)); [rewrite Z.eqb_refl; f_equal; lia|]. simpl. f_equal. lia. }
    destruct ds as [|d [|d' r]]; [done| |].
    + simpl (take 1 _). assert (k = 1%Z) as -> by done. cbn [Z.eqb]. rewrite app_nil_l.
      rewrite (ud_int _ _ (n - 1)%Z); [eexists; split; [done|]|done|discriminate|apply tail_ok_exp|exact He].
      reflexivity.
    + assert ((k =? 1)%Z = false) as -> by (apply Z.eqb_neq; subst k; simpl; lia).
      simpl (take 1 _). simpl (drop 1 _). rewrite <- app_comm_cons.
      rewrite (ud_frac _ _ _ (n - 1)%Z);
        [|apply (Forall_take _ 1) in Hd; exact Hd|apply (Forall_drop _ 1) in Hd; exact Hd|discriminate|apply tail_ok_exp|exact He].
      eexists; split; [done|]. cbn [app]. subst k. simpl length.
      replace (n - 1 - Z.of_nat (S (length r)))%Z with (n - Z.of_nat (S (S (length r))))%Z by lia. reflexivity.
Qed.

(** Characters of a printed number. *)
Definition num_char (c : Z) : bool :=
  is_digit c || (c =? CH_DOT)%Z || (c =? CH_E)%Z || (c =? CH_PLUS)%Z || (c =? CH_MINUS)%Z.

Lemma num_char_not_ws c : num_char c = true -> is_ws c = false.
Proof.
  unfold num_char. intros H. repeat (apply orb_prop in H as [H|H]);
    [by apply is_digit_not_ws|apply Z.eqb_eq in H as ->; reflexivity..].
Qed.

Lemma is_digit_dec d : is_dec d -> is_digit (d + 48) = true.
Proof. unfold is_dec, is_digit. intros Hd. apply andb_true_intro; split; apply Z.leb_le; lia. Qed.

Lemma digit_chars_num ds : Forall is_dec ds -> Forall (fun c => num_char c = true) (digit_chars ds).
Proof.
  intros Hd. apply Forall_map. eapply Forall_impl; [exact Hd|]. intros d H.
  unfold num_char. by rewrite is_digit_dec.
Qed.

Lemma layout_chars ds n : Forall is_dec ds -> Forall (fun c => num_char c = true) (layout ds n).
Proof.
  intros Hd. pose proof (digit_chars_num _ Hd) as Hc.
  assert (Hz : forall j, Forall (fun c => num_char c = true) (digit_chars (replicate j 0%Z)))
    by (intros j; apply digit_chars_num, Forall_replicate; unfold is_dec; lia).
  unfold layout. repeat case_match; rewrite ?digit_chars_app;
    repeat (apply Forall_app; split) || constructor; try done;
    try (apply digit_chars_num; first [by apply Forall_take | by apply Forall_drop | done
                                      | constructor; [unfold is_dec; lia|done]]);
    try (apply digit_chars_num, dec_digits_spec; lia).
  all: try (apply digit_chars_num, Forall_app; split; [apply Forall_replicate; unfold is_dec; lia|done]).
  all: try (apply digit_chars_num, dec_digits_spec; lia).
Qed.

Lemma layout_head ds n : Forall is_dec ds -> ds <> [] -> exists c t, layout ds n = c :: t /\ is_digit c = true.
Proof.
  intros Hd Hne. destruct ds as [|d ds]; [done|]. inversion Hd as [|? ? Hd0 _]. subst.
  unfold layout. repeat case_match;
    try (match goal with Hp : ((0 <? n)%Z && _) = true |- _ =>
           apply andb_prop in Hp as [Hp _]; apply Z.ltb_lt in Hp;
           replace (Z.to_nat n) with (S (Z.to_nat n - 1)) by lia end);
    eexists _, _; (split; [reflexivity|]); first [by apply is_digit_dec | reflexivity].
Qed.

Lemma trim_plain s : Forall (fun c => is_ws c = false) s -> trim s = s.
Proof.
  intros Hw. unfold trim. rewrite (drop_ws_keep s) by (by apply Forall_take).
  rewrite drop_ws_keep, rev_involutive; [done|]. by apply Forall_take, Forall_rev.
Qed.

Lemma non_decimal_plain c t :
  (is_digit c = true \/ c = CH_MINUS) -> Forall (fun c => num_char c = true) t -> non_decimal (c :: t) = None.
Proof.
  intros Hc Ht. destruct t as [|c' t]; [done|]. apply Forall_cons_1 in Ht as [Hc' _]. simpl.
  unfold num_char, is_digit in Hc'. repeat (apply orb_prop in Hc' as [Hc'|Hc']);
    [apply andb_prop in Hc' as [H1 H2]; apply Z.leb_le in H1, H2;
     repeat (rewrite (proj2 (Z.eqb_neq c' _)) by lia; cbn [orb]); cbn; by destruct (c =? 48)%Z
    |apply Z.eqb_eq in Hc' as ->; cbn; by destruct (c =? 48)%Z..].
Qed.

(** [Number()], and the decimal literal it parses, read a layout, and a
    layout after [-], as its value. *)
Lemma string_to_number_layout ds n :
  Forall is_dec ds -> ds <> [] ->
  exists mv, mv == inject_Z (value_of 10 ds) * pow10 (n - Z.of_nat (length ds)) /\
             str_decimal (layout ds n) = Some (round_double mv) /\
             str_decimal (CH_MINUS :: layout ds n) = Some (neg_num (round_double mv)) /\
             string_to_number (layout ds n) = round_double mv /\
             string_to_number (CH_MINUS :: layout ds n) = neg_num (round_double mv).
Proof.
  intros Hd Hne. destruct (layout_value ds n Hd Hne) as (mv & Hu & Hmv).
  destruct (layout_head ds n Hd Hne) as (c & t & Ht & Hc).
  pose proof (layout_chars ds n Hd) as Hch. rewrite Ht in Hch, Hu.
  assert (Hws : forall l, Forall (fun c => num_char c = true) l -> Forall (fun c => is_ws c = false) l)
    by (intros l Hl; eapply Forall_impl; [exact Hl|]; intros x; apply num_char_not_ws).
  assert (Hcd : (48 <= c <= 57)%Z) by (unfold is_digit in Hc; apply andb_prop in Hc as [H1 H2]; lia).
  assert (Hinf : c :: t <> ‹"Infinity"›) by (intros E; injection E as E1 _; vm_compute in E1; lia).
  assert (S1 : str_decimal (c :: t) = Some (round_double mv)).
  { unfold str_decimal. rewrite (proj2 (Z.eqb_neq c CH_PLUS)), (proj2 (Z.eqb_neq c CH_MINUS)) by (cbv; lia).
    rewrite decide_False by done. by rewrite Hu. }
  assert (S2 : str_decimal (CH_MINUS :: c :: t) = Some (neg_num (round_double mv))).
  { unfold str_decimal. cbn -[round_double unsigned_decimal]. rewrite decide_False by done. by rewrite Hu. }
  exists mv. rewrite Ht. split_and!; [done|done|done| |]; unfold string_to_number.
  - rewrite trim_plain by auto. cbv beta iota.
    rewrite non_decimal_plain by (auto || by apply Forall_cons_1 in Hch as [_ ?]). cbn [default]. by rewrite S1.
  - rewrite trim_plain by (constructor; [reflexivity|auto]). cbv beta iota.
    rewrite non_decimal_plain by (auto || by apply Forall_cons_1 in Hch as [_ ?]). cbn [default]. by rewrite S2.
Qed.

(** ** The round trip *)

(** A double: a finite number is the rounding of its own magnitude and
    kept reduced. *)
Definition is_double (x : num) : Prop :=
  match x with
  | Fin q => Qred q = q /\ round_double (Qabs q) = Fin (Qabs q)
  | NaN | PosInf | NegInf | NegZero => True
  end.

Lemma Qabs_nonneg q : 0 <= q -> Qabs q = q.
Proof. destruct q as [a b]. unfold Qle. simpl. intros H. rewrite Z.abs_eq by lia. done. Qed.

Lemma Qabs_neg q : q < 0 -> Qabs q = - q.
Proof. destruct q as [a b]. unfold Qlt. simpl. intros H. rewrite Z.abs_neq by lia. done. Qed.

Lemma Qopp_opp q : - - q = q.
Proof. destruct q as [a b]. unfold Qopp. simpl. by rewrite Z.opp_involutive. Qed.

(** The text of a positive double, alone or after [-], reads back as the
    double, by [Number()] and by its decimal literal. *)
Lemma pos_to_string_read q :
  0 < q -> round_double q = Fin q ->
  str_decimal (pos_to_string q) = Some (Fin q) /\
  str_decimal (CH_MINUS :: pos_to_string q) = Some (neg_num (Fin q)) /\
  string_to_number (pos_to_string q) = Fin q /\
  string_to_number (CH_MINUS :: pos_to_string q) = neg_num (Fin q).
Proof.
  intros Hq Hd. destruct (shortest q) as [[[s n] k]|] eqn:Hs; [|by destruct (shortest_complete q Hq Hd)].
  destruct (shortest_valid q s n k Hs) as (Hk & Hr & Hv).
  assert (Hs0 : (0 < s)%Z) by (pose proof (Z.pow_pos_nonneg 10 (Z.of_nat k - 1)); lia).
  destruct (dec_digits_spec s Hs0) as (Hd' & _ & Hval & _).
  assert (Hne : dec_digits s <> []) by (intros E; rewrite E in Hval; cbv in Hval; lia).
  destruct (string_to_number_layout (dec_digits s) n Hd' Hne) as (mv & Hmv & H1 & H2 & H3 & H4).
  rewrite Hval, (dec_digits_length s k Hk Hr) in Hmv.
  assert (Hm : round_double mv = Fin q).
  { rewrite <- Hv. apply round_double_Qeq; [|done]. rewrite Hmv.
    apply Qmult_le_0_compat; [unfold Qle; simpl; lia|apply Qlt_le_weak, powQ_pos; lia]. }
  unfold pos_to_string. rewrite Hs, <- Hm. done.
Qed.

(** [Number::toString] of a double other than [-0] reads back as it,
    by its decimal literal and by [Number()]. *)
Lemma number_to_string_read q :
  is_double (Fin q) ->
  str_decimal (number_to_string (Fin q)) = Some (Fin q) /\ string_to_number (number_to_string (Fin q)) = Fin q.
Proof.
  intros [Hred Hd]. unfold number_to_string. destruct (Qeq_bool q 0) eqn:E0.
  - apply Qeq_bool_iff, Qred_complete in E0. rewrite Hred in E0. rewrite E0. split; reflexivity.
  - apply Qeq_bool_neq in E0. destruct (Qle_bool 0 q) eqn:Ep.
    + apply Qle_bool_iff in Ep. rewrite Qabs_nonneg in Hd by done.
      assert (Hq : 0 < q) by (apply Qle_lt_or_eq in Ep as [|E]; [done|by destruct E0]).
      destruct (pos_to_string_read q Hq Hd) as (H1 & _ & H3 & _). done.
    + apply not_true_iff_false in Ep. rewrite Qle_bool_iff in Ep. apply Qnot_le_lt in Ep.
      rewrite Qabs_neg in Hd by done.
      assert (Hq : 0 < - q) by (apply Qopp_lt_compat in Ep; exact Ep).
      destruct (pos_to_string_read (- q) Hq Hd) as (_ & H2 & _ & H4). rewrite H2, H4.
      assert (Hn : neg_num (Fin (- q)) = Fin q).
      { unfold neg_num. destruct (Qeq_bool (- q) 0) eqn:E1.
        - apply Qeq_bool_iff in E1. destruct E0. rewrite <- (Qopp_opp q), E1. reflexivity.
        - by rewrite Qopp_opp, Hred. }
      by rewrite Hn.
Qed.

(** C27. [Number(String(x))] is [x] for every double [x] but [-0], which
    prints as [0]: the text [Number::toString] chooses reads back, with
    [Number()] and hence with [JSON.parse], as the same number. *)
Theorem number_to_string_roundtrip x :
  is_double x -> string_to_number (number_to_string x) = match x with NegZero => Fin 0 | _ => x end.
Proof. destruct x as [| | |q|]; intros Hx; try reflexivity. apply number_to_string_read, Hx. Qed.

Lemma number_to_string_roundtrip_witness :
  is_double (string_to_number ‹"0.1"›) /\
  string_to_number (number_to_string (string_to_number ‹"0.1"›)) = string_to_number ‹"0.1"›.
Proof.
  assert (Hd : is_double (string_to_number ‹"0.1"›)).
  { vm_compute. split; reflexivity. }
  split; [exact Hd|]. exact (number_to_string_roundtrip _ Hd).
Defined.

End NumToString.
