(* ===== verification/Json.v ===== *)
(** * JavaScript values and errors seen by the handlers

    [express.json()] turns a request body into the result of [JSON.parse].
    The handlers read its properties by destructuring, for example
    [const { path: filePath } = req.body] (index.js lines 51, 68, 89), and
    test them with [!x] (lines 52, 69, 90).  A thrown error reaches a
    [catch] block, which sends [error.message] (lines 44, 61, 82, 105).
    This file models those values, the property read, truthiness, and the
    kinds of error the program can meet: Node's [ERR_INVALID_ARG_TYPE]
    [TypeError] (with [determineSpecificType]'s description of the value
    received), [ERR_INVALID_ARG_VALUE] for a path holding a NUL (with
    [util.inspect] of the path: [strEscape]'s choice of quote and its
    escapes, a long string split at its newlines), the [RangeError] of a
    bad port, and the system errors of [fs]. *)

From S2P Require Import Prelude JsNumber NumToString.
From Stdlib Require Import QArith.
Import JsNumber NumToString.

Module Json.

#[local] Set Warnings "-register-all".

(** ** Values *)

(** A value produced by [JSON.parse].  Numbers are JavaScript numbers
    ([JsNumber.num]); objects keep their members in source order,
    duplicates included. *)
Inductive jvalue :=
| JNull
| JBool (b : bool)
| JNum (n : num)
| JStr (s : jstr)
| JArr (l : list jvalue)
| JObj (fields : list (jstr * jvalue)).

(** The member [key] of a member list; [JSON.parse] keeps the last of
    several members with the same key. *)
Fixpoint lookup_member (key : jstr) (fs : list (jstr * jvalue)) : option jvalue :=
  match fs with
  | [] => None
  | (k, v) :: rest =>
      match lookup_member key rest with
      | Some w => Some w
      | None => if decide (k = key) then Some v else None
      end
  end.

(** [v.key]: [None] is [undefined].  Arrays and primitives have no own
    property with the names the handlers read. *)
Definition get (v : jvalue) (key : jstr) : option jvalue :=
  match v with
  | JObj fs => lookup_member key fs
  | _ => None
  end.

(** [!!x] for a value that may be [undefined]. *)
Definition truthy (v : option jvalue) : bool :=
  match v with
  | None | Some JNull => false
  | Some (JBool b) => b
  | Some (JNum n) => match n with Fin q => negb (Qeq_bool q 0) | PosInf | NegInf => true | NaN | NegZero => false end
  | Some (JStr s) => negb (bool_decide (s = []))
  | Some (JArr _) | Some (JObj _) => true
  end.

(** ** Errors *)

(** The error numbers the filesystem calls of the program can return. *)
Inductive errno := ENOENT | ENOTDIR | EISDIR | EEXIST | ENOTEMPTY | EBUSY | ENAMETOOLONG.

#[export] Instance errno_eq_dec : EqDecision errno.
Proof. solve_decision. Defined.

(** A thrown JavaScript error: Node's [TypeError] or [RangeError] with its
    message, or a system error carrying the [code], the [syscall] and,
    when Node reports one, the [path]. *)
Inductive js_error :=
| TypeError (msg : jstr)
| RangeError (msg : jstr)
| SystemError (code : errno) (syscall : string) (path : option jstr).

(** libuv's [uv_err_name] and [uv_strerror]. *)
Definition errno_name (e : errno) : string :=
  match e with
  | ENOENT => "ENOENT" | ENOTDIR => "ENOTDIR" | EISDIR => "EISDIR"
  | EEXIST => "EEXIST" | ENOTEMPTY => "ENOTEMPTY" | EBUSY => "EBUSY"
  | ENAMETOOLONG => "ENAMETOOLONG"
  end.

Definition errno_desc (e : errno) : string :=
  match e with
  | ENOENT => "no such file or directory"
  | ENOTDIR => "not a directory"
  | EISDIR => "illegal operation on a directory"
  | EEXIST => "file already exists"
  | ENOTEMPTY => "directory not empty"
  | EBUSY => "resource busy or locked"
  | ENAMETOOLONG => "name too long"
  end.

(** [error.message]: Node's [uvException] writes
    [`${code}: ${desc}, ${syscall} '${path}'`]. *)
Definition message (e : js_error) : jstr :=
  match e with
  | TypeError m | RangeError m => m
  | SystemError c sc p =>
      js (errno_name c) ++ ‹": "› ++ js (errno_desc c) ++ ‹", "› ++ js sc ++
      match p with Some p => ‹" '"› ++ p ++ ‹"'"› | None => [] end
  end.

(** ** [util.inspect] of a string and [ERR_INVALID_ARG_VALUE] *)

Definition hex_upper (d : Z) : Z := if (d <? 10)%Z then (48 + d)%Z else (55 + d)%Z.
Definition hex_lower (d : Z) : Z := if (d <? 10)%Z then (48 + d)%Z else (87 + d)%Z.

(** [meta[c]] of lib/internal/util/inspect.js: the escape of a control
    character, of [0x7F .. 0x9F], of the quote and of the backslash. *)
Definition meta (c : Z) : jstr :=
  if (c =? 8)%Z then ‹"\b"› else if (c =? 9)%Z then ‹"\t"›
  else if (c =? 10)%Z then ‹"\n"› else if (c =? 12)%Z then ‹"\f"›
  else if (c =? 13)%Z then ‹"\r"› else if (c =? 39)%Z then ‹"\'"›
  else if (c =? 92)%Z then ‹"\\"›
  else [92; 120; hex_upper (c / 16); hex_upper (c mod 16)]%Z.

(** [\u] and four lowercase hexadecimal digits: a lone surrogate. *)
Definition u_escape (c : Z) : jstr :=
  [92; 117; hex_lower (c / 4096); hex_lower ((c / 256) mod 16);
   hex_lower ((c / 16) mod 16); hex_lower (c mod 16)]%Z.

Definition is_high (c : Z) : bool := ((0xD800 <=? c) && (c <=? 0xDBFF))%Z.
Definition is_low (c : Z) : bool := ((0xDC00 <=? c) && (c <=? 0xDFFF))%Z.

(** The loop of [strEscape]: [q] is the quote in use, and a single quote
    is escaped only inside single quotes. *)
Fixpoint esc_units (q : Z) (s : jstr) : jstr :=
  match s with
  | [] => []
  | c :: r =>
      if ((c =? 39) && (q =? 39)) || (c =? 92) || (c <? 32) || ((126 <? c) && (c <? 160)) then
        meta c ++ esc_units q r
      else if is_high c then
        match r with
        | d :: r' => if is_low d then c :: d :: esc_units q r' else u_escape c ++ esc_units q r
        | [] => u_escape c
        end
      else if is_low c then u_escape c ++ esc_units q r
      else c :: esc_units q r
  end%Z.

(** [s.includes(a + b)] for two code units. *)
Fixpoint has_pair (a b : Z) (s : jstr) : bool :=
  match s with
  | x :: ((y :: _) as r) => ((x =? a) && (y =? b))%Z || has_pair a b r
  | _ => false
  end.

(** The quote [strEscape] picks: a single quote, unless the text holds
    one; then a double quote, unless it holds one too; then a backtick,
    unless it holds a backtick or [${]. *)
Definition quote_of (s : jstr) : Z :=
  if decide (39%Z ∈ s) then
    if decide (34%Z ∉ s) then 34%Z
    else if bool_decide (96%Z ∉ s) && negb (has_pair 36 123 s) then 96%Z else 39%Z
  else 39%Z.

Definition str_escape (s : jstr) : jstr := let q := quote_of s in q :: esc_units q s ++ [q].

(** [value.split(/(?<=\n)/)]: the lines, each with its newline. *)
Fixpoint split_lines (s : jstr) : list jstr :=
  match s with
  | [] => [[]]
  | c :: r =>
      if (c =? 10)%Z then match r with [] => [[c]] | _ => [c] :: split_lines r end
      else match split_lines r with l :: ls => (c :: l) :: ls | [] => [[c]] end
  end.

Fixpoint join_with (sep : jstr) (ls : list jstr) : jstr :=
  match ls with [] => [] | [l] => l | l :: ls' => l ++ sep ++ join_with sep ls' end.

(** [inspect(s)] with the default options ([breakLength] 128): a string of
    more than 124 code units is written line by line, each line quoted,
    joined by [ +] and a newline and two spaces.  The cut of a string
    longer than [maxStringLength] (10000) is left out: it changes only
    what follows the first 128 code units, and the messages keep no
    more. *)
Definition inspect_string (s : jstr) : jstr :=
  if decide (124 < length s)%nat then join_with [32; 43; 10; 32; 32]%Z (map str_escape (split_lines s))
  else str_escape s.

(** ** The text of [ERR_INVALID_ARG_TYPE] *)

Definition DQ : jstr := [34%Z].

(** [util.inspect] of a number: [formatNumber] writes [-0] for [-0] and
    [`${n}`], that is [Number::toString], for any other. *)
Definition inspect_number (n : num) : jstr :=
  match n with NegZero => ‹"-0"› | _ => number_to_string n end.

(** Node's [determineSpecificType]: an inspected primitive longer than 28
    code units is cut to 25 and followed by [...]. *)
Definition cut_inspected (s : jstr) : jstr :=
  if decide (28 < length s)%nat then take 25 s ++ ‹"..."› else s.

Definition received (v : option jvalue) : jstr :=
  match v with
  | None => ‹"undefined"›
  | Some JNull => ‹"null"›
  | Some (JArr _) => ‹"an instance of Array"›
  | Some (JObj _) => ‹"an instance of Object"›
  | Some (JBool b) => ‹"type boolean ("› ++ (if b then ‹"true"› else ‹"false"›) ++ ‹")"›
  | Some (JNum n) => ‹"type number ("› ++ cut_inspected (inspect_number n) ++ ‹")"›
  | Some (JStr s) => ‹"type string ("› ++ cut_inspected (inspect_string s) ++ ‹")"›
  end.

(** The subject of the message: a name ending in [" argument"] is used
    as it is, any other is quoted and followed by [argument]. *)
Definition arg_subject (name : string) : jstr :=
  if decide (suffix ‹" argument"› (js name)) then js name
  else DQ ++ js name ++ DQ ++ ‹" argument"›.

(** [The "path" argument must be of type string. Received ...]. *)
Definition invalid_arg_type (name expected : string) (v : option jvalue) : js_error :=
  TypeError (‹"The "› ++ arg_subject name ++ ‹" must be "› ++ js expected ++
             ‹". Received "› ++ received v).

(** [ERR_INVALID_ARG_VALUE]: the inspected value cut to 128 code units. *)
Definition invalid_arg_value (name : string) (v : jstr) (reason : string) : js_error :=
  let i := inspect_string v in
  let i := if decide (128 < length i)%nat then take 128 i ++ ‹"..."› else i in
  TypeError (‹"The argument '"› ++ js name ++ ‹"' "› ++ js reason ++ ‹". Received "› ++ i).

(** [validatePath]: a path string with a NUL code unit is refused before
    any system call (Node 20). *)
Definition null_bytes_error (p : jstr) : js_error :=
  invalid_arg_value "path" p "must be a string, Uint8Array, or URL without null bytes".

End Json.
