(* ===== verification/JsonText.v ===== *)
(** * JSON text: [JSON.parse] and [JSON.stringify]

    The bodies on the wire are JSON text.  [express.json()] (index.js
    line 12) hands the decoded request text to [JSON.parse], and every
    [res.json(obj)] (lines 16-107) sends [JSON.stringify(obj)].  This
    file models both on JavaScript strings ([jstr], UTF-16 code units):
    - [json_parse]: ECMA-404 as V8 reads it.  White space is tab, LF, CR
      and space.  A string may not hold a code unit below [0x20], and its
      escapes are a backslash before a quote, a backslash or a slash,
      [\b \f \n \r \t], and [\uXXXX] with hexadecimal digits of any case.  A
      number is [-? (0 | [1-9][0-9]* ) (. [0-9]+)? ([eE] [+-]? [0-9]+)?]
      and takes the value [Number()] gives its text ([str_decimal]): the
      nearest double, [-0] for [-0], [Infinity] beyond the range.  Object
      members are kept in order with their duplicates; [Json.get] reads
      the last one, as the object [JSON.parse] builds does;
    - [stringify]: [SerializeJSONProperty] without replacer or indent.
      Strings are quoted by [QuoteJSONString] (ES2019): the seven short
      escapes, [\u00xx] below [0x20], and [\uxxxx] for a lone surrogate.
      Finite numbers print by [Number::toString] and the others as
      [null].  Members print in the order of the list.
    The parser is a recursive descent with a fuel argument, [2 * length s
    + 1] in [json_parse].  On the texts [stringify] writes the fuel is
    enough ([jsize_le], [parse_stringify]): each level of nesting and each
    element uses one unit, and takes at least one character.
    The theorems: [parse_stringify_text] ([JSON.parse] inverts
    [JSON.stringify] on values whose numbers are doubles and whose strings
    are 16-bit), [stringify_wf] (the printed text has no lone surrogate,
    so its UTF-8 form decodes back to it), [json_wire_roundtrip] (the two
    together), and [parse_value_kind] (a value is an object or an array
    exactly when its text starts with a brace or a bracket, the check of
    body-parser's strict mode). *)

From S2P Require Import Prelude Utf8 JsNumber NumToString Json.
From Stdlib Require Import QArith.
Import JsNumber NumToString Json.

Module JsonText.

Local Open Scope Z_scope.

(** ** Characters *)

Definition CH_QUOTE : Z := 34.
Definition CH_BACKSLASH : Z := 92.
Definition CH_COMMA : Z := 44.
Definition CH_COLON : Z := 58.
Definition CH_LBRACKET : Z := 91.
Definition CH_RBRACKET : Z := 93.
Definition CH_LBRACE : Z := 123.
Definition CH_RBRACE : Z := 125.

Definition is_json_ws (c : Z) : bool := (c =? 9) || (c =? 10) || (c =? 13) || (c =? 32).

Fixpoint skip_ws (s : jstr) : jstr :=
  match s with
  | c :: r => if is_json_ws c then skip_ws r else s
  | [] => []
  end.

(** ** [JSON.stringify] *)

(** A lowercase hexadecimal digit. *)
Definition hex_char (d : Z) : Z := if (d <? 10)%Z then (48 + d)%Z else (87 + d)%Z.

(** [UnicodeEscape(C)]: [\u] and four lowercase hexadecimal digits. *)
Definition unicode_escape (c : Z) : jstr :=
  [CH_BACKSLASH; 117; hex_char (c / 4096); hex_char ((c / 256) mod 16);
   hex_char ((c / 16) mod 16); hex_char (c mod 16)]%Z.

(** The short escapes of [QuoteJSONString]'s table. *)
Definition short_escape (c : Z) : option Z :=
  if (c =? 8)%Z then Some 98%Z
  else if (c =? 9)%Z then Some 116%Z
  else if (c =? 10)%Z then Some 110%Z
  else if (c =? 12)%Z then Some 102%Z
  else if (c =? 13)%Z then Some 114%Z
  else if (c =? CH_QUOTE)%Z then Some CH_QUOTE
  else if (c =? CH_BACKSLASH)%Z then Some CH_BACKSLASH
  else None.

(** The body of [QuoteJSONString(s)], by code points: a surrogate pair
    is kept, a lone surrogate is escaped. *)
Fixpoint quote_units (s : jstr) : jstr :=
  match s with
  | [] => []
  | c :: r =>
      match short_escape c with
      | Some e => CH_BACKSLASH :: e :: quote_units r
      | None =>
          if (c <? 32)%Z then unicode_escape c ++ quote_units r
          else if Utf8.is_high_surrogate c then
            match r with
            | d :: r' =>
                if Utf8.is_low_surrogate d then c :: d :: quote_units r'
                else unicode_escape c ++ quote_units r
            | [] => unicode_escape c
            end
          else if Utf8.is_low_surrogate c then unicode_escape c ++ quote_units r
          else c :: quote_units r
      end
  end.

Definition quote (s : jstr) : jstr := CH_QUOTE :: quote_units s ++ [CH_QUOTE].

(** The elements of an array after its [[], each printed by [g]. *)
Fixpoint join_elems (g : jvalue -> jstr) (l : list jvalue) : jstr :=
  match l with
  | [] => [CH_RBRACKET]
  | [x] => g x ++ [CH_RBRACKET]
  | x :: l' => g x ++ CH_COMMA :: join_elems g l'
  end.

(** The members of an object after its [{]. *)
Fixpoint join_members (g : jvalue -> jstr) (fs : list (jstr * jvalue)) : jstr :=
  match fs with
  | [] => [CH_RBRACE]
  | [(k, x)] => quote k ++ CH_COLON :: g x ++ [CH_RBRACE]
  | (k, x) :: fs' => quote k ++ CH_COLON :: g x ++ CH_COMMA :: join_members g fs'
  end.

(** [SerializeJSONProperty] of a value: [-0] prints as [0], and a number
    that is not finite as [null]. *)
Fixpoint stringify (v : jvalue) : jstr :=
  match v with
  | JNull => ‹"null"›
  | JBool true => ‹"true"›
  | JBool false => ‹"false"›
  | JNum n => match n with Fin _ | NegZero => number_to_string n | _ => ‹"null"› end
  | JStr s => quote s
  | JArr l => CH_LBRACKET :: join_elems stringify l
  | JObj fs => CH_LBRACE :: join_members stringify fs
  end.

(** ** [JSON.parse] *)

(** The character a short escape stands for. *)
Definition unescape (e : Z) : option Z :=
  if (e =? CH_QUOTE)%Z then Some CH_QUOTE
  else if (e =? CH_BACKSLASH)%Z then Some CH_BACKSLASH
  else if (e =? 47)%Z then Some 47%Z
  else if (e =? 98)%Z then Some 8%Z
  else if (e =? 102)%Z then Some 12%Z
  else if (e =? 110)%Z then Some 10%Z
  else if (e =? 114)%Z then Some 13%Z
  else if (e =? 116)%Z then Some 9%Z
  else None.

Definition hex4 (a b c d : Z) : option Z :=
  match digit_val 16 a, digit_val 16 b, digit_val 16 c, digit_val 16 d with
  | Some x, Some y, Some z, Some w => Some (((x * 16 + y) * 16 + z) * 16 + w)%Z
  | _, _, _, _ => None
  end.

(** The characters of a string literal after its opening quote, up to
    the closing one; the rest of the text. *)
Fixpoint string_body (s : jstr) : option (jstr * jstr) :=
  match s with
  | [] => None
  | c :: r =>
      if (c =? CH_QUOTE)%Z then Some ([], r)
      else if (c =? CH_BACKSLASH)%Z then
        match r with
        | 117 :: a :: b :: c' :: d :: r' =>
            match hex4 a b c' d, string_body r' with
            | Some u, Some (t, rest) => Some (u :: t, rest)
            | _, _ => None
            end
        | e :: r' =>
            match unescape e, string_body r' with
            | Some u, Some (t, rest) => Some (u :: t, rest)
            | _, _ => None
            end
        | [] => None
        end
      else if (c <? 32)%Z then None
      else match string_body r with
           | Some (t, rest) => Some (c :: t, rest)
           | None => None
           end
  end.

Definition is_digit_ch (c : Z) : bool := ((48 <=? c) && (c <=? 57))%Z.

(** The longest run of digits. *)
Fixpoint span_digits (s : jstr) : jstr * jstr :=
  match s with
  | c :: r => if is_digit_ch c then let '(ds, r') := span_digits r in (c :: ds, r') else ([], s)
  | [] => ([], [])
  end.

Definition scan_int (s : jstr) : option (jstr * jstr) :=
  match s with
  | c :: r =>
      if (c =? 48)%Z then Some ([c], r)
      else if ((49 <=? c) && (c <=? 57))%Z then let '(ds, r') := span_digits r in Some (c :: ds, r')
      else None
  | [] => None
  end.

Definition scan_frac (s : jstr) : option (jstr * jstr) :=
  match s with
  | c :: r =>
      if (c =? CH_DOT)%Z then
        match span_digits r with
        | ([], _) => None
        | (ds, r') => Some (c :: ds, r')
        end
      else Some ([], s)
  | [] => Some ([], [])
  end.

Definition scan_exp (s : jstr) : option (jstr * jstr) :=
  match s with
  | c :: r =>
      if ((c =? 101) || (c =? 69))%Z then
        let '(sg, r1) :=
          match r with
          | d :: r1 => if ((d =? CH_PLUS) || (d =? CH_MINUS))%Z then ([d], r1) else ([], r)
          | [] => ([], [])
          end in
        match span_digits r1 with
        | ([], _) => None
        | (ds, r2) => Some (c :: sg ++ ds, r2)
        end
      else Some ([], s)
  | [] => Some ([], [])
  end.

(** The text of a number literal and what follows it. *)
Definition scan_number (s : jstr) : option (jstr * jstr) :=
  let '(sg, r) := match s with
                  | c :: r => if (c =? CH_MINUS)%Z then ([c], r) else ([], s)
                  | [] => ([], [])
                  end in
  match scan_int r with
  | Some (i, r1) =>
      match scan_frac r1 with
      | Some (f, r2) =>
          match scan_exp r2 with
          | Some (e, r3) => Some (sg ++ i ++ f ++ e, r3)
          | None => None
          end
      | None => None
      end
  | None => None
  end.

(** [p] at the front of [s], and what follows it. *)
Fixpoint strip (p s : jstr) : option jstr :=
  match p with
  | [] => Some s
  | a :: p' =>
      match s with
      | b :: s' => if (a =? b)%Z then strip p' s' else None
      | [] => None
      end
  end.

(** [true], [false] and [null]. *)
Definition literal (s : jstr) : option (jvalue * jstr) :=
  match strip ‹"true"› s with
  | Some r => Some (JBool true, r)
  | None =>
      match strip ‹"false"› s with
      | Some r => Some (JBool false, r)
      | None =>
          match strip ‹"null"› s with
          | Some r => Some (JNull, r)
          | None => None
          end
      end
  end.

(** A number literal and its value. *)
Definition number (s : jstr) : option (jvalue * jstr) :=
  match scan_number s with
  | Some (lit, r) =>
      match str_decimal lit with
      | Some n => Some (JNum n, r)
      | None => None
      end
  | None => None
  end.

Fixpoint parse_value (fuel : nat) (s : jstr) : option (jvalue * jstr) :=
  match fuel with
  | O => None
  | S f =>
      match skip_ws s with
      | [] => None
      | c :: r =>
          if (c =? CH_LBRACE)%Z then
            match skip_ws r with
            | c' :: r' =>
                if (c' =? CH_RBRACE)%Z then Some (JObj [], r')
                else match parse_members f (c' :: r') with
                     | Some (fs, r'') => Some (JObj fs, r'')
                     | None => None
                     end
            | [] => None
            end
          else if (c =? CH_LBRACKET)%Z then
            match skip_ws r with
            | c' :: r' =>
                if (c' =? CH_RBRACKET)%Z then Some (JArr [], r')
                else match parse_elems f (c' :: r') with
                     | Some (vs, r'') => Some (JArr vs, r'')
                     | None => None
                     end
            | [] => None
            end
          else if (c =? CH_QUOTE)%Z then
            match string_body r with
            | Some (t, r') => Some (JStr t, r')
            | None => None
            end
          else
            match literal (c :: r) with
            | Some p => Some p
            | None => number (c :: r)
            end
      end
  end
(** The elements of an array, from the first one on. *)
with parse_elems (fuel : nat) (s : jstr) : option (list jvalue * jstr) :=
  match fuel with
  | O => None
  | S f =>
      match parse_value f s with
      | Some (v, r) =>
          match skip_ws r with
          | c :: r' =>
              if (c =? CH_COMMA)%Z then
                match parse_elems f r' with
                | Some (vs, r'') => Some (v :: vs, r'')
                | None => None
                end
              else if (c =? CH_RBRACKET)%Z then Some ([v], r')
              else None
          | [] => None
          end
      | None => None
      end
  end
(** The members of an object, from the first key on. *)
with parse_members (fuel : nat) (s : jstr) : option (list (jstr * jvalue) * jstr) :=
  match fuel with
  | O => None
  | S f =>
      match skip_ws s with
      | c :: r =>
          if (c =? CH_QUOTE)%Z then
            match string_body r with
            | Some (k, r1) =>
                match skip_ws r1 with
                | c1 :: r2 =>
                    if (c1 =? CH_COLON)%Z then
                      match parse_value f r2 with
                      | Some (v, r3) =>
                          match skip_ws r3 with
                          | c3 :: r4 =>
                              if (c3 =? CH_COMMA)%Z then
                                match parse_members f r4 with
                                | Some (fs, r5) => Some ((k, v) :: fs, r5)
                                | None => None
                                end
                              else if (c3 =? CH_RBRACE)%Z then Some ([(k, v)], r4)
                              else None
                          | [] => None
                          end
                      | None => None
                      end
                    else None
                | [] => None
                end
            | None => None
            end
          else None
      | [] => None
      end
  end.

(** [JSON.parse(s)]: a value and nothing but white space after it; [None]
    is the [SyntaxError]. *)
Definition json_parse (s : jstr) : option jvalue :=
  match parse_value (2 * length s + 1)%nat s with
  | Some (v, r) => if decide (skip_ws r = []) then Some v else None
  | None => None
  end.

(** ** Quoting reads back *)

Lemma hex_char_val d : (0 <= d < 16)%Z -> digit_val 16 (hex_char d) = Some d.
Proof.
  intros Hd. unfold hex_char, digit_val. destruct (Z.ltb_spec d 10).
  - rewrite (proj2 (Z.leb_le 48 (48 + d))), (proj2 (Z.leb_le (48 + d) 57)) by lia. simpl.
    replace (48 + d - 48) with d by lia. destruct (Z.ltb_spec d 16); [done|lia].
  - rewrite (proj2 (Z.leb_gt (87 + d) 57)) by lia. rewrite andb_false_r.
    rewrite (proj2 (Z.leb_le 97 (87 + d))), (proj2 (Z.leb_le (87 + d) 122)) by lia. simpl.
    replace (87 + d - 87) with d by lia. destruct (Z.ltb_spec d 16); [done|lia].
Qed.

Lemma hex4_escape c :
  0 <= c < 65536 ->
  hex4 (hex_char (c / 4096)) (hex_char ((c / 256) mod 16)) (hex_char ((c / 16) mod 16)) (hex_char (c mod 16)) = Some c.
Proof.
  intros Hc. unfold hex4.
  rewrite !hex_char_val by first [apply Z.mod_pos_bound; lia
                                 | split; [apply Z.div_pos; lia|apply Z.div_lt_upper_bound; lia]].
  f_equal.
  assert (E1 : c = 16 * (c / 16) + c mod 16) by (apply Z.div_mod; lia).
  assert (E2 : c / 16 = 16 * (c / 256) + (c / 16) mod 16)
    by (rewrite (Z.div_mod (c / 16) 16) at 1 by lia; rewrite Z.div_div by lia; reflexivity).
  assert (E3 : c / 256 = 16 * (c / 4096) + (c / 256) mod 16)
    by (rewrite (Z.div_mod (c / 256) 16) at 1 by lia; rewrite Z.div_div by lia; reflexivity).
  lia.
Qed.

Lemma short_escape_spec c e :
  short_escape c = Some e ->
  unescape e = Some c /\ e <> 117 /\ (c = CH_QUOTE \/ c = CH_BACKSLASH \/ c < 32) /\ 0 <= e < 128.
Proof.
  unfold short_escape.
  repeat (match goal with |- context [if (c =? ?k) then _ else _] => destruct (Z.eqb_spec c k) as [->|?] end;
          [intros [= <-]; split_and!; [reflexivity|discriminate|unfold CH_QUOTE, CH_BACKSLASH; lia|
                                       unfold CH_QUOTE, CH_BACKSLASH; lia..]|]).
  discriminate.
Qed.

Lemma short_escape_none c : short_escape c = None -> c <> CH_QUOTE /\ c <> CH_BACKSLASH.
Proof.
  unfold short_escape. intros H. split; intros ->; revert H; vm_compute; discriminate.
Qed.

(** [JSON.parse] reads the body [QuoteJSONString] writes. *)
Lemma string_body_quote s rest :
  Utf8.units16 s -> string_body (quote_units s ++ CH_QUOTE :: rest) = Some (s, rest).
Proof.
  induction s as [s IH] using (induction_ltof1 _ (@length Z)); unfold ltof in IH.
  destruct s as [|c r]; intros Hu; [done|]. apply Utf8.units16_cons in Hu as [Hc Hr].
  assert (Hesc : forall t, string_body (unicode_escape c ++ t) =
                           match string_body t with Some (x, y) => Some (c :: x, y) | None => None end).
  { intros t. cbn -[hex_char Z.div Z.modulo]. rewrite hex4_escape by lia. by destruct (string_body t) as [[]|]. }
  cbn [quote_units]. destruct (short_escape c) as [e|] eqn:Hs.
  - destruct (short_escape_spec c e Hs) as (Hun & He & _). cbn [app string_body].
    rewrite (proj2 (Z.eqb_neq CH_BACKSLASH CH_QUOTE)), Z.eqb_refl by discriminate.
    destruct e as [|[]|]; try discriminate;
      (try (rewrite Hun, IH by (simpl; lia || done); done));
      (destruct p; try (rewrite Hun, IH by (simpl; lia || done); done)).
  - destruct (short_escape_none c Hs) as [Hq Hb].
    destruct (c <? 32) eqn:Hl; [rewrite <- app_assoc, Hesc, IH by (simpl; lia || done); done|].
    apply Z.ltb_ge in Hl.
    assert (Hraw : forall t, string_body (c :: t) =
                             match string_body t with Some (x, y) => Some (c :: x, y) | None => None end).
    { intros t. simpl. rewrite (proj2 (Z.eqb_neq c CH_QUOTE)), (proj2 (Z.eqb_neq c CH_BACKSLASH)) by done.
      by rewrite (proj2 (Z.ltb_ge c 32)) by done. }
    destruct (Utf8.is_high_surrogate c) eqn:Hh.
    + destruct r as [|d r'].
      * rewrite Hesc. done.
      * apply Utf8.units16_cons in Hr as [Hd Hr'].
        destruct (Utf8.is_low_surrogate d) eqn:Hlo.
        -- cbn [app]. rewrite Hraw.
           assert (Hd32 : 32 <= d) by (unfold Utf8.is_low_surrogate in Hlo; apply andb_prop in Hlo as [H1 _]; lia).
           assert (Hraw' : forall t, string_body (d :: t) =
                               match string_body t with Some (x, y) => Some (d :: x, y) | None => None end).
           { intros t. unfold Utf8.is_low_surrogate in Hlo. apply andb_prop in Hlo as [H1 H2].
             apply Z.leb_le in H1, H2. simpl.
             rewrite (proj2 (Z.eqb_neq d CH_QUOTE)), (proj2 (Z.eqb_neq d CH_BACKSLASH)) by (cbv; lia).
             by rewrite (proj2 (Z.ltb_ge d 32)) by lia. }
           rewrite Hraw', IH by (simpl; lia || done). done.
        -- rewrite <- app_assoc, Hesc, IH by (simpl; lia || by apply Utf8.units16_cons). done.
    + destruct (Utf8.is_low_surrogate c).
      * rewrite <- app_assoc, Hesc, IH by (simpl; lia || done). done.
      * cbn [app]. rewrite Hraw, IH by (simpl; lia || done). done.
Qed.

(** ** Scanning a printed number *)

(** What may follow a number literal without extending it. *)
Definition num_stop (X : jstr) : Prop :=
  match X with
  | [] => True
  | c :: _ => is_digit_ch c = false /\ c <> CH_DOT /\ c <> 101 /\ c <> 69
  end.

Definition no_digit (X : jstr) : Prop :=
  match X with [] => True | c :: _ => is_digit_ch c = false end.

Lemma is_digit_ch_dec d : is_dec d -> is_digit_ch (d + 48) = true.
Proof. unfold is_dec, is_digit_ch. intros Hd. apply andb_true_intro; split; apply Z.leb_le; lia. Qed.

Lemma span_digits_chars ds X :
  Forall is_dec ds -> no_digit X -> span_digits (digit_chars ds ++ X) = (digit_chars ds, X).
Proof.
  induction 1 as [|d ds Hd _ IH]; intros HX.
  - destruct X as [|c X]; [done|]. simpl in HX |- *. by rewrite HX.
  - simpl. rewrite is_digit_ch_dec by done. by rewrite IH.
Qed.

Lemma scan_int_digits d ds X :
  (1 <= d <= 9) -> Forall is_dec ds -> no_digit X ->
  scan_int (digit_chars (d :: ds) ++ X) = Some (digit_chars (d :: ds), X).
Proof.
  intros Hd Hds HX. simpl. rewrite (proj2 (Z.eqb_neq (d + 48) 48)) by lia.
  rewrite (proj2 (Z.leb_le 49 (d + 48))), (proj2 (Z.leb_le (d + 48) 57)) by lia. simpl.
  by rewrite span_digits_chars.
Qed.

Lemma scan_frac_none X : (match X with [] => True | c :: _ => c <> CH_DOT end) -> scan_frac X = Some ([], X).
Proof. destruct X as [|c X]; [done|]. intros Hc. simpl. by rewrite (proj2 (Z.eqb_neq c CH_DOT)). Qed.

Lemma scan_frac_digits F X :
  Forall is_dec F -> F <> [] -> no_digit X ->
  scan_frac (CH_DOT :: digit_chars F ++ X) = Some (CH_DOT :: digit_chars F, X).
Proof.
  intros HF Hne HX. simpl. rewrite span_digits_chars by done. by destruct F.
Qed.

Lemma scan_exp_none X :
  (match X with [] => True | c :: _ => c <> 101 /\ c <> 69 end) -> scan_exp X = Some ([], X).
Proof.
  destruct X as [|c X]; [done|]. intros [H1 H2]. simpl.
  by rewrite (proj2 (Z.eqb_neq c 101)), (proj2 (Z.eqb_neq c 69)).
Qed.

Lemma scan_exp_digits sg D X :
  (sg = CH_PLUS \/ sg = CH_MINUS) -> Forall is_dec D -> D <> [] -> no_digit X ->
  scan_exp (CH_E :: sg :: digit_chars D ++ X) = Some (CH_E :: [sg] ++ digit_chars D, X).
Proof.
  intros Hs HD Hne HX. simpl.
  destruct Hs as [-> | ->]; simpl; rewrite span_digits_chars by done; by destruct D.
Qed.

Lemma scan_int_nonempty s r : scan_int s <> Some ([], r).
Proof.
  unfold scan_int. destruct s as [|c s]; [done|]. destruct (c =? 48)%Z; [done|].
  destruct (_ && _); [|done]. by destruct (span_digits s).
Qed.

Lemma scan_number_parts sg I F E X :
  (sg = [] /\ (match I with c :: _ => c <> CH_MINUS | [] => True end) \/ sg = [CH_MINUS]) ->
  scan_int (I ++ F ++ E ++ X) = Some (I, F ++ E ++ X) -> scan_frac (F ++ E ++ X) = Some (F, E ++ X) ->
  scan_exp (E ++ X) = Some (E, X) ->
  scan_number (sg ++ I ++ F ++ E ++ X) = Some (sg ++ I ++ F ++ E, X).
Proof.
  intros Hsg HI HF HE. unfold scan_number.
  destruct Hsg as [[-> HI0]| ->].
  - destruct I as [|c I']; [by destruct (scan_int_nonempty _ _ HI)|]. rewrite <- app_comm_cons in HI. rewrite app_nil_l, <- app_comm_cons.
    rewrite (proj2 (Z.eqb_neq c CH_MINUS)) by done. cbv beta iota zeta. rewrite HI, HF, HE.
    by rewrite app_nil_l, <- app_comm_cons.
  - cbn [app]. rewrite Z.eqb_refl. cbv beta iota zeta. rewrite HI, HF, HE. done.
Qed.

(** The text of [Number::toString] is a JSON number literal, and the
    scanner takes all of it. *)
Lemma scan_layout ds n X :
  Forall is_dec ds -> head ds <> Some 0 -> ds <> [] -> num_stop X ->
  scan_number (layout ds n ++ X) = Some (layout ds n, X) /\
  scan_number ((CH_MINUS :: layout ds n) ++ X) = Some (CH_MINUS :: layout ds n, X).
Proof.
  intros Hd Hh Hne HX.
  assert (HXd : no_digit X) by (destruct X; simpl in *; tauto).
  assert (HXf : match X with [] => True | c :: _ => c <> CH_DOT end) by (destruct X; simpl in *; tauto).
  assert (HXe : match X with [] => True | c :: _ => c <> 101 /\ c <> 69 end) by (destruct X; simpl in *; tauto).
  destruct ds as [|d ds']; [done|]. inversion Hd as [|? ? Hd0 Hds']; subst.
  assert (Hd1 : 1 <= d <= 9) by (unfold is_dec in Hd0; simpl in Hh; assert (d <> 0) by congruence; lia).
  enough (H : exists I F E, layout (d :: ds') n = I ++ F ++ E /\
                (match I with c :: _ => c <> CH_MINUS | [] => True end) /\
                scan_int (I ++ F ++ E ++ X) = Some (I, F ++ E ++ X) /\
                scan_frac (F ++ E ++ X) = Some (F, E ++ X) /\ scan_exp (E ++ X) = Some (E, X)).
  { destruct H as (I & F & E & Hl & HI0 & H1 & H2 & H3). rewrite Hl, <- !app_assoc. split.
    - change (I ++ F ++ E ++ X) with ([] ++ I ++ F ++ E ++ X).
      rewrite (scan_number_parts [] I F E X) by (auto || done). done.
    - rewrite <- app_comm_cons, <- !app_assoc.
      change (CH_MINUS :: I ++ F ++ E ++ X) with ([CH_MINUS] ++ I ++ F ++ E ++ X).
      rewrite (scan_number_parts [CH_MINUS] I F E X) by (auto || done). done. }
  assert (Hz : forall j, Forall is_dec (replicate j 0)) by (intros j; apply Forall_replicate; unfold is_dec; lia).
  unfold layout. set (k := Z.of_nat (length (d :: ds'))).
  destruct ((k <=? n) && (n <=? 21)) eqn:C1; [|destruct ((0 <? n) && (n <=? 21)) eqn:C2;
    [|destruct ((-6 <? n) && (n <=? 0)) eqn:C3]].
  - exists (digit_chars ((d :: ds') ++ replicate (Z.to_nat (n - k)) 0)), [], [].
    split_and!; [by rewrite app_nil_r, digit_chars_app|simpl; unfold CH_MINUS; lia| | |].
    + apply scan_int_digits; [done|apply Forall_app; split; [done|apply Hz]|done].
    + by apply scan_frac_none.
    + by apply scan_exp_none.
  - apply andb_prop in C2 as [C2 C2']. apply Z.ltb_lt in C2. apply Z.leb_le in C2'.
    assert (Hlt : n < k) by (apply andb_false_iff in C1 as [C1|C1]; apply Z.leb_gt in C1; lia).
    destruct (Z.to_nat n) as [|m] eqn:Hm; [lia|].
    assert (Hdrop : drop (S m) (d :: ds') <> []).
    { intros E. apply (f_equal length) in E. rewrite length_drop in E. subst k. simpl in E, Hlt. lia. }
    exists (digit_chars (take (S m) (d :: ds'))), (CH_DOT :: digit_chars (drop (S m) (d :: ds'))), [].
    split_and!; [by rewrite app_nil_r|simpl; unfold CH_MINUS; lia| | |].
    + simpl take. apply scan_int_digits; [done|by apply Forall_take|done].
    + rewrite app_nil_l. apply scan_frac_digits; [by apply Forall_drop|done|done].
    + by apply scan_exp_none.
  - exists [48], (CH_DOT :: digit_chars (replicate (Z.to_nat (- n)) 0 ++ d :: ds')), [].
    split_and!; [by rewrite app_nil_r|discriminate|reflexivity| |].
    + rewrite app_nil_l. apply scan_frac_digits; [apply Forall_app; split; [apply Hz|done]| |done].
      intros E. apply (f_equal length) in E. rewrite length_app in E. simpl in E. lia.
    + by apply scan_exp_none.
  - set (E := CH_E :: (if 0 <=? n - 1 then CH_PLUS else CH_MINUS) :: digit_chars (dec_digits (Z.abs (n - 1)))).
    assert (Hex : n - 1 <> 0) by (intros Hn; assert (n = 1) as -> by lia; cbv in C2; discriminate).
    assert (HE : scan_exp (E ++ X) = Some (E, X)).
    { subst E. rewrite <- app_comm_cons, <- app_comm_cons. apply scan_exp_digits;
        [by destruct (0 <=? n - 1); [left|right]|apply dec_digits_spec; lia| |done].
      intros E. destruct (dec_digits_spec (Z.abs (n - 1)) ltac:(lia)) as (_ & _ & Hv & _).
      rewrite E in Hv. change (value_of 10 []) with 0 in Hv. lia. }
    assert (HEd : no_digit (E ++ X)) by (subst E; reflexivity).
    destruct ds' as [|d' r].
    + exists (digit_chars [d]), [], E. subst k. cbn [length Z.of_nat Z.eqb]. simpl take.
      split_and!; [done|simpl; unfold CH_MINUS; lia| |by apply scan_frac_none|done].
      apply (scan_int_digits d []); [done|done|done].
    + assert (Hk1 : (k =? 1) = false) by (apply Z.eqb_neq; subst k; simpl; lia). rewrite Hk1.
      exists (digit_chars [d]), (CH_DOT :: digit_chars (d' :: r)), E. simpl take. simpl drop.
      split_and!; [done|simpl; unfold CH_MINUS; lia| | |done].
      * apply (scan_int_digits d []); [done|done|done].
      * apply scan_frac_digits; [done|discriminate|done].
Qed.

Lemma scan_pos q X :
  num_stop X ->
  scan_number (pos_to_string q ++ X) = Some (pos_to_string q, X) /\
  scan_number ((CH_MINUS :: pos_to_string q) ++ X) = Some (CH_MINUS :: pos_to_string q, X).
Proof.
  intros HX. unfold pos_to_string. destruct (shortest q) as [[[s n] k]|] eqn:Hs.
  - destruct (shortest_valid q s n k Hs) as (Hk & Hr & _).
    assert (Hs0 : 0 < s) by (pose proof (Z.pow_pos_nonneg 10 (Z.of_nat k - 1)); lia).
    destruct (dec_digits_spec s Hs0) as (Hd & Hh & Hv & _).
    apply scan_layout; [done|done| |done]. intros E. rewrite E in Hv. change (value_of 10 []) with 0 in Hv. lia.
  - assert (HXd : no_digit X) by (destruct X; simpl in *; tauto).
    assert (HXf : match X with [] => True | c :: _ => c <> CH_DOT end) by (destruct X; simpl in *; tauto).
    assert (HXe : match X with [] => True | c :: _ => c <> 101 /\ c <> 69 end) by (destruct X; simpl in *; tauto).
    split.
    + change (‹"0"› ++ X) with ([] ++ [48] ++ [] ++ [] ++ X).
      rewrite (scan_number_parts [] [48] [] [] X); [done|left; split; [done|discriminate]|done| |].
      * by apply scan_frac_none.
      * by apply scan_exp_none.
    + change ((CH_MINUS :: ‹"0"›) ++ X) with ([CH_MINUS] ++ [48] ++ [] ++ [] ++ X).
      rewrite (scan_number_parts [CH_MINUS] [48] [] [] X); [done|by right|done| |].
      * by apply scan_frac_none.
      * by apply scan_exp_none.
Qed.

(** ** Values *)

Section JInd.
Variable P : jvalue -> Prop.
Hypothesis Hnull : P JNull.
Hypothesis Hbool : forall b, P (JBool b).
Hypothesis Hnum : forall n, P (JNum n).
Hypothesis Hstr : forall s, P (JStr s).
Hypothesis Harr : forall l, Forall P l -> P (JArr l).
Hypothesis Hobj : forall fs, Forall (fun kv => P kv.2) fs -> P (JObj fs).

(** Induction on values, with the nested lists of arrays and objects. *)
Fixpoint jvalue_ind' (v : jvalue) : P v :=
  match v with
  | JNull => Hnull
  | JBool b => Hbool b
  | JNum n => Hnum n
  | JStr s => Hstr s
  | JArr l =>
      Harr l ((fix go (l : list jvalue) : Forall P l :=
                 match l with [] => Forall_nil_2 _ | x :: l' => Forall_cons_2 _ _ _ (jvalue_ind' x) (go l') end) l)
  | JObj fs =>
      Hobj fs ((fix go (fs : list (jstr * jvalue)) : Forall (fun kv => P kv.2) fs :=
                  match fs with
                  | [] => Forall_nil_2 _
                  | kv :: fs' => Forall_cons_2 _ _ _ (jvalue_ind' kv.2) (go fs')
                  end) fs)
  end.
End JInd.

(** Values [JSON.stringify] prints and [JSON.parse] reads back: strings
    of 16-bit units, numbers that are doubles other than [-0]. *)
Fixpoint json_ok (v : jvalue) : Prop :=
  match v with
  | JNull | JBool _ => True
  | JNum (Fin q) => is_double (Fin q)
  | JNum _ => False
  | JStr s => Utf8.units16 s
  | JArr l => (fix all (l : list jvalue) : Prop :=
                 match l with [] => True | x :: l' => json_ok x /\ all l' end) l
  | JObj fs => (fix all (fs : list (jstr * jvalue)) : Prop :=
                  match fs with [] => True | (k, x) :: fs' => (Utf8.units16 k /\ json_ok x) /\ all fs' end) fs
  end.

Lemma json_ok_arr l : json_ok (JArr l) <-> Forall json_ok l.
Proof.
  simpl. induction l as [|x l IH]; [split; [constructor|done]|]. rewrite Forall_cons, <- IH. done.
Qed.

Lemma json_ok_obj fs : json_ok (JObj fs) <-> Forall (fun kv => Utf8.units16 kv.1 /\ json_ok kv.2) fs.
Proof.
  simpl. induction fs as [|[k x] fs IH]; [split; [constructor|done]|]. rewrite Forall_cons, <- IH. done.
Qed.

(** The fuel a parse of the value needs. *)
Fixpoint jsize (v : jvalue) : nat :=
  match v with
  | JArr l => S (sum_list (map (fun x => S (jsize x)) l))
  | JObj fs => S (sum_list (map (fun kv => S (jsize kv.2)) fs))
  | _ => 1%nat
  end.

(** What may follow a value inside a text [stringify] writes. *)
Definition value_stop (X : jstr) : Prop :=
  match X with [] => True | c :: _ => c = CH_COMMA \/ c = CH_RBRACKET \/ c = CH_RBRACE end.

Lemma value_stop_num X : value_stop X -> num_stop X.
Proof. destruct X as [|c X]; [done|]. intros [-> | [-> | ->]]; split_and!; done. Qed.

Lemma parse_value_ws f c r :
  is_json_ws c = false -> parse_value (S f) (c :: r) =
    if (c =? CH_LBRACE) then
      match skip_ws r with
      | c' :: r' => if (c' =? CH_RBRACE) then Some (JObj [], r')
                    else match parse_members f (c' :: r') with Some (fs, r'') => Some (JObj fs, r'') | None => None end
      | [] => None
      end
    else if (c =? CH_LBRACKET) then
      match skip_ws r with
      | c' :: r' => if (c' =? CH_RBRACKET) then Some (JArr [], r')
                    else match parse_elems f (c' :: r') with Some (vs, r'') => Some (JArr vs, r'') | None => None end
      | [] => None
      end
    else if (c =? CH_QUOTE) then
      match string_body r with Some (t, r') => Some (JStr t, r') | None => None end
    else match literal (c :: r) with Some p => Some p | None => number (c :: r) end.
Proof. intros Hc. simpl. by rewrite Hc. Qed.

(** ** What the first character says *)

(** An object or an array: what [express.json()] accepts in strict mode. *)
Definition is_container (v : jvalue) : bool :=
  match v with JObj _ | JArr _ => true | _ => false end.

Lemma literal_kind s v r : literal s = Some (v, r) -> is_container v = false.
Proof. unfold literal. by repeat case_match; intros [= <- _]. Qed.

Lemma number_kind s v r : number s = Some (v, r) -> is_container v = false.
Proof. unfold number. by repeat case_match; intros [= <- _]. Qed.

(** A value parses to an object or an array exactly when its first
    character after white space is a brace or a bracket. *)
Lemma parse_value_kind f s v r :
  parse_value f s = Some (v, r) ->
  exists c t, skip_ws s = c :: t /\ (is_container v = true <-> c = CH_LBRACE \/ c = CH_LBRACKET).
Proof.
  destruct f as [|f]; [done|]. cbn [parse_value]. destruct (skip_ws s) as [|c t]; [done|]. intros H.
  exists c, t. split; [done|].
  destruct (Z.eqb_spec c CH_LBRACE) as [->|H1]; [repeat case_match; simplify_eq; by split; [left|]|].
  destruct (Z.eqb_spec c CH_LBRACKET) as [->|H2]; [repeat case_match; simplify_eq; by split; [right|]|].
  assert (is_container v = false) as ->; [|split; [done|by intros [|]]].
  destruct (c =? CH_QUOTE); [by repeat case_match; simplify_eq|].
  destruct (literal (c :: t)) as [[v' r']|] eqn:Hl; [simplify_eq; by eapply literal_kind|].
  by eapply number_kind.
Qed.

(** ** The round trip *)

Lemma number_text_scan q X :
  num_stop X -> scan_number (number_to_string (Fin q) ++ X) = Some (number_to_string (Fin q), X).
Proof.
  intros HX. unfold number_to_string. destruct (Qeq_bool q 0).
  - change (‹"0"› ++ X) with ([] ++ [48] ++ [] ++ [] ++ X).
    rewrite (scan_number_parts [] [48] [] [] X); [done|by left|reflexivity|apply scan_frac_none|apply scan_exp_none];
      destruct X as [|c X]; simpl in HX; tauto.
  - destruct (Qle_bool 0 q); [apply scan_pos, HX|apply scan_pos, HX].
Qed.

Lemma pos_to_string_head q : exists c t, pos_to_string q = c :: t /\ is_digit_ch c = true.
Proof.
  unfold pos_to_string. destruct (shortest q) as [[[s n] k]|] eqn:Hs; [|by eexists _, _].
  destruct (shortest_valid q s n k Hs) as (Hk & Hr & _).
  assert (Hs0 : 0 < s) by (pose proof (Z.pow_pos_nonneg 10 (Z.of_nat k - 1)); lia).
  destruct (dec_digits_spec s Hs0) as (Hd & _ & Hv & _).
  destruct (layout_head (dec_digits s) n Hd) as (c & t & Ht & Hc).
  { intros E. rewrite E in Hv. change (value_of 10 []) with 0 in Hv. lia. }
  exists c, t. split; [done|]. exact Hc.
Qed.

Lemma number_text_head q :
  exists c t, number_to_string (Fin q) = c :: t /\ (is_digit_ch c = true \/ c = CH_MINUS).
Proof.
  unfold number_to_string. destruct (Qeq_bool q 0); [by eexists _, _; split; [reflexivity|left]|].
  destruct (Qle_bool 0 q).
  - destruct (pos_to_string_head q) as (c & t & -> & Hc). eexists _, _. split; [reflexivity|by left].
  - eexists _, _. split; [reflexivity|by right].
Qed.

Lemma literal_other c t : c <> 116 -> c <> 102 -> c <> 110 -> literal (c :: t) = None.
Proof.
  intros H1 H2 H3. unfold literal.
  change ‹"true"› with [116;114;117;101]; change ‹"false"› with [102;97;108;115;101]; change ‹"null"› with [110;117;108;108].
  cbn [strip].
  repeat match goal with |- context [(?k =? c)%Z] => rewrite (proj2 (Z.eqb_neq k c)) by congruence end.
  done.
Qed.

(** The first character of a printed value. *)
Lemma stringify_head v :
  json_ok v -> exists c t, stringify v = c :: t /\ is_json_ws c = false /\ c <> CH_RBRACKET /\ c <> CH_RBRACE.
Proof.
  destruct v as [| [] | [| | |q|] | s | l | fs]; intros Hv; cbn [json_ok] in Hv; try done; cbn [stringify];
    try (eexists _, _; split; [reflexivity|done]).
  destruct (number_text_head q) as (c & t & -> & Hc). exists c, t. split; [done|].
  unfold is_digit_ch in Hc. destruct Hc as [Hc| ->]; [|done]. apply andb_prop in Hc as [H1 H2].
  apply Z.leb_le in H1, H2. unfold is_json_ws.
  repeat rewrite (proj2 (Z.eqb_neq c _)) by lia. split_and!; [done|unfold CH_RBRACKET; lia|unfold CH_RBRACE; lia].
Qed.

Definition esize (l : list jvalue) : nat := sum_list (map (fun x => S (jsize x)) l).
Definition msize (fs : list (jstr * jvalue)) : nat := sum_list (map (fun kv => S (jsize kv.2)) fs).

Lemma join_elems_more g x y l : join_elems g (x :: y :: l) = g x ++ CH_COMMA :: join_elems g (y :: l).
Proof. done. Qed.

Lemma join_members_more g k x kv fs :
  join_members g ((k, x) :: kv :: fs) = quote k ++ CH_COLON :: g x ++ CH_COMMA :: join_members g (kv :: fs).
Proof. by destruct kv. Qed.

Ltac app_norm := repeat (rewrite <- app_assoc || rewrite <- app_comm_cons); rewrite ?app_nil_l.

Section Roundtrip.
(** What the value case says, for the elements and members. *)
Definition parses (v : jvalue) : Prop :=
  json_ok v -> forall f rest, (jsize v <= f)%nat -> value_stop rest ->
  parse_value f (stringify v ++ rest) = Some (v, rest).

Lemma parse_join_elems l :
  Forall parses l -> Forall json_ok l -> l <> [] ->
  forall f rest, (esize l <= f)%nat -> parse_elems f (join_elems stringify l ++ rest) = Some (l, rest).
Proof.
  induction 1 as [|x l Hx Hl IH]; intros Hok Hne f rest Hf; [done|].
  apply Forall_cons in Hok as [Hox Hol]. unfold esize in Hf. simpl in Hf.
  destruct f as [|f]; [lia|]. destruct l as [|y l].
  - cbn [join_elems]. simpl parse_elems. app_norm.
    rewrite (Hx Hox f) by (lia || (right; left; done)). done.
  - rewrite join_elems_more. remember (join_elems stringify (y :: l)) as J eqn:HJ.
    simpl parse_elems. app_norm.
    rewrite (Hx Hox f) by (lia || (left; done)). simpl. subst J.
    rewrite (IH Hol) by (done || unfold esize in *; simpl in *; lia). done.
Qed.

Lemma parse_join_members fs :
  Forall (fun kv => parses kv.2) fs -> Forall (fun kv => Utf8.units16 kv.1 /\ json_ok kv.2) fs -> fs <> [] ->
  forall f rest, (msize fs <= f)%nat -> parse_members f (join_members stringify fs ++ rest) = Some (fs, rest).
Proof.
  induction 1 as [|[k x] fs Hx Hl IH]; intros Hok Hne f rest Hf; [done|].
  apply Forall_cons in Hok as [[Hk Hox] Hol]. unfold msize in Hf. simpl in Hf.
  destruct f as [|f]; [lia|]. simpl in Hx.
  destruct fs as [|[k' y] fs].
  - cbn [join_members]. unfold quote. simpl parse_members. app_norm.
    rewrite string_body_quote by done. simpl.
    rewrite (Hx Hox f) by (lia || (right; right; done)). done.
  - rewrite join_members_more. remember (join_members stringify ((k', y) :: fs)) as J eqn:HJ.
    unfold quote. simpl parse_members. app_norm. rewrite string_body_quote by done. simpl.
    rewrite (Hx Hox f) by (lia || (left; done)). simpl. subst J.
    rewrite (IH Hol) by (done || unfold msize in *; simpl in *; lia). done.
Qed.

(** [JSON.parse] reads what [JSON.stringify] writes, followed by a
    comma, a bracket, a brace or nothing. *)
Lemma parse_stringify v : parses v.
Proof.
  induction v as [| b | n | s | l IH | fs IH] using jvalue_ind'; intros Hok f rest Hf Hst;
    (destruct f as [|f]; [simpl in Hf; lia|]).
  - reflexivity.
  - by destruct b.
  - destruct n as [| | |q|]; try done. simpl in Hok.
    destruct (number_text_head q) as (c & t & Ht & Hc). cbn [stringify]. rewrite Ht. simpl app.
    assert (Hc' : 45 <= c <= 57 /\ c <> 46 /\ c <> 47)
      by (destruct Hc as [Hc| ->]; [unfold is_digit_ch in Hc; apply andb_prop in Hc as [H1 H2]; lia|done]).
    rewrite parse_value_ws by (unfold is_json_ws; repeat rewrite (proj2 (Z.eqb_neq c _)) by lia; done).
    repeat rewrite (proj2 (Z.eqb_neq c _)) by (unfold CH_LBRACE, CH_LBRACKET, CH_QUOTE; lia).
    rewrite literal_other by lia. unfold number. rewrite app_comm_cons, <- Ht.
    rewrite number_text_scan by (by apply value_stop_num). by rewrite (proj1 (number_to_string_read q Hok)).
  - cbn [stringify]. unfold quote. app_norm. rewrite parse_value_ws by done. simpl.
    by rewrite string_body_quote.
  - apply json_ok_arr in Hok. simpl stringify. rewrite <- app_comm_cons, parse_value_ws by done. simpl.
    destruct l as [|x l']; [done|].
    destruct (stringify_head x) as (c & t & Hxt & Hw & Hb & _); [by apply Forall_cons in Hok as []|].
    assert (Hj : exists u, join_elems stringify (x :: l') ++ rest = c :: u).
    { destruct l'; cbn [join_elems]; rewrite Hxt; by eexists. }
    destruct Hj as [u Hu]. rewrite Hu. cbn [skip_ws]. rewrite Hw. rewrite (proj2 (Z.eqb_neq c CH_RBRACKET)) by done.
    rewrite <- Hu, parse_join_elems by (done || (unfold esize; simpl in *; lia)). done.
  - apply json_ok_obj in Hok. simpl stringify. rewrite <- app_comm_cons, parse_value_ws by done. simpl.
    destruct fs as [|[k x] fs']; [done|].
    assert (Hj : exists u, join_members stringify ((k, x) :: fs') ++ rest = CH_QUOTE :: u).
    { destruct fs'; cbn [join_members]; unfold quote; by eexists. }
    destruct Hj as [u Hu]. rewrite Hu. simpl.
    rewrite <- Hu, parse_join_members by (done || (unfold msize; simpl in *; lia)). done.
Qed.
End Roundtrip.

Lemma join_elems_length l :
  Forall (fun x => (jsize x <= length (stringify x))%nat) l -> (esize l <= length (join_elems stringify l))%nat.
Proof.
  induction l as [|x l IH]; intros Hl; [unfold esize; simpl; lia|]. apply Forall_cons in Hl as [Hx Hl].
  specialize (IH Hl). unfold esize in *. destruct l as [|y l].
  - cbn [join_elems map sum_list]. rewrite length_app. simpl. unfold id. lia.
  - rewrite join_elems_more, length_app. cbn [map sum_list length] in *. unfold id in *. lia.
Qed.

Lemma join_members_length fs :
  Forall (fun kv => (jsize kv.2 <= length (stringify kv.2))%nat) fs ->
  (msize fs <= length (join_members stringify fs))%nat.
Proof.
  induction fs as [|[k x] fs IH]; intros Hl; [unfold msize; simpl; lia|]. apply Forall_cons in Hl as [Hx Hl].
  specialize (IH Hl). simpl in Hx. unfold msize in *. destruct fs as [|kv fs].
  - cbn [join_members map sum_list]. unfold quote. rewrite !length_app. simpl. rewrite !length_app. simpl. lia.
  - rewrite join_members_more. remember (join_members stringify (kv :: fs)) as J eqn:HJ.
    unfold quote. rewrite !length_app. simpl in *. rewrite !length_app. simpl. lia.
Qed.

(** A printed value has at least as many code units as nodes, so the
    fuel [2 * length + 1] of [json_parse] is enough. *)
Lemma jsize_le v : (jsize v <= length (stringify v))%nat.
Proof.
  induction v as [| b | n | s | l IH | fs IH] using jvalue_ind'.
  - simpl. lia.
  - destruct b; simpl; lia.
  - destruct n as [| | |q|]; try (simpl; lia).
    cbn [stringify jsize]. destruct (number_text_head q) as (c & t & -> & _). simpl. lia.
  - cbn [stringify jsize]. unfold quote. simpl. rewrite length_app. simpl. lia.
  - cbn [stringify jsize length]. apply le_n_S, join_elems_length, IH.
  - cbn [stringify jsize length]. apply le_n_S, join_members_length, IH.
Qed.

(** ** The printed text is well-formed UTF-16 *)

Lemma hex_char_ascii d : 0 <= d < 16 -> 0 <= hex_char d < 128.
Proof. unfold hex_char. zbool. Qed.

Lemma unicode_escape_ascii c : 0 <= c <= 0xFFFF -> Utf8.ascii (unicode_escape c).
Proof.
  intros Hc. unfold unicode_escape, Utf8.ascii.
  repeat constructor; try (unfold CH_BACKSLASH; lia); apply hex_char_ascii; zlia.
Qed.

Lemma quote_units_wf s : Utf8.units16 s -> Utf8.well_formed (quote_units s) = true.
Proof.
  induction s as [s IH] using (induction_ltof1 _ (@length Z)); unfold ltof in IH.
  destruct s as [|c r]; [done|]. intros Hs. apply Utf8.units16_cons in Hs as [Hc Hr].
  assert (Hesc : forall t, Utf8.well_formed t = true -> Utf8.well_formed (unicode_escape c ++ t) = true)
    by (intros t Ht; apply Utf8.well_formed_app; [by apply Utf8.ascii_well_formed, unicode_escape_ascii|done]).
  assert (IHr : Utf8.well_formed (quote_units r) = true) by (apply IH; [simpl; lia|done]).
  cbn [quote_units]. destruct (short_escape c) as [e|] eqn:He.
  { destruct (short_escape_spec c e He) as (_ & _ & _ & He').
    rewrite !Utf8.well_formed_cons_plain; try done; unfold CH_BACKSLASH, Utf8.is_high_surrogate, Utf8.is_low_surrogate;
      zbool; lia. }
  destruct (c <? 32) eqn:Hlt; [by apply Hesc|].
  destruct (Utf8.is_high_surrogate c) eqn:Hh.
  { destruct r as [|d r']; [by apply (Hesc [])|]. destruct (Utf8.is_low_surrogate d) eqn:Hd; [|by apply Hesc].
    apply Utf8.units16_cons in Hr as [Hd' Hr']. simpl. rewrite Hh, Hd. zbool. apply IH; [simpl; lia|done]. }
  destruct (Utf8.is_low_surrogate c) eqn:Hl; [by apply Hesc|].
  by rewrite Utf8.well_formed_cons_plain.
Qed.

Lemma number_text_ascii q : Utf8.ascii (number_to_string (Fin q)).
Proof.
  assert (Hnum : forall t, Forall (fun c => num_char c = true) t -> Utf8.ascii t).
  { intros t Ht. eapply Forall_impl; [exact Ht|]. intros c Hc. unfold num_char in Hc.
    repeat (apply orb_prop in Hc as [Hc|Hc]); unfold is_digit in *; [apply andb_prop in Hc as [H1 H2]; apply Z.leb_le in H1, H2; lia|..];
      apply Z.eqb_eq in Hc; subst c; unfold CH_DOT, CH_E, CH_PLUS, CH_MINUS; lia. }
  assert (Hpos : forall q, Utf8.ascii (pos_to_string q)).
  { intros q'. clear q. rename q' into q. unfold pos_to_string. destruct (shortest q) as [[[z n] k]|] eqn:Hs; [|decide_it].
    destruct (shortest_valid q z n k Hs) as (Hk & Hr & _).
    assert (Hz : 0 < z) by (pose proof (Z.pow_pos_nonneg 10 (Z.of_nat k - 1)); lia).
    apply Hnum, layout_chars, (dec_digits_spec z Hz). }
  unfold number_to_string. destruct (Qeq_bool q 0); [decide_it|].
  destruct (Qle_bool 0 q); [done|]. constructor; [unfold CH_MINUS; lia|apply Hpos].
Qed.

Lemma join_elems_wf g l :
  Forall (fun x => Utf8.well_formed (g x) = true) l -> Utf8.well_formed (join_elems g l) = true.
Proof.
  induction 1 as [|x l Hx Hl IH]; [done|]. destruct l as [|y l].
  - cbn [join_elems]. by apply Utf8.well_formed_app.
  - rewrite join_elems_more. apply Utf8.well_formed_app; [done|]. by rewrite Utf8.well_formed_cons_plain.
Qed.

Lemma join_members_wf g fs :
  Forall (fun kv => Utf8.units16 kv.1 /\ Utf8.well_formed (g kv.2) = true) fs ->
  Utf8.well_formed (join_members g fs) = true.
Proof.
  induction 1 as [|[k x] fs [Hk Hx] Hl IH]; [done|].
  assert (Hq : forall t, Utf8.well_formed t = true -> Utf8.well_formed (quote k ++ CH_COLON :: g x ++ t) = true).
  { intros t Ht. unfold quote. rewrite <- app_comm_cons, Utf8.well_formed_cons_plain by done. rewrite <- app_assoc.
    apply Utf8.well_formed_app; [by apply quote_units_wf|]. cbn [app]. rewrite !Utf8.well_formed_cons_plain by done.
    by apply Utf8.well_formed_app. }
  destruct fs as [|kv fs]; [by apply Hq|]. rewrite join_members_more.
  apply Hq. by rewrite Utf8.well_formed_cons_plain.
Qed.

(** What [JSON.stringify] writes has no lone surrogate: the UTF-8 that
    [res.json] sends decodes back to it. *)
Lemma stringify_wf v : json_ok v -> Utf8.well_formed (stringify v) = true.
Proof.
  induction v as [| b | n | s | l IH | fs IH] using jvalue_ind'; intros Hok.
  - reflexivity.
  - by destruct b.
  - destruct n as [| | |q|]; try done. apply Utf8.ascii_well_formed, number_text_ascii.
  - cbn [stringify]. unfold quote. rewrite Utf8.well_formed_cons_plain by done.
    apply Utf8.well_formed_app; [by apply quote_units_wf|done].
  - apply json_ok_arr in Hok. cbn [stringify]. rewrite Utf8.well_formed_cons_plain by done.
    apply join_elems_wf. apply Forall_forall. intros x Hx.
    apply (proj1 (Forall_forall _ _) IH x Hx). by apply (proj1 (Forall_forall _ _) Hok x Hx).
  - apply json_ok_obj in Hok. cbn [stringify]. rewrite Utf8.well_formed_cons_plain by done.
    apply join_members_wf. apply Forall_forall. intros kv Hkv.
    destruct (proj1 (Forall_forall _ _) Hok kv Hkv) as [Hk Hx]. split; [done|].
    by apply (proj1 (Forall_forall _ _) IH kv Hkv).
Qed.

(** [JSON.parse] inverts [JSON.stringify] on the values [json_ok] admits. *)
Lemma parse_stringify_text v : json_ok v -> json_parse (stringify v) = Some v.
Proof.
  intros Hv. unfold json_parse.
  pose proof (parse_stringify v Hv (2 * length (stringify v) + 1)%nat []) as Hp.
  rewrite app_nil_r in Hp. rewrite Hp; [done| |done]. pose proof (jsize_le v). lia.
Qed.

(** C5. JSON over UTF-8 round-trips: every value whose numbers are
    doubles and whose strings are sequences of 16-bit code units is read
    back as itself by [JSON.parse] from the UTF-8 bytes of its
    [JSON.stringify] text, lone surrogates included (they are escaped). *)
Theorem json_wire_roundtrip v : json_ok v -> json_parse (Utf8.decode (Utf8.encode (stringify v))) = Some v.
Proof. intros Hv. rewrite Utf8.decode_encode by (by apply stringify_wf). by apply parse_stringify_text. Qed.

Definition sample_value : jvalue :=
  JObj [(‹"path"›, JStr [47; 116; 0xD800; 10]); (‹"size"›, JNum (Fin (3 # 2)));
        (‹"entries"›, JArr [JNull; JBool true; JArr []; JObj []; JNum (Fin (-1 # 1))])].

Lemma json_wire_roundtrip_witness :
  json_ok sample_value /\ json_parse (Utf8.decode (Utf8.encode (stringify sample_value))) = Some sample_value.
Proof.
  assert (H : json_ok sample_value)
    by (cbn [json_ok sample_value]; repeat split; try (vm_compute; reflexivity); unfold Utf8.units16; apply (bool_decide_unpack _); vm_compute; exact I).
  split; [exact H|exact (json_wire_roundtrip sample_value H)].
Defined.

End JsonText.
