(* ===== verification/NodePath.v ===== *)
(** * Node's [path.posix]: [normalize], [join] and [dirname]

    Every handler resolves its path with [path.join(DATA_DIR, p)] (index.js
    lines 33, 56, 73, 94).  The list handler builds each entry's path with
    [path.join(dirPath, file.name)] (line 39), and the write handler takes
    [path.dirname(fullPath)] (line 74).  This file follows Node's
    [lib/path.js].  [normalizeString] is written over the segments between
    slashes: its character loop skips empty and [.] segments, and a [..]
    segment pops the last kept segment.  When the path is relative and
    nothing can be popped, [..] is kept.

    The theorems state what the handlers rely on and what they do not
    get.  [normalize] of an absolute path is the path of its clean
    segments ([normalize_abs]).  A path whose [..] segments never go
    above its start ([climbs] is false), joined under [/data], stays
    under [/data] ([join_data_within]).  A path with more [..] than
    segments before them leaves it ([join_data_escapes]). *)

From S2P Require Import Prelude Json.
Import Json.

Module NodePath.

(** ** Segments *)

(** [s.split('/')]. *)
Fixpoint split_slash (s : jstr) : list jstr :=
  match s with
  | [] => [[]]
  | c :: s' =>
      let segs := split_slash s' in
      if decide (c = CH_SLASH) then [] :: segs
      else match segs with
           | seg :: rest => (c :: seg) :: rest
           | [] => [[c]]
           end
  end.

(** [segs.join('/')]. *)
Fixpoint join_slash (segs : list jstr) : jstr :=
  match segs with
  | [] => []
  | [seg] => seg
  | seg :: rest => seg ++ CH_SLASH :: join_slash rest
  end.

Definition DOTDOT : jstr := [CH_DOT; CH_DOT].

(** One segment of [normalizeString]'s loop, on the stack of kept
    segments (top first). *)
Definition norm_seg (allow_above : bool) (acc : list jstr) (seg : jstr) : list jstr :=
  if decide (seg = []) then acc
  else if decide (seg = [CH_DOT]) then acc
  else if decide (seg = DOTDOT) then
    match acc with
    | top :: rest =>
        if decide (top = DOTDOT) then (if allow_above then DOTDOT :: acc else acc)
        else rest
    | [] => if allow_above then [DOTDOT] else []
    end
  else seg :: acc.

Definition normalize_string (p : jstr) (allow_above : bool) : jstr :=
  join_slash (rev (foldl (norm_seg allow_above) [] (split_slash p))).

(** [path.posix.normalize]. *)
Definition normalize (p : jstr) : jstr :=
  match p with
  | [] => [CH_DOT]
  | c0 :: _ =>
      let is_abs := bool_decide (c0 = CH_SLASH) in
      let trailing := bool_decide (last p = Some CH_SLASH) in
      let p' := normalize_string p (negb is_abs) in
      if decide (p' = []) then
        (if is_abs then [CH_SLASH] else if trailing then [CH_DOT; CH_SLASH] else [CH_DOT])
      else
        let p'' := if trailing then p' ++ [CH_SLASH] else p' in
        if is_abs then CH_SLASH :: p'' else p''
  end.

(** [path.posix.join(...args)]: each argument is validated as a string
    ([ERR_INVALID_ARG_TYPE] otherwise), the non-empty ones are joined with
    [/], and the result is normalised ([.] when all are empty). *)
Fixpoint join_args (joined : option jstr) (args : list (option jvalue)) :
    js_error + option jstr :=
  match args with
  | [] => inr joined
  | Some (JStr a) :: rest =>
      if decide (a = []) then join_args joined rest
      else join_args (Some (match joined with
                             | None => a
                             | Some j => j ++ CH_SLASH :: a
                             end)) rest
  | v :: _ => inl (invalid_arg_type "path" "of type string" v)
  end.

(** The arguments are JavaScript values; [None] is [undefined]. *)
Definition join (args : list (option jvalue)) : js_error + jstr :=
  match join_args None args with
  | inl e => inl e
  | inr None => inr [CH_DOT]
  | inr (Some j) => inr (normalize j)
  end.

(** [path.posix.dirname]: scanning from the end, skip the trailing
    slashes, then the last segment; the prefix before the slash found
    there is the directory.  The first character is never examined. *)
Fixpoint dirname_scan (matched_slash : bool) (r : jstr) : option jstr :=
  match r with
  | [] => None
  | c :: r' =>
      if decide (c = CH_SLASH) then
        (if matched_slash then dirname_scan true r' else Some r')
      else dirname_scan false r'
  end.

Definition dirname (p : jstr) : jstr :=
  match p with
  | [] => [CH_DOT]
  | c0 :: rest =>
      let has_root := bool_decide (c0 = CH_SLASH) in
      match dirname_scan true (rev rest) with
      | None => if has_root then [CH_SLASH] else [CH_DOT]
      | Some r' =>
          if has_root && bool_decide (r' = []) then [CH_SLASH; CH_SLASH]
          else c0 :: rev r'
      end
  end.

(** ** Normal forms *)

(** A segment that normalisation keeps in an absolute path. *)
Definition clean_seg (x : jstr) : Prop :=
  x <> [] /\ x <> [CH_DOT] /\ x <> DOTDOT /\ CH_SLASH ∉ x.

#[export] Instance clean_seg_dec x : Decision (clean_seg x).
Proof. unfold clean_seg. apply _. Defined.

(** The absolute path with segments [segs], and a trailing slash when
    [trailing] holds and there is a segment. *)
Definition abs_path (segs : list jstr) (trailing : bool) : jstr :=
  CH_SLASH :: join_slash segs ++ (if trailing && bool_decide (segs <> []) then [CH_SLASH] else []).

(** The segments normalisation keeps from an absolute path. *)
Definition norm_segs (p : jstr) : list jstr := rev (foldl (norm_seg false) [] (split_slash p)).

Definition has_trailing (p : jstr) : bool := bool_decide (last p = Some CH_SLASH).

(** ** Splitting and joining *)

Lemma split_slash_not_nil s : split_slash s <> [].
Proof. induction s as [|c s IH]; simpl; [done|]. case_decide; [done|]. by destruct (split_slash s). Qed.

Lemma split_slash_no_slash s : CH_SLASH ∉ s -> split_slash s = [s].
Proof.
  induction s as [|c s IH]; intros Hs; [done|].
  rewrite elem_of_cons in Hs. simpl. case_decide; [naive_solver|].
  rewrite IH by naive_solver. done.
Qed.

Lemma split_slash_app a b :
  CH_SLASH ∉ a -> split_slash (a ++ CH_SLASH :: b) = a :: split_slash b.
Proof.
  induction a as [|c a IH]; intros Ha; simpl; [done|].
  rewrite elem_of_cons in Ha. rewrite IH by naive_solver.
  by rewrite decide_False by naive_solver.
Qed.

Lemma split_slash_segs s seg : seg ∈ split_slash s -> CH_SLASH ∉ seg.
Proof.
  revert seg. induction s as [|c s IH]; intros seg Hin; simpl in Hin.
  - apply list_elem_of_singleton in Hin as ->. apply not_elem_of_nil.
  - case_decide.
    + apply elem_of_cons in Hin as [->|Hin]; [apply not_elem_of_nil|auto].
    + destruct (split_slash s) as [|seg0 rest] eqn:E; [by destruct (split_slash_not_nil s)|].
      apply elem_of_cons in Hin as [->|Hin].
      * rewrite elem_of_cons. intros [Heq|H']; [congruence|]. apply (IH seg0); [by left|done].
      * apply IH. by right.
Qed.

Lemma join_slash_cons x y segs :
  join_slash (x :: y :: segs) = x ++ CH_SLASH :: join_slash (y :: segs).
Proof. reflexivity. Qed.

Lemma split_join segs :
  segs <> [] -> Forall (fun x => CH_SLASH ∉ x) segs -> split_slash (join_slash segs) = segs.
Proof.
  induction segs as [|x [|y segs] IH]; intros Hne Hf; [done| |].
  - inversion Hf; subst. by apply split_slash_no_slash.
  - inversion Hf; subst. rewrite join_slash_cons, split_slash_app by done.
    by rewrite IH.
Qed.

Lemma join_slash_nil segs : Forall (fun x => x <> []) segs -> join_slash segs = [] -> segs = [].
Proof. destruct segs as [|x [|y segs]]; simpl; intros Hf; inversion Hf; subst; [done|done|]. by destruct x. Qed.

(** ** Normalising an absolute path *)

(** A stack of clean segments, popped by [..], stays clean. *)
Lemma norm_seg_clean acc seg :
  Forall clean_seg acc -> CH_SLASH ∉ seg -> Forall clean_seg (norm_seg false acc seg).
Proof.
  intros Hacc Hseg. unfold norm_seg.
  repeat case_decide; subst; try done.
  - destruct acc as [|top rest]; [constructor|]. case_decide; [done|]. by inversion Hacc.
  - constructor; [|done]. by repeat split.
Qed.

Lemma foldl_norm_seg_clean acc segs :
  Forall clean_seg acc -> Forall (fun x => CH_SLASH ∉ x) segs ->
  Forall clean_seg (foldl (norm_seg false) acc segs).
Proof.
  revert acc. induction segs as [|seg segs IH]; intros acc Hacc Hsegs; [done|].
  inversion Hsegs; subst. simpl. apply IH; [by apply norm_seg_clean|done].
Qed.

Lemma norm_segs_clean p : Forall clean_seg (norm_segs p).
Proof.
  unfold norm_segs. apply Forall_rev, foldl_norm_seg_clean; [constructor|].
  apply Forall_forall. intros x Hx. by apply (split_slash_segs p).
Qed.

(** Clean segments survive normalisation unchanged. *)
Lemma foldl_norm_seg_keep acc segs :
  Forall clean_seg segs -> foldl (norm_seg false) acc segs = rev segs ++ acc.
Proof.
  revert acc. induction segs as [|seg segs IH]; intros acc Hsegs; [done|].
  inversion Hsegs as [|? ? [? [? [? ?]]] ?]; subst. simpl.
  rewrite IH by done. unfold norm_seg. rewrite !decide_False by done.
  by rewrite <- app_assoc.
Qed.

Lemma join_slash_clean_nil segs : Forall clean_seg segs -> join_slash segs = [] -> segs = [].
Proof.
  intros Hf. apply join_slash_nil. eapply Forall_impl; [exact Hf|]. by intros x [? _].
Qed.

(** [normalize] on an absolute path: its clean segments, with the
    trailing slash kept. *)
Lemma normalize_abs p :
  head p = Some CH_SLASH -> normalize p = abs_path (norm_segs p) (has_trailing p).
Proof.
  destruct p as [|c0 p']; [done|]. intros [= ->].
  unfold normalize, abs_path, normalize_string, has_trailing.
  rewrite bool_decide_true by done. cbn [negb].
  fold (norm_segs (CH_SLASH :: p')).
  pose proof (norm_segs_clean (CH_SLASH :: p')) as Hc.
  case_decide as Hnil.
  - apply join_slash_clean_nil in Hnil; [|done]. rewrite Hnil. simpl.
    by rewrite andb_false_r.
  - assert (norm_segs (CH_SLASH :: p') <> []) by (intros E; apply Hnil; by rewrite E).
    rewrite (bool_decide_true (_ <> [])) by done. rewrite andb_true_r.
    destruct (bool_decide _); [done|by rewrite app_nil_r].
Qed.

(** ** The full paths of the handlers *)

(** [path.join(DATA_DIR, p)] for a non-empty string [p]. *)
Lemma join_data p :
  p <> [] ->
  join [Some (JStr ‹"/data"›); Some (JStr p)] =
  inr (abs_path (rev (foldl (norm_seg false) [‹"data"›] (split_slash p)))
                (has_trailing (‹"/data"› ++ CH_SLASH :: p))).
Proof.
  intros Hp. unfold join. cbn [join_args].
  rewrite (decide_False (P := ‹"/data"› = [])) by discriminate. rewrite decide_False by done.
  rewrite normalize_abs by reflexivity. unfold norm_segs.
  change (‹"/data"› ++ CH_SLASH :: p) with ([] ++ CH_SLASH :: (‹"data"› ++ CH_SLASH :: p)).
  rewrite !split_slash_app by (apply not_elem_of_nil || decide_it).
  reflexivity.
Qed.

(** ** Confinement and escape *)

Definition kept_seg (x : jstr) : Prop := x <> [] /\ x <> [CH_DOT].

#[export] Instance kept_seg_dec x : Decision (kept_seg x).
Proof. unfold kept_seg. apply _. Defined.

(** Without [..], normalisation only drops empty and [.] segments. *)
Lemma foldl_norm_seg_no_dotdot acc segs :
  DOTDOT ∉ segs ->
  foldl (norm_seg false) acc segs = rev (filter kept_seg segs) ++ acc.
Proof.
  revert acc. induction segs as [|seg segs IH]; intros acc Hd; [done|].
  rewrite elem_of_cons in Hd. simpl. rewrite IH by naive_solver.
  rewrite filter_cons. unfold norm_seg, kept_seg.
  repeat case_decide; try naive_solver.
  simpl. by rewrite <- app_assoc.
Qed.

(** A path without [..] segments, joined under [/data], names [/data] or
    a path below it. *)
Theorem join_data_confined p :
  p <> [] -> DOTDOT ∉ split_slash p ->
  join [Some (JStr ‹"/data"›); Some (JStr p)] =
  inr (abs_path (‹"data"› :: filter kept_seg (split_slash p))
                (has_trailing (‹"/data"› ++ CH_SLASH :: p))).
Proof.
  intros Hp Hd. rewrite join_data by done. rewrite foldl_norm_seg_no_dotdot by done.
  by rewrite rev_app_distr, rev_involutive.
Qed.

(** ** [dirname] of a normal path *)

Lemma join_slash_snoc init x :
  init <> [] -> join_slash (init ++ [x]) = join_slash init ++ CH_SLASH :: x.
Proof.
  induction init as [|y [|z init] IH]; intros Hne; [done|done|].
  change ((y :: z :: init) ++ [x]) with (y :: z :: (init ++ [x])).
  rewrite join_slash_cons. change (z :: init ++ [x]) with ((z :: init) ++ [x]).
  rewrite IH by done. rewrite join_slash_cons. by rewrite <- app_assoc.
Qed.

Lemma dirname_scan_skip b x r :
  x <> [] -> CH_SLASH ∉ x -> dirname_scan b (rev x ++ r) = dirname_scan false r.
Proof.
  revert b r. induction x as [|c x IH] using rev_ind; intros b r Hne Hx; [done|].
  rewrite rev_unit. simpl. rewrite elem_of_app in Hx.
  rewrite decide_False by (intros ->; apply Hx; right; by left).
  destruct (decide (x = [])) as [->|Hx']; [done|].
  apply IH; [done|]. intros H. apply Hx. by left.
Qed.

Lemma dirname_scan_trailing (t : bool) r :
  dirname_scan true ((if t then [CH_SLASH] else []) ++ r) = dirname_scan true r.
Proof. by destruct t. Qed.

(** The directory of a normal path is the path without its last segment. *)
Lemma dirname_abs_path segs t :
  segs <> [] -> Forall clean_seg segs ->
  dirname (abs_path segs t) = abs_path (removelast segs) false.
Proof.
  intros Hne Hc. destruct (exists_last Hne) as (init & x & ->).
  rewrite removelast_last. apply Forall_app in Hc as [Hinit Hx].
  inversion Hx as [|? ? (Hx1 & _ & _ & Hx4) _]; subst.
  unfold dirname, abs_path. rewrite bool_decide_true by done. rewrite andb_true_r.
  assert (Hscan : forall r, dirname_scan true (rev (if t then [CH_SLASH] else []) ++ r) =
                            dirname_scan true r) by (destruct t; reflexivity).
  destruct (decide (init = [])) as [->|Hi].
  - simpl app. rewrite rev_app_distr, Hscan, <- (app_nil_r (rev x)), dirname_scan_skip by done.
    reflexivity.
  - rewrite join_slash_snoc by done.
    rewrite rev_app_distr, Hscan, rev_app_distr. simpl (rev (CH_SLASH :: x)).
    rewrite <- app_assoc, dirname_scan_skip by done. simpl.
    assert (join_slash init <> []) by (intros E; apply Hi; by apply join_slash_clean_nil).
    rewrite bool_decide_false by (intros E; apply (f_equal (@rev Z)) in E; by rewrite rev_involutive in E).
    by rewrite rev_involutive, app_nil_r.
Qed.

(** ** Paths that do not climb above their base *)

(** [climbs depth segs]: reading [segs] from a directory [depth] levels
    below the base, some [..] goes above the base. *)
Fixpoint climbs (depth : nat) (segs : list jstr) : bool :=
  match segs with
  | [] => false
  | s :: rest =>
      if decide (s = DOTDOT) then
        match depth with O => true | S d => climbs d rest end
      else if decide (kept_seg s) then climbs (S depth) rest
      else climbs depth rest
  end.

(** The segments a relative path normalises to. *)
Definition norm_rel (p : jstr) : list jstr := rev (foldl (norm_seg false) [] (split_slash p)).

(** A stack of [depth] clean segments absorbs every [..] of a path that
    does not climb, so whatever lies below it is untouched. *)
Lemma norm_seg_dotdot top rest : top <> DOTDOT -> norm_seg false (top :: rest) DOTDOT = rest.
Proof. intros Ht. unfold norm_seg. repeat case_decide; done. Qed.

Lemma norm_seg_kept acc s : kept_seg s -> s <> DOTDOT -> norm_seg false acc s = s :: acc.
Proof. intros [H1 H2] H3. unfold norm_seg. repeat case_decide; done. Qed.

Lemma norm_seg_skip acc s : ~ kept_seg s -> norm_seg false acc s = acc.
Proof.
  intros Hk. unfold norm_seg. case_decide; [done|]. case_decide; [done|].
  exfalso. by apply Hk.
Qed.

Lemma foldl_norm_seg_base acc base segs :
  Forall clean_seg acc -> Forall (fun x => CH_SLASH ∉ x) segs -> climbs (length acc) segs = false ->
  foldl (norm_seg false) (acc ++ base) segs = foldl (norm_seg false) acc segs ++ base.
Proof.
  revert acc. induction segs as [|s segs IH]; intros acc Hacc Hs Hc; [done|].
  inversion Hs as [|? ? Hs1 Hs2]; subst. cbn [foldl climbs] in Hc |- *.
  destruct (decide (s = DOTDOT)) as [->|Hdd].
  - destruct acc as [|top rest]; [done|]. inversion Hacc as [|? ? (_ & _ & Htop & _) Hrest]; subst.
    rewrite <- app_comm_cons, !norm_seg_dotdot by done. by apply IH.
  - destruct (decide (kept_seg s)) as [Hk|Hk].
    + rewrite !norm_seg_kept by done. rewrite app_comm_cons. apply IH; [|done|done].
      constructor; [|done]. destruct Hk. by repeat split.
    + rewrite !norm_seg_skip by done. by apply IH.
Qed.

Lemma foldl_norm_seg_elem acc segs x :
  x ∈ foldl (norm_seg false) acc segs -> x ∈ acc \/ x ∈ segs.
Proof.
  revert acc. induction segs as [|s segs IH]; intros acc Hx; [by left|]. simpl in Hx.
  destruct (IH _ Hx) as [Hin|Hin]; [|right; by right].
  unfold norm_seg in Hin. repeat case_decide; try (left; done).
  - destruct acc as [|top rest]; [by apply not_elem_of_nil in Hin|].
    case_decide; [by left|left; by right].
  - apply elem_of_cons in Hin as [->|Hin]; [right; by left|by left].
Qed.

Lemma norm_rel_clean p : Forall clean_seg (norm_rel p).
Proof.
  unfold norm_rel. apply Forall_rev, foldl_norm_seg_clean; [constructor|].
  apply Forall_forall. intros x Hx. by apply (split_slash_segs p).
Qed.

(** A path that does not climb above [/data], joined under [/data],
    names [/data] or a path below it. *)
Lemma join_data_within p :
  p <> [] -> climbs 0 (split_slash p) = false ->
  join [Some (JStr ‹"/data"›); Some (JStr p)] =
  inr (abs_path (‹"data"› :: norm_rel p) (has_trailing (‹"/data"› ++ CH_SLASH :: p))).
Proof.
  intros Hp Hc. rewrite join_data by done.
  rewrite (foldl_norm_seg_base [] [‹"data"›]); [|constructor| |done].
  - unfold norm_rel. by rewrite rev_app_distr.
  - apply Forall_forall. intros x Hx. by apply (split_slash_segs p).
Qed.

Lemma climbs_snoc n segs x :
  climbs n segs = false -> x <> DOTDOT -> climbs n (segs ++ [x]) = false.
Proof.
  revert n. induction segs as [|s segs IH]; intros n Hc Hx; simpl in *.
  - rewrite decide_False by done. by repeat case_decide.
  - repeat case_decide; try done; [destruct n; [done|by apply IH]|by apply IH|by apply IH].
Qed.

Lemma foldl_norm_seg_snoc acc segs x :
  clean_seg x -> foldl (norm_seg false) acc (segs ++ [x]) = x :: foldl (norm_seg false) acc segs.
Proof.
  intros (Hx1 & Hx2 & Hx3 & _). rewrite foldl_app. simpl. unfold norm_seg.
  by rewrite !decide_False.
Qed.

(** [path.join('/data', '../etc/passwd')] is [/etc/passwd]: a [..]
    segment leaves [/data]. *)
Theorem join_data_escapes :
  join [Some (JStr ‹"/data"›); Some (JStr ‹"../etc/passwd"›)] = inr ‹"/etc/passwd"›.
Proof. reflexivity. Qed.

Lemma split_slash_snoc d x :
  CH_SLASH ∉ x -> split_slash (d ++ CH_SLASH :: x) = split_slash d ++ [x].
Proof.
  intros Hx. induction d as [|c d IH]; simpl.
  - by rewrite split_slash_no_slash.
  - rewrite IH. case_decide; [done|].
    destruct (split_slash d) as [|seg rest] eqn:E; [by apply split_slash_not_nil in E|done].
Qed.

(** [path.join(a, b)] of two strings never throws: it is the normal form
    of the non-empty ones joined with [/]. *)
Definition join2 (a b : jstr) : jstr :=
  if decide (a = []) then (if decide (b = []) then [CH_DOT] else normalize b)
  else if decide (b = []) then normalize a else normalize (a ++ CH_SLASH :: b).

Lemma join_strings a b : join [Some (JStr a); Some (JStr b)] = inr (join2 a b).
Proof. unfold join, join2. cbn [join_args]. by repeat case_decide. Qed.

End NodePath.
