(* ===== verification/NodeFs.v ===== *)
(** * The filesystem under [fs.promises]

    The handlers call seven functions of Node's [fs.promises]:
    - [readdir] with [withFileTypes] (index.js line 35);
    - [readFile] as UTF-8 (57);
    - [mkdir] with [recursive] (77);
    - [writeFile] (78);
    - [stat] (95);
    - [rmdir] with [recursive] (98);
    - [unlink] (100).
    This file models the state they act on and the calls behind them.

    The state is the kernel's file tree: a finite map from absolute byte
    paths (lists of names, each name a list of bytes) to nodes.  A node
    is a regular file with its bytes, or a directory.  A path string
    reaches the kernel as its UTF-8 bytes.  [walk] resolves the
    components one by one, as namei does.  Each component must be looked
    up in an existing directory: a file on the way gives [ENOTDIR], a
    missing entry [ENOENT].  A trailing slash makes a file an error.
    Linux's limits are checked where the kernel checks them: a path of
    [PATH_MAX] (4096) bytes or more is refused when it is copied in
    ([too_long]), and a missing component of more than [NAME_MAX] (255)
    bytes when it is looked up ([long_name]); both give [ENAMETOOLONG].
    [mkdir -p] keeps the directories it created before an error.

    Each [fs_call] is one atomic step on this state ([exec]): Node's
    [getValidatedPath] first refuses a path holding a NUL code unit with
    [ERR_INVALID_ARG_VALUE], before any system call; then [kexec] runs
    the system call.  A step returns a value or the [js_error] that Node
    would throw, with Node's [syscall] name and path.  Rimraf's [lstat]
    comes after the [stat] that checked the path, so [rimraf] looks the
    path up without the length check ([lookup_at]).  [fs_wf] is the tree invariant: the root is a directory,
    every other entry sits in a directory, and names are proper names.
    [exec_wf] proves that every call preserves it.  The lemmas at the end
    compute each call along clean paths and show that [mkdir -p] and
    [open] give the same outcome when they are repeated. *)

From S2P Require Import Prelude Utf8 Json NodePath.
Import Json NodePath.

Module NodeFs.

(** ** State *)

Inductive node := NFile (data : list Z) | NDir.

#[export] Instance node_eq_dec : EqDecision node.
Proof. solve_decision. Defined.

Abbreviation name := (list Z).
Abbreviation kpath := (list (list Z)).
Abbreviation fsys := (gmap kpath node).

(** The tree invariant: the root is a directory, and every other entry
    has proper names ([clean_seg]: not empty, [.] or [..], and without
    [/]) and sits in a directory. *)
Definition fs_wf (m : fsys) : Prop :=
  m !! [] = Some NDir /\
  map_Forall (fun k _ => k = [] \/ (m !! removelast k = Some NDir /\ Forall clean_seg k)) m.

#[export] Instance fs_wf_dec m : Decision (fs_wf m).
Proof. unfold fs_wf. apply _. Defined.

(** ** Path resolution *)

(** The components the kernel sees: the UTF-8 bytes of the path split at
    [/], empty components dropped. *)
Definition kcomponents (p : jstr) : list name :=
  filter (fun s => s <> []) (split_slash (Utf8.encode p)).

Definition ktrailing (p : jstr) : bool := bool_decide (last (Utf8.encode p) = Some CH_SLASH).

Definition kstep (cur : kpath) (c : name) : kpath :=
  if decide (c = [CH_DOT]) then cur
  else if decide (c = DOTDOT) then removelast cur
  else cur ++ [c].

(** Linux's limits: a name of at most [NAME_MAX] bytes, a path of fewer
    than [PATH_MAX] bytes. *)
Definition NAME_MAX : nat := 255.
Definition PATH_MAX : nat := 4096.

(** A name the file system's [lookup] refuses with [ENAMETOOLONG]. *)
Definition long_name (c : name) : bool := (NAME_MAX <? length c)%nat.

(** [getname] refuses a path of [PATH_MAX] bytes or more. *)
Definition too_long (p : jstr) : bool := (PATH_MAX <=? length (Utf8.encode p))%nat.

(** namei: every component is looked up in a directory.  A name longer
    than [NAME_MAX] is refused by the file system's [lookup]; no entry
    has such a name, so it is refused exactly where the entry is
    missing. *)
Fixpoint walk (m : fsys) (cur : kpath) (cs : list name) : errno + kpath :=
  match cs with
  | [] => inr cur
  | c :: cs' =>
      match m !! cur with
      | Some NDir =>
          if long_name c && bool_decide (m !! kstep cur c = None) then inl ENAMETOOLONG
          else walk m (kstep cur c) cs'
      | Some (NFile _) => inl ENOTDIR
      | None => inl ENOENT
      end
  end.

Definition resolve (m : fsys) (p : jstr) : errno + kpath :=
  if too_long p then inl ENAMETOOLONG else walk m [] (kcomponents p).

(** The node the components of a path name, when it exists. *)
Definition lookup_at (m : fsys) (p : jstr) : errno + (kpath * node) :=
  match walk m [] (kcomponents p) with
  | inl e => inl e
  | inr k =>
      match m !! k with
      | None => inl ENOENT
      | Some (NFile d) => if ktrailing p then inl ENOTDIR else inr (k, NFile d)
      | Some NDir => inr (k, NDir)
      end
  end.

(** The node a path names: [getname], then namei. *)
Definition lookup (m : fsys) (p : jstr) : errno + (kpath * node) :=
  if too_long p then inl ENAMETOOLONG else lookup_at m p.

(** The entries of directory [d], in the order of the map. *)
Definition child_name (d k : kpath) : option name :=
  match last k with
  | Some x => if decide (k = d ++ [x]) then Some x else None
  | None => None
  end.

Definition children (m : fsys) (d : kpath) : list (name * node) :=
  omap (fun kn => (fun x => (x, kn.2)) <$> child_name d kn.1) (map_to_list m).

(** Everything at or below [k]. *)
Definition remove_tree (k : kpath) (m : fsys) : fsys :=
  filter (fun kn => ~ (k `prefix_of` kn.1)) m.

(** ** The calls *)

Record dirent := { dname : jstr; dis_dir : bool }.

Definition sys_err (e : errno) (syscall : string) (p : jstr) : js_error :=
  SystemError e syscall (Some p).

(** [fs.readdir(p, { withFileTypes: true })]: [scandir]. *)
Definition readdir (m : fsys) (p : jstr) : js_error + list dirent :=
  match lookup m p with
  | inl e => inl (sys_err e "scandir" p)
  | inr (_, NFile _) => inl (sys_err ENOTDIR "scandir" p)
  | inr (k, NDir) =>
      inr (map (fun xn => {| dname := Utf8.decode xn.1; dis_dir := bool_decide (xn.2 = NDir) |})
               (children m k))
  end.

(** [fs.readFile(p, 'utf-8')]: [open] then [read]; reading a directory
    fails in [read], which Node reports without a path. *)
Definition read_file (m : fsys) (p : jstr) : js_error + jstr :=
  match lookup m p with
  | inl e => inl (sys_err e "open" p)
  | inr (_, NDir) => inl (SystemError EISDIR "read" None)
  | inr (_, NFile d) => inr (Utf8.decode d)
  end.

(** [fs.mkdir(p, { recursive: true })] (libuv's [MKDirpAsync]): every
    missing directory on the path is created, from the top down; a file
    on the path gives [ENOTDIR], or [EEXIST] when it is the path itself;
    a missing name longer than [NAME_MAX] gives [ENAMETOOLONG], after the
    directories above it have been created.  The result is the state
    reached and the error, if any. *)
Fixpoint mkdirp_go (m : fsys) (cur : kpath) (cs : list name) : fsys * option errno :=
  match cs with
  | [] => (m, None)
  | c :: cs' =>
      let next := kstep cur c in
      match m !! next with
      | Some NDir => mkdirp_go m next cs'
      | Some (NFile _) => (m, Some (if decide (cs' = []) then EEXIST else ENOTDIR))
      | None => if long_name c then (m, Some ENAMETOOLONG) else mkdirp_go (<[next := NDir]> m) next cs'
      end
  end.

Definition mkdirp (m : fsys) (p : jstr) : fsys * option js_error :=
  if too_long p then (m, Some (sys_err ENAMETOOLONG "mkdir" p))
  else let '(m', e) := mkdirp_go m [] (kcomponents p) in (m', (fun e => sys_err e "mkdir" p) <$> e).

(** [open(p, 'w')]: [O_WRONLY | O_CREAT | O_TRUNC]. *)
Definition open_trunc (m : fsys) (p : jstr) : js_error + fsys :=
  match resolve m p with
  | inl e => inl (sys_err e "open" p)
  | inr k =>
      match m !! k with
      | Some NDir => inl (sys_err EISDIR "open" p)
      | Some (NFile _) =>
          if ktrailing p then inl (sys_err ENOTDIR "open" p) else inr (<[k := NFile []]> m)
      | None =>
          if ktrailing p then inl (sys_err EISDIR "open" p) else inr (<[k := NFile []]> m)
      end
  end.

(** [write] on the descriptor [open] returned, addressed here by path. *)
Definition append_file (m : fsys) (p : jstr) (bytes : list Z) : js_error + fsys :=
  match lookup m p with
  | inl e => inl (SystemError e "write" None)
  | inr (_, NDir) => inl (SystemError EISDIR "write" None)
  | inr (k, NFile d) => inr (<[k := NFile (d ++ bytes)]> m)
  end.

(** [fs.stat(p)]: [stats.isDirectory()]. *)
Definition stat (m : fsys) (p : jstr) : js_error + bool :=
  match lookup m p with
  | inl e => inl (sys_err e "stat" p)
  | inr (_, n) => inr (bool_decide (n = NDir))
  end.

(** [fs.unlink(p)]; Linux refuses a directory with [EISDIR]. *)
Definition unlink (m : fsys) (p : jstr) : js_error + fsys :=
  match lookup m p with
  | inl e => inl (sys_err e "unlink" p)
  | inr (_, NDir) => inl (sys_err EISDIR "unlink" p)
  | inr (k, NFile _) => inr (delete k m)
  end.

(** The [rmdir] system call. *)
Definition rmdir (m : fsys) (p : jstr) : js_error + fsys :=
  match lookup m p with
  | inl e => inl (sys_err e "rmdir" p)
  | inr (_, NFile _) => inl (sys_err ENOTDIR "rmdir" p)
  | inr ([], NDir) => inl (sys_err EBUSY "rmdir" p)
  | inr (k, NDir) =>
      match children m k with
      | [] => inr (delete k m)
      | _ => inl (sys_err ENOTEMPTY "rmdir" p)
      end
  end.

(** Node's [rimrafPromises] as one step: a missing path is success; a
    path [lstat] cannot reach is passed to [unlink], whose error is
    reported; a file is unlinked; a directory is removed with everything
    below it.  The root cannot be removed: its first [rmdir] fails with
    [EBUSY], which rimraf does not retry.  [Rimraf.v] models the system
    calls rimraf makes one by one and proves this step is their outcome
    when nothing else runs.  Rimraf runs after a [stat] of the same path
    has succeeded, so [getname]'s length check is not repeated here. *)
Definition rimraf (m : fsys) (p : jstr) : js_error + fsys :=
  match lookup_at m p with
  | inl ENOENT => inr m
  | inl e => inl (sys_err e "unlink" p)
  | inr (k, NFile _) => inr (delete k m)
  | inr ([], NDir) => inl (sys_err EBUSY "rmdir" p)
  | inr (k, NDir) => inr (remove_tree k m)
  end.

(** ** Calls as one type *)

Inductive fs_call : Type -> Type :=
| Readdir (p : jstr) : fs_call (list dirent)
| ReadFile (p : jstr) : fs_call jstr
| Mkdirp (p : jstr) : fs_call unit
| OpenTrunc (p : jstr) : fs_call unit
| AppendFile (p : jstr) (bytes : list Z) : fs_call unit
| Stat (p : jstr) : fs_call bool
| Unlink (p : jstr) : fs_call unit
| Rmdir (p : jstr) : fs_call unit
| Rimraf (p : jstr) : fs_call unit.

Definition update (r : js_error + fsys) (m : fsys) : (js_error + unit) * fsys :=
  match r with
  | inl e => (inl e, m)
  | inr m' => (inr tt, m')
  end.

(** The path string a call validates; [write] goes by descriptor. *)
Definition call_path {T} (c : fs_call T) : option jstr :=
  match c with
  | Readdir p | ReadFile p | Mkdirp p | OpenTrunc p | Stat p | Unlink p | Rmdir p | Rimraf p => Some p
  | AppendFile _ _ => None
  end.

(** [getValidatedPath]: a NUL code unit in the path. *)
Definition nul_path {T} (c : fs_call T) : option jstr :=
  match call_path c with
  | Some p => if bool_decide ((0%Z) ∈ p) then Some p else None
  | None => None
  end.

(** The system call behind a call, on the kernel state. *)
Definition kexec {T} (c : fs_call T) (m : fsys) : (js_error + T) * fsys :=
  match c in fs_call T return (js_error + T) * fsys with
  | Readdir p => (readdir m p, m)
  | ReadFile p => (read_file m p, m)
  | Mkdirp p => let '(m', e) := mkdirp m p in (match e with Some e => inl e | None => inr tt end, m')
  | OpenTrunc p => update (open_trunc m p) m
  | AppendFile p bs => update (append_file m p bs) m
  | Stat p => (stat m p, m)
  | Unlink p => update (unlink m p) m
  | Rmdir p => update (rmdir m p) m
  | Rimraf p => update (rimraf m p) m
  end.

(** One atomic step: Node's path validation, then the system call. *)
Definition exec {T} (c : fs_call T) (m : fsys) : (js_error + T) * fsys :=
  match nul_path c with
  | Some p => (inl (null_bytes_error p), m)
  | None => kexec c m
  end.

Lemma exec_kexec {T} (c : fs_call T) m : nul_path c = None -> exec c m = kexec c m.
Proof. unfold exec. by intros ->. Qed.

(** ** The tree invariant *)

Lemma fs_wf_entry m k n :
  fs_wf m -> m !! k = Some n -> k = [] \/ (m !! removelast k = Some NDir /\ Forall clean_seg k).
Proof. intros [_ Hm] Hk. exact (Hm k n Hk). Qed.

(** Where a key may sit: the root, or a proper name in a directory. *)
Definition placeable (m : fsys) (k : kpath) : Prop :=
  k = [] \/ (m !! removelast k = Some NDir /\ Forall clean_seg k).

(** Writing a node where it may sit keeps the tree, provided a directory
    is not turned into a file. *)
Lemma fs_wf_insert m k n :
  fs_wf m -> k <> [] -> m !! removelast k = Some NDir -> Forall clean_seg k ->
  (m !! k = Some NDir -> n = NDir) -> fs_wf (<[k := n]> m).
Proof.
  intros [Hroot Hm] Hk Hpar Hc Hdir. split.
  - by rewrite lookup_insert_ne.
  - intros k' n' Hk'. apply lookup_insert_Some in Hk' as [[<- <-]|[Hne Hk']].
    + right. split; [|done]. rewrite lookup_insert_ne; [done|].
      intros E. symmetry in E. revert E. apply removelast_neq; done.
    + destruct (Hm k' n' Hk') as [->|[Hp Hc']]; [by left|right].
      split; [|done]. destruct (decide (removelast k' = k)) as [<-|Hne'].
      * rewrite lookup_insert_eq. f_equal. by apply Hdir.
      * by rewrite lookup_insert_ne.
Qed.

(** Removing an entry that has no entries below it keeps the tree. *)
Lemma fs_wf_delete m k :
  fs_wf m -> k <> [] -> (forall k' n', m !! k' = Some n' -> k' <> [] -> removelast k' <> k) ->
  fs_wf (delete k m).
Proof.
  intros [Hroot Hm] Hk Hleaf. split.
  - by rewrite lookup_delete_ne.
  - intros k' n' Hk'. apply lookup_delete_Some in Hk' as [Hne Hk'].
    destruct (Hm k' n' Hk') as [->|[Hp Hc]]; [by left|right].
    split; [|done]. rewrite lookup_delete_ne; [done|].
    intros E. destruct (decide (k' = [])) as [->|Hk'0]; [by apply Hk|].
    by apply (Hleaf k' n' Hk' Hk'0).
Qed.

(** ** Resolution stays in the tree *)

(** A component as the kernel receives it. *)
Definition comp_ok (c : name) : Prop := c <> [] /\ CH_SLASH ∉ c.

Lemma kcomponents_ok p : Forall comp_ok (kcomponents p).
Proof.
  unfold kcomponents. apply Forall_forall. intros c Hc.
  apply list_elem_of_filter in Hc as [Hne Hin]. split; [done|].
  by apply (split_slash_segs (Utf8.encode p)).
Qed.

Lemma placeable_clean m k : placeable m k -> Forall clean_seg k.
Proof. by intros [->|[_ ?]]. Qed.

Lemma kstep_placeable m cur c :
  fs_wf m -> m !! cur = Some NDir -> placeable m cur -> comp_ok c ->
  placeable m (kstep cur c).
Proof.
  intros Hwf Hcur Hp [Hc1 Hc2]. unfold kstep. case_decide; [done|]. case_decide.
  - destruct Hp as [->|[Hpar _]]; [by left|].
    destruct (fs_wf_entry m (removelast cur) NDir Hwf Hpar) as [E|E]; [by left|by right].
  - right. rewrite removelast_last. split; [done|].
    apply Forall_app. split; [by apply placeable_clean in Hp|]. repeat constructor; done.
Qed.

Lemma walk_placeable m cur cs k :
  fs_wf m -> placeable m cur -> Forall comp_ok cs -> walk m cur cs = inr k -> placeable m k.
Proof.
  revert cur. induction cs as [|c cs IH]; intros cur Hwf Hp Hcs Hw; simpl in Hw.
  - by injection Hw as <-.
  - inversion Hcs; subst. destruct (m !! cur) as [[d|]|] eqn:Hcur; try discriminate.
    destruct (_ && _); [discriminate|].
    eapply IH; [done| |done|done]. by apply kstep_placeable.
Qed.

Lemma resolve_placeable m p k : fs_wf m -> resolve m p = inr k -> placeable m k.
Proof.
  intros Hwf. unfold resolve. destruct (too_long p); [discriminate|].
  apply walk_placeable; [done|by left|apply kcomponents_ok].
Qed.

Lemma lookup_at_Some m p k n :
  lookup_at m p = inr (k, n) -> walk m [] (kcomponents p) = inr k /\ m !! k = Some n.
Proof.
  unfold lookup_at. destruct (walk m [] (kcomponents p)) as [e|k'] eqn:Hr; [done|].
  destruct (m !! k') as [[d|]|] eqn:Hk; try discriminate.
  - destruct (ktrailing p); [done|]. by intros [= <- <-].
  - by intros [= <- <-].
Qed.

Lemma lookup_Some m p k n : lookup m p = inr (k, n) -> resolve m p = inr k /\ m !! k = Some n.
Proof.
  unfold lookup, resolve. destruct (too_long p); [done|]. apply lookup_at_Some.
Qed.

(** The root is a directory, so an entry that is not a directory is not
    the root. *)
Lemma not_root_of_file m k d : fs_wf m -> m !! k = Some (NFile d) -> k <> [].
Proof. intros [Hroot _] Hk ->. congruence. Qed.

Lemma fs_wf_insert_placeable m k n :
  fs_wf m -> placeable m k -> k <> [] -> (m !! k = Some NDir -> n = NDir) ->
  fs_wf (<[k := n]> m).
Proof. intros Hwf [?|[Hpar Hc]] Hk Hdir; [done|]. by apply fs_wf_insert. Qed.

(** ** Directory entries *)

Lemma child_name_spec d k x : child_name d k = Some x <-> k = d ++ [x].
Proof.
  unfold child_name. split.
  - destruct (last k) eqn:E; [|done]. case_decide; [|done]. by intros [= <-].
  - intros ->. rewrite last_snoc. by rewrite decide_True.
Qed.

Lemma elem_of_children m d x n : (x, n) ∈ children m d <-> m !! (d ++ [x]) = Some n.
Proof.
  unfold children. rewrite list_elem_of_omap. split.
  - intros ([k n'] & Hin & Hf). apply elem_of_map_to_list in Hin. simpl in Hf.
    destruct (child_name d k) as [x'|] eqn:Hc; [|done]. injection Hf as -> ->.
    apply child_name_spec in Hc as ->. done.
  - intros Hk. exists (d ++ [x], n). rewrite elem_of_map_to_list. split; [done|].
    simpl. assert (child_name d (d ++ [x]) = Some x) as -> by by apply child_name_spec.
    done.
Qed.

Lemma children_nil_leaf m d k' n' :
  children m d = [] -> m !! k' = Some n' -> k' <> [] -> removelast k' <> d.
Proof.
  intros Hnil Hk' Hne E. destruct (exists_last Hne) as (l & x & ->).
  rewrite removelast_last in E. subst l.
  assert ((x, n') ∈ children m d) as Hin by by apply elem_of_children.
  rewrite Hnil in Hin. by apply not_elem_of_nil in Hin.
Qed.

(** A regular file has no entries below it. *)
Lemma file_leaf m k d k' n' :
  fs_wf m -> m !! k = Some (NFile d) -> m !! k' = Some n' -> k' <> [] -> removelast k' <> k.
Proof.
  intros Hwf Hk Hk' Hne E. destruct (fs_wf_entry m k' n' Hwf Hk') as [|[Hpar _]]; [done|].
  rewrite E in Hpar. congruence.
Qed.

(** ** Every call keeps the tree *)

Lemma mkdirp_go_wf m cur cs :
  fs_wf m -> m !! cur = Some NDir -> placeable m cur -> Forall comp_ok cs ->
  fs_wf (mkdirp_go m cur cs).1.
Proof.
  revert m cur. induction cs as [|c cs IH]; intros m cur Hwf Hcur Hp Hcs; simpl; [done|].
  inversion Hcs; subst. pose proof (kstep_placeable m cur c Hwf Hcur Hp ltac:(done)) as Hn.
  destruct (m !! kstep cur c) as [[d|]|] eqn:Hnext; [done|by apply IH|].
  destruct (long_name c); [done|].
  assert (kstep cur c <> []) as Hne by (intros E; destruct Hwf as [Hroot _]; congruence).
  apply IH; [| | |done].
  + apply fs_wf_insert_placeable; [done|done|done|congruence].
  + by rewrite lookup_insert_eq.
  + destruct Hn as [?|[Hpar Hc]]; [done|right]. split; [|done].
    rewrite lookup_insert_ne; [done|]. by apply not_eq_sym, removelast_neq.
Qed.

Lemma remove_tree_wf m k : fs_wf m -> k <> [] -> fs_wf (remove_tree k m).
Proof.
  intros [Hroot Hm] Hk. unfold remove_tree. split.
  - apply map_lookup_filter_Some. split; [done|]. simpl. intros Hp.
    apply prefix_nil_inv in Hp. done.
  - intros k' n' Hk'. apply map_lookup_filter_Some in Hk' as [Hk' Hnp]. simpl in Hnp.
    destruct (Hm k' n' Hk') as [->|[Hpar Hc]]; [by left|right]. split; [|done].
    apply map_lookup_filter_Some. split; [done|]. simpl. intros Hp. apply Hnp.
    etrans; [exact Hp|]. rewrite removelast_firstn_len. apply prefix_take.
Qed.

Lemma kexec_wf {T} (c : fs_call T) m : fs_wf m -> fs_wf (kexec c m).2.
Proof.
  intros Hwf. destruct c as [p|p|p|p|p bs|p|p|p|p]; cbn -[fs_wf]; try done.
  - (* Mkdirp *)
    unfold mkdirp. destruct (too_long p); [done|].
    pose proof (mkdirp_go_wf m [] (kcomponents p)) as Hgo.
    destruct (mkdirp_go m [] (kcomponents p)) as [m' e]. cbn -[fs_wf] in *.
    destruct e; (apply Hgo; [done|by destruct Hwf|by left|apply kcomponents_ok]).
  - (* OpenTrunc *)
    unfold open_trunc. destruct (resolve m p) as [e|k] eqn:Hr; [done|].
    pose proof (resolve_placeable m p k Hwf Hr) as Hp.
    destruct (m !! k) as [[d|]|] eqn:Hk; [| |]; try (destruct (ktrailing p)); try done;
      (apply fs_wf_insert_placeable; [done|done| |congruence]);
      intros ->; destruct Hwf as [Hroot _]; congruence.
  - (* AppendFile *)
    unfold append_file. destruct (lookup m p) as [e|[k [d|]]] eqn:Hl; cbn -[fs_wf]; try done.
    apply lookup_Some in Hl as [Hr Hk].
    apply fs_wf_insert_placeable; [done|by eapply resolve_placeable|by eapply not_root_of_file|congruence].
  - (* Unlink *)
    unfold unlink. destruct (lookup m p) as [e|[k [d|]]] eqn:Hl; cbn -[fs_wf]; try done.
    apply lookup_Some in Hl as [Hr Hk].
    apply fs_wf_delete; [done|by eapply not_root_of_file|]. intros. by eapply file_leaf.
  - (* Rmdir *)
    unfold rmdir. destruct (lookup m p) as [e|[k [d|]]] eqn:Hl; cbn -[fs_wf]; try done;
      destruct k as [|x k]; cbn -[fs_wf]; try done.
    destruct (children m (x :: k)) eqn:Hch; [|done]. cbn -[fs_wf].
    apply fs_wf_delete; [done|done|]. intros. by eapply children_nil_leaf.
  - (* Rimraf *)
    unfold rimraf. destruct (lookup_at m p) as [[]|[k [d|]]] eqn:Hl; cbn -[fs_wf]; try done.
    + apply lookup_at_Some in Hl as [Hr Hk]. pose proof (not_root_of_file m k d Hwf Hk) as Hk0.
      destruct k as [|x k']; [done|]. cbn -[fs_wf].
      apply fs_wf_delete; [done|done|]. intros. by eapply file_leaf.
    + destruct k as [|x k']; cbn -[fs_wf]; [done|]. by apply remove_tree_wf.
Qed.

Theorem exec_wf {T} (c : fs_call T) m : fs_wf m -> fs_wf (exec c m).2.
Proof. intros Hwf. unfold exec. destruct (nul_path c); [done|by apply kexec_wf]. Qed.

(** ** The kernel view of a normal path *)

Lemma split_slash_elem s seg x : seg ∈ split_slash s -> x ∈ seg -> x ∈ s.
Proof.
  revert seg. induction s as [|c s IH]; intros seg Hseg Hx; simpl in Hseg.
  - apply list_elem_of_singleton in Hseg as ->. by apply not_elem_of_nil in Hx.
  - rewrite elem_of_cons. case_decide.
    + apply elem_of_cons in Hseg as [->|Hseg]; [by apply not_elem_of_nil in Hx|].
      right. by eapply IH.
    + destruct (split_slash s) as [|seg0 rest] eqn:E; [by destruct (split_slash_not_nil s)|].
      apply elem_of_cons in Hseg as [->|Hseg].
      * apply elem_of_cons in Hx as [->|Hx]; [by left|]. right. apply (IH seg0); [by left|done].
      * right. apply (IH seg); [by right|done].
Qed.

Lemma units16_split s : Utf8.units16 s -> Forall Utf8.units16 (split_slash s).
Proof.
  intros H. apply Forall_forall. intros seg Hseg. unfold Utf8.units16.
  apply Forall_forall. intros x Hx. unfold Utf8.units16 in H. rewrite Forall_forall in H.
  apply H. by eapply split_slash_elem.
Qed.

(** Encoding commutes with splitting at [/]. *)
Lemma split_encode s : Utf8.units16 s -> split_slash (Utf8.encode s) = map Utf8.encode (split_slash s).
Proof.
  induction s as [s IH] using (induction_ltof1 _ (@length Z)); unfold ltof in IH. intros H16.
  destruct (decide (CH_SLASH ∈ s)) as [Hin|Hnin].
  - destruct (list_elem_of_split_l s CH_SLASH Hin) as (a & b & -> & Ha).
    unfold Utf8.units16 in H16. apply Forall_app in H16 as [Ha16 Hb16]. inversion Hb16; subst.
    rewrite Utf8.encode_sep by (reflexivity || (unfold CH_SLASH; lia)).
    rewrite !split_slash_app by (done || by apply Utf8.encode_no_ascii; [|unfold CH_SLASH; lia|]).
    simpl. rewrite IH; [done| |done]. rewrite length_app. simpl. lia.
  - rewrite !split_slash_no_slash; [done|done|].
    apply Utf8.encode_no_ascii; [done|unfold CH_SLASH; lia|done].
Qed.

Lemma split_join_app segs b :
  segs <> [] -> Forall (fun x => CH_SLASH ∉ x) segs ->
  split_slash (join_slash segs ++ CH_SLASH :: b) = segs ++ split_slash b.
Proof.
  induction segs as [|x [|y segs] IH]; intros Hne Hf; [done| |].
  - inversion Hf; subst. by rewrite split_slash_app.
  - inversion Hf; subst. rewrite join_slash_cons, <- app_assoc, <- app_comm_cons.
    rewrite split_slash_app by done. rewrite IH by done. done.
Qed.

Lemma clean_encode x : Utf8.units16 x -> clean_seg x -> clean_seg (Utf8.encode x).
Proof.
  intros H16 (H1 & H2 & H3 & H4). repeat split.
  - by apply Utf8.encode_not_nil.
  - intros E. apply H2. apply Utf8.encode_ascii_inv; [done| |done]. repeat constructor; unfold CH_DOT; lia.
  - intros E. apply H3. apply Utf8.encode_ascii_inv; [done| |done]. repeat constructor; unfold CH_DOT; lia.
  - apply Utf8.encode_no_ascii; [done|unfold CH_SLASH; lia|done].
Qed.

Lemma units16_join_slash segs : Forall Utf8.units16 segs -> Utf8.units16 (join_slash segs).
Proof.
  induction segs as [|x [|y segs] IH]; intros H; unfold Utf8.units16 in *; [constructor| |].
  - simpl. by inversion H.
  - inversion H; subst. rewrite join_slash_cons. apply Forall_app. split; [done|].
    constructor; [unfold CH_SLASH; lia|]. by apply IH.
Qed.

Lemma Forall_join_slash (P : Z -> Prop) segs :
  P CH_SLASH -> Forall (Forall P) segs -> Forall P (join_slash segs).
Proof.
  intros Hs. induction segs as [|x [|y segs] IH]; intros H; [constructor| |].
  - simpl. by inversion H.
  - inversion H; subst. rewrite join_slash_cons. apply Forall_app. split; [done|].
    constructor; [done|]. by apply IH.
Qed.

Lemma Forall_abs_path (P : Z -> Prop) segs t :
  P CH_SLASH -> Forall (Forall P) segs -> Forall P (abs_path segs t).
Proof.
  intros Hs H. unfold abs_path. constructor; [done|]. apply Forall_app. split; [by apply Forall_join_slash|].
  destruct (t && _); [by constructor|constructor].
Qed.

(** The kernel path of a normal absolute path. *)
Lemma kcomponents_abs_path segs t :
  Forall clean_seg segs -> Forall Utf8.units16 segs ->
  kcomponents (abs_path segs t) = map Utf8.encode segs.
Proof.
  intros Hc H16. unfold kcomponents, abs_path.
  rewrite Utf8.encode_cons_ascii by (unfold CH_SLASH; lia).
  change (CH_SLASH :: ?x) with ([] ++ CH_SLASH :: x). rewrite split_slash_app by apply not_elem_of_nil.
  rewrite filter_cons_False by (intros H; by apply H).
  assert (Hnos : Forall (fun x => CH_SLASH ∉ x) segs).
  { eapply Forall_impl; [exact Hc|]. intros x Hx. apply Hx. }
  assert (H16' : Utf8.units16 (join_slash segs ++ (if t && bool_decide (segs <> []) then [CH_SLASH] else []))).
  { unfold Utf8.units16. apply Forall_app. split; [by apply units16_join_slash|].
    destruct (_ && _); repeat constructor; unfold CH_SLASH; lia. }
  rewrite split_encode by done.
  destruct (decide (segs = [])) as [->|Hne].
  - rewrite andb_false_r. done.
  - rewrite (bool_decide_true (segs <> [])) by done. rewrite andb_true_r.
    assert (Hs : split_slash (join_slash segs ++ (if t then [CH_SLASH] else [])) =
                 segs ++ (if t then [[]] else [])).
    { destruct t; [by rewrite split_join_app|rewrite !app_nil_r; by apply split_join]. }
    rewrite Hs, map_app, filter_app.
    assert (Hk : filter (fun s => s <> []) (map Utf8.encode segs) = map Utf8.encode segs).
    { apply filter_all. clear -Hc. induction Hc as [|x segs [? _] _ IH]; constructor; [|done].
      by apply Utf8.encode_not_nil. }
    rewrite Hk. destruct t; simpl; [|by rewrite app_nil_r]. by rewrite app_nil_r.
Qed.

Lemma last_encode_clean x :
  Utf8.units16 x -> clean_seg x -> last (Utf8.encode x) <> Some CH_SLASH.
Proof.
  intros H16 Hc E. apply last_Some_elem_of in E.
  revert E. apply Utf8.encode_no_ascii; [done|unfold CH_SLASH; lia|apply Hc].
Qed.

Lemma last_cons_ne {A} (x : A) l : l <> [] -> last (x :: l) = last l.
Proof. destruct l; done. Qed.

Lemma last_app_ne {A} (l1 l2 : list A) : l2 <> [] -> last (l1 ++ l2) = last l2.
Proof. intros H. rewrite last_app. by destruct (last l2) eqn:E; [|apply last_None in E]. Qed.

Lemma ktrailing_abs_path segs t :
  segs <> [] -> Forall clean_seg segs -> Forall Utf8.units16 segs ->
  ktrailing (abs_path segs t) = t.
Proof.
  intros Hne Hc H16. unfold ktrailing, abs_path.
  rewrite (bool_decide_true (segs <> [])), andb_true_r by done.
  rewrite Utf8.encode_cons_ascii by (unfold CH_SLASH; lia).
  destruct t.
  - rewrite Utf8.encode_sep by (reflexivity || (unfold CH_SLASH; lia)).
    rewrite Utf8.encode_nil. rewrite last_cons, last_snoc. by apply bool_decide_true.
  - rewrite app_nil_r. apply bool_decide_false.
    destruct (exists_last Hne) as (init & x & ->).
    apply Forall_app in Hc as [Hci Hcx], H16 as [H16i H16x].
    rewrite Forall_singleton in Hcx, H16x.
    assert (Hx : Utf8.encode x <> []) by (apply Utf8.encode_not_nil, Hcx).
    destruct (decide (init = [])) as [->|Hi].
    + simpl. rewrite last_cons_ne by done.
      by apply last_encode_clean.
    + rewrite join_slash_snoc by done.
      rewrite Utf8.encode_sep by (reflexivity || (unfold CH_SLASH; lia)).
      rewrite app_comm_cons, last_app_ne, last_cons_ne by done.
      by apply last_encode_clean.
Qed.

(** ** Walking and creating along clean paths *)

Lemma kstep_clean cur c : clean_seg c -> kstep cur c = cur ++ [c].
Proof. intros (_ & H2 & H3 & _). unfold kstep. by rewrite !decide_False. Qed.

(** Every proper prefix of [cur ++ cs] from [cur] on is a directory. *)
Definition dirs_along (m : fsys) (cur : kpath) (cs : list name) : Prop :=
  forall i : nat, (i < length cs)%nat -> m !! (cur ++ take i cs) = Some NDir.

Lemma dirs_along_seq m cur cs :
  dirs_along m cur cs <-> Forall (fun i => m !! (cur ++ take i cs) = Some NDir) (seq 0 (length cs)).
Proof.
  rewrite Forall_forall. unfold dirs_along. setoid_rewrite elem_of_seq. naive_solver lia.
Qed.

#[export] Instance dirs_along_dec m cur cs : Decision (dirs_along m cur cs).
Proof.
  destruct (decide (Forall (fun i => m !! (cur ++ take i cs) = Some NDir) (seq 0 (length cs))))
    as [H|H]; [left|right]; rewrite dirs_along_seq; done.
Defined.

(** A name that does not exceed [NAME_MAX]. *)
Definition short_name (c : name) : Prop := long_name c = false.

(** Along clean components whose proper prefixes are directories, the
    walk reaches their concatenation, provided the last name is short or
    names an existing entry. *)
Lemma walk_clean m cur cs :
  Forall clean_seg cs -> dirs_along m cur cs ->
  Forall short_name cs \/ is_Some (m !! (cur ++ cs)) -> walk m cur cs = inr (cur ++ cs).
Proof.
  revert cur. induction cs as [|c cs IH]; intros cur Hc Hd Hl; simpl; [by rewrite app_nil_r|].
  inversion Hc; subst. pose proof (Hd 0%nat ltac:(simpl; lia)) as H0. simpl in H0.
  rewrite app_nil_r in H0. rewrite H0, kstep_clean by done.
  assert (Hs : long_name c && bool_decide (m !! (cur ++ [c]) = None) = false).
  { destruct cs as [|c' cs'].
    - destruct Hl as [Hl|[n Hn]]; [apply Forall_cons in Hl as [-> _]; done|].
      rewrite Hn. by rewrite andb_false_r.
    - pose proof (Hd 1%nat ltac:(simpl; lia)) as Hd1. simpl in Hd1. rewrite Hd1. by rewrite andb_false_r. }
  rewrite Hs, IH; [by rewrite <- app_assoc|done| |].
  - intros i Hi. rewrite <- app_assoc. apply (Hd (S i)). simpl. lia.
  - destruct Hl as [Hl|Hl]; [left; by apply Forall_cons in Hl as []|right; by rewrite <- app_assoc].
Qed.

(** The paths [mkdir -p] visits below [cur]. *)
Fixpoint prefixes_from (cur : kpath) (cs : list name) : list kpath :=
  match cs with
  | [] => []
  | c :: cs' => (cur ++ [c]) :: prefixes_from (cur ++ [c]) cs'
  end.

Lemma elem_of_prefixes_from cur cs k :
  k ∈ prefixes_from cur cs <-> exists i : nat, (1 <= i <= length cs)%nat /\ k = cur ++ take i cs.
Proof.
  revert cur. induction cs as [|c cs IH]; intros cur; simpl.
  - split; [by intros ?%not_elem_of_nil|]. intros (i & Hi & _). lia.
  - rewrite elem_of_cons, IH. split.
    + intros [->|(i & Hi & ->)]; [exists 1%nat; split; [lia|done]|].
      exists (S i). split; [lia|]. by rewrite <- app_assoc.
    + intros ([|i] & Hi & ->); [lia|]. destruct i as [|i]; [by left|right].
      exists (S i). split; [lia|]. by rewrite <- app_assoc.
Qed.

(** A map with the directories [ks] added. *)
Definition with_dirs (m : fsys) (ks : list kpath) : fsys :=
  foldr (fun k acc => <[k := NDir]> acc) m ks.

Lemma lookup_with_dirs m ks k :
  with_dirs m ks !! k = if decide (k ∈ ks) then Some NDir else m !! k.
Proof.
  unfold with_dirs. induction ks as [|k' ks IH]; cbn [foldr].
  - case_decide as H; [by apply not_elem_of_nil in H|done].
  - rewrite lookup_insert, IH. repeat case_decide; set_solver.
Qed.

Lemma with_dirs_insert m k ks : with_dirs (<[k := NDir]> m) ks = <[k := NDir]> (with_dirs m ks).
Proof.
  apply map_eq. intros j. rewrite lookup_with_dirs, !lookup_insert, lookup_with_dirs.
  repeat case_decide; naive_solver.
Qed.

(** None of the paths [ks] is a file. *)
Definition no_file_on (m : fsys) (ks : list kpath) : Prop :=
  forall k, k ∈ ks -> m !! k = None \/ m !! k = Some NDir.

#[export] Instance no_file_on_dec m ks : Decision (no_file_on m ks).
Proof. apply list_forall_dec. intros k. apply _. Defined.

Lemma with_dirs_id m ks : (forall k, k ∈ ks -> m !! k = Some NDir) -> with_dirs m ks = m.
Proof.
  intros Hks. apply map_eq. intros k. rewrite lookup_with_dirs. case_decide; [|done].
  symmetry. by apply Hks.
Qed.

(** [mkdir -p] along clean components where nothing is a file adds the
    missing directories. *)
Lemma mkdirp_go_clean m cur cs :
  Forall clean_seg cs -> Forall short_name cs -> m !! cur = Some NDir -> no_file_on m (prefixes_from cur cs) ->
  mkdirp_go m cur cs = (with_dirs m (prefixes_from cur cs), None).
Proof.
  revert m cur. induction cs as [|c cs IH]; intros m cur Hc Hsh Hcur Hpre; [done|].
  inversion Hc; subst. apply Forall_cons in Hsh as [Hshc Hsh]. simpl. rewrite kstep_clean by done.
  assert (Hsub : forall k, k ∈ prefixes_from (cur ++ [c]) cs -> m !! k = None \/ m !! k = Some NDir).
  { intros k Hk. apply Hpre. simpl. by right. }
  destruct (Hpre (cur ++ [c]) ltac:(simpl; by left)) as [Hn|Hn]; rewrite Hn.
  - rewrite Hshc. rewrite IH; [by rewrite with_dirs_insert|done|done|by rewrite lookup_insert_eq|].
    intros k Hk. rewrite lookup_insert. case_decide; [by right|by apply Hsub].
  - rewrite IH by done. f_equal. symmetry. apply insert_id.
    rewrite lookup_with_dirs. by case_decide.
Qed.

(** ** Directories along a path *)

Lemma take_in_parents (ks : kpath) (i : nat) :
  (1 <= i < length ks)%nat -> take i ks ∈ prefixes_from [] (removelast ks).
Proof.
  intros Hi. apply elem_of_prefixes_from. exists i.
  rewrite length_removelast, removelast_firstn_len, take_take. split; [lia|].
  simpl. f_equal. lia.
Qed.

Lemma not_in_parents (ks : kpath) : ks ∉ prefixes_from [] (removelast ks).
Proof.
  intros (i & Hi & E)%elem_of_prefixes_from. rewrite length_removelast in Hi.
  apply (f_equal length) in E. simpl in E. rewrite length_take, length_removelast in E. lia.
Qed.

(** After [mkdir -p] of its parent, every proper prefix of a path is a
    directory. *)
Lemma dirs_along_parents m ks :
  m !! [] = Some NDir -> dirs_along (with_dirs m (prefixes_from [] (removelast ks))) [] ks.
Proof.
  intros Hroot i Hi. rewrite lookup_with_dirs. simpl.
  case_decide as Hin; [done|]. destruct i as [|i]; [done|].
  exfalso. apply Hin, take_in_parents. lia.
Qed.

Lemma dirs_along_insert m ks n : dirs_along m [] ks -> dirs_along (<[ks := n]> m) [] ks.
Proof.
  intros Hd i Hi. simpl. rewrite lookup_insert_ne; [by apply Hd|].
  intros E. apply (f_equal length) in E. rewrite length_take in E. lia.
Qed.

Lemma dirs_along_mono m m' ks :
  (forall k, m !! k = Some NDir -> m' !! k = Some NDir) -> dirs_along m [] ks -> dirs_along m' [] ks.
Proof. intros Hm Hd i Hi. by apply Hm, Hd. Qed.

(** Removing a subtree removes exactly the paths that extend its root. *)
Lemma lookup_remove_tree k m k' :
  remove_tree k m !! k' = if decide (k `prefix_of` k') then None else m !! k'.
Proof.
  unfold remove_tree. rewrite map_lookup_filter. destruct (m !! k') eqn:E; simpl;
    repeat case_guard; repeat case_decide; simpl; naive_solver.
Qed.

(** Along clean components, a successful walk ends at their
    concatenation, and [mkdir -p] changes only the prefixes it visits. *)
Lemma walk_clean_inr m cur cs r :
  Forall clean_seg cs -> walk m cur cs = inr r -> r = cur ++ cs.
Proof.
  revert cur. induction cs as [|c cs IH]; intros cur Hc Hw; simpl in Hw.
  - injection Hw as <-. by rewrite app_nil_r.
  - inversion Hc; subst. rewrite kstep_clean in Hw by done.
    destruct (m !! cur) as [[]|]; try discriminate. destruct (_ && _); [discriminate|].
    rewrite (IH (cur ++ [c])) by done. by rewrite <- app_assoc.
Qed.

Lemma mkdirp_go_frame m cur cs k :
  Forall clean_seg cs -> k ∉ prefixes_from cur cs -> (mkdirp_go m cur cs).1 !! k = m !! k.
Proof.
  revert m cur. induction cs as [|c cs IH]; intros m cur Hc Hk; simpl; [done|].
  inversion Hc; subst. rewrite kstep_clean by done. simpl in Hk.
  rewrite elem_of_cons in Hk. apply Decidable.not_or in Hk as [Hne Hk].
  destruct (m !! (cur ++ [c])) as [[]|]; [done|by apply IH|].
  destruct (long_name c); [done|].
  rewrite (IH _ _ H2 Hk). by rewrite lookup_insert_ne.
Qed.

(** ** Repeating [mkdir -p] and [open] *)

(** [mkdir -p] only adds entries where there were none. *)
Lemma mkdirp_go_keep m cur cs k n : m !! k = Some n -> (mkdirp_go m cur cs).1 !! k = Some n.
Proof.
  revert m cur. induction cs as [|c cs IH]; intros m cur Hk; simpl; [done|].
  destruct (m !! kstep cur c) as [[]|] eqn:E; [done|by apply IH|].
  destruct (long_name c); [done|]. apply IH. rewrite lookup_insert_ne; [done|congruence].
Qed.

(** Running [mkdir -p] again on the state it reached answers the same and
    changes nothing: on success every directory is there, and an error
    stops at the same name, after the same directories. *)
Lemma mkdirp_go_idem m cur cs : mkdirp_go (mkdirp_go m cur cs).1 cur cs = mkdirp_go m cur cs.
Proof.
  revert m cur. induction cs as [|c cs IH]; intros m cur; [done|].
  remember (mkdirp_go m cur (c :: cs)) as r eqn:Hr. cbn [mkdirp_go] in Hr.
  destruct (m !! kstep cur c) as [[]|] eqn:E.
  - subst r. cbn [fst mkdirp_go]. by rewrite E.
  - subst r. cbn [mkdirp_go]. rewrite (mkdirp_go_keep _ _ _ _ NDir E). apply IH.
  - destruct (long_name c) eqn:Hl; subst r; cbn [fst mkdirp_go].
    + by rewrite E, Hl.
    + rewrite (mkdirp_go_keep _ _ _ (kstep cur c) NDir) by by rewrite lookup_insert_eq. apply IH.
Qed.

(** An entry outside the directories [mkdir -p] visits does not change
    what it does. *)
Lemma mkdirp_go_insert m cur cs k n :
  Forall clean_seg cs -> k ∉ prefixes_from cur cs ->
  mkdirp_go (<[k := n]> m) cur cs = (<[k := n]> (mkdirp_go m cur cs).1, (mkdirp_go m cur cs).2).
Proof.
  revert m cur. induction cs as [|c cs IH]; intros m cur Hc Hk; [done|].
  inversion Hc; subst. cbn [mkdirp_go]. rewrite kstep_clean by done. cbn [prefixes_from] in Hk.
  rewrite elem_of_cons in Hk. apply Decidable.not_or in Hk as [Hne Hk].
  rewrite lookup_insert_ne by congruence.
  destruct (m !! (cur ++ [c])) as [[]|]; [done|by apply IH|].
  destruct (long_name c); [done|]. rewrite insert_insert_ne by congruence. by apply IH.
Qed.

Lemma exec_mkdirp_idem q m : exec (Mkdirp q) (exec (Mkdirp q) m).2 = exec (Mkdirp q) m.
Proof.
  unfold exec. destruct (nul_path (Mkdirp q)); [done|]. cbn [kexec]. unfold mkdirp.
  destruct (too_long q); [done|].
  destruct (mkdirp_go m [] (kcomponents q)) as [m' e] eqn:E. cbn [snd].
  change m' with (m', e).1. rewrite <- E, mkdirp_go_idem, E. done.
Qed.

Lemma exec_mkdirp_insert q m k n :
  Forall clean_seg (kcomponents q) -> k ∉ prefixes_from [] (kcomponents q) ->
  exec (Mkdirp q) (<[k := n]> m) = ((exec (Mkdirp q) m).1, <[k := n]> (exec (Mkdirp q) m).2).
Proof.
  intros Hc Hk. unfold exec. destruct (nul_path (Mkdirp q)); [done|]. cbn [kexec]. unfold mkdirp.
  destruct (too_long q); [done|]. rewrite mkdirp_go_insert by done.
  by destruct (mkdirp_go m [] (kcomponents q)).
Qed.

(** Creating the entry a walk reached does not change the walk. *)
Lemma walk_insert_target m cur cs n :
  Forall clean_seg cs -> walk m cur cs = inr (cur ++ cs) ->
  walk (<[cur ++ cs := n]> m) cur cs = inr (cur ++ cs).
Proof.
  revert cur. induction cs as [|c cs IH]; intros cur Hc Hw; [done|].
  inversion Hc; subst. cbn [walk] in Hw |- *. rewrite kstep_clean in Hw |- * by done.
  rewrite lookup_insert_ne by (intros E; apply (f_equal length) in E; rewrite length_app in E; simpl in E; lia).
  destruct (m !! cur) as [[]|]; try done. destruct cs as [|c' cs].
  - rewrite lookup_insert_eq, bool_decide_false, andb_false_r by done. done.
  - rewrite lookup_insert_ne by (intros E; apply (f_equal length) in E; rewrite !length_app in E; simpl in E; lia).
    destruct (_ && _); [done|]. replace (cur ++ c :: c' :: cs) with ((cur ++ [c]) ++ c' :: cs)
      in * by by rewrite <- app_assoc. by apply IH.
Qed.

(** A failed [open] changes nothing. *)
Lemma exec_open_error q m e m' : exec (OpenTrunc q) m = (inl e, m') -> m' = m.
Proof.
  unfold exec. destruct (nul_path (OpenTrunc q)); [congruence|]. cbn [kexec update].
  by destruct (open_trunc m q); intros [= _ <-].
Qed.

(** A successful [open] of a path of clean names empties the file its
    names reach; opening it again after any write to that file gives the
    same state, and each [write] appends its bytes. *)
Lemma exec_open_ok q m u m' :
  Forall clean_seg (kcomponents q) -> exec (OpenTrunc q) m = (inr u, m') ->
  m' = <[kcomponents q := NFile []]> m /\
  (forall d, exec (OpenTrunc q) (<[kcomponents q := NFile d]> m) = (inr (), m')) /\
  (forall d bs, exec (AppendFile q bs) (<[kcomponents q := NFile d]> m) =
     (inr (), <[kcomponents q := NFile (d ++ bs)]> m)).
Proof.
  intros Hc. unfold exec. cbn [nul_path call_path]. destruct (bool_decide _); [congruence|].
  cbn [kexec update]. unfold open_trunc, resolve.
  destruct (too_long q) eqn:Hl; [done|].
  destruct (walk m [] (kcomponents q)) as [|k] eqn:Hw; [done|].
  pose proof (walk_clean_inr _ _ _ _ Hc Hw) as ->. cbn [app] in *.
  assert (Hw' : forall d, walk (<[kcomponents q := NFile d]> m) [] (kcomponents q) = inr (kcomponents q))
    by (intros d; by apply (walk_insert_target m [])).
  destruct (m !! kcomponents q) as [[]|], (ktrailing q) eqn:Ht; try done; intros [= _ <-];
    (split; [done|split]); intros;
    try (rewrite Hw', lookup_insert_eq; cbv beta iota; by rewrite insert_insert_eq);
    unfold append_file, NodeFs.lookup, lookup_at; rewrite Hl;
    rewrite Hw', lookup_insert_eq, Ht; cbv beta iota; by rewrite insert_insert_eq.
Qed.

(** A walk along [cs1 ++ cs2] is a walk along [cs1], then along [cs2]. *)
Lemma walk_app m cur cs1 cs2 :
  walk m cur (cs1 ++ cs2) = match walk m cur cs1 with inl e => inl e | inr k => walk m k cs2 end.
Proof.
  revert cur. induction cs1 as [|c cs1 IH]; intros cur; [done|]. cbn [app walk].
  destruct (m !! cur) as [[]|]; [done| |done]. by destruct (_ && _).
Qed.

(** The directories along [k ++ [x]] are those along [k] and [k] itself. *)
Lemma dirs_along_snoc m k x : dirs_along m [] (k ++ [x]) -> dirs_along m [] k /\ m !! k = Some NDir.
Proof.
  intros Hd. unfold dirs_along in Hd. rewrite length_app in Hd; cbn [length] in Hd. split.
  - intros i Hi. rewrite <- (take_app_le _ [x]) by lia. apply Hd. lia.
  - pose proof (Hd (length k) ltac:(lia)) as H. by rewrite take_app_length in H.
Qed.

End NodeFs.
