(* ===== verification/Rimraf.v ===== *)
(** * Node's rimraf, one system call at a time

    [fs.promises.rmdir(p, { recursive: true })] (index.js line 98) runs
    Node's [rimrafPromises] (lib/internal/fs/rimraf.js, Node 16 to 22,
    with [maxRetries] 0).  It is a tree of callbacks:
    - [_rimraf(path)]: [lstat]; a missing path is done, a directory goes
      to [_rmdir], and anything else, a failed [lstat] included, is
      [unlink]ed.  An [unlink] that fails with [EISDIR] goes to [_rmdir];
      [ENOENT] is success;
    - [_rmdir(path, originalErr)]: [rmdir]; [ENOTEMPTY] or [EEXIST] goes
      to [_rmchildren], and [ENOTDIR] reports [originalErr];
    - [_rmchildren(path)]: [readdir] as Buffers; with no entry, a final
      [rmdir]; otherwise a [rimraf] of every [path + '/' + child] is
      started at once.  The first child to fail makes the directory fail
      ([done = true]) and the others go on unobserved; when every child
      has succeeded, the final [rmdir] runs;
    - [rimraf(path)] turns an [ENOENT] result into success.
    Children's paths are Buffers: the kernel gets the bytes, and an error
    message shows their UTF-8 decoding.

    [task] is that tree: a leaf has one system call in flight, and
    [TChildren] holds the children running together with the [done] flag.
    [fire] completes the call of one leaf, chosen by its position, and
    runs its callbacks up the tree.  [rstep] is any such move, and the
    machine's outcome is the report of the root.

    The invariant [minv] of a run on an entry: the tree is [good] (each
    task's path is an entry of the initial state of the kind its call
    expects, and the children of a [TChildren] are one per entry of the
    directory), the state [agrees] with the tree below the path and is
    the initial one elsewhere.  Each move keeps it and lowers [weight], a
    bound on the calls still to come (six per entry below the path).

    The theorems: when nothing else touches the files, every run from
    [rinit] is finite whichever callback completes first, and every run
    that cannot go on ends with the state and outcome of the one-step
    [NodeFs.rimraf] ([rimraf_refines]).  With another request's call
    between two of rimraf's ([istep]), a delete can fail after it has
    removed part of the directory ([rimraf_partial_failure]). *)

From S2P Require Import Prelude Utf8 Json NodePath NodeFs.
Import Json NodePath NodeFs.

Module Rimraf.

#[local] Set Warnings "-register-all".

(** ** System calls on byte paths *)

(** A path as rimraf holds it: the bytes the kernel sees and the text
    Node shows in an error message. *)
Record rpath := { rbytes : list Z; rtext : jstr }.

Definition bcomponents (b : list Z) : list name := filter (fun s => s <> []) (split_slash b).

Definition btrailing (b : list Z) : bool := bool_decide (last b = Some CH_SLASH).

(** [lookup] of a byte path. *)
Definition blookup (m : fsys) (b : list Z) : errno + (kpath * node) :=
  match walk m [] (bcomponents b) with
  | inl e => inl e
  | inr k =>
      match m !! k with
      | None => inl ENOENT
      | Some (NFile d) => if btrailing b then inl ENOTDIR else inr (k, NFile d)
      | Some NDir => inr (k, NDir)
      end
  end.

Definition rerr (e : errno) (syscall : string) (rp : rpath) : js_error :=
  SystemError e syscall (Some (rtext rp)).

Definition unlink_r (m : fsys) (rp : rpath) : js_error + fsys :=
  match blookup m (rbytes rp) with
  | inl e => inl (rerr e "unlink" rp)
  | inr (_, NDir) => inl (rerr EISDIR "unlink" rp)
  | inr (k, NFile _) => inr (delete k m)
  end.

Definition rmdir_r (m : fsys) (rp : rpath) : js_error + fsys :=
  match blookup m (rbytes rp) with
  | inl e => inl (rerr e "rmdir" rp)
  | inr (_, NFile _) => inl (rerr ENOTDIR "rmdir" rp)
  | inr ([], NDir) => inl (rerr EBUSY "rmdir" rp)
  | inr (k, NDir) =>
      match children m k with
      | [] => inr (delete k m)
      | _ => inl (rerr ENOTEMPTY "rmdir" rp)
      end
  end.

(** [readdir(pathBuf, 'buffer')]: the names as bytes. *)
Definition readdir_r (m : fsys) (rp : rpath) : js_error + list name :=
  match blookup m (rbytes rp) with
  | inl e => inl (rerr e "scandir" rp)
  | inr (_, NFile _) => inl (rerr ENOTDIR "scandir" rp)
  | inr (k, NDir) => inr (map fst (children m k))
  end.

(** [Buffer.concat([pathBuf, separator, child])]. *)
Definition child_path (rp : rpath) (c : name) : rpath :=
  let b := rbytes rp ++ CH_SLASH :: c in {| rbytes := b; rtext := Utf8.decode b |}.

(** The path rimraf starts from: the string [fullPath]. *)
Definition root_path (p : jstr) : rpath := {| rbytes := Utf8.encode p; rtext := p |}.

Definition code_is (c : errno) (e : js_error) : bool :=
  match e with SystemError c' _ _ => bool_decide (c' = c) | _ => false end.

(** [rimraf]'s callback: [ENOENT] means the file is already gone. *)
Definition settle (r : option js_error) : option js_error :=
  match r with Some e => if code_is ENOENT e then None else r | None => None end.

(** ** The tree of callbacks *)

Inductive task :=
| TLstat (rp : rpath)
| TUnlink (rp : rpath)
| TRmdir (rp : rpath) (orig : option js_error)
| TReaddir (rp : rpath)
| TChildren (rp : rpath) (kids : list task) (failed : bool)
| TFinal (rp : rpath)
| TDone (rp : rpath).

Definition is_done (t : task) : bool := match t with TDone _ => true | _ => false end.

(** What a completed call leads to: the state, the task, and the report
    of the task to its parent when it calls back ([Some None] is
    success). *)
Abbreviation outcome := (fsys * task * option (option js_error))%type.

Definition after_lstat (m : fsys) (rp : rpath) : outcome :=
  match blookup m (rbytes rp) with
  | inl ENOENT => (m, TDone rp, Some None)
  | inr (_, NDir) => (m, TRmdir rp None, None)
  | _ => (m, TUnlink rp, None)
  end.

Definition after_unlink (m : fsys) (rp : rpath) : outcome :=
  match unlink_r m rp with
  | inr m' => (m', TDone rp, Some None)
  | inl e => if code_is EISDIR e then (m, TRmdir rp (Some e), None) else (m, TDone rp, Some (Some e))
  end.

Definition after_rmdir (m : fsys) (rp : rpath) (orig : option js_error) : outcome :=
  match rmdir_r m rp with
  | inr m' => (m', TDone rp, Some None)
  | inl e =>
      if code_is ENOTEMPTY e || code_is EEXIST e then (m, TReaddir rp, None)
      else if code_is ENOTDIR e then (m, TDone rp, Some orig)
      else (m, TDone rp, Some (Some e))
  end.

Definition after_readdir (m : fsys) (rp : rpath) : outcome :=
  match readdir_r m rp with
  | inl e => (m, TDone rp, Some (Some e))
  | inr [] => (m, TFinal rp, None)
  | inr names => (m, TChildren rp (map (fun c => TLstat (child_path rp c)) names) false, None)
  end.

Definition after_final (m : fsys) (rp : rpath) : outcome :=
  match rmdir_r m rp with
  | inr m' => (m', TDone rp, Some None)
  | inl e => (m, TDone rp, Some (Some e))
  end.

(** The callback a child's report runs in [_rmchildren]. *)
Definition after_child (rp : rpath) (kids : list task) (failed : bool)
    (rep : option (option js_error)) : task * option (option js_error) :=
  match rep with
  | None => (TChildren rp kids failed, None)
  | Some r =>
      if failed then (TChildren rp kids true, None)
      else match settle r with
           | Some e => (TChildren rp kids true, Some (Some e))
           | None => if forallb is_done kids then (TFinal rp, None) else (TChildren rp kids false, None)
           end
  end.

(** Complete the call of the leaf at [pos]. *)
Fixpoint fire (m : fsys) (pos : list nat) (t : task) : option outcome :=
  match pos, t with
  | [], TLstat rp => Some (after_lstat m rp)
  | [], TUnlink rp => Some (after_unlink m rp)
  | [], TRmdir rp orig => Some (after_rmdir m rp orig)
  | [], TReaddir rp => Some (after_readdir m rp)
  | [], TFinal rp => Some (after_final m rp)
  | i :: pos', TChildren rp kids failed =>
      match kids !! i with
      | Some k =>
          match fire m pos' k with
          | Some (m', k', rep) =>
              let '(t', rep') := after_child rp (<[i := k']> kids) failed rep in
              Some (m', t', rep')
          | None => None
          end
      | None => None
      end
  | _, _ => None
  end.

(** The machine: the state, the tree, and the outcome of the promise once
    the root has called back. *)
Record rstate := { rfs : fsys; rtask : task; rresult : option (option js_error) }.

(** The state after a completed call; the root's report settles the
    promise. *)
Definition advance (st : rstate) (o : outcome) : rstate :=
  let '(m', t', rep) := o in
  {| rfs := m'; rtask := t';
     rresult := match rep with Some r => Some (settle r) | None => rresult st end |}.

(** One move: any call in flight completes. *)
Inductive rstep : rstate -> rstate -> Prop :=
| rstep_fire st pos o : fire (rfs st) pos (rtask st) = Some o -> rstep st (advance st o).

Definition rinit (m : fsys) (p : jstr) : rstate :=
  {| rfs := m; rtask := TLstat (root_path p); rresult := None |}.

(** The leaves of the tree, leftmost first. *)
Fixpoint leaves (t : task) : list (list nat) :=
  match t with
  | TChildren _ kids _ =>
      (fix go (i : nat) (ks : list task) : list (list nat) :=
         match ks with
         | [] => []
         | k :: ks' => map (cons i) (leaves k) ++ go (S i) ks'
         end) 0%nat kids
  | TDone _ => []
  | _ => [[]]
  end.

(** A run that always completes the leftmost call, with fuel. *)
Fixpoint run_leftmost (fuel : nat) (st : rstate) : rstate :=
  match fuel with
  | O => st
  | S n =>
      match leaves (rtask st) with
      | pos :: _ =>
          match fire (rfs st) pos (rtask st) with
          | Some o => run_leftmost n (advance st o)
          | None => st
          end
      | [] => st
      end
  end.

(** ** The tree below a path *)

Section Tree.
Context (m : fsys).
Hypothesis Hwf : fs_wf m.

(** Every proper ancestor of an entry is a directory. *)
Lemma ancestor_dir x n k : m !! x = Some n -> k `prefix_of` x -> k <> x -> m !! k = Some NDir.
Proof.
  revert n. induction x as [x IH] using (induction_ltof1 _ (@length (list Z))); unfold ltof in IH.
  intros n Hx Hp Hne. destruct (fs_wf_entry m x n Hwf Hx) as [->|[Hpar _]].
  - apply prefix_nil_inv in Hp. congruence.
  - assert (Hxne : x <> []) by (intros ->; by apply prefix_nil_inv in Hp).
    destruct (exists_last Hxne) as (y & z & ->). rewrite removelast_last in Hpar.
    destruct (decide (k = y)) as [->|Hky]; [done|].
    apply (IH y) with NDir; [rewrite length_app; simpl; lia|done| |done].
    destruct Hp as [r Hr]. destruct r as [|r0 r] using rev_ind.
    + rewrite app_nil_r in Hr. congruence.
    + exists r. rewrite app_assoc in Hr. by apply app_inj_tail in Hr as [-> _].
Qed.

(** Nothing lies below a regular file. *)
Lemma below_file k d x : m !! k = Some (NFile d) -> k `prefix_of` x -> k <> x -> m !! x = None.
Proof.
  intros Hk Hp Hne. destruct (m !! x) as [n|] eqn:Hx; [|done].
  pose proof (ancestor_dir x n k Hx Hp Hne). congruence.
Qed.

(** An entry strictly below [k] lies below a child of [k]. *)
Lemma below_child k x n :
  m !! x = Some n -> k `prefix_of` x -> k <> x ->
  exists c, (k ++ [c]) `prefix_of` x /\ exists n', m !! (k ++ [c]) = Some n'.
Proof.
  intros Hx [r ->] Hne. destruct r as [|c r]; [by rewrite app_nil_r in Hne|].
  exists c. split; [exists r; by rewrite <- app_assoc|].
  destruct r as [|c' r]; [by exists n|]. exists NDir.
  apply (ancestor_dir (k ++ c :: c' :: r) n); [done|exists (c' :: r); by rewrite <- app_assoc|].
  intros E. apply app_inv_head in E. discriminate.
Qed.

End Tree.

(** Two children of one directory are not prefixes of a common path. *)
Lemma child_prefix_inj (k : kpath) (c c' : name) (x : kpath) :
  (k ++ [c]) `prefix_of` x -> (k ++ [c']) `prefix_of` x -> c = c'.
Proof.
  intros [r ->] [r' E]. rewrite <- !app_assoc in E. apply app_inv_head in E.
  simpl in E. congruence.
Qed.

Lemma children_names_spec m k c : c ∈ map fst (children m k) <-> exists n, m !! (k ++ [c]) = Some n.
Proof.
  rewrite list_elem_of_fmap. split.
  - intros ([c' n] & -> & Hin). apply elem_of_children in Hin. by exists n.
  - intros [n Hn]. exists (c, n). split; [done|]. by apply elem_of_children.
Qed.

Lemma children_names_nodup m k : NoDup (map fst (children m k)).
Proof.
  unfold children. pose proof (NoDup_fst_map_to_list m) as Hnd.
  induction (map_to_list m) as [|[x n] l IH]; [constructor|]. simpl in *.
  apply NoDup_cons in Hnd as [Hx Hnd]. destruct (child_name k x) as [c|] eqn:Hc; [|by apply IH].
  simpl. constructor; [|by apply IH]. intros Hin. apply Hx.
  apply list_elem_of_fmap in Hin as ([c' n'] & E & Hin). simpl in E. subst c'.
  apply list_elem_of_omap in Hin as ([y n''] & Hy & Hf). simpl in Hf.
  destruct (child_name k y) as [c''|] eqn:Hc'; [|done]. injection Hf as -> _.
  apply child_name_spec in Hc, Hc'. subst. apply list_elem_of_fmap. by exists (k ++ [c], n'').
Qed.

(** ** Byte paths along clean components *)

Lemma bcomponents_child b c :
  c <> [] -> CH_SLASH ∉ c -> bcomponents (b ++ CH_SLASH :: c) = bcomponents b ++ [c].
Proof.
  intros Hne Hs. unfold bcomponents. rewrite split_slash_snoc, filter_app by done.
  by rewrite filter_cons_True, filter_nil.
Qed.

Lemma btrailing_child b c : c <> [] -> CH_SLASH ∉ c -> btrailing (b ++ CH_SLASH :: c) = false.
Proof.
  intros Hne Hs. unfold btrailing. rewrite last_app_ne, last_cons_ne by done.
  apply bool_decide_false. intros E. apply Hs. by apply last_Some_elem_of.
Qed.

Lemma blookup_clean m b :
  Forall clean_seg (bcomponents b) -> dirs_along m [] (bcomponents b) ->
  Forall short_name (bcomponents b) \/ is_Some (m !! bcomponents b) ->
  blookup m b =
    match m !! bcomponents b with
    | None => inl ENOENT
    | Some (NFile d) => if btrailing b then inl ENOTDIR else inr (bcomponents b, NFile d)
    | Some NDir => inr (bcomponents b, NDir)
    end.
Proof. intros Hc Hd Hl. unfold blookup. by rewrite walk_clean by done. Qed.

(** The one-step calls are these calls on the string's bytes. *)
Lemma blookup_encode m p : blookup m (Utf8.encode p) = lookup_at m p.
Proof. reflexivity. Qed.

(** ** Sizes of subtrees *)

Definition under (m : fsys) (k : kpath) : fsys := filter (fun kv => k `prefix_of` kv.1) m.

Definition size_under (m : fsys) (k : kpath) : nat := size (under m k).

Lemma lookup_under m k x : under m k !! x = if decide (k `prefix_of` x) then m !! x else None.
Proof.
  unfold under. rewrite map_lookup_filter. destruct (m !! x); simpl;
    repeat case_guard; repeat case_decide; naive_solver.
Qed.

Lemma size_under_pos m k n : m !! k = Some n -> (1 <= size_under m k)%nat.
Proof.
  intros Hk. unfold size_under. destruct (size (under m k)) eqn:E; [|lia].
  apply map_size_empty_inv in E. assert (under m k !! k = Some n) as H
    by (rewrite lookup_under, decide_True by done; done).
  rewrite E, lookup_empty in H. discriminate.
Qed.

(** The union of the subtrees of the children [names]. *)
Definition below_names (m : fsys) (k : kpath) (names : list name) : fsys :=
  foldr (fun c acc => under m (k ++ [c]) ∪ acc) ∅ names.

Lemma lookup_below_names m k names x :
  below_names m k names !! x = None \/
  (exists c, c ∈ names /\ (k ++ [c]) `prefix_of` x /\ below_names m k names !! x = m !! x).
Proof.
  induction names as [|c names IH]; [by left|]. simpl.
  rewrite lookup_union, lookup_under. case_decide as Hp.
  - right. exists c. split; [by left|]. split; [done|].
    destruct (m !! x) eqn:Hx; destruct IH as [E|(c' & _ & _ & E)]; rewrite E; rewrite ?Hx; done.
  - destruct IH as [E|(c' & Hc' & Hp' & E)]; rewrite E; [by left|]. right. exists c'.
    split; [by right|]. split; [done|]. by destruct (m !! x).
Qed.

Lemma size_below_names m k names :
  NoDup names -> size (below_names m k names) = sum_list (map (fun c => size_under m (k ++ [c])) names).
Proof.
  induction 1 as [|c names Hc Hnd IH]; [apply map_size_empty|]. simpl.
  rewrite map_size_disj_union, IH; [done|]. apply map_disjoint_spec. intros x n1 n2 H1 H2.
  rewrite lookup_under in H1. case_decide as Hp; [|done].
  destruct (lookup_below_names m k names x) as [E|(c' & Hc' & Hp' & _)]; [congruence|].
  apply Hc. by rewrite (child_prefix_inj k c c' x).
Qed.

(** The subtrees of distinct children of [k] fit, with [k] itself, in
    the subtree of [k]. *)
Lemma sum_children_le m k n names :
  m !! k = Some n -> NoDup names ->
  (sum_list (map (fun c => size_under m (k ++ [c])) names) + 1 <= size_under m k)%nat.
Proof.
  intros Hk Hnd. rewrite <- size_below_names by done. unfold size_under.
  assert (Hd : size (delete k (under m k)) = pred (size (under m k))).
  { apply map_size_delete_Some. rewrite lookup_under, decide_True by done. by eexists. }
  pose proof (size_under_pos m k n Hk) as Hpos. unfold size_under in Hpos.
  assert (size (below_names m k names) <= size (delete k (under m k)))%nat; [|lia].
  apply map_subseteq_size. apply map_subseteq_spec. intros x v Hx.
  destruct (lookup_below_names m k names x) as [E|(c & _ & Hp & E)]; [congruence|].
  rewrite lookup_delete_ne.
  - rewrite lookup_under, decide_True; [congruence|]. etrans; [|exact Hp]. by exists [c].
  - intros ->. destruct Hp as [r Hr]. apply (f_equal length) in Hr. rewrite !length_app in Hr. simpl in Hr. lia.
Qed.

(** ** What a task still has to remove *)

Definition tpath (t : task) : rpath :=
  match t with
  | TLstat rp | TUnlink rp | TRmdir rp _ | TReaddir rp | TChildren rp _ _ | TFinal rp | TDone rp => rp
  end.

Definition key (rp : rpath) : kpath := bcomponents (rbytes rp).

Definition tkey (t : task) : kpath := key (tpath t).

(** The paths below its own that a task has not removed yet. *)
Fixpoint present (t : task) (x : kpath) : bool :=
  match t with
  | TLstat rp | TUnlink rp | TRmdir rp _ | TReaddir rp => bool_decide (key rp `prefix_of` x)
  | TChildren rp kids _ =>
      bool_decide (key rp `prefix_of` x) &&
      (bool_decide (x = key rp) || existsb (fun k => present k x) kids)
  | TFinal rp => bool_decide (x = key rp)
  | TDone _ => false
  end.

(** The tasks of a run on an unchanging tree: every path is reached by
    clean names, every task stands on an entry of the initial tree [m0]
    of the kind it expects, and the children of a directory are one task
    per entry of it, one of them at least still running. *)
Definition nice (rp : rpath) : Prop := key rp <> [] /\ Forall clean_seg (key rp).

Fixpoint good (m0 : fsys) (t : task) : Prop :=
  match t with
  | TLstat rp => nice rp /\ exists n, m0 !! key rp = Some n /\ (btrailing (rbytes rp) = true -> n = NDir)
  | TUnlink rp => nice rp /\ btrailing (rbytes rp) = false /\ exists d, m0 !! key rp = Some (NFile d)
  | TRmdir rp orig => nice rp /\ orig = None /\ m0 !! key rp = Some NDir
  | TReaddir rp | TFinal rp => nice rp /\ m0 !! key rp = Some NDir
  | TChildren rp kids failed =>
      nice rp /\ m0 !! key rp = Some NDir /\ failed = false /\
      NoDup (map tkey kids) /\
      (forall c, key rp ++ [c] ∈ map tkey kids <-> exists n, m0 !! (key rp ++ [c]) = Some n) /\
      (forall k, k ∈ kids -> exists c, tkey k = key rp ++ [c]) /\
      existsb (fun k => negb (is_done k)) kids = true /\
      (fix all (ks : list task) : Prop :=
         match ks with [] => True | k :: ks' => good m0 k /\ all ks' end) kids
  | TDone _ => True
  end.

(** A bound on the calls a task still makes. *)
Fixpoint weight (m0 : fsys) (t : task) : nat :=
  match t with
  | TLstat rp => 6 * size_under m0 (key rp)
  | TUnlink rp => 6 * size_under m0 (key rp) - 1
  | TRmdir rp _ => 6 * size_under m0 (key rp) - 2
  | TReaddir rp => 6 * size_under m0 (key rp) - 3
  | TChildren _ kids _ => 2 + sum_list (map (weight m0) kids)
  | TFinal _ => 1
  | TDone _ => 0
  end%nat.

Lemma present_below t x : present t x = true -> tkey t `prefix_of` x.
Proof.
  destruct t; simpl; intros H; try (apply andb_prop in H as [H _]);
    try (apply bool_decide_eq_true in H); subst; done.
Qed.

Lemma good_children m0 rp kids failed :
  good m0 (TChildren rp kids failed) <->
  nice rp /\ m0 !! key rp = Some NDir /\ failed = false /\ NoDup (map tkey kids) /\
  (forall c, key rp ++ [c] ∈ map tkey kids <-> exists n, m0 !! (key rp ++ [c]) = Some n) /\
  (forall k, k ∈ kids -> exists c, tkey k = key rp ++ [c]) /\
  existsb (fun k => negb (is_done k)) kids = true /\ Forall (good m0) kids.
Proof.
  simpl. enough (E : forall ks, (fix all (ks : list task) : Prop :=
      match ks with [] => True | k :: ks' => good m0 k /\ all ks' end) ks <-> Forall (good m0) ks)
    by (rewrite E; done).
  induction ks as [|k ks IH]; [split; by constructor|]. rewrite Forall_cons, <- IH. done.
Qed.

(** ** Lists of children *)

Lemma existsb_insert {A} (f : A -> bool) (l : list A) i a b :
  l !! i = Some b -> f a = f b -> existsb f (<[i := a]> l) = existsb f l.
Proof.
  revert i. induction l as [|y l IH]; intros [|i] Hl Hf; try done; simpl in *.
  - injection Hl as ->. by rewrite Hf.
  - by rewrite (IH i).
Qed.

Lemma sum_list_insert {A} (w : A -> nat) (l : list A) i a b :
  l !! i = Some b -> (sum_list (map w (<[i := a]> l)) + w b = sum_list (map w l) + w a)%nat.
Proof.
  revert i. induction l as [|y l IH]; intros [|i] Hl; try done; simpl in *.
  - injection Hl as ->. lia.
  - specialize (IH i Hl). lia.
Qed.

Lemma elem_le_sum {A} (w : A -> nat) (l : list A) x : x ∈ l -> (w x <= sum_list (map w l))%nat.
Proof. induction 1; simpl; lia. Qed.

Lemma map_insert_same {A B} (f : A -> B) (l : list A) i a b :
  l !! i = Some b -> f a = f b -> map f (<[i := a]> l) = map f l.
Proof. intros Hl Hf. rewrite list_fmap_insert. apply list_insert_id. by rewrite list_lookup_fmap, Hl, Hf. Qed.

Lemma elem_of_insert_inv {A} (l : list A) i a t : t ∈ <[i := a]> l -> t = a \/ t ∈ l.
Proof.
  intros (j & Hj)%list_elem_of_lookup. rewrite list_lookup_insert in Hj.
  case_decide; [left; congruence|right]. by eapply list_elem_of_lookup_2.
Qed.

Lemma prefix_child_ne (k : kpath) c x : (k ++ [c]) `prefix_of` x -> x <> k.
Proof.
  intros [r Hr] ->. apply (f_equal length) in Hr. rewrite !length_app in Hr. simpl in Hr. lia.
Qed.

Lemma existsb_all_done l x : forallb is_done l = true -> existsb (fun t => present t x) l = false.
Proof.
  induction l as [|t l IH]; [done|]. simpl. intros [Ht Hl]%andb_prop.
  destruct t; try done. simpl. by apply IH.
Qed.

Lemma not_all_done l : forallb is_done l = false -> existsb (fun k => negb (is_done k)) l = true.
Proof.
  induction l as [|t l IH]; [done|]. simpl. destruct (is_done t); simpl; [apply IH|done].
Qed.

(** Among children with distinct keys, only the one whose key is a prefix
    of [x] can have [x] present. *)
Lemma existsb_owner k kids i kid c x :
  kids !! i = Some kid -> NoDup (map tkey kids) -> tkey kid = k ++ [c] ->
  (forall t, t ∈ kids -> exists c', tkey t = k ++ [c']) -> (k ++ [c]) `prefix_of` x ->
  existsb (fun t => present t x) kids = present kid x.
Proof.
  intros Hi Hnd Hk Hform Hp. apply Bool.eq_true_iff_eq. rewrite existsb_exists. split.
  - intros (t & Ht & Hpr). apply list_elem_of_In, list_elem_of_lookup in Ht as [j Hj].
    destruct (Hform t) as [c' Hc']; [by eapply list_elem_of_lookup_2|].
    pose proof (present_below t x Hpr) as Hb. rewrite Hc' in Hb.
    assert (c' = c) as -> by (eapply child_prefix_inj; done).
    assert (j = i) as ->.
    { eapply NoDup_lookup; [exact Hnd| |]; rewrite list_lookup_fmap; [rewrite Hj|rewrite Hi]; simpl;
        [by rewrite Hc'|by rewrite Hk]. }
    congruence.
  - intros Hpr. exists kid. split; [|done]. apply list_elem_of_In. by eapply list_elem_of_lookup_2.
Qed.

(** ** One call, when nothing else touches the tree *)

Section Step.
Context (m0 : fsys).
Hypothesis Hwf : fs_wf m0.

(** Below the task's path, the state holds what the task has not yet
    removed, as it was in [m0]. *)
Definition agrees (m : fsys) (t : task) : Prop :=
  forall x, tkey t `prefix_of` x -> m !! x = if present t x then m0 !! x else None.

(** What a completed call keeps: the invariant, the path, the agreement,
    the state elsewhere; the task reports success exactly when it is
    done; and its weight decreases. *)
Definition step_ok (m : fsys) (t : task) (o : outcome) : Prop :=
  let '(m', t', rep) := o in
  good m0 t' /\ tkey t' = tkey t /\ agrees m' t' /\
  (forall x, ~ tkey t `prefix_of` x -> m' !! x = m !! x) /\
  ((rep = None /\ is_done t' = false) \/ (rep = Some None /\ is_done t' = true)) /\
  (weight m0 t' < weight m0 t)%nat.

Lemma agrees_whole m rp t :
  tkey t = key rp -> (forall x, present t x = bool_decide (key rp `prefix_of` x)) ->
  agrees m t -> forall x, key rp `prefix_of` x -> m !! x = m0 !! x.
Proof. intros Hk Hp Ha x Hx. rewrite Ha, Hp, bool_decide_true by (by rewrite ?Hk). done. Qed.

Lemma names_whole m k :
  (forall x, k `prefix_of` x -> m !! x = m0 !! x) ->
  forall c, c ∈ map fst (children m k) <-> exists n, m0 !! (k ++ [c]) = Some n.
Proof.
  intros Hm c. rewrite children_names_spec, Hm; [done|]. by exists [c].
Qed.

(** Below a directory without entries there is nothing. *)
Lemma nothing_below k :
  (forall c, ~ exists n, m0 !! (k ++ [c]) = Some n) ->
  forall x, k `prefix_of` x -> x <> k -> m0 !! x = None.
Proof.
  intros Hno x Hp Hne. destruct (m0 !! x) as [n|] eqn:Hx; [|done].
  destruct (below_child m0 Hwf k x n Hx Hp (not_eq_sym Hne)) as (c & _ & Hc). by destruct (Hno c).
Qed.

Lemma blookup_task m rp :
  nice rp -> dirs_along m [] (key rp) -> is_Some (m !! key rp) ->
  blookup m (rbytes rp) =
    match m !! key rp with
    | None => inl ENOENT
    | Some (NFile d) => if btrailing (rbytes rp) then inl ENOTDIR else inr (key rp, NFile d)
    | Some NDir => inr (key rp, NDir)
    end.
Proof. intros [_ Hc] Hd Hs. apply blookup_clean; [done|done|by right]. Qed.

Lemma fire_lstat m rp :
  good m0 (TLstat rp) -> agrees m (TLstat rp) -> dirs_along m [] (key rp) ->
  step_ok m (TLstat rp) (after_lstat m rp).
Proof.
  intros (Hn & n & Hk & Ht) Ha Hd. pose proof (size_under_pos m0 _ _ Hk).
  assert (Hm : m !! key rp = Some n)
    by (rewrite (agrees_whole m rp (TLstat rp) eq_refl (fun _ => eq_refl) Ha); done).
  unfold after_lstat. rewrite blookup_task, Hm by (done || by rewrite Hm). destruct n as [d|].
  - destruct (btrailing (rbytes rp)) eqn:Htr; [by specialize (Ht eq_refl)|].
    split_and!; [by split_and!; [| |exists d]|done|done|done|by left|simpl; lia].
  - split_and!; [done|done|done|done|by left|simpl; lia].
Qed.

Lemma fire_unlink m rp :
  good m0 (TUnlink rp) -> agrees m (TUnlink rp) -> dirs_along m [] (key rp) ->
  step_ok m (TUnlink rp) (after_unlink m rp).
Proof.
  intros (Hn & Ht & d & Hk) Ha Hd. pose proof (size_under_pos m0 _ _ Hk).
  pose proof (agrees_whole m rp (TUnlink rp) eq_refl (fun _ => eq_refl) Ha) as Hw.
  unfold after_unlink, unlink_r. rewrite blookup_task, Hw, Hk, Ht by (done || by rewrite Hw, Hk).
  split_and!; [done|done| | |by right|simpl; lia].
  - intros x Hx. simpl. destruct (decide (x = key rp)) as [->|Hne]; [by rewrite lookup_delete_eq|].
    rewrite lookup_delete_ne, Hw by done. by apply (below_file m0 Hwf (key rp) d).
  - intros x Hx. rewrite lookup_delete_ne; [done|]. intros E. apply Hx. by rewrite <- E.
Qed.

Lemma rmdir_r_dir m rp :
  nice rp -> dirs_along m [] (key rp) -> m !! key rp = Some NDir ->
  rmdir_r m rp = match children m (key rp) with
                 | [] => inr (delete (key rp) m)
                 | _ => inl (rerr ENOTEMPTY "rmdir" rp)
                 end.
Proof.
  intros Hn Hd Hk. unfold rmdir_r. rewrite blookup_task, Hk by (done || by rewrite Hk).
  destruct Hn as [Hne _]. by destruct (key rp).
Qed.

Lemma readdir_r_dir m rp :
  nice rp -> dirs_along m [] (key rp) -> m !! key rp = Some NDir ->
  readdir_r m rp = inr (map fst (children m (key rp))).
Proof. intros Hn Hd Hk. unfold readdir_r. rewrite blookup_task, Hk by (done || by rewrite Hk). done. Qed.

(** Removing a directory with no entries left. *)
Lemma delete_empty_agrees m rp :
  (forall x, key rp `prefix_of` x -> x <> key rp -> m !! x = None) ->
  agrees (delete (key rp) m) (TDone rp).
Proof.
  intros Hb x Hx. simpl. destruct (decide (x = key rp)) as [->|Hne]; [by rewrite lookup_delete_eq|].
  rewrite lookup_delete_ne by done. by apply Hb.
Qed.

Lemma frame_delete (m : fsys) (k : kpath) : forall x, ~ k `prefix_of` x -> delete k m !! x = m !! x.
Proof. intros x Hx. rewrite lookup_delete_ne; [done|]. intros E. apply Hx. by rewrite <- E. Qed.

Lemma fire_rmdir m rp orig :
  good m0 (TRmdir rp orig) -> agrees m (TRmdir rp orig) -> dirs_along m [] (key rp) ->
  step_ok m (TRmdir rp orig) (after_rmdir m rp orig).
Proof.
  intros (Hn & -> & Hk) Ha Hd. pose proof (size_under_pos m0 _ _ Hk).
  pose proof (agrees_whole m rp (TRmdir rp None) eq_refl (fun _ => eq_refl) Ha) as Hw.
  unfold after_rmdir. rewrite rmdir_r_dir by (rewrite ?Hw; done).
  destruct (children m (key rp)) as [|[c n] cs] eqn:Hch.
  - split_and!; [done|done| |apply (frame_delete m (key rp))|by right|simpl; lia].
    apply delete_empty_agrees. intros x Hx Hne. rewrite Hw by done.
    apply (nothing_below (key rp)); [|done|done]. intros c [n Hc].
    assert (c ∈ map fst (children m (key rp))) as Hin by (apply (names_whole m (key rp) Hw); by exists n).
    rewrite Hch in Hin. simpl in Hin. by apply not_elem_of_nil in Hin.
  - unfold code_is, rerr. rewrite bool_decide_true by done.
    split_and!; [done|done|done|done|by left|cbn [weight]; lia].
Qed.

Lemma fire_final m rp :
  good m0 (TFinal rp) -> agrees m (TFinal rp) -> dirs_along m [] (key rp) ->
  step_ok m (TFinal rp) (after_final m rp).
Proof.
  intros (Hn & Hk) Ha Hd.
  assert (Hb : forall x, key rp `prefix_of` x -> x <> key rp -> m !! x = None)
    by (intros x Hx Hne; rewrite Ha by done; simpl; by rewrite bool_decide_false).
  assert (Hm : m !! key rp = Some NDir) by (rewrite Ha by done; simpl; by rewrite bool_decide_true).
  unfold after_final. rewrite rmdir_r_dir by done.
  destruct (children m (key rp)) as [|[c n] cs] eqn:Hch.
  - split_and!; [done|done|by apply delete_empty_agrees|apply (frame_delete m (key rp))|by right|simpl; lia].
  - exfalso. assert ((c, n) ∈ children m (key rp)) as Hin by (rewrite Hch; by left).
    apply elem_of_children in Hin. rewrite Hb in Hin; [done| |].
    + by exists [c].
    + intros E. apply (f_equal length) in E. rewrite length_app in E. simpl in E. lia.
Qed.

Lemma child_key rp c : clean_seg c -> key (child_path rp c) = key rp ++ [c].
Proof. intros (Hne & _ & _ & Hs). by apply bcomponents_child. Qed.

Lemma entry_clean k c n : m0 !! (k ++ [c]) = Some n -> Forall clean_seg (k ++ [c]).
Proof.
  intros Hk. destruct (fs_wf_entry m0 _ n Hwf Hk) as [E|[_ Hc]]; [|done].
  by apply app_eq_nil in E as [_ ?].
Qed.

Lemma sum_list_scale {A} (f : A -> nat) (l : list A) :
  sum_list (map (fun x => 6 * f x)%nat l) = (6 * sum_list (map f l))%nat.
Proof. induction l as [|x l IH]; [done|]. cbn [map sum_list]. rewrite IH. unfold id. lia. Qed.

Lemma fire_readdir m rp :
  good m0 (TReaddir rp) -> agrees m (TReaddir rp) -> dirs_along m [] (key rp) ->
  step_ok m (TReaddir rp) (after_readdir m rp).
Proof.
  intros (Hn & Hk) Ha Hd. pose proof (size_under_pos m0 _ _ Hk).
  pose proof (agrees_whole m rp (TReaddir rp) eq_refl (fun _ => eq_refl) Ha) as Hw.
  pose proof (names_whole m (key rp) Hw) as Hnames.
  pose proof (children_names_nodup m (key rp)) as Hnd.
  unfold after_readdir. rewrite readdir_r_dir by (rewrite ?Hw; done).
  set (names := map fst (children m (key rp))) in *.
  assert (Hcl : forall c, c ∈ names -> clean_seg c).
  { intros c [n Hc]%Hnames. apply entry_clean in Hc. rewrite Forall_app, Forall_singleton in Hc.
    by destruct Hc. }
  assert (Hkeys : map tkey (map (fun c => TLstat (child_path rp c)) names) = map (fun c => key rp ++ [c]) names).
  { rewrite map_map. apply map_ext_in. intros c Hc%list_elem_of_In. by apply child_key, Hcl. }
  assert (Hout : forall x, key rp `prefix_of` x -> x <> key rp ->
                 (forall c, c ∈ names -> ~ (key rp ++ [c]) `prefix_of` x) -> m !! x = None).
  { intros x Hx Hne Hno. rewrite Hw by done. destruct (m0 !! x) as [n|] eqn:Hx0; [|done].
    destruct (below_child m0 Hwf _ x n Hx0 Hx (not_eq_sym Hne)) as (c & Hp & Hc).
    destruct (Hno c); [by apply Hnames|done]. }
  destruct names as [|c0 cs] eqn:Hns.
  - split_and!; [done|done| |done|by left|cbn [weight]; lia].
    intros x Hx. simpl. case_decide as E; [subst; by rewrite Hw|].
    apply Hout; [done|done|]. intros c Hc. by apply not_elem_of_nil in Hc.
  - rewrite <- Hns in *. split_and!; [|done| |done|by left|].
    + apply good_children. split_and!; [done|done|done| | | |by rewrite Hns|].
      * rewrite Hkeys. apply NoDup_fmap_2; [|done]. intros a b E. by apply app_inj_tail in E as [_ ->].
      * intros c. rewrite Hkeys, list_elem_of_fmap, <- Hnames. split; [|by eauto].
        intros (c' & E & Hc'). by apply app_inj_tail in E as [_ ->].
      * intros t (c & -> & Hc)%list_elem_of_fmap. exists c. by apply child_key, Hcl.
      * apply Forall_fmap, Forall_forall. intros c Hc. pose proof (Hcl c Hc) as Hcc.
        apply Hnames in Hc as [n Hn0]. unfold compose. cbn [good]. unfold nice. rewrite child_key by done. split_and!.
        -- by intros E; apply app_eq_nil in E as [_ ?].
        -- by apply (entry_clean _ _ n).
        -- exists n. split; [done|]. unfold child_path. cbn [rbytes].
           rewrite btrailing_child; [done|apply Hcc|apply Hcc].
    + intros x Hx. cbn [present]. rewrite bool_decide_true by done. simpl.
      case_decide as E; [subst; by rewrite Hw|].
      destruct (existsb _ _) eqn:Hex; [by rewrite Hw|]. apply Hout; [done|done|].
      intros c Hc Hp. assert (existsb (fun k => present k x) (map (fun c => TLstat (child_path rp c)) names) = true)
        as Hex'; [|by rewrite Hex in Hex'].
      apply existsb_exists. exists (TLstat (child_path rp c)). split.
      * apply list_elem_of_In, list_elem_of_fmap. by exists c.
      * cbn [present]. rewrite child_key by (by apply Hcl). by apply bool_decide_true.
    + cbn [weight]. rewrite map_map.
      rewrite (map_ext_in _ (fun c => 6 * size_under m0 (key rp ++ [c]))%nat)
        by (intros c Hc%list_elem_of_In; cbn [weight]; by rewrite child_key by (by apply Hcl)).
      rewrite sum_list_scale. pose proof (sum_children_le m0 (key rp) NDir names Hk Hnd). lia.
Qed.

(** ** A call of a child *)

(** What the children of a directory inherit from it. *)
Lemma kid_context m rp kids failed i kid :
  good m0 (TChildren rp kids failed) -> agrees m (TChildren rp kids failed) ->
  dirs_along m [] (key rp) -> kids !! i = Some kid ->
  exists c, tkey kid = key rp ++ [c] /\ good m0 kid /\ agrees m kid /\ dirs_along m [] (tkey kid).
Proof.
  intros Hg Ha Hd Hi. pose proof Hg as (Hn & Hk & _ & Hnd & _ & Hform & _ & Hall)%good_children.
  assert (Hin : kid ∈ kids) by by eapply list_elem_of_lookup_2.
  destruct (Hform kid Hin) as [c Hc]. exists c. split_and!; [done|by eapply Forall_forall| |].
  - intros x Hx. rewrite Ha by (etrans; [|exact Hx]; rewrite Hc; by exists [c]). cbn [present].
    rewrite bool_decide_true by (etrans; [|exact Hx]; rewrite Hc; by exists [c]).
    rewrite bool_decide_false, (existsb_owner (key rp) kids i kid c x); [done|done|done|done|done|by rewrite <- Hc|].
    apply (prefix_child_ne _ c). by rewrite <- Hc.
  - rewrite Hc. intros j Hj. rewrite length_app in Hj. simpl in Hj. simpl.
    destruct (decide (j < length (key rp)))%nat as [Hlt|Hge].
    + rewrite take_app_le by lia. by apply Hd.
    + replace j with (length (key rp)) by lia. rewrite take_app_length, Ha by done. cbn [present].
      by rewrite !bool_decide_true.
Qed.

(** After a call below the child [i], the directory agrees with the new
    state. *)
Lemma parent_agrees m m' rp kids failed i kid kid' c :
  good m0 (TChildren rp kids failed) -> agrees m (TChildren rp kids failed) ->
  kids !! i = Some kid -> tkey kid = key rp ++ [c] -> tkey kid' = tkey kid ->
  agrees m' kid' -> (forall x, ~ tkey kid `prefix_of` x -> m' !! x = m !! x) ->
  forall f, agrees m' (TChildren rp (<[i := kid']> kids) f).
Proof.
  intros Hg Ha Hi Hc Hk' Ha' Hfr f x Hx.
  pose proof Hg as (_ & _ & _ & Hnd & _ & Hform & _)%good_children.
  assert (Hi' : <[i := kid']> kids !! i = Some kid')
    by (apply list_lookup_insert_eq; by eapply lookup_lt_Some).
  assert (Hnd' : NoDup (map tkey (<[i := kid']> kids))) by (by rewrite (map_insert_same _ _ _ _ kid)).
  assert (Hform' : forall t, t ∈ <[i := kid']> kids -> exists c', tkey t = key rp ++ [c']).
  { intros t [->|Ht]%elem_of_insert_inv; [exists c; congruence|by apply Hform]. }
  cbn [tkey tpath] in Hx. cbn [present]. rewrite bool_decide_true by done.
  destruct (decide ((key rp ++ [c]) `prefix_of` x)) as [Hp|Hnp].
  - rewrite bool_decide_false by (by apply (prefix_child_ne _ c)).
    rewrite (existsb_owner (key rp) _ i kid' c x) by (done || congruence). apply Ha'. congruence.
  - rewrite Hfr by congruence. rewrite Ha by done. cbn [present]. rewrite bool_decide_true by done.
    rewrite (existsb_insert _ kids i kid' kid); [done|done|].
    destruct (present kid' x) eqn:E1; [apply present_below in E1; rewrite Hk', Hc in E1; done|].
    destruct (present kid x) eqn:E2; [apply present_below in E2; rewrite Hc in E2; done|done].
Qed.

Lemma good_children_step rp kids i kid kid' :
  good m0 (TChildren rp kids false) -> kids !! i = Some kid -> tkey kid' = tkey kid ->
  good m0 kid' -> existsb (fun k => negb (is_done k)) (<[i := kid']> kids) = true ->
  good m0 (TChildren rp (<[i := kid']> kids) false).
Proof.
  intros Hg Hi Hk Hg' Hex. apply good_children in Hg as (Hn & Hd & _ & Hnd & Hch & Hform & _ & Hall).
  apply good_children. rewrite (map_insert_same _ _ _ _ kid) by done.
  split_and!; try done; [|by apply Forall_insert].
  intros t [->|Ht]%elem_of_insert_inv; [|by apply Hform]. rewrite Hk. apply Hform.
  by eapply list_elem_of_lookup_2.
Qed.

Lemma children_step m rp kids failed i kid m' kid' rep :
  good m0 (TChildren rp kids failed) -> agrees m (TChildren rp kids failed) ->
  dirs_along m [] (key rp) -> kids !! i = Some kid -> step_ok m kid (m', kid', rep) ->
  step_ok m (TChildren rp kids failed)
    (let '(t', rep') := after_child rp (<[i := kid']> kids) failed rep in (m', t', rep')).
Proof.
  intros Hg Ha Hd Hi (Hg' & Hk' & Ha' & Hfr & Hrep & Hw).
  destruct (kid_context m rp kids failed i kid Hg Ha Hd Hi) as (c & Hc & _).
  pose proof Hg as (Hn & Hdir & -> & _)%good_children.
  pose proof (parent_agrees m m' rp kids false i kid kid' c Hg Ha Hi Hc Hk' Ha' Hfr) as Hpa.
  assert (Hfr' : forall x, ~ key rp `prefix_of` x -> m' !! x = m !! x).
  { intros x Hx. apply Hfr. rewrite Hc. intros Hp. apply Hx. etrans; [|exact Hp]. by exists [c]. }
  pose proof (sum_list_insert (weight m0) kids i kid' kid Hi).
  assert (Hlt : (i < length kids)%nat) by by eapply lookup_lt_Some.
  destruct Hrep as [[-> Hnd']|[-> Hd']]; cbn [after_child settle].
  - split_and!; [|done|apply Hpa|done|by left|cbn [weight]; lia].
    apply (good_children_step _ _ i kid); [done|done|done|done|].
    apply existsb_exists. exists kid'. split; [|by rewrite Hnd'].
    apply list_elem_of_In. by apply list_elem_of_insert.
  - destruct (forallb is_done (<[i := kid']> kids)) eqn:Hall.
    + split_and!; [done|done| |done|by left|cbn [weight]; lia].
      intros x Hx. rewrite (Hpa false x Hx). cbn [present]. rewrite existsb_all_done, orb_false_r by done.
      by rewrite bool_decide_true.
    + split_and!; [|done|apply Hpa|done|by left|cbn [weight]; lia].
      apply (good_children_step _ _ i kid); [done|done|done|done|].
      by apply not_all_done.
Qed.

(** Every completed call keeps the invariant and lowers the weight. *)
Lemma fire_step pos : forall t m o,
  good m0 t -> agrees m t -> dirs_along m [] (tkey t) -> fire m pos t = Some o -> step_ok m t o.
Proof.
  induction pos as [|i pos IH]; intros t m o Hg Ha Hd Hf.
  - destruct t; cbn [fire] in Hf; try discriminate; injection Hf as <-.
    + by apply fire_lstat.
    + by apply fire_unlink.
    + by apply fire_rmdir.
    + by apply fire_readdir.
    + by apply fire_final.
  - destruct t as [| | | |rp kids failed| |]; cbn [fire] in Hf; try discriminate.
    destruct (kids !! i) as [kid|] eqn:Hi; [|discriminate].
    destruct (kid_context m rp kids failed i kid Hg Ha Hd Hi) as (c & _ & Hg' & Ha' & Hd').
    destruct (fire m pos kid) as [[[m' kid'] rep]|] eqn:Hk; [|discriminate].
    pose proof (IH kid m _ Hg' Ha' Hd' Hk) as Hs.
    pose proof (children_step m rp kids failed i kid m' kid' rep Hg Ha Hd Hi Hs) as Hc.
    destruct (after_child _ _ _ _) as [t' rep']. by injection Hf as <-.
Qed.

(** A task that is not done has a call in flight. *)
Lemma fire_progress m t : good m0 t -> is_done t = false -> exists pos o, fire m pos t = Some o.
Proof.
  remember (weight m0 t) as w eqn:Ew. revert t Ew. induction w as [w IH] using lt_wf_ind.
  intros t Ew Hg Hnd. subst w. destruct t as [rp|rp|rp orig|rp|rp kids failed|rp|rp]; try done;
    try (exists [], (after_lstat m rp); done); try (eexists [], _; reflexivity).
  apply good_children in Hg as (_ & _ & _ & _ & _ & _ & Hex & Hall).
  apply existsb_exists in Hex as (kid & Hin%list_elem_of_In & Hkid).
  apply list_elem_of_lookup in Hin as [i Hi].
  destruct (IH (weight m0 kid) ltac:(cbn [weight]; pose proof (elem_le_sum (weight m0) kids kid
              ltac:(by eapply list_elem_of_lookup_2)); lia) kid eq_refl) as (pos & [[m' kid'] rep] & Hf).
  - by eapply Forall_lookup_1.
  - by apply negb_true_iff.
  - exists (i :: pos). cbn [fire]. rewrite Hi, Hf. destruct (after_child _ _ _ _). by eexists.
Qed.

End Step.

(** ** Runs of the machine *)

Lemma fire_done m pos t : is_done t = true -> fire m pos t = None.
Proof. destruct t, pos; done. Qed.

Lemma rstep_done st st' : is_done (rtask st) = true -> ~ rstep st st'.
Proof. intros Hd Hs. inversion Hs as [? pos o Hf]. subst. by rewrite fire_done in Hf. Qed.

(** A leaf has one call in flight, so its next state is determined. *)
Lemma rstep_leaf st o st' : fire (rfs st) [] (rtask st) = Some o -> rstep st st' -> st' = advance st o.
Proof.
  intros Ho Hs. inversion Hs as [? pos o' Hf]. subst.
  destruct pos as [|i pos]; [congruence|]. by destruct (rtask st).
Qed.

Lemma run_next st0 st1 st :
  rtc rstep st0 st -> (forall y, rstep st0 y -> y = st1) -> rstep st0 st1 ->
  (forall st', ~ rstep st st') -> rtc rstep st1 st.
Proof.
  intros Hr Hdet Hs Hmax. apply rtc_inv in Hr as [<-|(y & Hy & Hr)]; [by destruct (Hmax st1)|].
  by rewrite <- (Hdet y Hy).
Qed.

Lemma run_stuck st1 st : rtc rstep st1 st -> (forall st', ~ rstep st1 st') -> st = st1.
Proof. intros Hr Hmax. apply rtc_inv in Hr as [->|(y & Hy & _)]; [done|by destruct (Hmax y)]. Qed.

(** An infinite run whose first move is determined goes on from there. *)
Lemma inf_next (f : nat -> rstate) st1 :
  (forall i, rstep (f i) (f (S i))) -> (forall y, rstep (f O) y -> y = st1) ->
  exists g : nat -> rstate, g O = st1 /\ forall i, rstep (g i) (g (S i)).
Proof. intros Hf Hdet. exists (fun i => f (S i)). split; [by apply Hdet|]. intros i. apply Hf. Qed.

Lemma no_descent (g : nat -> nat) : ~ forall i, (g (S i) < g i)%nat.
Proof.
  intros Hg. assert (H : forall i, (g i + i <= g O)%nat).
  { induction i as [|i IH]; [lia|]. specialize (Hg i). lia. }
  specialize (H (S (g O))). lia.
Qed.

Lemma run_leftmost_rtc n st : rtc rstep st (run_leftmost n st).
Proof.
  revert st. induction n as [|n IH]; intros st; simpl; [done|].
  destruct (leaves (rtask st)) as [|pos _]; [done|].
  destruct (fire (rfs st) pos (rtask st)) as [o|] eqn:E; [|done].
  eapply rtc_l; [exact (rstep_fire _ _ _ E)|apply IH].
Qed.


Lemma walk_not_eisdir m cur cs e : walk m cur cs = inl e -> e <> EISDIR.
Proof.
  revert cur. induction cs as [|c cs IH]; intros cur Hw; simpl in Hw; [done|].
  destruct (m !! cur) as [[]|]; [injection Hw as <-; done| |injection Hw as <-; done].
  destruct (_ && _); [injection Hw as <-; done|by eapply IH].
Qed.

Lemma lookup_at_not_eisdir m p e : lookup_at m p = inl e -> e <> EISDIR.
Proof.
  unfold lookup_at. destruct (walk m [] (kcomponents p)) as [e'|k] eqn:Hr; [intros [= <-]; by eapply walk_not_eisdir|].
  destruct (m !! k) as [[]|]; [destruct (ktrailing p)|..]; intros E; try discriminate; injection E as <-; done.
Qed.

(** A run from [st] ends, and every state it can end in satisfies [P]. *)
Definition ends (P : rstate -> Prop) (st : rstate) : Prop :=
  (~ exists f : nat -> rstate, f O = st /\ forall i, rstep (f i) (f (S i))) /\
  (forall st', rtc rstep st st' -> (forall st'', ~ rstep st' st'') -> P st').

Lemma ends_done P st : is_done (rtask st) = true -> P st -> ends P st.
Proof.
  intros Hd HP. split.
  - intros (f & H0 & Hf). apply (rstep_done st (f 1%nat) Hd). rewrite <- H0. apply Hf.
  - intros st' Hr _. apply rtc_inv in Hr as [<-|(y & Hy & _)]; [done|by destruct (rstep_done _ _ Hd Hy)].
Qed.

Lemma ends_leaf P st o : fire (rfs st) [] (rtask st) = Some o -> ends P (advance st o) -> ends P st.
Proof.
  intros Ho [Hinf Hmax]. pose proof (fun y => rstep_leaf st o y Ho) as Hdet. split.
  - intros (f & H0 & Hf). apply Hinf. apply (inf_next f); [done|]. intros y Hy. apply Hdet. by rewrite <- H0.
  - intros st' Hr Hm. apply Hmax; [|done]. apply (run_next st); [done|done| |done].
    exact (rstep_fire st [] o Ho).
Qed.

Section Machine.
Context (m0 : fsys) (p : jstr).
Hypothesis Hwf : fs_wf m0.

(** The invariant of a run on a path [k0] that is an entry other than
    the root: the root task is good, the state agrees with it below [k0]
    and is [m0] elsewhere, and the promise has settled with success
    exactly when the root task is done. *)
Definition minv (k0 : kpath) (st : rstate) : Prop :=
  good m0 (rtask st) /\ tkey (rtask st) = k0 /\ agrees m0 (rfs st) (rtask st) /\
  (forall x, ~ k0 `prefix_of` x -> rfs st !! x = m0 !! x) /\
  rresult st = (if is_done (rtask st) then Some None else None).

Lemma good_entry t : good m0 t -> is_done t = false -> exists n, m0 !! tkey t = Some n.
Proof.
  destruct t; cbn [good is_done tkey tpath]; try done; intros Hg _.
  - by destruct Hg as (_ & n & Hn & _); exists n.
  - by destruct Hg as (_ & _ & d & Hd); exists (NFile d).
  - by destruct Hg as (_ & _ & Hd); exists NDir.
  - by destruct Hg as (_ & Hd); exists NDir.
  - by destruct Hg as (_ & Hd & _); exists NDir.
  - by destruct Hg as (_ & Hd); exists NDir.
Qed.

Lemma minv_dirs k0 st : minv k0 st -> is_done (rtask st) = false -> dirs_along (rfs st) [] k0.
Proof.
  intros (Hg & Hk & _ & Hfr & _) Hnd i Hi. destruct (good_entry _ Hg Hnd) as [n Hn]. rewrite Hk in Hn.
  assert (Hnp : ~ k0 `prefix_of` take i k0).
  { intros Hp%prefix_length. rewrite length_take in Hp. lia. }
  simpl. rewrite Hfr by done. apply (ancestor_dir m0 Hwf k0 n); [done|apply prefix_take|].
  intros E. apply (f_equal length) in E. rewrite length_take in E. lia.
Qed.

Lemma minv_step k0 st st' :
  minv k0 st -> rstep st st' -> minv k0 st' /\ (weight m0 (rtask st') < weight m0 (rtask st))%nat.
Proof.
  intros Hinv Hs. inversion Hs as [? pos [[m' t'] rep] Hf]. subst. clear Hs.
  destruct (is_done (rtask st)) eqn:Hd; [by rewrite fire_done in Hf|].
  pose proof Hinv as (Hg & Hk & Ha & Hfr & Hres).
  destruct (fire_step m0 Hwf pos (rtask st) (rfs st) _ Hg Ha ltac:(rewrite Hk; by apply minv_dirs) Hf)
    as (Hg' & Hk' & Ha' & Hfr' & Hrep & Hw).
  unfold advance, minv. cbn [rtask rfs rresult]. split; [|done]. rewrite Hd in Hres.
  split_and!; [done|congruence|done| |].
  - intros x Hx. rewrite Hfr' by (by rewrite Hk). by apply Hfr.
  - destruct Hrep as [[-> ->]|[-> ->]]; done.
Qed.

Lemma minv_final k0 st :
  minv k0 st -> (forall st', ~ rstep st st') -> rfs st = remove_tree k0 m0 /\ rresult st = Some None.
Proof.
  intros (Hg & Hk & Ha & Hfr & Hres) Hmax.
  destruct (is_done (rtask st)) eqn:Hd.
  - split; [|done]. apply map_eq. intros x. rewrite lookup_remove_tree. case_decide as Hp.
    + rewrite Ha by congruence. destruct (rtask st); done.
    + by apply Hfr.
  - destruct (fire_progress m0 (rfs st) _ Hg Hd) as (pos & o & Hf).
    destruct (Hmax _ (rstep_fire st pos o Hf)).
Qed.

Lemma rtc_minv k0 st st' : rtc rstep st st' -> minv k0 st -> minv k0 st'.
Proof. induction 1 as [|x y z Hs _ IH]; [done|]. intros H. apply IH. by apply (minv_step k0 x y). Qed.

Lemma remove_tree_file k d : m0 !! k = Some (NFile d) -> remove_tree k m0 = delete k m0.
Proof.
  intros Hk. apply map_eq. intros x. rewrite lookup_remove_tree. case_decide as Hp.
  - destruct (decide (x = k)) as [->|Hne]; [by rewrite lookup_delete_eq|].
    rewrite lookup_delete_ne by congruence. symmetry. by apply (below_file m0 Hwf k d).
  - rewrite lookup_delete_ne; [done|]. intros ->. by apply Hp.
Qed.

(** A run on an entry below the root: it ends, with the subtree removed
    and success. *)
Lemma runs_entry k n :
  Forall clean_seg (kcomponents p) -> lookup_at m0 p = inr (k, n) -> k <> [] ->
  ends (fun st => rfs st = remove_tree k m0 /\ rresult st = Some None) (rinit m0 p).
Proof.
  intros Hc Hl Hne. pose proof (lookup_at_Some _ _ _ _ Hl) as [Hr Hk].
  assert (Hkk : k = kcomponents p) by (by apply walk_clean_inr in Hr). subst k.
  assert (Hinit : minv (kcomponents p) (rinit m0 p)).
  { unfold minv, rinit. cbn [rtask rfs rresult good tkey tpath]. split_and!; [by split| |done| |done|done].
    - exists n. split; [done|]. intros Ht. destruct n as [d|]; [|done].
      unfold lookup_at in Hl. rewrite Hr, Hk in Hl. change (btrailing (rbytes (root_path p))) with (ktrailing p) in Ht.
      by rewrite Ht in Hl.
    - intros x Hx. cbn [present]. by rewrite bool_decide_true. }
  split.
  - intros (f & H0 & Hf). apply (no_descent (fun i => weight m0 (rtask (f i)))). intros i.
    assert (Hi : minv (kcomponents p) (f i)).
    { induction i as [|i IH]; [by rewrite H0|]. by apply (minv_step _ (f i)). }
    by apply (minv_step (kcomponents p) (f i)).
  - intros st Hrun Hmax. apply (minv_final (kcomponents p)); [|done]. by apply (rtc_minv _ (rinit m0 p)).
Qed.

(** The outcome the one-step [NodeFs.rimraf] gives. *)
Definition atomic_end (st : rstate) : Prop :=
  rfs st = match rimraf m0 p with inl _ => m0 | inr m' => m' end /\
  rresult st = Some (match rimraf m0 p with inl e => Some e | inr _ => None end).

(** A path that is not there: [lstat] fails with [ENOENT] and the
    promise resolves. *)
Lemma runs_missing : lookup_at m0 p = inl ENOENT -> ends atomic_end (rinit m0 p).
Proof.
  intros Hl. eapply ends_leaf; [reflexivity|]. unfold after_lstat. cbn [rbytes root_path rinit rfs rtask].
  rewrite blookup_encode, Hl. apply ends_done; [done|]. unfold atomic_end, rimraf. by rewrite Hl.
Qed.

(** A path below a file, or a name too long: [lstat] fails, rimraf
    tries [unlink], and its error is the report. *)
Lemma runs_unreachable e : lookup_at m0 p = inl e -> e <> ENOENT -> ends atomic_end (rinit m0 p).
Proof.
  intros Hl He. eapply ends_leaf; [reflexivity|]. unfold after_lstat. cbn [rbytes root_path rinit rfs rtask].
  rewrite blookup_encode, Hl.
  assert (E : match e with ENOENT => (m0, TDone (root_path p), Some None) | _ => (m0, TUnlink (root_path p), None) end
              = ((m0, TUnlink (root_path p), None) : outcome)) by (destruct e; done).
  rewrite E. eapply ends_leaf; [reflexivity|].
  unfold after_unlink, unlink_r. cbn [rbytes root_path rtask rfs advance]. rewrite blookup_encode, Hl.
  unfold code_is, rerr. rewrite bool_decide_false by (by apply lookup_at_not_eisdir in Hl).
  apply ends_done; [done|]. unfold atomic_end, rimraf. rewrite Hl. by destruct e.
Qed.

(** The root: [rmdir] fails with [EBUSY], which is the report. *)
Lemma runs_root : lookup_at m0 p = inr ([], NDir) -> ends atomic_end (rinit m0 p).
Proof.
  intros Hl. eapply ends_leaf; [reflexivity|]. unfold after_lstat. cbn [rbytes root_path rinit rfs rtask].
  rewrite blookup_encode, Hl. eapply ends_leaf; [reflexivity|].
  unfold after_rmdir, rmdir_r. cbn [rbytes root_path rtask rfs advance]. rewrite blookup_encode, Hl.
  apply ends_done; [done|]. unfold atomic_end, rimraf. by rewrite Hl.
Qed.

Lemma runs_atomic : Forall clean_seg (kcomponents p) -> ends atomic_end (rinit m0 p).
Proof.
  intros Hc. destruct (lookup_at m0 p) as [e|[k n]] eqn:Hl.
  - destruct (decide (e = ENOENT)) as [->|He]; [by apply runs_missing|by apply (runs_unreachable e)].
  - pose proof (lookup_at_Some _ _ _ _ Hl) as [_ Hk]. destruct (decide (k = [])) as [->|Hne].
    + destruct n as [d|]; [|by apply runs_root]. destruct Hwf as [Hroot _]. congruence.
    + destruct (runs_entry k n Hc Hl Hne) as [Hi Hm]. split; [done|]. intros st Hr Hx.
      destruct (Hm st Hr Hx) as [Hf Hres]. unfold atomic_end, rimraf. rewrite Hl, Hf, Hres.
      destruct n as [d|]; [rewrite (remove_tree_file k d) by done|]; (destruct k; [done|by split]).
Qed.

End Machine.

(** ** Other requests between rimraf's calls *)

(** Another handler's system call completing between two of rimraf's:
    the event loop runs callbacks of other requests while rimraf waits. *)
Definition interrupt {T} (c : fs_call T) (st : rstate) : rstate :=
  {| rfs := snd (exec c (rfs st)); rtask := rtask st; rresult := rresult st |}.

Inductive istep : rstate -> rstate -> Prop :=
| istep_own st st' : rstep st st' -> istep st st'
| istep_other {T} st (c : fs_call T) : istep st (interrupt c st).

Lemma rtc_own st st' : rtc rstep st st' -> rtc istep st st'.
Proof. induction 1 as [|x y z Hs _ IH]; [done|]. eapply rtc_l; [by constructor|done]. Qed.

(** [/data/a] holding the file [x]. *)
Definition m_ax : fsys :=
  {[ [] := NDir; [Utf8.encode ‹"data"›] := NDir; [Utf8.encode ‹"data"›; Utf8.encode ‹"a"›] := NDir;
     [Utf8.encode ‹"data"›; Utf8.encode ‹"a"›; Utf8.encode ‹"x"›] := NFile (Utf8.encode ‹"1"›) ]}.

(** ** The claims *)

(** C7. Node's rimraf, one system call at a time, implements the
    one-step [NodeFs.rimraf] when nothing else touches the files: on a
    well-formed tree and a normalised path, every run of the callback
    tree is finite, whichever call completes first, and every run that
    cannot go on has settled the promise with the outcome of the one-step
    model and left its state. *)
Theorem rimraf_refines m0 p :
  fs_wf m0 -> Forall clean_seg (kcomponents p) ->
  (~ exists f : nat -> rstate, f O = rinit m0 p /\ forall i, rstep (f i) (f (S i))) /\
  (forall st, rtc rstep (rinit m0 p) st -> (forall st', ~ rstep st st') ->
     rfs st = match rimraf m0 p with inl _ => m0 | inr m' => m' end /\
     rresult st = Some (match rimraf m0 p with inl e => Some e | inr _ => None end)).
Proof. intros Hwf Hc. exact (runs_atomic m0 p Hwf Hc). Qed.

Lemma rimraf_refines_witness :
  (fs_wf m_ax /\ Forall clean_seg (kcomponents ‹"/data/a"›)) /\
  ((~ exists f : nat -> rstate, f O = rinit m_ax ‹"/data/a"› /\ forall i, rstep (f i) (f (S i))) /\
   (forall st, rtc rstep (rinit m_ax ‹"/data/a"›) st -> (forall st', ~ rstep st st') ->
      rfs st = match rimraf m_ax ‹"/data/a"› with inl _ => m_ax | inr m' => m' end /\
      rresult st = Some (match rimraf m_ax ‹"/data/a"› with inl e => Some e | inr _ => None end))).
Proof.
  assert (Hw : fs_wf m_ax) by (apply (bool_decide_unpack _); vm_compute; reflexivity).
  assert (Hc : Forall clean_seg (kcomponents ‹"/data/a"›))
    by (apply (bool_decide_unpack _); vm_compute; reflexivity).
  split; [split; [exact Hw|exact Hc]|]. exact (rimraf_refines m_ax ‹"/data/a"› Hw Hc).
Defined.

(** A delete is not atomic: when a write creates [/data/a/y] after
    rimraf has removed [/data/a/x] and before its final [rmdir], the
    delete of [/data/a] fails with [ENOTEMPTY] and [x] stays removed,
    where the same delete alone removes the whole directory. *)
Example rimraf_partial_failure :
  let st := run_leftmost 1 (interrupt (OpenTrunc ‹"/data/a/y"›) (run_leftmost 5 (rinit m_ax ‹"/data/a"›))) in
  rtc istep (rinit m_ax ‹"/data/a"›) st /\ (forall st', ~ rstep st st') /\
  rresult st = Some (Some (sys_err ENOTEMPTY "rmdir" ‹"/data/a"›)) /\
  rfs st !! [Utf8.encode ‹"data"›; Utf8.encode ‹"a"›; Utf8.encode ‹"x"›] = None /\
  rfs st !! [Utf8.encode ‹"data"›; Utf8.encode ‹"a"›] = Some NDir /\
  rimraf m_ax ‹"/data/a"› = inr (remove_tree [Utf8.encode ‹"data"›; Utf8.encode ‹"a"›] m_ax).
Proof.
  intros st. split_and!; [|intros st'; apply rstep_done; vm_compute; reflexivity|vm_compute; reflexivity..].
  unfold st. etrans; [apply rtc_own, run_leftmost_rtc|].
  eapply rtc_l; [apply (istep_other _ (OpenTrunc ‹"/data/a/y"›))|]. apply rtc_own, run_leftmost_rtc.
Qed.

End Rimraf.
