(* ===== verification/Async.v ===== *)
(** * [async]/[await] over the filesystem calls

    Each route handler of index.js is an [async] function.  Its body is a
    sequence of synchronous steps and [await]s on [fs.promises] calls,
    inside a [try] whose [catch] turns the thrown error into a response.
    [io A] is that structure as data:
    - [Ret a] returns [a];
    - [Throw e] throws [e];
    - [Await c k] waits for the atomic call [c] and continues with [k] on
      its outcome (an error or a value).

    [await c] throws a rejected call's error.  [catch] is [try]/[catch].
    [run] executes a program on a filesystem state, one call after the
    other.

    An interleaving of several programs is a schedule of their [Await]
    nodes.  Two programs are equivalent, [io_equiv], when [run] gives
    them the same outcome from every state.  The monad laws hold up to
    this equivalence, and [bind] and [catch] respect it. *)

From S2P Require Import Prelude Json NodeFs.
Import Json NodeFs.

Module Async.

#[local] Set Warnings "-register-all".

Inductive io (A : Type) : Type :=
| Ret (a : A)
| Throw (e : js_error)
| Await {T : Type} (c : fs_call T) (k : js_error + T -> io A).

Arguments Ret {A} a.
Arguments Throw {A} e.
Arguments Await {A T} c k.

Fixpoint bind {A B} (p : io A) (f : A -> io B) : io B :=
  match p with
  | Ret a => f a
  | Throw e => Throw e
  | Await c k => Await c (fun r => bind (k r) f)
  end.

#[export] Instance io_ret : MRet io := @Ret.
#[export] Instance io_bind : MBind io := fun A B f p => bind p f.

(** [let* x := c in k] is [const x = await c; k] when [c] is an [await],
    and sequencing in general. *)
Declare Scope io_scope.
Delimit Scope io_scope with io.
Notation "'let*' x ':=' c 'in' k" := (bind c (fun x => k))
  (at level 10, x name, c at level 100, k at level 200) : io_scope.
Open Scope io_scope.

(** [try { p } catch (e) { h(e) }]. *)
Fixpoint catch {A} (p : io A) (h : js_error -> io A) : io A :=
  match p with
  | Ret a => Ret a
  | Throw e => h e
  | Await c k => Await c (fun r => catch (k r) h)
  end.

(** [await fsPromise]: a rejection is thrown at the [await]. *)
Definition await {T} (c : fs_call T) : io T :=
  Await c (fun r => match r with inl e => Throw e | inr v => Ret v end).

(** A synchronous call that returns a value or throws. *)
Definition lift {A} (r : js_error + A) : io A :=
  match r with inl e => Throw e | inr a => Ret a end.

(** Sequential execution. *)
Fixpoint run {A} (p : io A) (m : fsys) : (js_error + A) * fsys :=
  match p with
  | Ret a => (inr a, m)
  | Throw e => (inl e, m)
  | Await c k => let '(r, m') := exec c m in run (k r) m'
  end.

(** Observational equivalence of programs. *)
Definition io_equiv {A} (p q : io A) : Prop := forall m, run p m = run q m.

(** ** Running composed programs *)

(** The outcome of a program run after [run] gave [r] on state [m']. *)
Definition continue_with {A B : Type} (r : (js_error + A) * fsys) (f : A -> io B) :
    (js_error + B) * fsys :=
  match r with
  | (inl e, m') => (inl e, m')
  | (inr a, m') => run (f a) m'
  end.

Lemma run_bind {A B : Type} (p : io A) (f : A -> io B) m :
  run (bind p f) m = continue_with (run p m) f.
Proof.
  revert m. induction p as [a|e|T c k IH]; intros m; [done|done|].
  simpl. destruct (exec c m) as [r m']. apply IH.
Qed.

Lemma run_catch {A : Type} (p : io A) (h : js_error -> io A) m :
  run (catch p h) m =
  match run p m with
  | (inl e, m') => run (h e) m'
  | (inr a, m') => (inr a, m')
  end.
Proof.
  revert m. induction p as [a|e|T c k IH]; intros m; [done|done|].
  simpl. destruct (exec c m) as [r m']. apply IH.
Qed.

Lemma run_await {T} (c : fs_call T) m : run (await c) m = exec c m.
Proof. simpl. by destruct (exec c m) as [[e|v] m']. Qed.

Lemma run_lift {A} (r : js_error + A) m : run (lift r) m = (r, m).
Proof. by destruct r. Qed.

(** [mapM] of a program that returns [g x] without touching the state. *)
Lemma run_mapM_pure {A B : Type} (f : A -> io B) (g : A -> B) (l : list A) m :
  (forall x, x ∈ l -> run (f x) m = (inr (g x), m)) -> run (mapM f l) m = (inr (map g l), m).
Proof.
  induction l as [|x l IH]; intros Hf; [done|].
  change (mapM f (x :: l)) with (bind (f x) (fun y => bind (mapM f l) (fun k => Ret (y :: k)))).
  rewrite run_bind, Hf by (by left). cbn [continue_with]. rewrite run_bind, IH; [done|].
  intros y Hy. apply Hf. by right.
Qed.

#[export] Hint Rewrite @run_bind @run_catch @run_await @run_lift : gw_rw.

(** ** Invariants of the state *)

Section Invariant.
Context (I : fsys -> Prop).
Hypothesis exec_I : forall T (c : fs_call T) m, I m -> I (exec c m).2.

(** A property of the state that every call keeps is kept by every
    program. *)
Lemma run_invariant {A} (p : io A) m : I m -> I (run p m).2.
Proof.
  revert m. induction p as [a|e|T c k IH]; intros m Hm; [done|done|].
  simpl. destruct (exec c m) as [r m'] eqn:E. apply IH.
  change m' with (r, m').2. rewrite <- E. by apply exec_I.
Qed.
End Invariant.

(** ** The calls a program may make *)

(** [only_calls ok p]: every call [p] can make, whatever the outcomes of
    the calls before it, satisfies [ok]. *)
Inductive only_calls (ok : forall T, fs_call T -> Prop) {A : Type} : io A -> Prop :=
| oc_ret a : only_calls ok (Ret a)
| oc_throw e : only_calls ok (Throw e)
| oc_await {T} (c : fs_call T) k :
    ok T c -> (forall r, only_calls ok (k r)) -> only_calls ok (Await c k).

Section OnlyCalls.
Context (ok : forall T, fs_call T -> Prop).

Lemma only_calls_bind {A B : Type} (p : io A) (f : A -> io B) :
  only_calls ok p -> (forall a, only_calls ok (f a)) -> only_calls ok (bind p f).
Proof. induction 1; intros Hf; simpl; [done|constructor|constructor; auto]. Qed.

Lemma only_calls_catch {A : Type} (p : io A) (h : js_error -> io A) :
  only_calls ok p -> (forall e, only_calls ok (h e)) -> only_calls ok (catch p h).
Proof. induction 1; intros Hh; simpl; [constructor|done|constructor; auto]. Qed.

Lemma only_calls_await {T} (c : fs_call T) : ok T c -> only_calls ok (await c).
Proof. intros Hc. constructor; [done|]. intros [e|v]; constructor. Qed.

Lemma only_calls_lift {A} (r : js_error + A) : only_calls ok (lift r).
Proof. destruct r; constructor. Qed.

(** A synchronous step that returns [a] is followed by [f a] only. *)
Lemma only_calls_bind_lift {A B : Type} (r : js_error + A) (f : A -> io B) :
  (forall a, r = inr a -> only_calls ok (f a)) -> only_calls ok (bind (lift r) f).
Proof. destruct r as [e|a]; simpl; [constructor|auto]. Qed.

Lemma only_calls_mapM {A B : Type} (f : A -> io B) (l : list A) :
  (forall x, only_calls ok (f x)) -> only_calls ok (mapM f l).
Proof.
  intros Hf. induction l as [|x l IH]; [constructor|].
  change (mapM f (x :: l)) with (bind (f x) (fun y => bind (mapM f l) (fun k => Ret (y :: k)))).
  apply only_calls_bind; [done|]. intros y. apply only_calls_bind; [done|constructor].
Qed.

(** A relation between states that every allowed call establishes, from
    states satisfying an invariant every call keeps, holds between the
    states before and after the whole program. *)
Context (I : fsys -> Prop) (R : relation fsys) `{!PreOrder R}.
Hypothesis exec_I : forall T (c : fs_call T) m, I m -> I (exec c m).2.
Hypothesis exec_R : forall T (c : fs_call T) m, ok T c -> I m -> R m (exec c m).2.

Lemma run_only_calls {A} (p : io A) m : only_calls ok p -> I m -> R m (run p m).2.
Proof.
  intros Hp. revert m. induction Hp as [a|e|T c k Hc Hk IH]; intros m Hm; [done|done|].
  simpl. destruct (exec c m) as [r m'] eqn:E. etrans; [|apply IH].
  - change m' with (r, m').2. rewrite <- E. by apply exec_R.
  - change m' with (r, m').2. rewrite <- E. by apply exec_I.
Qed.
End OnlyCalls.

#[export] Hint Resolve only_calls_bind only_calls_catch only_calls_await only_calls_lift
  only_calls_mapM : gw.
#[export] Hint Constructors only_calls : gw.

(** ** What a program may return *)

(** [returns P p]: every value [p] can return satisfies [P]. *)
Inductive returns {A : Type} (P : A -> Prop) : io A -> Prop :=
| rt_ret a : P a -> returns P (Ret a)
| rt_throw e : returns P (Throw e)
| rt_await {T} (c : fs_call T) k : (forall r, returns P (k r)) -> returns P (Await c k).

Lemma returns_bind {A B : Type} (P : B -> Prop) (p : io A) (f : A -> io B) :
  (forall a, returns P (f a)) -> returns P (bind p f).
Proof. intros Hf. induction p; simpl; [done|constructor|constructor; auto]. Qed.

Lemma returns_catch {A : Type} (P : A -> Prop) (p : io A) (h : js_error -> io A) :
  returns P p -> (forall e, returns P (h e)) -> returns P (catch p h).
Proof. induction 1; intros Hh; simpl; [by constructor|done|constructor; auto]. Qed.

Lemma run_returns {A : Type} (P : A -> Prop) (p : io A) m a m' :
  returns P p -> run p m = (inr a, m') -> P a.
Proof.
  intros Hp. revert m. induction Hp as [b Hb|e|T c k Hk IH]; intros m Hr; simpl in Hr.
  - by injection Hr as <- _.
  - done.
  - destruct (exec c m) as [r m'']. by eapply IH.
Qed.

#[export] Hint Resolve returns_bind returns_catch : gw.
#[export] Hint Constructors returns : gw.

(** ** Equivalence of programs *)

#[export] Instance io_equiv_equivalence {A} : Equivalence (@io_equiv A).
Proof.
  split.
  - by intros p m.
  - intros p q H m. by rewrite H.
  - intros p q r H1 H2 m. by rewrite H1, H2.
Qed.

#[export] Instance bind_proper {A B : Type} :
  Proper (io_equiv ==> pointwise_relation A io_equiv ==> @io_equiv B) bind.
Proof.
  intros p p' Hp f f' Hf m. rewrite !run_bind, Hp.
  destruct (run p' m) as [[e|a] m']; [done|]. apply Hf.
Qed.

#[export] Instance catch_proper {A} :
  Proper (io_equiv ==> pointwise_relation js_error io_equiv ==> @io_equiv A) catch.
Proof.
  intros p p' Hp h h' Hh m. rewrite !run_catch, Hp.
  destruct (run p' m) as [[e|a] m']; [apply Hh|done].
Qed.

Lemma bind_ret_r {A} (p : io A) : io_equiv (bind p Ret) p.
Proof. intros m. rewrite run_bind. by destruct (run p m) as [[e|a] m']. Qed.

Lemma bind_assoc {A B C : Type} (p : io A) (f : A -> io B) (g : B -> io C) :
  io_equiv (bind (bind p f) g) (bind p (fun x => bind (f x) g)).
Proof.
  intros m. rewrite !run_bind. destruct (run p m) as [[e|a] m']; [done|]. simpl.
  by rewrite run_bind.
Qed.

End Async.
