(* ===== verification/Handlers.v ===== *)
(** * The route handlers of index.js

    There is one definition per handler, written from its source lines.
    A handler takes the parsed request body, and [health] also takes
    [process.uptime()].  It is an [io response]: the guards and early
    [return]s become [if]s, and each [await] becomes an [Await] node.
    The [try]/[catch] becomes [catch_500].  The library functions that a
    handler calls with [await] and that make several system calls,
    [fs.writeFile] and [fs.rmdir] with [recursive], are [io] programs
    here too.  [fs.writeFile] of an array writes its chunks in turn:
    a string as UTF-8, any other chunk as [Buffer.from] makes it ([ToNumber]
    and [ToUint8] of each element of an array or array-like object). *)

From S2P Require Import Prelude Utf8 JsNumber NumToString Json JsonText NodePath NodeFs Async.
From Stdlib Require Import QArith.
Import JsNumber NumToString Json NodePath NodeFs Async.
Open Scope io_scope.

Module Handlers.

(** ** Responses *)

Inductive rbody :=
| BJson (v : jvalue)
| BText (s : jstr)
| BEmpty.

Record response := { status : Z; body : rbody }.

(** [res.json(v)]. *)
Definition ok_json (v : jvalue) : response := {| status := 200; body := BJson v |}.

(** [res.status(code).json({ success: false, error: msg })]. *)
Definition fail_json (code : Z) (msg : jstr) : response :=
  {| status := code; body := BJson (JObj [(‹"success"›, JBool false); (‹"error"›, JStr msg)]) |}.

Definition success_with (key : string) (v : jvalue) : response :=
  ok_json (JObj [(‹"success"›, JBool true); (js key, v)]).

(** [try { p } catch (error) { res.status(500).json(... error.message) }]. *)
Definition catch_500 (p : io response) : io response :=
  catch p (fun error => mret (fail_json 500 (message error))).

(** [const DATA_DIR = '/data'] (line 8). *)
Definition DATA_DIR : jstr := ‹"/data"›.

(** ** Node library functions the handlers await *)

(** [Buffer.from(chunk, 'utf8')] for one element of an iterable [data]. *)
Definition buffer_from_error (v : jvalue) : js_error :=
  invalid_arg_type "first argument"
    "of type string or an instance of Buffer, ArrayBuffer, or Array or an Array-like Object"
    (Some v).

(** [writeFileHandle] writes nothing for empty data. *)
Definition write_bytes (p : jstr) (bytes : list Z) : io unit :=
  if decide (bytes = []) then mret () else await (AppendFile p bytes).

(** [OrdinaryToPrimitive] of a parsed object: its own [toString] member
    is not callable, and the inherited [valueOf] returns the object. *)
Definition to_primitive_error : js_error := TypeError ‹"Cannot convert object to primitive value"›.

Definition has_member (key : string) (fs : list (jstr * jvalue)) : bool :=
  bool_decide (js key ∈ map fst fs).

(** [ToString] of an element in [Array.prototype.join(',')], where [null]
    is the empty string; an array is joined, an object is
    ["[object Object]"] unless it has a [toString] member. *)
Fixpoint elem_string (v : jvalue) : js_error + jstr :=
  match v with
  | JNull => inr []
  | JBool b => inr (if b then ‹"true"› else ‹"false"›)
  | JNum n => inr (number_to_string n)
  | JStr s => inr s
  | JArr l =>
      (fix go (l : list jvalue) : js_error + jstr :=
         match l with
         | [] => inr []
         | [x] => elem_string x
         | x :: r =>
             match elem_string x with
             | inl e => inl e
             | inr a => match go r with inl e => inl e | inr b => inr (a ++ JsonText.CH_COMMA :: b) end
             end
         end) l
  | JObj fs => if has_member "toString" fs then inl to_primitive_error else inr ‹"[object Object]"›
  end.

(** [ToNumber] of an element of an array-like object; [None] is
    [undefined]. *)
Definition elem_number (v : option jvalue) : js_error + num :=
  match v with
  | None => inr NaN
  | Some JNull => inr (Fin 0)
  | Some (JBool b) => inr (Fin (if b then 1 else 0))
  | Some (JNum n) => inr n
  | Some (JStr s) => inr (string_to_number s)
  | Some w => sum_map id string_to_number (elem_string w)
  end.

(** [Uint8Array.prototype.set] from an array-like: [ToNumber] of each
    element in turn, then [ToUint8]. *)
Fixpoint uint8_bytes (xs : list (option jvalue)) : js_error + list Z :=
  match xs with
  | [] => inr []
  | x :: r =>
      match elem_number x with
      | inl e => inl e
      | inr n => sum_map id (fun bs => (to_uint32 n mod 256)%Z :: bs) (uint8_bytes r)
      end
  end.

(** [fromArrayLike] of an object whose [length] member is the number
    [L]: a typed array of [ToLength(L)] elements, at most [2^32]. *)
Definition length_bytes (fs : list (jstr * jvalue)) (L : num) : js_error + list Z :=
  match L with
  | Fin q =>
      if Qle_bool q 0 then inr [] else
      let n := Qtrunc q in
      if (2 ^ 32 <? n)%Z then inl (RangeError (‹"Invalid typed array length: "› ++ number_to_string (Fin (inject_Z n))))
      else uint8_bytes (map (fun i => lookup_member (number_to_string (Fin (inject_Z (Z.of_nat i)))) fs)
                            (seq 0 (Z.to_nat n)))
  | PosInf => inl (RangeError ‹"Invalid typed array length: 9007199254740991"›)
  | _ => inr []
  end.

(** [Buffer.from(chunk, 'utf8')] for a chunk that is not a string: an
    array is taken element by element; an object by its [valueOf]
    member, then [fromObject] (a [length] member, or [type: 'Buffer'] with
    a [data] array); anything else is refused. *)
Definition buffer_from (v : jvalue) : js_error + list Z :=
  match v with
  | JArr l => uint8_bytes (map Some l)
  | JObj fs =>
      let from_object :=
        match lookup_member ‹"length"› fs with
        | Some (JNum L) => length_bytes fs L
        | Some _ => inr []
        | None =>
            match lookup_member ‹"type"› fs, lookup_member ‹"data"› fs with
            | Some (JStr t), Some (JArr d) =>
                if decide (t = ‹"Buffer"›) then uint8_bytes (map Some d) else inl (buffer_from_error v)
            | _, _ => inl (buffer_from_error v)
            end
        end in
      match lookup_member ‹"valueOf"› fs with
      | Some w =>
          if truthy (Some w) then inl (TypeError ‹"value.valueOf is not a function"›)
          else match w with JStr [] => inr [] | _ => from_object end
      | None => from_object
      end
  | _ => inl (buffer_from_error v)
  end.

(** The chunks of an iterable [data], in order: a string is written as
    its UTF-8 bytes, any other chunk as [Buffer.from] makes it. *)
Fixpoint write_chunks (p : jstr) (chunks : list jvalue) : io unit :=
  match chunks with
  | [] => mret ()
  | JStr s :: rest => let* _ := write_bytes p (Utf8.encode s) in write_chunks p rest
  | v :: rest =>
      match buffer_from v with
      | inl e => Throw e
      | inr bs => let* _ := write_bytes p bs in write_chunks p rest
      end
  end.

(** [fs.promises.writeFile(p, data, 'utf-8')]: data that is neither a
    string nor iterable is refused before the file is opened; otherwise
    the file is opened with truncation and the data written. *)
Definition write_file (p : jstr) (data : option jvalue) : io unit :=
  match data with
  | Some (JStr s) => let* _ := await (OpenTrunc p) in write_bytes p (Utf8.encode s)
  | Some (JArr chunks) => let* _ := await (OpenTrunc p) in write_chunks p chunks
  | v => Throw (invalid_arg_type "data"
                  "of type string or an instance of Buffer, TypedArray, or DataView" v)
  end.

(** [fs.promises.rmdir(p, { recursive: true })] (Node 16 to 24): [stat],
    then rimraf for a directory and the [rmdir] system call otherwise. *)
Definition rmdir_recursive (p : jstr) : io unit :=
  let* is_dir := await (Stat p) in
  if is_dir then await (Rimraf p) else await (Rmdir p).

(** ** The handlers *)

(** [GET /health] (lines 15-17). *)
Definition handle_health (uptime : Q) : io response :=
  mret (ok_json (JObj [(‹"status"›, JStr ‹"healthy"›); (‹"service"›, JStr ‹"mcp-filesystem"›);
                       (‹"uptime"›, JNum (Fin uptime))])).

(** [GET /mcp/info] (lines 20-27). *)
Definition handle_info : io response :=
  mret (ok_json (JObj [(‹"name"›, JStr ‹"filesystem"›); (‹"version"›, JStr ‹"1.0.0"›);
                       (‹"capabilities"›, JArr [JStr ‹"read"›; JStr ‹"write"›;
                                               JStr ‹"list"›; JStr ‹"delete"›]);
                       (‹"description"›, JStr ‹"MCP server for filesystem operations"›)])).

(** One element of [files.map(...)] (lines 36-40). *)
Definition list_entry (dirPath : option jvalue) (file : dirent) : io jvalue :=
  let* p := lift (join [dirPath; Some (JStr (dname file))]) in
  mret (JObj [(‹"name"›, JStr (dname file));
              (‹"type"›, JStr (if dis_dir file then ‹"directory"› else ‹"file"›));
              (‹"path"›, JStr p)]).

(** [POST /mcp/list] (lines 30-46).  The default ['/'] replaces only an
    [undefined] path. *)
Definition handle_list (body : jvalue) : io response :=
  catch_500 (
    let dirPath := Some (default (JStr ‹"/"›) (get body ‹"path"›)) in
    let* fullPath := lift (join [Some (JStr DATA_DIR); dirPath]) in
    let* files := await (Readdir fullPath) in
    let* result := mapM (list_entry dirPath) files in
    mret (success_with "files" (JArr result))).

(** [POST /mcp/read] (lines 49-63). *)
Definition handle_read (body : jvalue) : io response :=
  catch_500 (
    let filePath := get body ‹"path"› in
    if negb (truthy filePath) then mret (fail_json 400 ‹"Path required"›) else
    let* fullPath := lift (join [Some (JStr DATA_DIR); filePath]) in
    let* content := await (ReadFile fullPath) in
    mret (success_with "content" (JStr content))).

(** [POST /mcp/write] (lines 66-84).  [content === undefined] is tested,
    not its truthiness. *)
Definition handle_write (body : jvalue) : io response :=
  catch_500 (
    let filePath := get body ‹"path"› in
    let content := get body ‹"content"› in
    if negb (truthy filePath) || bool_decide (content = None) then
      mret (fail_json 400 ‹"Path and content required"›) else
    let* fullPath := lift (join [Some (JStr DATA_DIR); filePath]) in
    let dir := dirname fullPath in
    let* _ := await (Mkdirp dir) in
    let* _ := write_file fullPath content in
    mret (success_with "message" (JStr ‹"File written successfully"›))).

(** [POST /mcp/delete] (lines 87-107). *)
Definition handle_delete (body : jvalue) : io response :=
  catch_500 (
    let targetPath := get body ‹"path"› in
    if negb (truthy targetPath) then mret (fail_json 400 ‹"Path required"›) else
    let* fullPath := lift (join [Some (JStr DATA_DIR); targetPath]) in
    let* is_dir := await (Stat fullPath) in
    let* _ := (if is_dir then rmdir_recursive fullPath else await (Unlink fullPath)) in
    mret (success_with "message" (JStr ‹"Deleted successfully"›))).

(** ** Properties *)

Lemma catch_500_no_throw p m : exists resp m', run (catch_500 p) m = (inr resp, m').
Proof. unfold catch_500. rewrite run_catch. destruct (run p m) as [[e|a] m']; eauto. Qed.

(** C19. [POST /mcp/write] without a [content] field answers 400 with
    ["Path and content required"] and changes nothing. *)
Theorem write_content_required m body :
  get body ‹"content"› = None ->
  run (handle_write body) m = (inr (fail_json 400 ‹"Path and content required"›), m).
Proof.
  intros Hc. unfold handle_write, catch_500. rewrite Hc, bool_decide_true by done.
  by rewrite orb_true_r.
Qed.

Lemma write_content_required_witness :
  get (JObj [(‹"path"›, JStr ‹"/a.txt"›)]) ‹"content"› = None /\
  run (handle_write (JObj [(‹"path"›, JStr ‹"/a.txt"›)])) (∅ : fsys) =
    (inr (fail_json 400 ‹"Path and content required"›), (∅ : fsys)).
Proof. split; [reflexivity|]. apply write_content_required. reflexivity. Defined.

(** [path.join] refuses a value that is not a string. *)
Lemma join_value v :
  (forall p, v <> JStr p) -> join [Some (JStr DATA_DIR); Some v] = inl (invalid_arg_type "path" "of type string" (Some v)).
Proof.
  intros Hv. unfold join. cbn [join_args]. rewrite decide_False by done.
  destruct v as [| | | s | |]; try done. by destruct (Hv s).
Qed.


(** C25. [POST /mcp/list] with a [path] that is present but not a
    string ([null], a number, a boolean, an object, an array) answers 500
    with [path.join]'s [ERR_INVALID_ARG_TYPE] message: the default ['/']
    replaces only an absent [path].  Nothing changes. *)
Theorem list_non_string_path m v :
  (forall s, v <> JStr s) ->
  run (handle_list (JObj [(‹"path"›, v)])) m =
    (inr (fail_json 500 (message (invalid_arg_type "path" "of type string" (Some v)))), m).
Proof.
  intros Hv. unfold handle_list, catch_500. change (get _ ‹"path"›) with (Some v). cbn [default].
  by rewrite run_catch, run_bind, join_value.
Qed.

Lemma list_non_string_path_witness :
  run (handle_list (JObj [(‹"path"›, JNull)])) ({[ [] := NDir ]} : fsys) =
    (inr (fail_json 500 (message (invalid_arg_type "path" "of type string" (Some JNull)))), ({[ [] := NDir ]} : fsys)).
Proof. apply list_non_string_path. intros s. discriminate. Defined.

End Handlers.
