(* ===== verification/Server.v ===== *)
(** * The Express application

    index.js builds the application in this order:
    - [app.use(cors())] (line 11): answers every [OPTIONS] preflight with
      [204] before any route;
    - [app.use(express.json())] (line 12): parses a JSON body in strict
      mode, accepting only an object or an array, and otherwise passes a
      [400] error to Express's final handler; a request without a JSON
      body gets [req.body = {}] (Express 4, body-parser 1);
    - the six routes (lines 15-107), matched as path-to-regexp does by
      default: case-insensitive, with an optional trailing slash, against
      the raw path; a [HEAD] request is served by the [GET] route;
    - the final handler (finalhandler 1.2): an HTML page holding
      [Cannot <METHOD> <encodeUrl(url)>] with [404] when no route
      matched, and the status message of an error body-parser raised
      (as with [NODE_ENV=production]; otherwise the page shows the
      error's stack, which is not modelled).

    [dispatch] is that pipeline for one request.  [serve] runs a sequence
    of requests one after the other on the filesystem state. *)

From S2P Require Import Prelude Utf8 JsNumber Json NodeFs Async Handlers.
From Stdlib Require Import QArith.
Import JsNumber Json NodeFs Async Handlers.
Open Scope io_scope.

Module Server.

Inductive meth := GET | HEAD | POST | PUT | DELETE | PATCH | OPTIONS.

#[export] Instance meth_eq_dec : EqDecision meth.
Proof. solve_decision. Defined.

Definition meth_name (m : meth) : string :=
  match m with
  | GET => "GET" | HEAD => "HEAD" | POST => "POST" | PUT => "PUT"
  | DELETE => "DELETE" | PATCH => "PATCH" | OPTIONS => "OPTIONS"
  end.

(** The body as it reaches [express.json()]: absent or not JSON, the
    value of well-formed JSON text, or text that does not parse. *)
Inductive req_body := NoJson | JsonText (v : jvalue) | Malformed.

Record request := { rmethod : meth; rpath : jstr; rbody : req_body }.

(** [req.body] after [express.json()], or [None] for a parse error
    (strict mode refuses a top-level primitive). *)
Definition parse_body (b : req_body) : option jvalue :=
  match b with
  | NoJson => Some (JObj [])
  | JsonText (JObj fs) => Some (JObj fs)
  | JsonText (JArr l) => Some (JArr l)
  | JsonText _ | Malformed => None
  end.

(** ASCII case folding, as the [i] flag does for the routes' letters. *)
Definition fold_case (c : Z) : Z := if ((65 <=? c) && (c <=? 90))%Z then (c + 32)%Z else c.

(** [^route\/?$] with the [i] flag. *)
Definition route_matches (route url : jstr) : bool :=
  bool_decide (map fold_case url = map fold_case route \/
               map fold_case url = map fold_case route ++ [CH_SLASH]).

Definition text (code : Z) (s : jstr) : response := {| status := code; body := BText s |}.

(** ** Express's final handler (finalhandler 1.2) *)

(** [escapeHtml]. *)
Definition html_escape (s : jstr) : jstr :=
  flat_map (fun c =>
    if (c =? 38)%Z then ‹"&amp;"› else if (c =? 60)%Z then ‹"&lt;"›
    else if (c =? 62)%Z then ‹"&gt;"› else if (c =? 34)%Z then ‹"&quot;"›
    else if (c =? 39)%Z then ‹"&#39;"› else [c]) s.

(** [.replace(/\n/g, '<br>').replace(/\x20{2}/g, ' &nbsp;')]: no [<br>]
    holds a space, so one pass does both. *)
Fixpoint br_nbsp (s : jstr) : jstr :=
  match s with
  | [] => []
  | c :: r =>
      if (c =? 10)%Z then ‹"<br>"› ++ br_nbsp r
      else if (c =? 32)%Z then
        match r with
        | d :: r' => if (d =? 32)%Z then ‹" &nbsp;"› ++ br_nbsp r' else c :: br_nbsp r
        | [] => [c]
        end
      else c :: br_nbsp r
  end.

Definition NL : jstr := [10%Z].

(** [createHtmlDocument(message)]. *)
Definition error_page (msg : jstr) : jstr :=
  ‹"<!DOCTYPE html>"› ++ NL ++ ‹"<html lang="› ++ DQ ++ ‹"en"› ++ DQ ++ ‹">"› ++ NL ++
  ‹"<head>"› ++ NL ++ ‹"<meta charset="› ++ DQ ++ ‹"utf-8"› ++ DQ ++ ‹">"› ++ NL ++
  ‹"<title>Error</title>"› ++ NL ++ ‹"</head>"› ++ NL ++ ‹"<body>"› ++ NL ++
  ‹"<pre>"› ++ br_nbsp (html_escape msg) ++ ‹"</pre>"› ++ NL ++ ‹"</body>"› ++ NL ++ ‹"</html>"› ++ NL.

(** The characters [encodeUrl] keeps:
    [[\x21\x23-\x3B\x3D\x3F-\x5F\x61-\x7A\x7C\x7E]]. *)
Definition url_kept (c : Z) : bool :=
  ((c =? 0x21) || ((0x23 <=? c) && (c <=? 0x3B)) || (c =? 0x3D) || ((0x3F <=? c) && (c <=? 0x5F)) ||
   ((0x61 <=? c) && (c <=? 0x7A)) || (c =? 0x7C) || (c =? 0x7E))%Z.

Definition is_hex_digit (c : Z) : bool :=
  (((48 <=? c) && (c <=? 57)) || ((65 <=? c) && (c <=? 70)) || ((97 <=? c) && (c <=? 102)))%Z.

(** The characters [encodeURI] leaves as they are. *)
Definition uri_kept (c : Z) : bool :=
  (((48 <=? c) && (c <=? 57)) || ((65 <=? c) && (c <=? 90)) || ((97 <=? c) && (c <=? 122)))%Z ||
  bool_decide (c ∈ ‹"-_.!~*'();/?:@&=+$,#"›).

(** [encodeURI] of one character: its UTF-8 bytes as [%XX]. *)
Definition uri_escape (c : Z) : jstr :=
  if uri_kept c then [c]
  else flat_map (fun b => [37; hex_upper (b / 16); hex_upper (b mod 16)])%Z (Utf8.encode_cp c).

(** [url.replace(ENCODE_CHARS_REGEXP, encodeURI)]: a character outside
    [url_kept] is escaped, and so is a [%] that does not start [%XX] with
    the one or two characters the expression takes with it ([force]). *)
Fixpoint encode_url_go (force : nat) (s : jstr) : jstr :=
  match s with
  | [] => []
  | c :: r =>
      if bool_decide (force <> 0%nat) then uri_escape c ++ encode_url_go (pred force) r
      else if (c =? 37)%Z then
        match r with
        | [] => uri_escape c
        | [d] => if is_hex_digit d then c :: encode_url_go 0 r else uri_escape c ++ encode_url_go 1 r
        | d :: e :: _ =>
            if negb (is_hex_digit d) then uri_escape c ++ encode_url_go 1 r
            else if negb (is_hex_digit e) then uri_escape c ++ encode_url_go 2 r
            else c :: encode_url_go 0 r
        end
      else if url_kept c then c :: encode_url_go 0 r
      else uri_escape c ++ encode_url_go 0 r
  end.

(** [encodeUrl(url)] on the URL Node's HTTP parser gives, one code unit
    per byte of the request line: it holds no surrogate, so the step that
    replaces lone surrogates does nothing. *)
Definition encode_url (url : jstr) : jstr := encode_url_go 0 url.

(** The final handler's answer to an unmatched request:
    [Cannot <METHOD> <encodeUrl(url)>] in the HTML page. *)
Definition not_found (r : request) : response :=
  text 404 (error_page (‹"Cannot "› ++ js (meth_name (rmethod r)) ++ ‹" "› ++ encode_url (rpath r))).

(** [statuses.message] of the codes body-parser raises. *)
Definition status_text (code : Z) : jstr :=
  if (code =? 413)%Z then ‹"Payload Too Large"›
  else if (code =? 415)%Z then ‹"Unsupported Media Type"›
  else ‹"Bad Request"›.

(** The final handler's answer to an error raised by body-parser with
    [NODE_ENV=production]: the status message in the HTML page.  Without
    it the page shows [err.stack], whose text depends on the install and
    is not modelled; the status is the same. *)
Definition error_response (code : Z) : response := text code (error_page (status_text code)).

(** The route table.  [GET] routes also serve [HEAD]. *)
Definition route (uptime : Q) (r : request) (body : jvalue) : io response :=
  let get_like := bool_decide (rmethod r = GET \/ rmethod r = HEAD) in
  let post := bool_decide (rmethod r = POST) in
  if get_like && route_matches ‹"/health"› (rpath r) then handle_health uptime
  else if get_like && route_matches ‹"/mcp/info"› (rpath r) then handle_info
  else if post && route_matches ‹"/mcp/list"› (rpath r) then handle_list body
  else if post && route_matches ‹"/mcp/read"› (rpath r) then handle_read body
  else if post && route_matches ‹"/mcp/write"› (rpath r) then handle_write body
  else if post && route_matches ‹"/mcp/delete"› (rpath r) then handle_delete body
  else mret (not_found r).

(** The middleware chain followed by the routes. *)
Definition dispatch (uptime : Q) (r : request) : io response :=
  if decide (rmethod r = OPTIONS) then mret {| status := 204; body := BEmpty |}
  else match parse_body (rbody r) with
       | None => mret (error_response 400)
       | Some b => route uptime r b
       end.

(** Requests served one after the other, each with its uptime. *)
Fixpoint serve (m : fsys) (rs : list (Q * request)%type) : list (js_error + response) * fsys :=
  match rs with
  | [] => ([], m)
  | (up, r) :: rs' =>
      let '(res, m') := run (dispatch up r) m in
      let '(out, m'') := serve m' rs' in
      (res :: out, m'')
  end.

(** ** Properties of every request *)

Lemma dispatch_wf up r m : fs_wf m -> fs_wf (run (dispatch up r) m).2.
Proof. apply run_invariant. intros T c m'. apply exec_wf. Qed.

Lemma serve_cons_state m up r rs :
  (serve m ((up, r) :: rs)).2 = (serve (run (dispatch up r) m).2 rs).2.
Proof.
  simpl. destruct (run (dispatch up r) m) as [res m']. simpl.
  by destruct (serve m' rs).
Qed.

(** The tree invariant holds after any sequence of requests. *)
Theorem serve_wf m rs : fs_wf m -> fs_wf (serve m rs).2.
Proof.
  revert m. induction rs as [|[up r] rs IH]; intros m Hm; [done|].
  rewrite serve_cons_state. by apply IH, dispatch_wf.
Qed.

(** C16. The server answers every request: no handler lets an error
    escape, whatever the body and the state. *)
Theorem dispatch_no_throw up r m : exists resp m', run (dispatch up r) m = (inr resp, m').
Proof.
  unfold dispatch. case_decide; [eexists _, _; reflexivity|].
  destruct (parse_body (rbody r)) as [b|]; [|eexists _, _; reflexivity]. unfold route.
  repeat match goal with |- context [if ?c then _ else _] => destruct c end;
    first [eexists _, _; reflexivity | apply catch_500_no_throw].
Qed.

(** [GET /health] with a body [express.json()] accepts answers 200
    with status ["healthy"] and the uptime, whatever the state. *)
Theorem health_ok up r m :
  (rmethod r = GET \/ rmethod r = HEAD) -> route_matches ‹"/health"› (rpath r) = true ->
  parse_body (rbody r) <> None ->
  run (dispatch up r) m =
    (inr (ok_json (JObj [(‹"status"›, JStr ‹"healthy"›); (‹"service"›, JStr ‹"mcp-filesystem"›);
                         (‹"uptime"›, JNum (Fin up))])), m).
Proof.
  intros Hm Hr Hb. unfold dispatch. rewrite decide_False by (destruct Hm; congruence).
  destruct (parse_body (rbody r)) as [b|]; [|done]. unfold route.
  rewrite bool_decide_true, Hr by done. done.
Qed.

Lemma health_ok_witness :
  run (dispatch 5 {| rmethod := GET; rpath := ‹"/health"›; rbody := NoJson |}) (∅ : fsys) =
    (inr (ok_json (JObj [(‹"status"›, JStr ‹"healthy"›); (‹"service"›, JStr ‹"mcp-filesystem"›);
                         (‹"uptime"›, JNum (Fin 5))])), (∅ : fsys)).
Proof. apply health_ok; [left; reflexivity|reflexivity|discriminate]. Defined.

End Server.
