(* ===== verification/Cors.v ===== *)
(** * Cross-origin headers

    [app.use(cors())] (index.js lines 2 and 11) runs before every route
    with the defaults of the [cors] package: origin ['*'], methods
    [GET,HEAD,PUT,PATCH,POST,DELETE], no credentials, no exposed headers,
    no max age, [preflightContinue] false and [optionsSuccessStatus] 204.
    - On every request it sets [Access-Control-Allow-Origin: *]
      ([configureOrigin]).
    - On an [OPTIONS] request it also sets [Access-Control-Allow-Methods],
      [Vary: Access-Control-Request-Headers] and, when the request has a
      non-empty [Access-Control-Request-Headers], the same value as
      [Access-Control-Allow-Headers]; it then ends the response with 204
      and [Content-Length: 0], which is the first branch of
      [Server.dispatch].
    - On any other request it calls [next()], and the header stays on the
      response the rest of the application sends, the 400 and 404 answers
      of Express's final handler included: that handler removes only the
      content headers.
    [serve_http] is [Server.dispatch] with the headers [cors()] sets.  An
    HTTP request carries the one request header [cors()] reads; of the
    response headers, only those [cors()] sets are modelled. *)

From S2P Require Import Prelude Json NodeFs Async Handlers Server.
From Stdlib Require Import QArith.
Import Json NodeFs Async Handlers Server.
Open Scope io_scope.

Module Cors.

Abbreviation header := (jstr * jstr)%type.

(** A request with [req.headers['access-control-request-headers']]. *)
Record http_request := { hreq : request; acr_headers : option jstr }.

Record http_response := { hstatus : Z; hheaders : list header; hbody : Handlers.rbody }.

Definition ALLOW_ORIGIN : header := (‹"Access-Control-Allow-Origin"›, ‹"*"›).

Definition ALLOW_METHODS : header :=
  (‹"Access-Control-Allow-Methods"›, ‹"GET,HEAD,PUT,PATCH,POST,DELETE"›).

(** [configureOrigin] with [origin: '*']. *)
Definition configure_origin : list header := [ALLOW_ORIGIN].

(** [configureMethods] with the default methods. *)
Definition configure_methods : list header := [ALLOW_METHODS].

(** [configureAllowedHeaders] without [allowedHeaders]: [Vary], and the
    request's header reflected when it is a non-empty string. *)
Definition configure_allowed_headers (acrh : option jstr) : list header :=
  (‹"Vary"›, ‹"Access-Control-Request-Headers"›) ::
  match acrh with
  | Some h => if decide (h = []) then [] else [(‹"Access-Control-Allow-Headers"›, h)]
  | None => []
  end.

(** The headers [cors()] sets, in the order it sets them. *)
Definition cors_headers (hr : http_request) : list header :=
  if decide (rmethod (hreq hr) = OPTIONS)
  then configure_origin ++ configure_methods ++ configure_allowed_headers (acr_headers hr) ++
       [(‹"Content-Length"›, ‹"0"›)]
  else configure_origin.

(** The application with its middleware, as an HTTP exchange. *)
Definition serve_http (up : Q) (hr : http_request) : io http_response :=
  let* r := dispatch up (hreq hr) in
  mret {| hstatus := status r; hheaders := cors_headers hr; hbody := body r |}.

(** ** Claims *)

Lemma allow_origin_always hr : ALLOW_ORIGIN ∈ cors_headers hr.
Proof. unfold cors_headers. case_decide; set_solver. Qed.

(** C30. Every answer the server sends carries
    [Access-Control-Allow-Origin: *]; the answer to an [OPTIONS]
    preflight is an empty 204 that changes nothing, allows the six
    methods and allows the headers the request asked for. *)
Theorem serve_http_cors up hr m resp m' :
  run (serve_http up hr) m = (inr resp, m') ->
  ALLOW_ORIGIN ∈ hheaders resp /\
  (rmethod (hreq hr) = OPTIONS ->
   hstatus resp = 204%Z /\ hbody resp = BEmpty /\ m' = m /\ ALLOW_METHODS ∈ hheaders resp /\
   forall h, acr_headers hr = Some h -> h <> [] ->
             (‹"Access-Control-Allow-Headers"›, h) ∈ hheaders resp).
Proof.
  unfold serve_http. rewrite run_bind.
  destruct (run (dispatch up (hreq hr)) m) as [[e|r] m''] eqn:E; [done|].
  intros F. injection F as <- <-. split; [apply allow_origin_always|]. intros Ho.
  unfold dispatch in E. rewrite decide_True in E by done. injection E as <- <-.
  unfold cors_headers. rewrite decide_True by done. split_and!; [done|done|done|set_solver|].
  intros h Eh Hh. unfold configure_allowed_headers. rewrite Eh, decide_False by done.
  set_solver.
Qed.

Definition preflight : http_request :=
  {| hreq := {| rmethod := OPTIONS; rpath := ‹"/mcp/write"›; rbody := NoJson |};
     acr_headers := Some ‹"Content-Type"› |}.

Lemma serve_http_cors_witness :
  run (serve_http 0%Q preflight) ∅ =
    (inr {| hstatus := 204%Z; hheaders := cors_headers preflight; hbody := BEmpty |}, ∅) /\
  (ALLOW_ORIGIN ∈ cors_headers preflight /\
   (rmethod (hreq preflight) = OPTIONS ->
    204%Z = 204%Z /\ BEmpty = BEmpty /\ (∅ : fsys) = ∅ /\ ALLOW_METHODS ∈ cors_headers preflight /\
    forall h, acr_headers preflight = Some h -> h <> [] ->
              (‹"Access-Control-Allow-Headers"›, h) ∈ cors_headers preflight)).
Proof.
  assert (E : run (serve_http 0%Q preflight) ∅ =
    (inr {| hstatus := 204%Z; hheaders := cors_headers preflight; hbody := BEmpty |}, ∅))
    by reflexivity.
  split; [exact E|]. exact (serve_http_cors _ _ _ _ _ E).
Defined.

End Cors.
