(* ===== verification/Findings.v ===== *)
(** * The spec's concrete scenario and what modelling found

    The concrete inputs the witnesses use ([post], [m_data]), and
    examples computed on a concrete state by evaluation that illustrate
    the findings; [Gateway] proves the general statements behind them:
    - the scenario of the spec (section 8, item 8), run through the whole
      server;
    - the behaviours where the code departs from the spec or from what it
      means to do: [..] in a path escapes [/data], deleting [/] removes
      [/data], a failed write leaves the directories it created, a lone
      surrogate is not written back as itself, a malformed body makes
      [/health] fail, an array [content] is written chunk by chunk, and a
      [path] that is [null] or not a string fails with 500. *)

From S2P Require Import Prelude Utf8 JsNumber Json NodePath NodeFs Async Handlers Server.
From Stdlib Require Import QArith.
Import JsNumber Json NodePath NodeFs Async Handlers Server.

Module Findings.

(** A [POST] request to [route] with a JSON object body. *)
Definition post (route : string) (fields : list (string * jvalue)) : request :=
  {| rmethod := POST; rpath := js route;
     rbody := JsonText (JObj (map (fun kv => (js kv.1, kv.2)) fields)) |}.

(** The state of a fresh container: [/] and the empty [/data]. *)
Definition m_data : fsys := {[ [] := NDir; [Utf8.encode ‹"data"›] := NDir ]}.

(** The requests of the spec's concrete scenario (section 8, item 8). *)
Definition scenario : list (Q * request) :=
  [(0%Q, post "/mcp/write" [("path", JStr ‹"/a/b.txt"›); ("content", JStr ‹"hi"›)]);
   (0%Q, post "/mcp/read" [("path", JStr ‹"/a/b.txt"›)]);
   (0%Q, post "/mcp/list" [("path", JStr ‹"/a"›)]);
   (0%Q, post "/mcp/delete" [("path", JStr ‹"/a"›)]);
   (0%Q, post "/mcp/list" [("path", JStr ‹"/a"›)])].

(** [/data] beside [/etc/passwd]. *)
Definition m_etc : fsys :=
  <[[Utf8.encode ‹"etc"›; Utf8.encode ‹"passwd"›] := NFile (Utf8.encode ‹"root"›)]>
    (<[[Utf8.encode ‹"etc"›] := NDir]> m_data).

(** The spec's scenario: write [/a/b.txt], read it, list [/a],
    delete [/a], list [/a] again.  The answers are those of the spec, the
    last list fails with [ENOENT], and the state is the initial one. *)
Example spec_scenario :
  serve m_data scenario =
    ([inr (success_with "message" (JStr ‹"File written successfully"›));
      inr (success_with "content" (JStr ‹"hi"›));
      inr (success_with "files" (JArr [JObj [(‹"name"›, JStr ‹"b.txt"›); (‹"type"›, JStr ‹"file"›);
                                            (‹"path"›, JStr ‹"/a/b.txt"›)]]));
      inr (success_with "message" (JStr ‹"Deleted successfully"›));
      inr (fail_json 500 ‹"ENOENT: no such file or directory, scandir '/data/a'"›)],
     m_data).
Proof. vm_compute. reflexivity. Qed.

(** Path traversal: [POST /mcp/delete] with [path: "../etc/passwd"]
    deletes [/etc/passwd], outside [/data]. *)
Example delete_escapes_data :
  run (dispatch 0 (post "/mcp/delete" [("path", JStr ‹"../etc/passwd"›)])) m_etc =
    (inr (success_with "message" (JStr ‹"Deleted successfully"›)),
     <[[Utf8.encode ‹"etc"›] := NDir]> m_data).
Proof. vm_compute. reflexivity. Qed.

(** [POST /mcp/delete] with [path: "/"] removes [/data] itself. *)
Example delete_root_removes_data :
  run (dispatch 0 (post "/mcp/delete" [("path", JStr ‹"/"›)])) m_data =
    (inr (success_with "message" (JStr ‹"Deleted successfully"›)), {[ [] := NDir ]}).
Proof. vm_compute. reflexivity. Qed.

(** A write that fails after [mkdir] (here [content: null], which
    [fs.writeFile] refuses) answers 500 but leaves the directory
    [/data/x] it created. *)
Example failed_write_creates_dirs :
  run (dispatch 0 (post "/mcp/write" [("path", JStr ‹"/x/y.txt"›); ("content", JNull)])) m_data =
    (inr (fail_json 500 (‹"The "› ++ DQ ++ ‹"data"› ++ DQ ++
                   ‹" argument must be of type string or an instance of Buffer, TypedArray, or DataView. Received null"›)),
     <[[Utf8.encode ‹"data"›; Utf8.encode ‹"x"›] := NDir]> m_data).
Proof. vm_compute. reflexivity. Qed.

(** A lone surrogate in [content] is written as U+FFFD and read back
    as U+FFFD: the round trip holds only for well-formed strings. *)
Example lone_surrogate_not_roundtrip :
  (serve m_data [(0%Q, post "/mcp/write" [("path", JStr ‹"/s.txt"›); ("content", JStr [0xD800%Z])]);
                 (0%Q, post "/mcp/read" [("path", JStr ‹"/s.txt"›)])]).1 =
    [inr (success_with "message" (JStr ‹"File written successfully"›));
     inr (success_with "content" (JStr [0xFFFD%Z]))].
Proof. vm_compute. reflexivity. Qed.

(** [GET /health] with a body that is not JSON answers 400: the
    body parser runs before the route. *)
Example health_malformed_body :
  run (dispatch 0 {| rmethod := GET; rpath := ‹"/health"›; rbody := Malformed |}) m_data =
    (inr (error_response 400), m_data).
Proof. vm_compute. reflexivity. Qed.

(** An array [content] is accepted and its strings are written one
    after the other. *)
Example array_content_example :
  run (dispatch 0 (post "/mcp/write" [("path", JStr ‹"/c.txt"›);
                                      ("content", JArr [JStr ‹"a"›; JStr ‹"b"›])])) m_data =
    (inr (success_with "message" (JStr ‹"File written successfully"›)),
     <[[Utf8.encode ‹"data"›; Utf8.encode ‹"c.txt"›] := NFile (Utf8.encode ‹"ab"›)]> m_data).
Proof. vm_compute. reflexivity. Qed.

(** [POST /mcp/list] with [path: null] fails with 500: the default
    ['/'] replaces only an absent path, and [path.join] refuses [null]. *)
Example list_null_path :
  run (dispatch 0 (post "/mcp/list" [("path", JNull)])) m_data =
    (inr (fail_json 500 (‹"The "› ++ DQ ++ ‹"path"› ++ DQ ++
                         ‹" argument must be of type string. Received null"›)), m_data).
Proof. vm_compute. reflexivity. Qed.

(** A [path] that is truthy but not a string passes the 400 check
    and fails with 500 in [path.join]. *)
Example read_number_path :
  run (dispatch 0 (post "/mcp/read" [("path", JNum (Fin 5))])) m_data =
    (inr (fail_json 500 (‹"The "› ++ DQ ++ ‹"path"› ++ DQ ++
                         ‹" argument must be of type string. Received type number (5)"›)), m_data).
Proof. vm_compute. reflexivity. Qed.

End Findings.
