(* ===== verification/Gateway.v ===== *)
(** * End-to-end properties of the gateway

    A request path [p] that is not empty and whose [..] segments never go
    above [/data] is resolved by [path.join('/data', p)] to [full_path p].
    The kernel reaches that path through the names [data_key p], the
    UTF-8 bytes of ["data"] and of each segment [p] normalises to.  The section [SafePath]
    proves this once.  The handler theorems below then run each handler
    on a filesystem state and state its outcome and final state in terms
    of the kernel map:
    - write creates the missing parent directories and stores the UTF-8
      bytes of the content;
    - read returns the decoded bytes, so a read after a write returns the
      written string;
    - list returns the children of the directory;
    - delete removes the subtree, or unlinks the file;
    - every handler keeps the tree invariant and never throws.
    These need the path to be one Node and the kernel accept
    ([kernel_path]: no NUL code unit, no name of more than 255 bytes, a
    full path of fewer than 4096 bytes).  The other paths are covered by
    their own theorems: a NUL makes Node refuse the call, a long name
    makes [open] fail after [mkdir] created the parents, and the write
    is idempotent on every path, whether it succeeds or fails.  The last
    group shows what the code does beyond the spec: [..] leaves [/data],
    a [content] that is not a string fails after [mkdir], an array is
    written chunk by chunk, a lone surrogate is not read back, and a
    [path] that is not a string makes [list] fail. *)

From S2P Require Import Prelude Utf8 Json NodePath NodeFs Async Handlers Server Findings.
From Stdlib Require Import QArith.
Import Json NodePath NodeFs Async Handlers Server Findings.
Open Scope io_scope.

Module Gateway.

(** ** Paths below the data directory *)

(** The segments a request path normalises to; below [/data] when the
    path does not climb above it. *)
Definition req_segs (p : jstr) : list jstr := norm_rel p.

(** The path [path.join(DATA_DIR, p)] returns for such a path. *)
Definition full_path (p : jstr) : jstr :=
  abs_path (‹"data"› :: req_segs p) (has_trailing (DATA_DIR ++ CH_SLASH :: p)).

(** The kernel's names for it. *)
Definition data_key (p : jstr) : kpath := map Utf8.encode (‹"data"› :: req_segs p).

(** A request path Node and the kernel accept: no NUL code unit (Node's
    [getValidatedPath]), names of at most [NAME_MAX] bytes and a full path
    of fewer than [PATH_MAX] bytes (the kernel's [ENAMETOOLONG]). *)
Definition kernel_path (p : jstr) : Prop :=
  0%Z ∉ p /\ Forall short_name (data_key p) /\ too_long (full_path p) = false.

#[export] Instance kernel_path_dec p : Decision (kernel_path p).
Proof. unfold kernel_path, short_name. apply _. Defined.

Lemma nul_free_iff (l : jstr) : 0%Z ∉ l <-> Forall (fun u => u <> 0%Z) l.
Proof.
  rewrite Forall_forall. split; [intros H x Hx ->; done|]. intros H Hin. by apply (H 0%Z).
Qed.

(** The segments a path normalises to are made of its characters. *)
Lemma req_segs_chars (P : Z -> Prop) p : Forall P p -> Forall (Forall P) (req_segs p).
Proof.
  intros Hp. unfold req_segs, norm_rel. apply Forall_rev, Forall_forall. intros x Hx.
  apply foldl_norm_seg_elem in Hx as [Hx|Hx]; [by apply not_elem_of_nil in Hx|].
  apply Forall_forall. intros u Hu. rewrite Forall_forall in Hp. apply Hp. by eapply split_slash_elem.
Qed.

(** A JavaScript string that names something under [/data]: no [..] of
    it goes above [/data]. *)
Definition safe_path (p : jstr) : Prop :=
  p <> [] /\ climbs 0 (split_slash p) = false /\ Utf8.units16 p.

#[export] Instance safe_path_dec p : Decision (safe_path p).
Proof. unfold safe_path, Utf8.units16. apply _. Defined.

Lemma clean_data : clean_seg ‹"data"›.
Proof. decide_it. Qed.

Lemma has_trailing_data p : p <> [] -> has_trailing (DATA_DIR ++ CH_SLASH :: p) = has_trailing p.
Proof.
  intros Hp. unfold has_trailing. by rewrite last_app_ne, last_cons_ne.
Qed.

Section SafePath.
Context (p : jstr).
Hypothesis Hsafe : safe_path p.

Lemma req_segs_clean : Forall clean_seg (‹"data"› :: req_segs p).
Proof.
  constructor; [apply clean_data|apply norm_rel_clean].
Qed.

Lemma req_segs_units16 : Forall Utf8.units16 (‹"data"› :: req_segs p).
Proof.
  destruct Hsafe as (_ & _ & H16). constructor; [decide_it|].
  apply Forall_rev, Forall_forall. intros x Hx.
  apply foldl_norm_seg_elem in Hx as [Hx|Hx]; [by apply not_elem_of_nil in Hx|].
  pose proof (units16_split p H16) as Hu. rewrite Forall_forall in Hu. by apply Hu.
Qed.

Lemma join_full : join [Some (JStr DATA_DIR); Some (JStr p)] = inr (full_path p).
Proof. destruct Hsafe as (Hp & Hd & _). by apply join_data_within. Qed.

Lemma kcomponents_full : kcomponents (full_path p) = data_key p.
Proof. apply kcomponents_abs_path; [apply req_segs_clean|apply req_segs_units16]. Qed.

Lemma ktrailing_full : ktrailing (full_path p) = has_trailing p.
Proof.
  destruct Hsafe as (Hp & _ & _). unfold full_path.
  rewrite ktrailing_abs_path by (done || apply req_segs_clean || apply req_segs_units16).
  by apply has_trailing_data.
Qed.

Lemma data_key_clean : Forall clean_seg (data_key p).
Proof.
  unfold data_key. apply Forall_map. pose proof req_segs_clean as Hc.
  pose proof req_segs_units16 as Hu. rewrite Forall_forall in Hc, Hu |- *.
  intros x Hx. apply clean_encode; auto.
Qed.

Lemma resolve_full m :
  too_long (full_path p) = false -> Forall short_name (data_key p) \/ is_Some (m !! data_key p) ->
  dirs_along m [] (data_key p) -> resolve m (full_path p) = inr (data_key p).
Proof.
  intros Hl Hs Hd. unfold resolve. rewrite Hl, kcomponents_full. apply walk_clean; [apply data_key_clean|done|done].
Qed.

Lemma dirname_full :
  dirname (full_path p) = abs_path (removelast (‹"data"› :: req_segs p)) false.
Proof. apply dirname_abs_path; [done|apply req_segs_clean]. Qed.

Lemma kcomponents_parent :
  kcomponents (abs_path (removelast (‹"data"› :: req_segs p)) false) = removelast (data_key p).
Proof.
  unfold data_key. rewrite removelast_map.
  apply kcomponents_abs_path; apply Forall_removelast;
    [apply req_segs_clean|apply req_segs_units16].
Qed.

(** The full path and its parent hold no NUL when [p] holds none. *)
Lemma nul_free_full t : 0%Z ∉ p -> 0%Z ∉ abs_path (‹"data"› :: req_segs p) t.
Proof.
  rewrite !nul_free_iff. intros Hp. apply Forall_abs_path; [done|]. constructor; [decide_it|].
  by apply req_segs_chars.
Qed.

Lemma nul_free_dir : 0%Z ∉ p -> 0%Z ∉ dirname (full_path p).
Proof.
  rewrite dirname_full, !nul_free_iff. intros Hp. apply Forall_abs_path; [done|].
  apply Forall_removelast. constructor; [decide_it|]. by apply req_segs_chars.
Qed.

(** The parent of the full path is a prefix of it, so it is no longer. *)
Lemma too_long_dirname : too_long (full_path p) = false -> too_long (dirname (full_path p)) = false.
Proof.
  rewrite dirname_full. unfold full_path, too_long. intros H. apply Nat.leb_gt in H. apply Nat.leb_gt.
  destruct (exists_last (l := ‹"data"› :: req_segs p) ltac:(done)) as (init & x & E).
  rewrite E in H |- *. rewrite removelast_last. unfold abs_path in *.
  rewrite !Utf8.encode_cons_ascii in * by (unfold CH_SLASH; lia). cbn [length] in *.
  destruct (decide (init = [])) as [->|Hne].
  - simpl. lia.
  - rewrite join_slash_snoc, <- app_assoc, <- app_comm_cons, Utf8.encode_sep in H by (done || unfold CH_SLASH; lia).
    cbn [andb]. rewrite app_nil_r. rewrite length_app in H. simpl in H. lia.
Qed.

(** What the kernel's lookup finds at the full path when its parents are
    directories. *)
Lemma lookup_at_full m :
  Forall short_name (data_key p) \/ is_Some (m !! data_key p) ->
  dirs_along m [] (data_key p) ->
  lookup_at m (full_path p) =
    match m !! data_key p with
    | None => inl ENOENT
    | Some (NFile d) => if has_trailing p then inl ENOTDIR else inr (data_key p, NFile d)
    | Some NDir => inr (data_key p, NDir)
    end.
Proof.
  intros Hs Hd. unfold lookup_at. rewrite kcomponents_full, walk_clean; [|apply data_key_clean|done|done].
  by rewrite ktrailing_full.
Qed.

Lemma lookup_full m :
  too_long (full_path p) = false -> Forall short_name (data_key p) \/ is_Some (m !! data_key p) ->
  dirs_along m [] (data_key p) ->
  lookup m (full_path p) = lookup_at m (full_path p).
Proof. intros Hl _ _. unfold lookup. by rewrite Hl. Qed.

End SafePath.

Lemma nul_free_path p : 0%Z ∉ p -> 0%Z ∉ full_path p.
Proof. intros Hn. unfold full_path. by apply nul_free_full. Qed.

(** The side conditions of [lookup_full] for a path Node and the kernel
    accept. *)
Ltac kp_side := first [done | by left].

(** ** Writing a file *)

(** A call on a path without NUL goes to the kernel. *)
Lemma nul_path_none {T} (c : fs_call T) q : call_path c = Some q -> 0%Z ∉ q -> nul_path c = None.
Proof. unfold nul_path. intros -> Hq. by rewrite bool_decide_false. Qed.

Ltac kexec_tac :=
  rewrite exec_kexec by (reflexivity || (eapply nul_path_none; [reflexivity|done])); cbn [kexec].

(** The directories [mkdir -p] creates for the parent of [p]. *)
Definition parent_dirs (p : jstr) : list kpath := prefixes_from [] (removelast (data_key p)).

(** ** Writing twice *)

(** What [POST /mcp/write] does after [path.join]: [mkdir -p] of the
    parent, then [fs.writeFile]. *)
Definition write_tail (F : jstr) (content : option jvalue) : io response :=
  let* _ := await (Mkdirp (dirname F)) in
  let* _ := write_file F content in
  mret (success_with "message" (JStr ‹"File written successfully"›)).

Lemma handle_write_tail m p v :
  safe_path p ->
  run (handle_write (JObj [(‹"path"›, JStr p); (‹"content"›, v)])) m =
    run (catch_500 (write_tail (full_path p) (Some v))) m.
Proof.
  intros Hs. pose proof Hs as (Hp & _ & _). unfold handle_write.
  change (get _ ‹"path"›) with (Some (JStr p)). change (get _ ‹"content"›) with (Some v).
  cbn [truthy]. rewrite (bool_decide_false (p = [])), (bool_decide_false (Some v = None)) by done.
  cbn [negb orb].
  rewrite join_full by done. unfold catch_500. rewrite !run_catch, run_bind, run_lift. done.
Qed.

(** [catch_500] answers an error and keeps the state the program reached. *)
Lemma run_catch_500 p m :
  run (catch_500 p) m =
    (inr (match (run p m).1 with inl e => fail_json 500 (message e) | inr a => a end), (run p m).2).
Proof. unfold catch_500. rewrite run_catch. by destruct (run p m) as [[]]. Qed.

Lemma catch_500_idem p m :
  run p (run p m).2 = run p m -> run (catch_500 p) (run (catch_500 p) m).2 = run (catch_500 p) m.
Proof. intros H. rewrite !run_catch_500. cbn [snd]. by rewrite H. Qed.

(** Writing the same string to the same path twice: [mkdir -p] repeats
    its outcome on the state it reached, and a second [open] empties the
    file the first write filled, so the second write ends where the first
    did, whether it failed (in [mkdir], in [open] or in [write]) or not. *)
Lemma write_tail_idem F c m :
  Forall clean_seg (kcomponents F) -> kcomponents (dirname F) = removelast (kcomponents F) ->
  run (write_tail F (Some (JStr c))) (run (write_tail F (Some (JStr c))) m).2 = run (write_tail F (Some (JStr c))) m.
Proof.
  intros Hc Hd. unfold write_tail, write_file. rewrite !run_bind, !run_await.
  pose proof (exec_mkdirp_idem (dirname F) m) as Hi.
  assert (Hins : forall m' n, exec (Mkdirp (dirname F)) (<[kcomponents F := n]> m') =
            ((exec (Mkdirp (dirname F)) m').1, <[kcomponents F := n]> (exec (Mkdirp (dirname F)) m').2))
    by (intros; apply exec_mkdirp_insert; rewrite Hd; [by apply Forall_removelast|apply not_in_parents]).
  destruct (exec (Mkdirp (dirname F)) m) as [[e|[]] m1] eqn:E1; cbn [continue_with snd] in *;
    [by rewrite Hi|].
  rewrite !run_bind, !run_await.
  destruct (exec (OpenTrunc F) m1) as [[e|[]] m2] eqn:E2; cbn [continue_with snd].
  - pose proof (exec_open_error _ _ _ _ E2) as ->. rewrite Hi. cbn [continue_with].
    by rewrite !run_bind, !run_await, E2.
  - destruct (exec_open_ok F m1 _ _ Hc E2) as (-> & Hre & Hap). unfold write_bytes.
    case_decide; unfold mret, io_ret; cbn [run continue_with snd];
      [|rewrite run_await, Hap; cbn [continue_with run snd]];
      rewrite Hins, Hi; cbn [continue_with fst snd]; rewrite !run_bind, !run_await, Hre;
      cbn [continue_with]; [done|by rewrite run_await, Hap].
Qed.

(** [open(q, 'w')] of a path the kernel accepts, whose parents are
    directories and which is not a directory: the file is created or
    emptied. *)
Lemma exec_open_trunc m q k :
  kcomponents q = k -> Forall clean_seg k -> dirs_along m [] k ->
  ktrailing q = false -> m !! k <> Some NDir ->
  0%Z ∉ q -> too_long q = false -> Forall short_name k ->
  exec (OpenTrunc q) m = (inr (), <[k := NFile []]> m).
Proof.
  intros Hq Hc Hd Ht Hk Hnul Hlen Hsh. kexec_tac.
  unfold open_trunc, resolve. rewrite Hlen, Hq, walk_clean by (done || by left).
  cbn [app]. rewrite Ht. by destruct (m !! k) as [[]|].
Qed.

(** After [open], [fs.writeFile] of the chunks of an array writes their
    UTF-8 bytes one after the other. *)
Lemma run_write_chunks q k m d ss :
  (forall d bs, exec (AppendFile q bs) (<[k := NFile d]> m) = (inr (), <[k := NFile (d ++ bs)]> m)) ->
  run (write_chunks q (map JStr ss)) (<[k := NFile d]> m) =
    (inr (), <[k := NFile (d ++ concat (map Utf8.encode ss))]> m).
Proof.
  intros Hap. revert d. induction ss as [|s ss IH]; intros d; cbn [map write_chunks concat].
  - by rewrite app_nil_r.
  - rewrite run_bind. unfold write_bytes. case_decide as He.
    + unfold mret, io_ret. cbn [run continue_with]. rewrite IH. by rewrite He.
    + rewrite run_await, Hap. cbn [continue_with]. by rewrite IH, app_assoc.
Qed.

(** [fs.writeFile] of a string, or of an array of strings, once [open]
    succeeds: the file holds their UTF-8 bytes, whether or not it existed
    before. *)
Lemma run_write_file m q k v bytes :
  exec (OpenTrunc q) m = (inr (), <[k := NFile []]> m) -> kcomponents q = k -> Forall clean_seg k ->
  ((exists s, v = JStr s /\ Utf8.encode s = bytes) \/
   (exists ss, v = JArr (map JStr ss) /\ concat (map Utf8.encode ss) = bytes)) ->
  run (write_file q (Some v)) m = (inr (), <[k := NFile bytes]> m).
Proof.
  intros Ho Hq Hc Hv. pose proof Ho as Ho'. apply exec_open_ok in Ho' as (_ & _ & Hap); [|by rewrite Hq].
  rewrite Hq in Hap. unfold write_file.
  destruct Hv as [(s & -> & <-)|(ss & -> & <-)]; rewrite run_bind, run_await, Ho; cbn [continue_with].
  - unfold write_bytes. case_decide as He; [by rewrite He|]. by rewrite run_await, Hap.
  - by rewrite run_write_chunks.
Qed.

(** [mkdir -p] of the parent of a path under [/data] whose parents are
    directories or missing creates the missing ones. *)
Lemma exec_mkdirp_parent m p :
  fs_wf m -> safe_path p -> 0%Z ∉ p -> too_long (full_path p) = false ->
  Forall short_name (removelast (data_key p)) -> no_file_on m (parent_dirs p) ->
  exec (Mkdirp (dirname (full_path p))) m = (inr (), with_dirs m (parent_dirs p)).
Proof.
  intros [Hroot _] Hsafe Hnul Hlen Hsh Hpar.
  assert (Hnd : 0%Z ∉ dirname (full_path p)) by (eapply nul_free_dir; eauto).
  assert (Hld : too_long (dirname (full_path p)) = false) by (eapply too_long_dirname; eauto).
  kexec_tac. unfold mkdirp. rewrite Hld.
  rewrite dirname_full, kcomponents_parent, mkdirp_go_clean by
    (done || by apply Forall_removelast, data_key_clean).
  done.
Qed.

(** [POST /mcp/write] with a [content] that is a string or an array of
    strings, to a path under [/data] whose parents are directories or
    missing and which is not itself a directory: the file holds [bytes]. *)
Lemma write_run_bytes m p v bytes :
  fs_wf m -> safe_path p -> kernel_path p -> req_segs p <> [] -> has_trailing p = false ->
  no_file_on m (parent_dirs p) -> m !! data_key p <> Some NDir ->
  ((exists s, v = JStr s /\ Utf8.encode s = bytes) \/
   (exists ss, v = JArr (map JStr ss) /\ concat (map Utf8.encode ss) = bytes)) ->
  run (write_tail (full_path p) (Some v)) m =
    (inr (success_with "message" (JStr ‹"File written successfully"›)),
     <[data_key p := NFile bytes]> (with_dirs m (parent_dirs p))).
Proof.
  intros Hwf Hsafe Hkp Hne Ht Hpar Hk Hv. pose proof Hkp as (Hnul & Hsh & Hlen).
  unfold write_tail. rewrite run_bind, run_await, exec_mkdirp_parent by (done || by apply Forall_removelast).
  cbn [continue_with]. rewrite run_bind, (run_write_file _ _ (data_key p) v bytes); [done| |by apply kcomponents_full|by apply data_key_clean|done].
  apply exec_open_trunc.
  - by apply kcomponents_full.
  - by apply data_key_clean.
  - apply dirs_along_parents. apply Hwf.
  - by rewrite ktrailing_full.
  - rewrite lookup_with_dirs. case_decide as Hin; [by apply not_in_parents in Hin|done].
  - by apply nul_free_path.
  - done.
  - done.
Qed.

(** [POST /mcp/write] with a string [content]. *)
Lemma write_run m p c :
  fs_wf m -> safe_path p -> kernel_path p -> req_segs p <> [] -> has_trailing p = false ->
  no_file_on m (parent_dirs p) -> m !! data_key p <> Some NDir ->
  run (handle_write (JObj [(‹"path"›, JStr p); (‹"content"›, JStr c)])) m =
    (inr (success_with "message" (JStr ‹"File written successfully"›)),
     <[data_key p := NFile (Utf8.encode c)]> (with_dirs m (parent_dirs p))).
Proof.
  intros. rewrite handle_write_tail, run_catch_500, (write_run_bytes _ _ _ (Utf8.encode c)) by (done || left; by eexists).
  done.
Qed.

(** ** Reading a file *)

(** [POST /mcp/read] with a path under [/data] and without NUL: the
    answer is the outcome of [fs.readFile], and the state does not change. *)
Lemma handle_read_full m body p :
  get body ‹"path"› = Some (JStr p) -> p <> [] -> climbs 0 (split_slash p) = false -> 0%Z ∉ p ->
  run (handle_read body) m =
    (inr (match read_file m (full_path p) with
          | inl e => fail_json 500 (message e)
          | inr s => success_with "content" (JStr s)
          end), m).
Proof.
  intros Hpath Hp Hd Hn. unfold handle_read, catch_500. rewrite Hpath. cbn [truthy].
  rewrite (bool_decide_false (p = [])) by done. cbn [negb].
  rewrite join_data_within by done. change (abs_path _ _) with (full_path p).
  rewrite run_catch, run_bind, run_lift. cbn [continue_with].
  pose proof (nul_free_path p Hn). rewrite run_bind, run_await. kexec_tac.
  by destruct (read_file m (full_path p)).
Qed.

(** Reading a file returns its bytes decoded as UTF-8. *)
Lemma handle_read_file m body p d :
  get body ‹"path"› = Some (JStr p) -> safe_path p -> kernel_path p -> dirs_along m [] (data_key p) ->
  has_trailing p = false -> m !! data_key p = Some (NFile d) ->
  run (handle_read body) m = (inr (success_with "content" (JStr (Utf8.decode d))), m).
Proof.
  intros Hpath Hsafe (Hn & Hsh & Hl) Hd Ht Hk. pose proof Hsafe as (Hp & Hdd & _).
  rewrite (handle_read_full m body p) by done. unfold read_file. by rewrite lookup_full, lookup_at_full, Hk, Ht by kp_side.
Qed.

(** The state [POST /mcp/write] leaves, as [write_run] computes it. *)
Definition written (m : fsys) (p c : jstr) : fsys :=
  <[data_key p := NFile (Utf8.encode c)]> (with_dirs m (parent_dirs p)).

Lemma written_dirs m p c : m !! [] = Some NDir -> dirs_along (written m p c) [] (data_key p).
Proof. intros Hroot. by apply dirs_along_insert, dirs_along_parents. Qed.

Lemma written_parents m p c k : k ∈ parent_dirs p -> written m p c !! k = Some NDir.
Proof.
  intros Hk. unfold written. rewrite lookup_insert_ne.
  - rewrite lookup_with_dirs. by case_decide.
  - intros <-. by apply not_in_parents in Hk.
Qed.

(** A name appended to a safe path. *)
Lemma req_segs_snoc d x : clean_seg x -> req_segs (d ++ CH_SLASH :: x) = req_segs d ++ [x].
Proof.
  intros Hx. unfold req_segs, norm_rel.
  rewrite split_slash_snoc by (apply Hx). by rewrite foldl_norm_seg_snoc.
Qed.

Lemma data_key_snoc d x :
  clean_seg x -> data_key (d ++ CH_SLASH :: x) = data_key d ++ [Utf8.encode x].
Proof. intros Hx. unfold data_key. rewrite req_segs_snoc by done. cbn [map]. by rewrite map_app. Qed.

Lemma safe_snoc d x : safe_path d -> clean_seg x -> Utf8.units16 x -> safe_path (d ++ CH_SLASH :: x).
Proof.
  intros (Hd1 & Hd2 & Hd3) Hx Hu. pose proof Hx as (_ & _ & Hx3 & Hx4). split_and!.
  - by intros []%app_eq_nil.
  - rewrite split_slash_snoc by done. by apply climbs_snoc.
  - apply Forall_app. split; [done|]. constructor; [unfold CH_SLASH; lia|done].
Qed.

Lemma has_trailing_snoc d x : clean_seg x -> has_trailing (d ++ CH_SLASH :: x) = false.
Proof.
  intros (Hx1 & _ & _ & Hx4). unfold has_trailing. apply bool_decide_false.
  rewrite last_app_ne, last_cons_ne by done. intros E%last_Some_elem_of. done.
Qed.

Lemma encode_slash_len a b :
  length (Utf8.encode (a ++ CH_SLASH :: b)) = (length (Utf8.encode a) + S (length (Utf8.encode b)))%nat.
Proof. rewrite Utf8.encode_sep by (done || unfold CH_SLASH; lia). by rewrite length_app. Qed.

(** A path is no longer than the path of an entry below it. *)
Lemma too_long_snoc d x :
  clean_seg x -> too_long (full_path (d ++ CH_SLASH :: x)) = false -> too_long (full_path d) = false.
Proof.
  intros Hx. unfold too_long. rewrite !Nat.leb_gt. unfold full_path. rewrite req_segs_snoc by done.
  change (‹"data"› :: req_segs d ++ [x]) with ((‹"data"› :: req_segs d) ++ [x]).
  unfold abs_path. rewrite join_slash_snoc by done.
  rewrite !Utf8.encode_cons_ascii by (unfold CH_SLASH; lia). cbn [length].
  rewrite <- app_assoc, <- app_comm_cons, encode_slash_len.
  intros H. destruct (has_trailing (DATA_DIR ++ CH_SLASH :: d) && _);
    [rewrite encode_slash_len, Utf8.encode_nil|rewrite app_nil_r]; cbn [length]; lia.
Qed.

(** Node and the kernel accept the parent of an entry they accept. *)
Lemma kernel_path_snoc d x : clean_seg x -> kernel_path (d ++ CH_SLASH :: x) -> kernel_path d.
Proof.
  intros Hx (Hn & Hs & Hl). split_and!.
  - intros H. apply Hn, elem_of_app. by left.
  - rewrite data_key_snoc in Hs by done. by apply Forall_app in Hs as [? _].
  - by apply (too_long_snoc d x).
Qed.

(** ** Listing a directory *)

(** The entry [POST /mcp/list] reports for the child [x] of a directory. *)
Definition list_json (p : jstr) (xn : name * node) : jvalue :=
  JObj [(‹"name"›, JStr (Utf8.decode xn.1));
        (‹"type"›, JStr (if bool_decide (xn.2 = NDir) then ‹"directory"› else ‹"file"›));
        (‹"path"›, JStr (join2 p (Utf8.decode xn.1)))].

(** [POST /mcp/list] of a directory under [/data] returns one entry per
    child, and the state does not change. *)
Lemma list_run m body p :
  get body ‹"path"› = Some (JStr p) -> safe_path p -> kernel_path p -> dirs_along m [] (data_key p) ->
  m !! data_key p = Some NDir ->
  run (handle_list body) m =
    (inr (success_with "files" (JArr (map (list_json p) (children m (data_key p))))), m).
Proof.
  intros Hpath Hsafe (Hn & Hsh & Hl) Hd Hk. unfold handle_list, catch_500. rewrite Hpath. cbn [from_option id].
  rewrite join_full by done. rewrite run_catch, run_bind, run_lift. cbn [continue_with].
  pose proof (nul_free_path p Hn). rewrite run_bind, run_await. kexec_tac. unfold readdir. rewrite lookup_full, lookup_at_full, Hk by kp_side.
  cbn [continue_with]. rewrite run_bind, (run_mapM_pure _ (fun f =>
    JObj [(‹"name"›, JStr (dname f));
          (‹"type"›, JStr (if dis_dir f then ‹"directory"› else ‹"file"›));
          (‹"path"›, JStr (join2 p (dname f)))])).
  - cbn [continue_with run]. by rewrite map_map.
  - intros f _. unfold list_entry. by rewrite join_strings.
Qed.

(** ** Deleting *)

(** [POST /mcp/delete] of a directory under [/data] removes it and
    everything below it. *)
Lemma delete_dir_run m body p :
  get body ‹"path"› = Some (JStr p) -> safe_path p -> kernel_path p -> dirs_along m [] (data_key p) ->
  m !! data_key p = Some NDir ->
  run (handle_delete body) m =
    (inr (success_with "message" (JStr ‹"Deleted successfully"›)), remove_tree (data_key p) m).
Proof.
  intros Hpath Hsafe (Hn & Hsh & Hl) Hd Hk. pose proof Hsafe as (Hp & _ & _).
  pose proof (nul_free_path p Hn).
  unfold handle_delete, catch_500. rewrite Hpath. cbn [truthy].
  rewrite (bool_decide_false (p = [])) by done. cbn [negb].
  rewrite join_full by done. rewrite run_catch, run_bind, run_lift. cbn [continue_with].
  rewrite run_bind, run_await. kexec_tac. unfold stat. rewrite lookup_full, lookup_at_full, Hk by kp_side.
  cbn [continue_with]. rewrite bool_decide_true by done. cbn iota.
  unfold rmdir_recursive. rewrite !run_bind, run_await. kexec_tac.
  unfold stat. rewrite lookup_full, lookup_at_full, Hk by kp_side. cbn [continue_with].
  rewrite bool_decide_true by done. cbn iota.
  rewrite run_await. kexec_tac. unfold rimraf. rewrite lookup_at_full, Hk by kp_side.
  destruct (data_key p) eqn:E; [done|]. by rewrite <- E.
Qed.

(** The lookup of a path whose names reach a file along directories. *)
Lemma lookup_file_at m F k d :
  kcomponents F = k -> Forall clean_seg k -> dirs_along m [] k -> ktrailing F = false ->
  too_long F = false -> m !! k = Some (NFile d) -> lookup m F = inr (k, NFile d).
Proof.
  intros Hq Hc Hd Ht Hl Hk. unfold lookup, lookup_at. rewrite Hl, Hq, walk_clean by (done || by right; cbn [app]; rewrite Hk).
  cbn [app]. by rewrite Hk, Ht.
Qed.

(** [POST /mcp/delete] of a [path] that [path.join] takes to a file
    unlinks it, wherever it is. *)
Lemma delete_file_at m p F k d :
  p <> [] -> join [Some (JStr DATA_DIR); Some (JStr p)] = inr F ->
  kcomponents F = k -> Forall clean_seg k -> dirs_along m [] k -> ktrailing F = false ->
  0%Z ∉ F -> too_long F = false -> m !! k = Some (NFile d) ->
  run (handle_delete (JObj [(‹"path"›, JStr p)])) m =
    (inr (success_with "message" (JStr ‹"Deleted successfully"›)), delete k m).
Proof.
  intros Hp Hj Hq Hc Hd Ht Hn Hl Hk.
  unfold handle_delete, catch_500. change (get _ ‹"path"›) with (Some (JStr p)). cbn [truthy].
  rewrite (bool_decide_false (p = [])) by done. cbn [negb].
  rewrite Hj. rewrite run_catch, run_bind, run_lift. cbn [continue_with].
  rewrite run_bind, run_await. kexec_tac. unfold stat. rewrite (lookup_file_at _ _ k d) by done.
  cbn [continue_with]. rewrite bool_decide_false by done. cbn iota.
  rewrite run_bind, run_await. kexec_tac.
  unfold unlink. by rewrite (lookup_file_at _ _ k d).
Qed.

(** [path.join('/data', '../' + x)] is ['/' + x]: a [..] segment leaves
    [/data]. *)
Lemma join_data_dotdot x :
  clean_seg x -> join [Some (JStr DATA_DIR); Some (JStr (DOTDOT ++ CH_SLASH :: x))] = inr (abs_path [x] false).
Proof.
  intros Hx. pose proof Hx as (_ & _ & _ & Hs). rewrite join_data by done.
  rewrite split_slash_app, split_slash_no_slash by (done || decide_it). cbn [foldl].
  rewrite norm_seg_dotdot by decide_it. rewrite norm_seg_kept by (done || apply Hx || by destruct Hx as (? & ? & ? & ?)).
  cbn [rev app]. f_equal. f_equal.
  rewrite app_comm_cons, app_assoc. by apply has_trailing_snoc.
Qed.

(** ** Confinement *)

(** A kernel path at or below [/data]. *)
Definition under_data (k : kpath) : Prop := [Utf8.encode ‹"data"›] `prefix_of` k.

(** [m'] agrees with [m] everywhere outside [/data]. *)
Definition same_outside (m m' : fsys) : Prop := forall k, ~ under_data k -> m' !! k = m !! k.

#[export] Instance same_outside_preorder : PreOrder same_outside.
Proof. split; [by intros m k|]. intros m1 m2 m3 H12 H23 k Hk. by rewrite H23, H12. Qed.

(** A path the kernel reaches by clean names, from the root into [/data]
    or to the root itself. *)
Definition confined_path (q : jstr) : Prop :=
  Forall clean_seg (kcomponents q) /\ (kcomponents q = [] \/ under_data (kcomponents q)).

(** The calls that change the state act on confined paths. *)
Definition confined_call T (c : fs_call T) : Prop :=
  match c with
  | Readdir _ | ReadFile _ | Stat _ => True
  | Mkdirp q | OpenTrunc q | AppendFile q _ | Unlink q | Rmdir q | Rimraf q => confined_path q
  end.

Lemma walk_confined m q r : confined_path q -> walk m [] (kcomponents q) = inr r -> r = kcomponents q.
Proof. intros [Hc _] Hr. by apply (walk_clean_inr m [] _ r) in Hc. Qed.

Lemma resolve_confined m q r : confined_path q -> resolve m q = inr r -> r = kcomponents q.
Proof. unfold resolve. destruct (too_long q); [done|]. apply walk_confined. Qed.

Lemma lookup_at_confined m q r n :
  confined_path q -> lookup_at m q = inr (r, n) -> r = kcomponents q /\ m !! r = Some n.
Proof.
  intros Hq (Hr & Hn)%lookup_at_Some. apply walk_confined in Hr as ->; done.
Qed.

Lemma lookup_confined m q r n :
  confined_path q -> lookup m q = inr (r, n) -> r = kcomponents q /\ m !! r = Some n.
Proof.
  unfold lookup. destruct (too_long q); [done|]. apply lookup_at_confined.
Qed.

(** Below the root, a confined path is under [/data]. *)
Lemma confined_under m q :
  fs_wf m -> confined_path q -> m !! kcomponents q <> Some NDir -> under_data (kcomponents q).
Proof. intros [Hroot _] [_ [Hnil|Hu]] Hk; [|done]. rewrite Hnil in Hk. congruence. Qed.

Lemma under_data_prefix k k' : under_data k -> k `prefix_of` k' -> under_data k'.
Proof. unfold under_data. apply transitivity. Qed.

Lemma same_outside_insert m k n : under_data k -> same_outside m (<[k := n]> m).
Proof. intros Hk k' Hk'. rewrite lookup_insert_ne; [done|]. by intros ->. Qed.

Lemma same_outside_delete m k : under_data k -> same_outside m (delete k m).
Proof. intros Hk k' Hk'. rewrite lookup_delete_ne; [done|]. by intros ->. Qed.

Lemma same_outside_remove_tree m k : under_data k -> same_outside m (remove_tree k m).
Proof.
  intros Hk k' Hk'. rewrite lookup_remove_tree. case_decide as Hp; [|done].
  exfalso. by eapply Hk', under_data_prefix.
Qed.

Lemma same_outside_mkdirp m q : confined_path q -> same_outside m (mkdirp m q).1.
Proof.
  intros [Hc Hu] k Hk. unfold mkdirp. destruct (too_long q); [done|].
  destruct (mkdirp_go m [] (kcomponents q)) as [m' e] eqn:E. cbn [fst].
  change m' with (m', e).1. rewrite <- E. apply mkdirp_go_frame; [done|].
  intros (i & Hi & ->)%elem_of_prefixes_from.
  destruct Hu as [Hnil|Hu]; [rewrite Hnil in Hi; simpl in Hi; lia|].
  apply Hk. destruct Hu as [l Hl]. rewrite Hl. destruct i as [|i]; [lia|]. by exists (take i l).
Qed.

Local Ltac conf_key Hq E :=
  let H := fresh in
  apply (lookup_confined _ _ _ _ Hq) in E as [-> H].
Local Ltac conf_key_at Hq E :=
  let H := fresh in
  apply (lookup_at_confined _ _ _ _ Hq) in E as [-> H].

(** Every confined call leaves the state outside [/data] unchanged. *)
Lemma exec_confined T (c : fs_call T) m :
  confined_call T c -> fs_wf m -> same_outside m (exec c m).2.
Proof.
  intros Hq Hwf. unfold exec. destruct (nul_path c); [reflexivity|].
  destruct c as [q|q|q|q|q b|q|q|q|q]; cbn [kexec confined_call] in *; try reflexivity.
  - pose proof (same_outside_mkdirp m q Hq). by destruct (mkdirp m q).
  - unfold update, open_trunc. destruct (resolve m q) eqn:E; [done|].
    apply (resolve_confined _ _ _ Hq) in E as ->.
    destruct (m !! kcomponents q) as [[]|] eqn:Hk, (ktrailing q); try done;
      apply same_outside_insert, (confined_under m); rewrite ?Hk; done.
  - unfold update, append_file. destruct (lookup m q) as [|[r [d|]]] eqn:E; try done.
    conf_key Hq E. apply same_outside_insert, (confined_under m); congruence.
  - unfold update, unlink. destruct (lookup m q) as [|[r [d|]]] eqn:E; try done.
    conf_key Hq E. apply same_outside_delete, (confined_under m); congruence.
  - unfold update, rmdir. destruct (lookup m q) as [|[[|x r] [d|]]] eqn:E; try done.
    destruct (children m (x :: r)); [|done].
    apply (lookup_confined _ _ _ _ Hq) in E as [Er _]. apply same_outside_delete.
    destruct Hq as [_ [Hn|Hu]]; [congruence|by rewrite Er].
  - unfold update, rimraf. destruct (lookup_at m q) as [[]|[[|x r] [d|]]] eqn:E; try done.
    + conf_key_at Hq E. apply same_outside_delete, (confined_under m); congruence.
    + conf_key_at Hq E. apply same_outside_delete, (confined_under m); congruence.
    + apply (lookup_at_confined _ _ _ _ Hq) in E as [Er _]. apply same_outside_remove_tree.
      destruct Hq as [_ [Hn|Hu]]; [congruence|by rewrite Er].
Qed.

(** ** Which calls each handler makes *)

Lemma join_not_string v :
  (forall p, v <> Some (JStr p)) -> exists e, join [Some (JStr DATA_DIR); v] = inl e.
Proof.
  intros Hv. destruct v as [v|]; [|unfold join; cbn [join_args]; rewrite decide_False by done; by eexists].
  eexists. apply join_value. intros p ->. by apply (Hv p).
Qed.

Lemma data_key_under p : under_data (data_key p).
Proof. by exists (map Utf8.encode (req_segs p)). Qed.

Lemma full_path_confined p : safe_path p -> confined_path (full_path p).
Proof.
  intros Hs. split; rewrite kcomponents_full by done;
    [by apply data_key_clean|right; apply data_key_under].
Qed.

Lemma parent_confined p : safe_path p -> confined_path (dirname (full_path p)).
Proof.
  intros Hs. unfold confined_path. rewrite dirname_full, kcomponents_parent by done.
  split; [by apply Forall_removelast, data_key_clean|].
  unfold data_key. cbn [map]. destruct (map Utf8.encode (req_segs p)) as [|y ys] eqn:E;
    [by left|right]. by exists (removelast (y :: ys)).
Qed.

Section Calls.
Context (ok : forall T, fs_call T -> Prop).

Lemma write_file_calls q v :
  ok _ (OpenTrunc q) -> (forall bs, ok _ (AppendFile q bs)) -> only_calls ok (write_file q v).
Proof.
  intros Ho Ha. assert (Hb : forall bs, only_calls ok (write_bytes q bs)).
  { intros bs. unfold write_bytes. case_decide; [constructor|by apply only_calls_await]. }
  unfold write_file. destruct v as [[| | | s | l |]|]; cbn iota beta;
    try apply oc_throw; apply only_calls_bind; auto with gw.
  intros _. induction l as [|v l IH]; [constructor|]. cbn [write_chunks].
  destruct v as [| | |s|l'|fs]; try (destruct (buffer_from _); [apply oc_throw|]);
    apply only_calls_bind; auto with gw.
Qed.

Lemma rmdir_recursive_calls q :
  ok _ (Stat q) -> ok _ (Rimraf q) -> ok _ (Rmdir q) -> only_calls ok (rmdir_recursive q).
Proof. intros. unfold rmdir_recursive. apply only_calls_bind; [auto with gw|]. intros []; auto with gw. Qed.

Lemma list_read_calls body :
  (forall q, ok _ (Readdir q)) -> (forall q, ok _ (ReadFile q)) ->
  only_calls ok (handle_list body) /\ only_calls ok (handle_read body).
Proof.
  intros Hl Hr. split; unfold handle_list, handle_read, catch_500;
    apply only_calls_catch; try (intros; constructor).
  - apply only_calls_bind; [auto with gw|]. intros fp. apply only_calls_bind; [auto with gw|].
    intros fs. apply only_calls_bind; [|constructor]. apply only_calls_mapM. intros f.
    unfold list_entry. apply only_calls_bind; [auto with gw|constructor].
  - destruct (negb _); [constructor|]. apply only_calls_bind; [auto with gw|]. intros fp.
    apply only_calls_bind; [auto with gw|constructor].
Qed.

(** Write and delete act only on what [path.join] returns for a non-empty
    string [path], and on its parent: any other [path] stops them before
    a call. *)


Lemma write_delete_calls body :
  (forall p fp, get body ‹"path"› = Some (JStr p) -> p <> [] ->
     join [Some (JStr DATA_DIR); Some (JStr p)] = inr fp ->
     ok _ (Mkdirp (dirname fp)) /\ ok _ (OpenTrunc fp) /\ (forall bs, ok _ (AppendFile fp bs)) /\
     ok _ (Stat fp) /\ ok _ (Rimraf fp) /\ ok _ (Rmdir fp) /\ ok _ (Unlink fp)) ->
  only_calls ok (handle_write body) /\ only_calls ok (handle_delete body).
Proof.
  intros Hok.
  assert (Hj : forall fp, truthy (get body ‹"path"›) = true ->
            join [Some (JStr DATA_DIR); get body ‹"path"›] = inr fp ->
            exists p, get body ‹"path"› = Some (JStr p) /\ p <> [] /\
                      join [Some (JStr DATA_DIR); Some (JStr p)] = inr fp).
  { intros fp Ht Hfp. destruct (get body ‹"path"›) as [[| | | p | |]|] eqn:Hv;
      try (destruct (join_not_string (get body ‹"path"›)) as [e He];
           [intros p'; congruence|rewrite Hv in He; congruence]).
    exists p. cbn [truthy] in Ht. split_and!; [done| |done]. intros ->. done. }
  split; unfold handle_write, handle_delete, catch_500;
    (apply only_calls_catch; [|intros; constructor]).
  - destruct (negb (truthy (get body ‹"path"›)) || _) eqn:Hg; [constructor|].
    apply orb_false_iff in Hg as [Hg _]. apply negb_false_iff in Hg.
    apply only_calls_bind_lift. intros fp Hfp.
    destruct (Hj fp Hg Hfp) as (p & Hp & Hne & Hjp).
    destruct (Hok p fp Hp Hne Hjp) as (H1 & H2 & H3 & _).
    apply only_calls_bind; [auto with gw|]. intros _.
    apply only_calls_bind; [by apply write_file_calls|constructor].
  - destruct (negb (truthy (get body ‹"path"›))) eqn:Hg; [constructor|].
    apply negb_false_iff in Hg.
    apply only_calls_bind_lift. intros fp Hfp.
    destruct (Hj fp Hg Hfp) as (p & Hp & Hne & Hjp).
    destruct (Hok p fp Hp Hne Hjp) as (_ & _ & _ & H4 & H5 & H6 & H7).
    apply only_calls_bind; [auto with gw|]. intros []; (apply only_calls_bind; [|constructor]);
      [by apply rmdir_recursive_calls|auto with gw].
Qed.

End Calls.

(** ** The server *)

(** The route table sends a request to write or delete only for a [POST]
    to their paths. *)
Definition mutating (r : request) : bool :=
  bool_decide (rmethod r = POST) &&
  (route_matches ‹"/mcp/write"› (rpath r) || route_matches ‹"/mcp/delete"› (rpath r)).

Section Dispatch.
Context (ok : forall T, fs_call T -> Prop) (up : Q) (r : request).

Lemma dispatch_calls :
  (forall b, parse_body (rbody r) = Some b ->
     only_calls ok (handle_list b) /\ only_calls ok (handle_read b) /\
     (mutating r = true -> only_calls ok (handle_write b) /\ only_calls ok (handle_delete b))) ->
  only_calls ok (dispatch up r).
Proof.
  intros Hb. unfold dispatch. case_decide; [constructor|].
  destruct (parse_body (rbody r)) as [b|] eqn:Eb; [|constructor].
  destruct (Hb b eq_refl) as (Hl & Hr & Hw). unfold route, mutating in *.
  repeat match goal with
  | |- only_calls _ (if ?c then _ else _) => destruct c eqn:?
  end; try constructor; try done;
  repeat match goal with H : (_ && _) = true |- _ => apply andb_true_iff in H as [? ?] end;
  apply Hw; repeat (apply andb_true_iff; split); try done; apply orb_true_iff; auto.
Qed.

Lemma route_returns (P : response -> Prop) b :
  P (not_found r) ->
  returns P (handle_health up) /\ returns P handle_info /\ returns P (handle_list b) /\
  returns P (handle_read b) /\ returns P (handle_write b) /\ returns P (handle_delete b) ->
  returns P (route up r b).
Proof.
  intros H404 (H1 & H2 & H3 & H4 & H5 & H6). unfold route.
  repeat match goal with
  | |- returns _ (if ?c then _ else _) => destruct c
  end; try done. by constructor.
Qed.

Lemma dispatch_returns (P : response -> Prop) :
  P {| status := 204; body := BEmpty |} -> P (error_response 400) -> P (not_found r) ->
  (forall b, parse_body (rbody r) = Some b ->
     returns P (handle_health up) /\ returns P handle_info /\ returns P (handle_list b) /\
     returns P (handle_read b) /\ returns P (handle_write b) /\ returns P (handle_delete b)) ->
  returns P (dispatch up r).
Proof.
  intros H204 H400 H404 Hb. unfold dispatch. case_decide; [by constructor|].
  destruct (parse_body (rbody r)) as [b|] eqn:Eb; [|by constructor].
  by apply route_returns, Hb.
Qed.

End Dispatch.

(** ** Properties of every request *)

(** A call that leaves the state as it is. *)
Definition read_call T (c : fs_call T) : Prop := forall m, (exec c m).2 = m.

Lemma read_call_readdir q : read_call _ (Readdir q).
Proof. intros m. unfold exec. by destruct (nul_path _). Qed.

Lemma read_call_read_file q : read_call _ (ReadFile q).
Proof. intros m. unfold exec. by destruct (nul_path _). Qed.

(** Every [path] field that is a non-empty string is a safe path. *)
Definition paths_safe (r : request) : Prop :=
  forall b p, parse_body (rbody r) = Some b -> get b ‹"path"› = Some (JStr p) -> p <> [] ->
  safe_path p.

Definition paths_safe_b (r : request) : Prop :=
  match parse_body (rbody r) with
  | Some b => match get b ‹"path"› with Some (JStr p) => p <> [] -> safe_path p | _ => True end
  | None => True
  end.

Lemma paths_safe_b_spec r : paths_safe_b r <-> paths_safe r.
Proof.
  unfold paths_safe_b, paths_safe. split.
  - intros H b p Eb. rewrite Eb in H. intros Hp. by rewrite Hp in H.
  - intros H. destruct (parse_body (rbody r)) as [b|] eqn:Eb; [|done].
    destruct (get b ‹"path"›) as [[]|] eqn:Ep; try done. intros Hne. by eapply H.
Qed.

#[export] Instance paths_safe_b_dec r : Decision (paths_safe_b r).
Proof. unfold paths_safe_b. repeat case_match; apply _. Defined.

#[export] Instance paths_safe_dec r : Decision (paths_safe r).
Proof.
  destruct (decide (paths_safe_b r)) as [H|H];
    [left; by apply paths_safe_b_spec|right; by rewrite <- paths_safe_b_spec].
Defined.

(** The codes the routes answer with. *)
Definition route_codes : list Z := [200%Z; 400%Z; 404%Z; 500%Z].



Lemma dispatch_confined_calls r up :
  paths_safe r -> only_calls confined_call (dispatch up r).
Proof.
  intros Hs. apply dispatch_calls. intros b Eb.
  destruct (list_read_calls confined_call b) as [Hl Hr]; [done|done|].
  split_and!; [done|done|]. intros _. apply write_delete_calls.
  intros p fp Hp Hne Hj. pose proof (Hs b p Eb Hp Hne) as Hsafe.
  rewrite join_full in Hj by done. injection Hj as <-.
  pose proof (full_path_confined p Hsafe). pose proof (parent_confined p Hsafe).
  cbn [confined_call]. naive_solver.
Qed.



(** Running the handlers of [rs] one after the other keeps a relation
    that each of them keeps. *)
Lemma serve_rel (R : relation fsys) `{!PreOrder R} (ok : Q * request -> Prop) m rs :
  (forall ur m, ok ur -> fs_wf m -> R m (run (dispatch ur.1 ur.2) m).2) ->
  Forall ok rs -> fs_wf m -> R m (serve m rs).2.
Proof.
  intros Hr Hrs. revert m. induction Hrs as [|[up r] rs Hok _ IH]; intros m Hm; [done|].
  rewrite serve_cons_state. etrans; [by apply (Hr (up, r))|].
  apply IH. by apply dispatch_wf.
Qed.



(** Prove [returns P] of a handler, leaving [P] of each response it builds. *)
Local Ltac returns_tac :=
  repeat first
  [ progress unfold catch_500
  | progress intros
  | apply returns_catch
  | apply returns_bind
  | apply rt_ret
  | match goal with |- returns _ (if ?c then _ else _) => destruct c end ].


(** ** The claims about every request *)

(** C1. Confinement: a sequence of requests whose [path] fields are
    non-empty strings whose [..] segments never go above [/data] changes
    nothing outside [/data], from any well-formed state. *)
Theorem serve_confined m rs :
  fs_wf m -> Forall (fun ur => paths_safe ur.2) rs -> same_outside m (serve m rs).2.
Proof.
  intros Hm Hrs. apply (serve_rel same_outside (fun ur => paths_safe ur.2)); [|done|done].
  intros [up r] m' Hs Hm'. simpl in Hs |- *.
  apply (run_only_calls confined_call fs_wf same_outside).
  - intros T c m''. apply exec_wf.
  - intros T c m'' Hc Hw. by apply exec_confined.
  - by apply dispatch_confined_calls.
  - done.
Qed.

Lemma serve_confined_witness :
  let rs := scenario ++ [(0%Q, post "/mcp/write" [("path", JStr ‹"x/../c.txt"›); ("content", JStr ‹"c"›)])] in
  fs_wf m_data /\ Forall (fun ur => paths_safe ur.2) rs /\ same_outside m_data (serve m_data rs).2.
Proof. split; [decide_it|]. split; [decide_it|]. apply serve_confined; decide_it. Defined.



(** C10. Only a [POST] to [/mcp/write] or [/mcp/delete] changes the
    state; every other request leaves it as it is. *)
Theorem dispatch_read_only up r m : mutating r = false -> (run (dispatch up r) m).2 = m.
Proof.
  intros Hmut. symmetry. eapply (run_only_calls read_call (fun _ => True) eq); [done| |idtac|done].
  - intros T c m' Hc _. by rewrite Hc.
  - apply dispatch_calls. intros b _.
    destruct (list_read_calls read_call b) as [Hl Hr];
      [apply read_call_readdir|apply read_call_read_file|].
    split_and!; [done|done|congruence].
Qed.

Lemma dispatch_read_only_witness :
  mutating (post "/mcp/read" [("path", JStr ‹"/a"›)]) = false /\
  (run (dispatch 0 (post "/mcp/read" [("path", JStr ‹"/a"›)])) m_data).2 = m_data.
Proof. split; [reflexivity|]. apply dispatch_read_only. reflexivity. Defined.



(** The codes the routes answer with. *)
Lemma route_status up r b m resp m' :
  run (route up r b) m = (inr resp, m') -> status resp ∈ route_codes.
Proof.
  intros Hr. eapply (run_returns (fun x => status x ∈ route_codes)); [|exact Hr].
  apply route_returns; [decide_it|].
  unfold handle_health, handle_info, handle_list, handle_read, handle_write, handle_delete.
  split_and!; returns_tac; decide_it.
Qed.

(** ** The claims about each operation *)

(** C2. [POST /mcp/write] of a string to a path under [/data] whose
    parents are directories or missing and which is not a directory
    creates the missing parents and stores the UTF-8 bytes of the
    string, replacing any previous content. *)
Theorem handle_write_spec m p c :
  fs_wf m -> safe_path p -> kernel_path p -> req_segs p <> [] -> has_trailing p = false ->
  no_file_on m (parent_dirs p) -> m !! data_key p <> Some NDir ->
  run (handle_write (JObj [(‹"path"›, JStr p); (‹"content"›, JStr c)])) m =
    (inr (success_with "message" (JStr ‹"File written successfully"›)),
     <[data_key p := NFile (Utf8.encode c)]> (with_dirs m (parent_dirs p))).
Proof. intros. by apply write_run. Qed.

Lemma handle_write_spec_witness :
  fs_wf m_data /\ safe_path ‹"/a/b.txt"› /\ kernel_path ‹"/a/b.txt"› /\
  no_file_on m_data (parent_dirs ‹"/a/b.txt"›) /\
  run (handle_write (JObj [(‹"path"›, JStr ‹"/a/b.txt"›); (‹"content"›, JStr ‹"hi"›)])) m_data =
    (inr (success_with "message" (JStr ‹"File written successfully"›)),
     <[data_key ‹"/a/b.txt"› := NFile (Utf8.encode ‹"hi"›)]> (with_dirs m_data (parent_dirs ‹"/a/b.txt"›))).
Proof.
  split_and!; try decide_it.
  apply handle_write_spec; try decide_it; reflexivity.
Defined.

(** C3. Round trip: [POST /mcp/write] of a well-formed string [c] and
    then [POST /mcp/read] of the same path return [c]. *)
Theorem write_read_roundtrip m p c :
  fs_wf m -> safe_path p -> kernel_path p -> req_segs p <> [] -> has_trailing p = false ->
  no_file_on m (parent_dirs p) ->
  m !! data_key p <> Some NDir -> Utf8.well_formed c = true ->
  let m' := (run (handle_write (JObj [(‹"path"›, JStr p); (‹"content"›, JStr c)])) m).2 in
  run (handle_read (JObj [(‹"path"›, JStr p)])) m' = (inr (success_with "content" (JStr c)), m').
Proof.
  intros Hwf Hsafe Hkp Hne Ht Hpar Hk Hc m'. subst m'.
  rewrite (write_run m p c) by done. cbn [snd].
  rewrite (handle_read_file _ _ p (Utf8.encode c)), Utf8.decode_encode by
    (done || (apply dirs_along_insert, dirs_along_parents; apply Hwf) || by rewrite lookup_insert_eq).
  done.
Qed.

Lemma write_read_roundtrip_witness :
  Utf8.well_formed ‹"hi"› = true /\
  let m' := (run (handle_write (JObj [(‹"path"›, JStr ‹"/a/b.txt"›); (‹"content"›, JStr ‹"hi"›)])) m_data).2 in
  run (handle_read (JObj [(‹"path"›, JStr ‹"/a/b.txt"›)])) m' = (inr (success_with "content" (JStr ‹"hi"›)), m').
Proof. split; [reflexivity|]. apply write_read_roundtrip; try decide_it; reflexivity. Defined.


(** C11. Idempotence: writing the same content to the same path a second
    time answers as the first time and leaves the same state, whether
    the first write succeeded or failed. *)
Theorem write_idempotent m p c :
  safe_path p ->
  let w := run (handle_write (JObj [(‹"path"›, JStr p); (‹"content"›, JStr c)])) in
  w (w m).2 = w m.
Proof.
  intros Hsafe w. subst w. rewrite !handle_write_tail by done.
  apply catch_500_idem, write_tail_idem; [rewrite kcomponents_full by done; by apply data_key_clean|].
  by rewrite dirname_full, kcomponents_parent, kcomponents_full.
Qed.

Lemma write_idempotent_witness :
  safe_path ‹"/x/y.txt"› /\
  let w := run (handle_write (JObj [(‹"path"›, JStr ‹"/x/y.txt"›); (‹"content"›, JStr ‹"hi"›)])) in
  w (w m_data).2 = w m_data.
Proof. split; [decide_it|]. apply write_idempotent. decide_it. Defined.

(** C12. After writing the file [x] in the directory [d], listing [d]
    reports [x] as a file, with its name and its joined path. *)
Theorem list_after_write m d x c :
  fs_wf m -> safe_path d -> clean_seg x -> Utf8.units16 x -> Utf8.well_formed x = true ->
  kernel_path (d ++ CH_SLASH :: x) ->
  no_file_on m (parent_dirs (d ++ CH_SLASH :: x)) ->
  m !! data_key (d ++ CH_SLASH :: x) <> Some NDir ->
  let m' := (run (handle_write (JObj [(‹"path"›, JStr (d ++ CH_SLASH :: x)); (‹"content"›, JStr c)])) m).2 in
  exists es, run (handle_list (JObj [(‹"path"›, JStr d)])) m' = (inr (success_with "files" (JArr es)), m') /\
    JObj [(‹"name"›, JStr x); (‹"type"›, JStr ‹"file"›); (‹"path"›, JStr (join2 d x))] ∈ es.
Proof.
  intros Hwf Hd Hx Hu Hw Hkp Hpar Hk m'. subst m'.
  pose proof (kernel_path_snoc d x Hx Hkp) as Hkd.
  rewrite (write_run m (d ++ CH_SLASH :: x) c); cbn [snd];
    try (done || by apply safe_snoc || by apply has_trailing_snoc
         || by rewrite req_segs_snoc by done; apply app_single_neq_nil).
  fold (written m (d ++ CH_SLASH :: x) c).
  pose proof (written_dirs m (d ++ CH_SLASH :: x) c (proj1 Hwf)) as Hdirs.
  rewrite data_key_snoc in Hdirs by done. unfold dirs_along in Hdirs. rewrite length_app in Hdirs; cbn [length] in Hdirs.
  assert (Hd' : dirs_along (written m (d ++ CH_SLASH :: x) c) [] (data_key d)).
  { intros i Hi. rewrite <- (take_app_le _ [Utf8.encode x]) by lia. apply Hdirs. lia. }
  assert (Hdir : written m (d ++ CH_SLASH :: x) c !! data_key d = Some NDir).
  { pose proof (Hdirs (length (data_key d)) ltac:(lia)) as H. by rewrite take_app_length in H. }
  rewrite (list_run _ _ d) by done. eexists. split; [reflexivity|].
  apply list_elem_of_fmap. exists (Utf8.encode x, NFile (Utf8.encode c)). split.
  - unfold list_json. cbn [fst snd]. by rewrite Utf8.decode_encode.
  - apply elem_of_children. unfold written. rewrite <- data_key_snoc by done.
    by rewrite lookup_insert_eq.
Qed.

Lemma list_after_write_witness :
  clean_seg ‹"b.txt"› /\
  let m' := (run (handle_write (JObj [(‹"path"›, JStr (‹"/a"› ++ CH_SLASH :: ‹"b.txt"›));
                                      (‹"content"›, JStr ‹"hi"›)])) m_data).2 in
  exists es, run (handle_list (JObj [(‹"path"›, JStr ‹"/a"›)])) m' = (inr (success_with "files" (JArr es)), m') /\
    JObj [(‹"name"›, JStr ‹"b.txt"›); (‹"type"›, JStr ‹"file"›); (‹"path"›, JStr (join2 ‹"/a"› ‹"b.txt"›))] ∈ es.
Proof. split; [decide_it|]. apply list_after_write; try decide_it; reflexivity. Defined.

(** C13. [POST /mcp/delete] of a directory under [/data] succeeds and
    removes it with everything below it; nothing else changes. *)
Theorem delete_removes_subtree m body p :
  get body ‹"path"› = Some (JStr p) -> safe_path p -> kernel_path p -> dirs_along m [] (data_key p) ->
  m !! data_key p = Some NDir ->
  exists m', run (handle_delete body) m = (inr (success_with "message" (JStr ‹"Deleted successfully"›)), m') /\
    forall k, m' !! k = if decide (data_key p `prefix_of` k) then None else m !! k.
Proof.
  intros. eexists. split; [by apply delete_dir_run|]. intros k. apply lookup_remove_tree.
Qed.

Lemma delete_removes_subtree_witness :
  written m_data ‹"/a/b.txt"› ‹"hi"› !! data_key ‹"/a"› = Some NDir /\
  exists m', run (handle_delete (JObj [(‹"path"›, JStr ‹"/a"›)])) (written m_data ‹"/a/b.txt"› ‹"hi"›) =
    (inr (success_with "message" (JStr ‹"Deleted successfully"›)), m') /\
    forall k, m' !! k = if decide (data_key ‹"/a"› `prefix_of` k) then None
                        else written m_data ‹"/a/b.txt"› ‹"hi"› !! k.
Proof. split; [vm_compute; reflexivity|]. apply delete_removes_subtree; try decide_it; vm_compute; reflexivity. Defined.

(** C15. [POST /mcp/read] of a missing file under an existing directory
    answers 500 with Node's [ENOENT] message, which is not empty, and
    changes nothing. *)
Theorem read_missing m body p :
  get body ‹"path"› = Some (JStr p) -> safe_path p -> kernel_path p -> dirs_along m [] (data_key p) ->
  m !! data_key p = None ->
  run (handle_read body) m =
    (inr (fail_json 500 (‹"ENOENT: no such file or directory, open '"› ++ full_path p ++ ‹"'"›)), m) /\
  ‹"ENOENT: no such file or directory, open '"› ++ full_path p ++ ‹"'"› <> [].
Proof.
  intros Hpath Hsafe (Hn & Hsh & Hl) Hd Hk. pose proof Hsafe as (Hp & Hdd & _). split; [|done].
  rewrite (handle_read_full m body p) by done. unfold read_file.
  by rewrite lookup_full, lookup_at_full, Hk by kp_side.
Qed.

Lemma read_missing_witness :
  m_data !! data_key ‹"/nope.txt"› = None /\
  run (handle_read (JObj [(‹"path"›, JStr ‹"/nope.txt"›)])) m_data =
    (inr (fail_json 500 (‹"ENOENT: no such file or directory, open '"› ++ full_path ‹"/nope.txt"› ++ ‹"'"›)), m_data) /\
  ‹"ENOENT: no such file or directory, open '"› ++ full_path ‹"/nope.txt"› ++ ‹"'"› <> [].
Proof. split; [vm_compute; reflexivity|]. apply read_missing; try decide_it; vm_compute; reflexivity. Defined.



(** C20. [POST /mcp/write] with a [content] that is present but neither
    a string nor an array ([null], a number, a boolean, an object) passes
    the 400 guard, which tests only [content === undefined]; [fs.mkdir]
    then creates the missing parents, and [fs.writeFile] throws
    [ERR_INVALID_ARG_TYPE], answered with 500: the parents stay. *)
Theorem write_bad_content m p v :
  fs_wf m -> safe_path p -> kernel_path p -> no_file_on m (parent_dirs p) ->
  (forall s, v <> JStr s) -> (forall l, v <> JArr l) ->
  run (handle_write (JObj [(‹"path"›, JStr p); (‹"content"›, v)])) m =
    (inr (fail_json 500 (message (invalid_arg_type "data"
            "of type string or an instance of Buffer, TypedArray, or DataView" (Some v)))),
     with_dirs m (parent_dirs p)).
Proof.
  intros Hwf Hsafe (Hn & Hsh & Hl) Hpar Hs Ha. rewrite handle_write_tail, run_catch_500 by done.
  unfold write_tail. rewrite run_bind, run_await, exec_mkdirp_parent by (done || by apply Forall_removelast).
  cbn [continue_with]. rewrite run_bind. unfold write_file.
  destruct v as [| | |s|l|o]; try done; [by destruct (Hs s)|by destruct (Ha l)].
Qed.

Lemma write_bad_content_witness :
  fs_wf m_data /\ safe_path ‹"/n/x.txt"› /\ kernel_path ‹"/n/x.txt"› /\
  no_file_on m_data (parent_dirs ‹"/n/x.txt"›) /\
  run (handle_write (JObj [(‹"path"›, JStr ‹"/n/x.txt"›); (‹"content"›, JNull)])) m_data =
    (inr (fail_json 500 (message (invalid_arg_type "data"
            "of type string or an instance of Buffer, TypedArray, or DataView" (Some JNull)))),
     with_dirs m_data (parent_dirs ‹"/n/x.txt"›)).
Proof.
  split_and!; try decide_it.
  apply write_bad_content; try decide_it; intros ? ?; discriminate.
Defined.

(** C21. [POST /mcp/write] with an array of strings as [content]:
    [fs.writeFile] takes it as an iterable and writes the UTF-8 bytes of
    each string in turn, so the file holds their concatenation. *)
Theorem write_array_content m p ss :
  fs_wf m -> safe_path p -> kernel_path p -> req_segs p <> [] -> has_trailing p = false ->
  no_file_on m (parent_dirs p) -> m !! data_key p <> Some NDir ->
  run (handle_write (JObj [(‹"path"›, JStr p); (‹"content"›, JArr (map JStr ss))])) m =
    (inr (success_with "message" (JStr ‹"File written successfully"›)),
     <[data_key p := NFile (concat (map Utf8.encode ss))]> (with_dirs m (parent_dirs p))).
Proof.
  intros. rewrite handle_write_tail, run_catch_500 by done.
  rewrite (write_run_bytes _ _ _ (concat (map Utf8.encode ss))) by (done || right; by eexists). done.
Qed.

Lemma write_array_content_witness :
  fs_wf m_data /\ safe_path ‹"/a/c.txt"› /\ kernel_path ‹"/a/c.txt"› /\
  no_file_on m_data (parent_dirs ‹"/a/c.txt"›) /\
  run (handle_write (JObj [(‹"path"›, JStr ‹"/a/c.txt"›); (‹"content"›, JArr (map JStr [‹"ab"›; ‹"c"›]))])) m_data =
    (inr (success_with "message" (JStr ‹"File written successfully"›)),
     <[data_key ‹"/a/c.txt"› := NFile (concat (map Utf8.encode [‹"ab"›; ‹"c"›]))]>
       (with_dirs m_data (parent_dirs ‹"/a/c.txt"›))).
Proof. split_and!; try decide_it. apply write_array_content; try decide_it; reflexivity. Defined.

(** C22. [POST /mcp/read] of a path under [/data] whose joined form
    holds a NUL code unit: Node's path validation throws
    [ERR_INVALID_ARG_VALUE] before any system call, the handler answers
    500 with its message, and nothing changes. *)
Theorem read_nul_path m p :
  safe_path p -> 0%Z ∈ full_path p ->
  run (handle_read (JObj [(‹"path"›, JStr p)])) m =
    (inr (fail_json 500 (message (null_bytes_error (full_path p)))), m).
Proof.
  intros Hsafe Hn. pose proof Hsafe as (Hp & _ & _). unfold handle_read, catch_500.
  change (get _ ‹"path"›) with (Some (JStr p)). cbn [truthy].
  rewrite (bool_decide_false (p = [])) by done. cbn [negb].
  rewrite join_full by done. rewrite run_catch, run_bind, run_lift. cbn [continue_with].
  rewrite run_bind, run_await. unfold exec, nul_path. cbn [call_path].
  by rewrite bool_decide_true.
Qed.

Lemma read_nul_path_witness :
  safe_path (‹"a"› ++ [0%Z] ++ ‹"b"›) /\ 0%Z ∈ full_path (‹"a"› ++ [0%Z] ++ ‹"b"›) /\
  run (handle_read (JObj [(‹"path"›, JStr (‹"a"› ++ [0%Z] ++ ‹"b"›))])) m_data =
    (inr (fail_json 500 (message (null_bytes_error (full_path (‹"a"› ++ [0%Z] ++ ‹"b"›))))), m_data).
Proof. split_and!; [decide_it|decide_it|]. apply read_nul_path; decide_it. Defined.

(** The message Node gives for that path: [util.inspect] quotes it and
    writes the NUL as [\x00]. *)
Example null_bytes_message :
  message (null_bytes_error (full_path (‹"a"› ++ [0%Z] ++ ‹"b"›))) =
    ‹"The argument 'path' must be a string, Uint8Array, or URL without null bytes. Received '/data/a\x00b'"›.
Proof. vm_compute. reflexivity. Qed.

(** C23. [POST /mcp/write] of a file whose name takes more than
    [NAME_MAX] (255) bytes, in a directory Node and the kernel accept:
    [fs.mkdir] creates the missing parents, then [open] fails with
    [ENAMETOOLONG], answered with 500 and Node's message; the parents
    stay. *)
Theorem write_long_name m d x c :
  fs_wf m -> safe_path d -> clean_seg x -> Utf8.units16 x ->
  0%Z ∉ d ++ CH_SLASH :: x -> too_long (full_path (d ++ CH_SLASH :: x)) = false ->
  Forall short_name (data_key d) -> long_name (Utf8.encode x) = true ->
  no_file_on m (parent_dirs (d ++ CH_SLASH :: x)) -> m !! data_key (d ++ CH_SLASH :: x) = None ->
  run (handle_write (JObj [(‹"path"›, JStr (d ++ CH_SLASH :: x)); (‹"content"›, JStr c)])) m =
    (inr (fail_json 500 (‹"ENAMETOOLONG: name too long, open '"› ++ full_path (d ++ CH_SLASH :: x) ++ ‹"'"›)),
     with_dirs m (parent_dirs (d ++ CH_SLASH :: x))).
Proof.
  intros Hwf Hd Hx Hu Hn Hl Hsh Hlong Hpar Hk.
  assert (Hs : safe_path (d ++ CH_SLASH :: x)) by by apply safe_snoc.
  assert (Hkey : data_key (d ++ CH_SLASH :: x) = data_key d ++ [Utf8.encode x]) by by apply data_key_snoc.
  rewrite handle_write_tail, run_catch_500 by done.
  unfold write_tail. rewrite run_bind, run_await, exec_mkdirp_parent
    by (done || by rewrite Hkey, removelast_last).
  cbn [continue_with]. rewrite run_bind. unfold write_file. rewrite run_bind, run_await.
  pose proof (nul_free_path _ Hn). kexec_tac. unfold open_trunc, resolve.
  pose proof (dirs_along_parents m (data_key (d ++ CH_SLASH :: x)) (proj1 Hwf)) as Hda.
  fold (parent_dirs (d ++ CH_SLASH :: x)) in Hda. rewrite Hkey in Hda.
  apply dirs_along_snoc in Hda as [Hda Hdir].
  rewrite Hl, kcomponents_full, Hkey, walk_app, walk_clean by (done || by apply data_key_clean || by left).
  cbn [app walk]. rewrite Hdir, Hlong, kstep_clean by by apply clean_encode.
  rewrite lookup_with_dirs, <- Hkey, Hk.
  rewrite decide_False by (apply not_in_parents). done.
Qed.

(** C14. [POST /mcp/delete] of a file under [/data] that Node and the
    kernel accept unlinks exactly that file. *)
Theorem delete_file_removes m p d :
  safe_path p -> 0%Z ∉ p -> too_long (full_path p) = false -> dirs_along m [] (data_key p) ->
  has_trailing p = false -> m !! data_key p = Some (NFile d) ->
  run (handle_delete (JObj [(‹"path"›, JStr p)])) m =
    (inr (success_with "message" (JStr ‹"Deleted successfully"›)), delete (data_key p) m).
Proof.
  intros Hs Hn Hl Hd Ht Hk. pose proof Hs as (Hp & _ & _).
  apply (delete_file_at _ _ (full_path p) _ d); try done.
  - by apply join_full.
  - by apply kcomponents_full.
  - by apply data_key_clean.
  - by rewrite ktrailing_full.
  - by apply nul_free_path.
Qed.

Lemma delete_file_removes_witness :
  run (handle_delete (JObj [(‹"path"›, JStr ‹"/a/b.txt"›)])) (written m_data ‹"/a/b.txt"› ‹"hi"›) =
    (inr (success_with "message" (JStr ‹"Deleted successfully"›)),
     delete (data_key ‹"/a/b.txt"›) (written m_data ‹"/a/b.txt"› ‹"hi"›)).
Proof. apply (delete_file_removes _ _ (Utf8.encode ‹"hi"›)); try decide_it; vm_compute; reflexivity. Defined.

(** C9. Path traversal: nothing checks that the joined path stays in
    [/data].  [POST /mcp/delete] with [path: "../x"] unlinks the file [/x]
    at the root of the filesystem, for every name [x]. *)
Theorem delete_escapes m x d :
  clean_seg x -> Utf8.units16 x -> 0%Z ∉ x -> short_name (Utf8.encode x) ->
  m !! [] = Some NDir -> m !! [Utf8.encode ‹"data"›] = Some NDir -> m !! [Utf8.encode x] = Some (NFile d) ->
  run (handle_delete (JObj [(‹"path"›, JStr (DOTDOT ++ CH_SLASH :: x))])) m =
    (inr (success_with "message" (JStr ‹"Deleted successfully"›)), delete [Utf8.encode x] m) /\
  ~ same_outside m (delete [Utf8.encode x] m).
Proof.
  intros Hx Hu Hn Hs Hroot Hdata Hk. split.
  2:{ intros Hout. specialize (Hout [Utf8.encode x]). rewrite lookup_delete_eq, Hk in Hout.
      assert (Hnot : ~ under_data [Utf8.encode x]).
      { intros [l Hl]. destruct l; [|done]. injection Hl as Hl. rewrite Hl in Hk. congruence. }
      by specialize (Hout Hnot). }
  assert (Hc : Forall clean_seg [x]) by by apply Forall_singleton.
  assert (Hu' : Forall Utf8.units16 [x]) by by apply Forall_singleton.
  apply (delete_file_at _ _ (abs_path [x] false) _ d); try done.
  - by apply join_data_dotdot.
  - by rewrite kcomponents_abs_path.
  - by apply Forall_singleton, clean_encode.
  - intros i Hi. cbn [length] in Hi. by destruct i as [|i]; [|lia].
  - by apply ktrailing_abs_path.
  - unfold abs_path. cbn [join_slash andb]. rewrite app_nil_r. intros [H|H]%elem_of_cons; [|done].
    unfold CH_SLASH in H. lia.
  - unfold too_long, abs_path. cbn [join_slash andb]. rewrite app_nil_r, Utf8.encode_cons_ascii by (unfold CH_SLASH; lia).
    cbn [length]. unfold short_name, long_name in Hs. apply Nat.ltb_ge in Hs. apply Nat.leb_gt.
    unfold PATH_MAX, NAME_MAX in *. lia.
Qed.

Lemma delete_escapes_witness :
  run (handle_delete (JObj [(‹"path"›, JStr (DOTDOT ++ CH_SLASH :: ‹"etc"›))]))
      (<[[Utf8.encode ‹"etc"›] := NFile (Utf8.encode ‹"x"›)]> m_data) =
    (inr (success_with "message" (JStr ‹"Deleted successfully"›)),
     delete [Utf8.encode ‹"etc"›] (<[[Utf8.encode ‹"etc"›] := NFile (Utf8.encode ‹"x"›)]> m_data)) /\
  ~ same_outside (<[[Utf8.encode ‹"etc"›] := NFile (Utf8.encode ‹"x"›)]> m_data)
      (delete [Utf8.encode ‹"etc"›] (<[[Utf8.encode ‹"etc"›] := NFile (Utf8.encode ‹"x"›)]> m_data)).
Proof. apply (delete_escapes _ _ (Utf8.encode ‹"x"›)); try decide_it; vm_compute; reflexivity. Defined.



(** A name of 256 bytes. *)
Definition long_x : jstr := replicate 256 120%Z.

Lemma write_long_name_witness :
  long_name (Utf8.encode long_x) = true /\
  run (handle_write (JObj [(‹"path"›, JStr (‹"/a"› ++ CH_SLASH :: long_x)); (‹"content"›, JStr ‹"hi"›)])) m_data =
    (inr (fail_json 500 (‹"ENAMETOOLONG: name too long, open '"› ++ full_path (‹"/a"› ++ CH_SLASH :: long_x) ++ ‹"'"›)),
     with_dirs m_data (parent_dirs (‹"/a"› ++ CH_SLASH :: long_x))).
Proof.
  split; [vm_compute; reflexivity|].
  apply write_long_name; try decide_it; vm_compute; reflexivity.
Defined.

(** [POST /mcp/write] with an empty [content] succeeds and leaves an
    empty file. *)
Theorem write_empty_content m p :
  fs_wf m -> safe_path p -> kernel_path p -> req_segs p <> [] -> has_trailing p = false ->
  no_file_on m (parent_dirs p) -> m !! data_key p <> Some NDir ->
  run (handle_write (JObj [(‹"path"›, JStr p); (‹"content"›, JStr [])])) m =
    (inr (success_with "message" (JStr ‹"File written successfully"›)),
     <[data_key p := NFile []]> (with_dirs m (parent_dirs p))).
Proof. intros. rewrite (write_run m p []); [by rewrite Utf8.encode_nil|..]; done. Qed.

Lemma write_empty_content_witness :
  run (handle_write (JObj [(‹"path"›, JStr ‹"/e.txt"›); (‹"content"›, JStr [])])) m_data =
    (inr (success_with "message" (JStr ‹"File written successfully"›)),
     <[data_key ‹"/e.txt"› := NFile []]> (with_dirs m_data (parent_dirs ‹"/e.txt"›))).
Proof. apply write_empty_content; try decide_it; reflexivity. Defined.



End Gateway.
