(* ===== verification/Wire.v ===== *)
(** * The bytes on the wire: [express.json()] and [res.json]

    [Server.dispatch] takes a request whose body is already a JSON value,
    and [Handlers] answers with a value.  This file puts the bytes around
    them, as Express 4 and body-parser 1 do for index.js:
    - [body_json]: [app.use(express.json())] (index.js line 12) on the
      body bytes.  A request with no body, or whose media type is not
      [application/json], gets [req.body = {}].  A charset parameter that
      does not start with [utf-] is refused with [415]; a body of more
      than [100kb] (102400 bytes) with [413]; the bytes are decoded by the
      charset (UTF-8 through [Utf8.decode], with its byte order mark
      stripped); an empty text gives [{}]; in strict mode the first
      character after white space must be [{] or [[] and the text must
      parse ([JsonText.json_parse]), otherwise [400];
    - [wire_dispatch]: the middleware chain on such a request, the
      refinement of [Server.dispatch] ([wire_dispatch_refines]);
    - [send]: the bytes [res.json(v)] writes, the UTF-8 form of
      [JSON.stringify(v)].
    The decoders of the other [utf-] charsets (UTF-16, UTF-32, UTF-7) are
    the section variable [decode_other]: every theorem holds for any of
    them. *)

From S2P Require Import Prelude Utf8 JsNumber Json JsonText NodePath NodeFs Async Handlers Server Findings Gateway.
From Stdlib Require Import QArith.
Import Json JsonText NodePath NodeFs Async Handlers Server Findings Gateway.
Open Scope io_scope.

Module Wire.

(** ** Requests as they arrive *)

(** The [Content-Type] header as the content-type package parses it: the
    media type in lower case and the [charset] parameter. *)
Record ctype := { media : jstr; charset : option jstr }.

(** The method, the path, the content type, and the body bytes; [None]
    when the request has neither [Content-Length] nor
    [Transfer-Encoding] (type-is's [hasBody]). *)
Record wire_request := { wmethod : meth; wpath : jstr; wtype : option ctype; wbytes : option (list Z) }.

(** body-parser's default [limit: '100kb']. *)
Definition LIMIT : Z := 102400.

Definition BOM : Z := 0xFEFF.

(** What the middleware leaves: [req.body], or the status of the error it
    passes to [next]. *)
Inductive parsed := Parsed (v : jvalue) | Refused (code : Z).

(** iconv-lite's decoders drop a leading byte order mark. *)
Definition strip_bom (s : jstr) : jstr :=
  match s with
  | u :: s' => if (u =? BOM)%Z then s' else s
  | [] => []
  end.

(** [getCharset(req) || 'utf-8']: the parameter in lower case. *)
Definition charset_of (t : ctype) : jstr :=
  match charset t with
  | Some cs => if decide (cs = []) then ‹"utf-8"› else map fold_case cs
  | None => ‹"utf-8"›
  end.

(** [firstchar(str)]: the first character after [\x20\x09\x0a\x0d]. *)
Definition first_char (s : jstr) : option Z := head (skip_ws s).

(** [parse(body)] of body-parser's json type, strict mode. *)
Definition parse_json (s : jstr) : parsed :=
  if decide (s = []) then Parsed (JObj [])
  else match first_char s with
       | Some c =>
           if ((c =? CH_LBRACE) || (c =? CH_LBRACKET))%Z then
             match json_parse s with Some v => Parsed v | None => Refused 400 end
           else Refused 400
       | None => Refused 400
       end.

Section BodyParser.
(** iconv-lite's decoder for a charset other than [utf-8]: [None] when
    it knows no such encoding. *)
Variable decode_other : jstr -> list Z -> option jstr.

Definition decode_body (cs : jstr) (bs : list Z) : option jstr :=
  if decide (cs = ‹"utf-8"›) then Some (strip_bom (Utf8.decode bs)) else decode_other cs bs.

(** [jsonParser(req, res, next)]: the body check, the type check, the
    charset check, then [read] (the limit, the decoding, [parse]). *)
Definition body_json (t : option ctype) (b : option (list Z)) : parsed :=
  match b, t with
  | Some bs, Some ct =>
      if decide (media ct = ‹"application/json"›) then
        let cs := charset_of ct in
        if decide (take 4 cs = ‹"utf-"›) then
          if (LIMIT <? Z.of_nat (length bs))%Z then Refused 413
          else match decode_body cs bs with
               | Some s => parse_json s
               | None => Refused 415
               end
        else Refused 415
      else Parsed (JObj [])
  | _, _ => Parsed (JObj [])
  end.

(** What [Server] sees of a request: the body as JSON text, absent, or
    malformed. *)
Definition classify (s : jstr) : req_body :=
  if decide (s = []) then NoJson
  else match json_parse s with Some v => JsonText v | None => Malformed end.

Definition req_body_of (r : wire_request) : req_body :=
  match wbytes r, wtype r with
  | Some bs, Some ct =>
      if decide (media ct = ‹"application/json"›) then
        match decode_body (charset_of ct) bs with Some s => classify s | None => Malformed end
      else NoJson
  | _, _ => NoJson
  end.

Definition abstract (r : wire_request) : request :=
  {| rmethod := wmethod r; rpath := wpath r; rbody := req_body_of r |}.

(** [cors()], [express.json()], the routes and the final handler. *)
Definition wire_dispatch (up : Q) (r : wire_request) : io response :=
  if decide (wmethod r = OPTIONS) then mret {| status := 204; body := BEmpty |}
  else match body_json (wtype r) (wbytes r) with
       | Refused code => mret (error_response code)
       | Parsed b => route up (abstract r) b
       end.
End BodyParser.

(** The bytes of the response body: [res.json(v)] sends
    [Buffer.from(JSON.stringify(v), 'utf8')], [res.send(s)] the UTF-8
    form of [s]. *)
Definition send (r : response) : list Z :=
  match body r with
  | BJson v => Utf8.encode (stringify v)
  | BText s => Utf8.encode s
  | BEmpty => []
  end.

(** A client's [POST] of [JSON.stringify(v)] with
    [Content-Type: application/json]. *)
Definition post_json (path : jstr) (v : jvalue) : wire_request :=
  {| wmethod := POST; wpath := path; wtype := Some {| media := ‹"application/json"›; charset := None |};
     wbytes := Some (Utf8.encode (stringify v)) |}.

(** ** [express.json()] refines [Server.parse_body] *)

Lemma parse_body_text v : parse_body (JsonText v) = if is_container v then Some v else None.
Proof. by destruct v. Qed.

(** The strict check on the first character refuses what [Server]'s
    [parse_body] refuses: a text that does not parse, or whose value is not
    an object or an array. *)
Lemma parse_json_classify s :
  parse_json s = match parse_body (classify s) with Some b => Parsed b | None => Refused 400 end.
Proof.
  unfold parse_json, classify. case_decide; [done|]. unfold first_char.
  destruct (json_parse s) as [v|] eqn:Hp.
  - unfold json_parse in Hp. destruct (parse_value _ s) as [[v' r]|] eqn:Hv; [|done].
    case_decide; [|done]. injection Hp as <-.
    destruct (parse_value_kind _ _ _ _ Hv) as (c & t & -> & Hk). cbn [head]. rewrite parse_body_text.
    destruct (is_container v') eqn:Hc.
    + by destruct (proj1 Hk eq_refl) as [-> | ->].
    + destruct (Z.eqb_spec c CH_LBRACE); [by assert (false = true) by (apply Hk; by left)|].
      destruct (Z.eqb_spec c CH_LBRACKET); [by assert (false = true) by (apply Hk; by right)|]. done.
  - by destruct (head _); [destruct (_ || _)|].
Qed.

Section Refinement.
Variable decode_other : jstr -> list Z -> option jstr.

Lemma body_json_req r :
  body_json decode_other (wtype r) (wbytes r) <> Refused 413 ->
  body_json decode_other (wtype r) (wbytes r) <> Refused 415 ->
  body_json decode_other (wtype r) (wbytes r) =
    match parse_body (req_body_of decode_other r) with Some b => Parsed b | None => Refused 400 end.
Proof.
  destruct r as [mt pth [ct|] [bs|]]; unfold body_json, req_body_of; cbn [wtype wbytes]; try done.
  case_decide; [|done]. case_decide; [|done].
  destruct (LIMIT <? _)%Z; [done|]. destruct (decode_body _ _ _); [intros; apply parse_json_classify|done].
Qed.

(** C6. Refinement: on a request whose body is within the limit and
    whose charset is known, the middleware chain on the bytes answers as
    [Server.dispatch] on the request's JSON value, in every state. *)
Theorem wire_dispatch_refines up r :
  body_json decode_other (wtype r) (wbytes r) <> Refused 413 ->
  body_json decode_other (wtype r) (wbytes r) <> Refused 415 ->
  wire_dispatch decode_other up r = dispatch up (abstract decode_other r).
Proof.
  intros H1 H2. unfold wire_dispatch, dispatch, abstract. cbn [rmethod rbody].
  case_decide; [done|]. rewrite body_json_req by done.
  by destruct (parse_body _).
Qed.
End Refinement.

Definition no_other : jstr -> list Z -> option jstr := fun _ _ => None.

Lemma wire_dispatch_refines_witness :
  body_json no_other (wtype (post_json ‹"/mcp/read"› (JStr ‹"x"›))) (wbytes (post_json ‹"/mcp/read"› (JStr ‹"x"›)))
    <> Refused 413 /\
  body_json no_other (wtype (post_json ‹"/mcp/read"› (JStr ‹"x"›))) (wbytes (post_json ‹"/mcp/read"› (JStr ‹"x"›)))
    <> Refused 415 /\
  wire_dispatch no_other 1 (post_json ‹"/mcp/read"› (JStr ‹"x"›)) =
    dispatch 1 (abstract no_other (post_json ‹"/mcp/read"› (JStr ‹"x"›))).
Proof.
  split_and!; [vm_compute; discriminate|vm_compute; discriminate|].
  apply wire_dispatch_refines; vm_compute; discriminate.
Defined.

(** ** A client's [POST] of a JSON object *)

Section Post.
Variable decode_other : jstr -> list Z -> option jstr.

(** The text of a container starts with its bracket. *)
Lemma stringify_container v :
  is_container v = true -> exists c t, stringify v = c :: t /\ (c = CH_LBRACE \/ c = CH_LBRACKET).
Proof. destruct v; try done; (eexists _, _; split; [reflexivity|first [by left | by right]]). Qed.

(** [express.json()] hands the route the object the client sent. *)
Lemma post_json_body path v :
  json_ok v -> is_container v = true -> (Z.of_nat (length (Utf8.encode (stringify v))) <= LIMIT)%Z ->
  body_json decode_other (wtype (post_json path v)) (wbytes (post_json path v)) = Parsed v.
Proof.
  intros Hv Hc Hl. cbn [post_json wtype wbytes]. unfold body_json.
  rewrite decide_True by done. rewrite decide_True by reflexivity.
  rewrite (proj2 (Z.ltb_ge _ _)) by lia. unfold decode_body. rewrite decide_True by reflexivity.
  rewrite Utf8.decode_encode by (by apply stringify_wf).
  destruct (stringify_container v Hc) as (c & t & Hst & Hc'). rewrite Hst.
  unfold parse_json, first_char.
  assert (E : strip_bom (c :: t) = c :: t /\ skip_ws (c :: t) = c :: t /\
              ((c =? CH_LBRACE) || (c =? CH_LBRACKET))%Z = true) by (destruct Hc' as [-> | ->]; done).
  destruct E as (E1 & E2 & E3). rewrite E1, decide_False, E2 by done. cbn [head]. rewrite E3, <- Hst. by rewrite parse_stringify_text.
Qed.

Lemma wire_post up path v :
  json_ok v -> is_container v = true -> (Z.of_nat (length (Utf8.encode (stringify v))) <= LIMIT)%Z ->
  wire_dispatch decode_other up (post_json path v) = route up (abstract decode_other (post_json path v)) v.
Proof. intros Hv Hc Hl. unfold wire_dispatch. rewrite decide_False by done. by rewrite post_json_body. Qed.
End Post.

Lemma route_write up r b : rmethod r = POST -> rpath r = ‹"/mcp/write"› -> route up r b = handle_write b.
Proof. intros Hm Hp. unfold route. rewrite Hm, Hp. reflexivity. Qed.

Lemma route_read up r b : rmethod r = POST -> rpath r = ‹"/mcp/read"› -> route up r b = handle_read b.
Proof. intros Hm Hp. unfold route. rewrite Hm, Hp. reflexivity. Qed.

Definition write_req (p c : jstr) : jvalue := JObj [(‹"path"›, JStr p); (‹"content"›, JStr c)].
Definition read_req (p : jstr) : jvalue := JObj [(‹"path"›, JStr p)].

(** The number of bytes a value takes on the wire. *)
Definition wire_size (v : jvalue) : Z := Z.of_nat (length (Utf8.encode (stringify v))).

Lemma key_units16 (k : string) : Utf8.units16 (js k).
Proof.
  unfold js, Utf8.units16. apply Forall_map, Forall_forall. intros a _.
  pose proof (Ascii.nat_ascii_bounded a). lia.
Qed.

(** C4. End to end over HTTP: a client that [POST]s the UTF-8 bytes of
    [{path: p, content: c}] to [/mcp/write], then those of [{path: p}] to
    [/mcp/read], both within body-parser's limit, gets a [200] whose body
    bytes [JSON.parse] reads as [{success: true, content: c}]. *)
Theorem wire_write_read decode_other up1 up2 m p c :
  fs_wf m -> safe_path p -> kernel_path p -> req_segs p <> [] -> has_trailing p = false ->
  no_file_on m (parent_dirs p) -> m !! data_key p <> Some NDir -> Utf8.well_formed c = true ->
  (wire_size (write_req p c) <= LIMIT)%Z -> (wire_size (read_req p) <= LIMIT)%Z ->
  let m' := (run (wire_dispatch decode_other up1 (post_json ‹"/mcp/write"› (write_req p c))) m).2 in
  exists resp, run (wire_dispatch decode_other up2 (post_json ‹"/mcp/read"› (read_req p))) m' = (inr resp, m') /\
    status resp = 200%Z /\
    json_parse (Utf8.decode (send resp)) = Some (JObj [(‹"success"›, JBool true); (‹"content"›, JStr c)]).
Proof.
  intros Hwf Hsafe Hkp Hne Ht Hpar Hk Hc Hw Hr m'. pose proof (Utf8.well_formed_units16 c Hc) as Hc16.
  pose proof Hsafe as (_ & _ & Hp16).
  assert (Hok : forall l, Forall (fun kv => Utf8.units16 kv.1 /\ json_ok kv.2) l -> json_ok (JObj l))
    by (intros l; apply json_ok_obj).
  subst m'. rewrite !wire_post by (done || apply Hok; repeat constructor; done || apply key_units16).
  rewrite (route_write up1), (route_read up2) by reflexivity.
  unfold write_req. rewrite (write_run m p c) by done. cbn [snd].
  rewrite (handle_read_file _ _ p (Utf8.encode c)), Utf8.decode_encode by
    (done || (apply dirs_along_insert, dirs_along_parents; apply Hwf) || by rewrite lookup_insert_eq).
  eexists. split; [reflexivity|]. split; [reflexivity|]. cbn [send success_with ok_json body].
  rewrite Utf8.decode_encode by (apply stringify_wf, Hok; repeat constructor; done || apply key_units16).
  apply parse_stringify_text, Hok. repeat constructor; done || apply key_units16.
Qed.

Lemma wire_write_read_witness :
  let m' := (run (wire_dispatch no_other 1 (post_json ‹"/mcp/write"› (write_req ‹"/a/b.txt"› ‹"hi"›))) m_data).2 in
  exists resp, run (wire_dispatch no_other 2 (post_json ‹"/mcp/read"› (read_req ‹"/a/b.txt"›))) m' = (inr resp, m') /\
    status resp = 200%Z /\
    json_parse (Utf8.decode (send resp)) = Some (JObj [(‹"success"›, JBool true); (‹"content"›, JStr ‹"hi"›)]).
Proof. apply wire_write_read; try decide_it; reflexivity. Defined.

(** C18. body-parser's limit: a [POST /mcp/write] whose JSON body takes
    more than 102400 bytes is answered [413 Payload Too Large] before any
    route runs, and the state does not change, whatever the content. *)
Theorem wire_write_too_large decode_other up m p c :
  (LIMIT < wire_size (write_req p c))%Z ->
  run (wire_dispatch decode_other up (post_json ‹"/mcp/write"› (write_req p c))) m =
    (inr (error_response 413), m).
Proof.
  intros H. unfold wire_dispatch. rewrite decide_False by done. cbn [post_json wtype wbytes]. unfold body_json.
  rewrite decide_True by done. rewrite decide_True by reflexivity.
  unfold wire_size in H. by rewrite (proj2 (Z.ltb_lt _ _)) by done.
Qed.

Lemma wire_write_too_large_witness :
  (LIMIT < wire_size (write_req ‹"/big.txt"› (replicate (Z.to_nat LIMIT) 65%Z)))%Z /\
  run (wire_dispatch no_other 1 (post_json ‹"/mcp/write"› (write_req ‹"/big.txt"› (replicate (Z.to_nat LIMIT) 65%Z)))) m_data =
    (inr (error_response 413), m_data).
Proof.
  assert (H : (LIMIT < wire_size (write_req ‹"/big.txt"› (replicate (Z.to_nat LIMIT) 65%Z)))%Z) by (vm_compute; reflexivity).
  split; [exact H|]. apply wire_write_too_large, H.
Defined.

(** ** Status codes *)

(** The codes an answer over HTTP carries. *)
Definition wire_codes : list Z := [200%Z; 204%Z; 400%Z; 404%Z; 413%Z; 415%Z; 500%Z].

(** body-parser refuses a body with [400], [413] or [415]. *)
Lemma body_json_refused decode_other t b code :
  body_json decode_other t b = Refused code -> code ∈ [400%Z; 413%Z; 415%Z].
Proof.
  unfold body_json, parse_json. repeat case_match; intros [= <-]; decide_it.
Qed.

(** C17. Every answer the server sends over HTTP has one of the codes
    200, 204 ([OPTIONS]), 400, 404, 413 and 415 (body-parser) and 500. *)
Theorem wire_dispatch_status decode_other up r m resp m' :
  run (wire_dispatch decode_other up r) m = (inr resp, m') -> status resp ∈ wire_codes.
Proof.
  unfold wire_dispatch. case_decide; [intros [= <- _]; decide_it|].
  destruct (body_json _ _ _) as [b|code] eqn:E.
  - intros Hr%route_status. revert Hr. unfold route_codes, wire_codes.
    rewrite !elem_of_cons, elem_of_nil. tauto.
  - intros [= <- _]. apply body_json_refused in E. revert E. cbn [text status]. unfold wire_codes.
    rewrite !elem_of_cons, elem_of_nil. tauto.
Qed.

(** A body in a charset body-parser knows no decoder for. *)
Definition latin1_post : wire_request :=
  {| wmethod := POST; wpath := ‹"/mcp/read"›;
     wtype := Some {| media := ‹"application/json"›; charset := Some ‹"utf-9"› |};
     wbytes := Some (Utf8.encode ‹"{}"›) |}.

Lemma wire_dispatch_status_witness :
  run (wire_dispatch no_other 0 latin1_post) m_data = (inr (error_response 415), m_data) /\
  status (error_response 415) ∈ wire_codes.
Proof.
  assert (H : run (wire_dispatch no_other 0 latin1_post) m_data = (inr (error_response 415), m_data))
    by (vm_compute; reflexivity).
  split; [exact H|]. exact (wire_dispatch_status no_other 0 latin1_post m_data _ m_data H).
Defined.

End Wire.
