(* ===== verification/Concurrency.v ===== *)
(** * Requests served concurrently

    Node runs every handler on one thread, but an [async] handler gives
    the thread up at each [await]: while one request waits for the
    filesystem, another one runs.  A configuration holds the requests in
    flight (their remaining [io] programs), the filesystem state and the
    answers sent so far.  [step] is one move of one request: an [Await]
    performs its call atomically and continues with the outcome, and a
    finished request sends its answer.  Every interleaving of the requests
    is a sequence of steps, [rtc step].

    The theorems show that the tree invariant and confinement under
    [/data] hold in every interleaving, and that serving the requests one
    after the other is one of the interleavings.  A write and a delete
    can interleave into an outcome that no sequential order gives.  Every
    interleaving is finite, and one that cannot move on has answered
    every request.  The computed scheduler [step_at] is equivalent to
    [step]. *)

From S2P Require Import Prelude Utf8 Json NodePath NodeFs Async Handlers Server Findings Gateway.
From Stdlib Require Import QArith Wellfounded.
Import Json NodePath NodeFs Async Handlers Server Findings Gateway.

Module Concurrency.

Record config := {
  threads : list (io response);
  state : fsys;
  answers : list (js_error + response)
}.

(** One move of the request at position [length ts1]. *)
Inductive step : config -> config -> Prop :=
| st_await ts1 {T} (c : fs_call T) k ts2 m out :
    step {| threads := ts1 ++ Await c k :: ts2; state := m; answers := out |}
         {| threads := ts1 ++ k (exec c m).1 :: ts2; state := (exec c m).2; answers := out |}
| st_ret ts1 a ts2 m out :
    step {| threads := ts1 ++ Ret a :: ts2; state := m; answers := out |}
         {| threads := ts1 ++ ts2; state := m; answers := out ++ [inr a] |}
| st_throw ts1 e ts2 m out :
    step {| threads := ts1 ++ Throw e :: ts2; state := m; answers := out |}
         {| threads := ts1 ++ ts2; state := m; answers := out ++ [inl e] |}.

(** The requests [rs] all received on the state [m]. *)
Definition init (rs : list (Q * request)) (m : fsys) : config :=
  {| threads := map (fun ur => dispatch ur.1 ur.2) rs; state := m; answers := [] |}.

(** The move of request [i], computed. *)
Definition step_at (i : nat) (cf : config) : option config :=
  match threads cf !! i with
  | Some (Await c k) =>
      let '(r, m') := exec c (state cf) in
      Some {| threads := <[i := k r]> (threads cf); state := m'; answers := answers cf |}
  | Some (Ret a) =>
      Some {| threads := take i (threads cf) ++ drop (S i) (threads cf); state := state cf;
              answers := answers cf ++ [inr a] |}
  | Some (Throw e) =>
      Some {| threads := take i (threads cf) ++ drop (S i) (threads cf); state := state cf;
              answers := answers cf ++ [inl e] |}
  | None => None
  end.

(** A schedule: the positions of the requests that move, in order. *)
Fixpoint run_schedule (sched : list nat) (cf : config) : option config :=
  match sched with
  | [] => Some cf
  | i :: rest => step_at i cf ≫= run_schedule rest
  end.

(** ** The computed moves are moves *)

Lemma step_at_sound i cf cf' : step_at i cf = Some cf' -> step cf cf'.
Proof.
  destruct cf as [ts m out]. unfold step_at. cbn [threads state answers].
  destruct (ts !! i) as [t|] eqn:Ht; [|done].
  rewrite <- (take_drop_middle ts i t Ht) at 1.
  destruct t as [a|e|T c k].
  - intros [= <-]. apply st_ret.
  - intros [= <-]. apply st_throw.
  - destruct (exec c m) as [r m'] eqn:E. intros [= <-].
    rewrite (insert_take_drop ts i) by (eapply lookup_lt_Some; eauto).
    replace r with (exec c m).1 by (by rewrite E). replace m' with (exec c m).2 by (by rewrite E).
    apply st_await.
Qed.

Lemma run_schedule_sound sched cf cf' : run_schedule sched cf = Some cf' -> rtc step cf cf'.
Proof.
  revert cf. induction sched as [|i sched IH]; intros cf H; simpl in H.
  - injection H as ->. done.
  - destruct (step_at i cf) as [cf1|] eqn:E; [|done]. simpl in H.
    eapply rtc_l; [by apply (step_at_sound i)|by apply IH].
Qed.

(** ** Serving one after the other is an interleaving *)

Lemma run_thread p ts m out :
  rtc step {| threads := p :: ts; state := m; answers := out |}
           {| threads := ts; state := (run p m).2; answers := out ++ [(run p m).1] |}.
Proof.
  revert m. induction p as [a|e|T c k IH]; intros m.
  - apply rtc_once. apply (st_ret []).
  - apply rtc_once. apply (st_throw []).
  - eapply rtc_l; [apply (st_await [])|]. simpl. destruct (exec c m) as [r m']. apply IH.
Qed.

Lemma serve_steps rs m out :
  rtc step {| threads := map (fun ur => dispatch ur.1 ur.2) rs; state := m; answers := out |}
           {| threads := []; state := (serve m rs).2; answers := out ++ (serve m rs).1 |}.
Proof.
  revert m out. induction rs as [|[up r] rs IH]; intros m out; simpl.
  - by rewrite app_nil_r.
  - destruct (run (dispatch up r) m) as [res m'] eqn:E.
    destruct (serve m' rs) as [outs m''] eqn:E'. simpl.
    eapply rtc_trans; [apply run_thread|]. rewrite E. simpl.
    specialize (IH m' (out ++ [res])). rewrite E', <- app_assoc in IH. exact IH.
Qed.

(** ** Invariants of every interleaving *)

Lemma only_calls_await_inv ok {A} (p : io A) :
  only_calls ok p ->
  match p with Await c k => ok _ c /\ forall r, only_calls ok (k r) | _ => True end.
Proof. destruct 1; auto. Qed.

(** The invariant of a configuration reached from the state [m0]. *)
Definition conf_inv (m0 : fsys) (cf : config) : Prop :=
  fs_wf (state cf) /\ same_outside m0 (state cf) /\ Forall (only_calls confined_call) (threads cf).

Lemma step_conf_inv m0 cf cf' : step cf cf' -> conf_inv m0 cf -> conf_inv m0 cf'.
Proof.
  intros Hs (Hwf & Hout & Hts). destruct Hs as [ts1 T c k ts2 m out|ts1 a ts2 m out|ts1 e ts2 m out];
    cbn [state threads] in *; apply Forall_app in Hts as [H1 H2]; inversion H2 as [|? ? Ht H3]; subst.
  - apply only_calls_await_inv in Ht as [Hc Hk]. split_and!.
    + by apply exec_wf.
    + etrans; [exact Hout|]. by apply exec_confined.
    + apply Forall_app. split; [done|]. by constructor.
  - split_and!; [done|done|]. by apply Forall_app.
  - split_and!; [done|done|]. by apply Forall_app.
Qed.

Lemma rtc_conf_inv m0 cf cf' : rtc step cf cf' -> conf_inv m0 cf -> conf_inv m0 cf'.
Proof. induction 1; eauto using step_conf_inv. Qed.

(** ** Termination and progress *)

(** [q] is what remains of [p] after one call. *)
Definition sub_io {A} (q p : io A) : Prop :=
  match p with Await c k => exists r, q = k r | _ => False end.

Lemma sub_io_wf {A} : well_founded (@sub_io A).
Proof.
  intros p. induction p as [a|e|T c k IH].
  - constructor. intros q [].
  - constructor. intros q [].
  - constructor. intros q [r ->]. apply IH.
Qed.

(** One request moves on or finishes. *)
Inductive threads_lt : list (io response) -> list (io response) -> Prop :=
| tl_sub ts1 t t' ts2 : sub_io t' t -> threads_lt (ts1 ++ t' :: ts2) (ts1 ++ t :: ts2)
| tl_del ts1 t ts2 : threads_lt (ts1 ++ ts2) (ts1 ++ t :: ts2).

Lemma threads_lt_cons_inv ys t ts :
  threads_lt ys (t :: ts) ->
  (exists t', sub_io t' t /\ ys = t' :: ts) \/ ys = ts \/ (exists ts', threads_lt ts' ts /\ ys = t :: ts').
Proof.
  intros H. inversion H as [ts1 t0 t' ts2 Hs E1 E2|ts1 t0 ts2 E1 E2]; subst;
    (destruct ts1 as [|x ts1]; simpl in *; [injection E2 as <- <-|injection E2 as <- <-]).
  - left. eauto.
  - right; right. eexists. split; [apply tl_sub; exact Hs|done].
  - by right; left.
  - right; right. eexists. split; [apply tl_del|done].
Qed.

Lemma threads_acc_cons t ts : Acc sub_io t -> Acc threads_lt ts -> Acc threads_lt (t :: ts).
Proof.
  intros Ht. revert ts. induction Ht as [t _ IHt]. intros ts Hts.
  induction Hts as [ts Hts' IHts]. constructor. intros ys Hy.
  destruct (threads_lt_cons_inv _ _ _ Hy) as [(t' & Hs & ->)|[->|(ts' & Hlt & ->)]].
  - apply IHt; [done|by constructor].
  - by constructor.
  - by apply IHts.
Qed.

Lemma threads_lt_wf : well_founded threads_lt.
Proof.
  intros ts. induction ts as [|t ts IH].
  - constructor. intros ys Hy.
    inversion Hy as [ts1 t t' ts2 Hs E1 E|ts1 t ts2 E1 E]; by destruct ts1.
  - apply threads_acc_cons; [apply sub_io_wf|done].
Qed.

Lemma step_threads_lt cf cf' : step cf cf' -> threads_lt (threads cf') (threads cf).
Proof.
  destruct 1; cbn [threads]; [apply tl_sub; by eexists|apply tl_del|apply tl_del].
Qed.

(** A configuration with a request in flight can move. *)
Lemma step_progress cf : threads cf <> [] -> exists cf', step cf cf'.
Proof.
  destruct cf as [[|t ts] m out]; [done|]. intros _.
  destruct t as [a|e|T c k]; eexists; [apply (st_ret [])|apply (st_throw [])|apply (st_await [])].
Qed.

(** Each move either answers a request or keeps the count. *)
Lemma step_count cf cf' :
  step cf cf' -> (length (threads cf') + length (answers cf') = length (threads cf) + length (answers cf))%nat.
Proof. destruct 1; cbn [threads answers]; rewrite !length_app; simpl; lia. Qed.

Lemma rtc_step_count cf cf' :
  rtc step cf cf' -> (length (threads cf') + length (answers cf') = length (threads cf) + length (answers cf))%nat.
Proof. induction 1 as [|cf1 cf2 cf3 H _ IH]; [done|]. rewrite IH. by apply step_count. Qed.

Lemma step_wf : well_founded (fun cf' cf => step cf cf').
Proof.
  apply (wf_incl _ _ (fun cf' cf => threads_lt (threads cf') (threads cf))).
  - intros cf' cf. apply step_threads_lt.
  - apply wf_inverse_image, threads_lt_wf.
Qed.

Lemma no_step_done cf : (forall cf', ~ step cf cf') -> threads cf = [].
Proof.
  intros Hs. destruct (decide (threads cf = [])) as [|Hne]; [done|].
  destruct (step_progress cf Hne) as [cf' H]. by destruct (Hs cf').
Qed.

(** ** Concrete inputs *)

(** [/data/a] exists. *)
Definition m_a : fsys := <[[Utf8.encode ‹"data"›; Utf8.encode ‹"a"›] := NDir]> m_data.

(** A write into [/a] and a delete of [/a], received together. *)
Definition race : list (Q * request) :=
  [(0%Q, post "/mcp/write" [("path", JStr ‹"/a/b.txt"›); ("content", JStr ‹"hi"›)]);
   (0%Q, post "/mcp/delete" [("path", JStr ‹"/a"›)])].

(** The write runs its [mkdir], the delete runs to its answer, then the
    write goes on. *)
Definition race_schedule : list nat := [0; 1; 1; 1; 1; 0; 0]%nat.

Definition race_end : config :=
  {| threads := []; state := m_data;
     answers := [inr (success_with "message" (JStr ‹"Deleted successfully"›));
                 inr (fail_json 500 ‹"ENOENT: no such file or directory, open '/data/a/b.txt'"›)] |}.

(** ** The claims *)

(** C8. In every interleaving of requests whose [path] fields are
    non-empty strings that never go above [/data], received on a
    well-formed state, the state stays well-formed and nothing outside
    [/data] changes. *)
Theorem concurrent_confined rs m cf :
  Forall (fun ur => paths_safe ur.2) rs -> fs_wf m -> rtc step (init rs m) cf ->
  fs_wf (state cf) /\ same_outside m (state cf).
Proof.
  intros Hrs Hm Hr. eapply (rtc_conf_inv m) in Hr as (H1 & H2 & _); [done|].
  split_and!; [done|done|]. apply Forall_fmap, (Forall_impl _ _ _ Hrs).
  intros [up r] Hs. by apply dispatch_confined_calls.
Qed.

Lemma concurrent_confined_witness :
  Forall (fun ur => paths_safe ur.2) race /\ fs_wf m_a /\ rtc step (init race m_a) race_end /\
  fs_wf (state race_end) /\ same_outside m_a (state race_end).
Proof.
  assert (Hr : rtc step (init race m_a) race_end)
    by (apply (run_schedule_sound race_schedule); vm_compute; reflexivity).
  split_and!; try decide_it; [exact Hr|..]; apply (concurrent_confined race m_a race_end);
    (decide_it || exact Hr).
Defined.

(** Serving the requests one after the other, as [serve] does, is
    one of the interleavings: it reaches the state and the answers of
    [serve]. *)
Theorem serve_interleaving rs m :
  rtc step (init rs m) {| threads := []; state := (serve m rs).2; answers := (serve m rs).1 |}.
Proof. apply (serve_steps rs m []). Qed.

(** Handlers are not atomic: a write into [/a] and a delete of [/a]
    can interleave so that the delete succeeds and the write fails with
    [ENOENT], an outcome that neither order of serving them gives. *)
Example write_delete_race :
  rtc step (init race m_a) race_end /\
  (serve m_a race).1 = [inr (success_with "message" (JStr ‹"File written successfully"›));
                        inr (success_with "message" (JStr ‹"Deleted successfully"›))] /\
  (serve m_a (rev race)).1 = [inr (success_with "message" (JStr ‹"Deleted successfully"›));
                              inr (success_with "message" (JStr ‹"File written successfully"›))].
Proof.
  split; [|split; vm_compute; reflexivity].
  apply (run_schedule_sound race_schedule). vm_compute. reflexivity.
Qed.

(** Termination: there is no infinite interleaving.  Each move
    either answers a request or continues one past a call, and a
    handler's program is a finite tree. *)
Theorem interleavings_terminate : ~ exists s : nat -> config, forall i, step (s i) (s (S i)).
Proof.
  intros [s Hs].
  assert (H : forall cf, ~ exists i, s i = cf).
  { intros cf. induction cf as [cf IH] using (well_founded_ind step_wf).
    intros [i <-]. apply (IH (s (S i))); [apply Hs|by exists (S i)]. }
  apply (H (s 0%nat)). by exists 0%nat.
Qed.

(** Liveness: an interleaving that cannot move on has answered every
    request it started with, exactly once. *)
Theorem stuck_all_answered rs m cf :
  rtc step (init rs m) cf -> (forall cf', ~ step cf cf') ->
  threads cf = [] /\ length (answers cf) = length rs.
Proof.
  intros Hr Hs. pose proof (no_step_done cf Hs) as Hd. split; [done|].
  apply rtc_step_count in Hr. rewrite Hd in Hr. cbn in Hr. rewrite length_map in Hr. lia.
Qed.

(** The computed scheduler and the step relation agree: a
    configuration moves to another exactly when some request's computed
    move leads there. *)
Theorem step_iff_step_at cf cf' : step cf cf' <-> exists i, step_at i cf = Some cf'.
Proof.
  split; [|intros [i Hi]; by apply (step_at_sound i)].
  destruct 1 as [ts1 T c k ts2 m out|ts1 a ts2 m out|ts1 e ts2 m out];
    exists (length ts1); unfold step_at; cbn [threads state answers];
    rewrite list_lookup_middle by done.
  - destruct (exec c m) as [r m']. cbn. by rewrite insert_app_r_alt, Nat.sub_diag by lia.
  - rewrite take_app_length, drop_app_ge by lia. by rewrite Nat.sub_succ_l, Nat.sub_diag by lia.
  - rewrite take_app_length, drop_app_ge by lia. by rewrite Nat.sub_succ_l, Nat.sub_diag by lia.
Qed.

End Concurrency.
