(* ===== verification/Lifecycle.v ===== *)
(** * The process: listening and shutting down

    index.js ends with the process's lifecycle:
    - [app.listen(PORT, '0.0.0.0', ...)] (lines 110-113) accepts requests
      for as long as the process runs; each accepted request starts its
      handler, which then runs interleaved with the others;
    - [process.on('SIGTERM', ...)] (lines 116-119) calls
      [process.exit(0)] at once: the process ends with whatever the
      requests in flight had done so far.  The comment calls this a
      graceful shutdown, but nothing waits for those requests.

    [process] is [Running] with a configuration of [Concurrency] or
    [Exited] with the final state and the answers sent.  [pstep] is one
    move of a request in flight, the arrival of a request that [accept]
    admits, or [SIGTERM]. *)

From S2P Require Import Prelude Utf8 Json NodePath NodeFs Async Handlers Server Findings Gateway Concurrency.
From Stdlib Require Import QArith.
Import Json NodePath NodeFs Async Handlers Server Findings Gateway Concurrency.

Module Lifecycle.

Inductive process :=
| Running (cf : config)
| Exited (m : fsys) (out : list (js_error + response)).

(** The listening process before any request: [/data] as it is. *)
Definition start (m : fsys) : process := Running {| threads := []; state := m; answers := [] |}.

(** [app.listen]: an accepted request starts its handler. *)
Definition receive (up : Q) (r : request) (cf : config) : config :=
  {| threads := threads cf ++ [dispatch up r]; state := state cf; answers := answers cf |}.

(** [process.exit(0)] on [SIGTERM]: the requests in flight are dropped. *)
Definition sigterm (cf : config) : process := Exited (state cf) (answers cf).

Definition pstate (p : process) : fsys :=
  match p with Running cf => state cf | Exited m _ => m end.

Section Process.
Context (accept : Q * request -> Prop).

Inductive pstep : process -> process -> Prop :=
| ps_move cf cf' : step cf cf' -> pstep (Running cf) (Running cf')
| ps_recv cf up r : accept (up, r) -> pstep (Running cf) (Running (receive up r cf))
| ps_sigterm cf : pstep (Running cf) (sigterm cf).

End Process.

(** ** Invariants of a running or exited process *)

Definition proc_inv (m0 : fsys) (p : process) : Prop :=
  match p with
  | Running cf => conf_inv m0 cf
  | Exited m _ => fs_wf m /\ same_outside m0 m
  end.

Lemma pstep_inv m0 p p' :
  pstep (fun ur => paths_safe ur.2) p p' -> proc_inv m0 p -> proc_inv m0 p'.
Proof.
  intros Hs Hp. destruct Hs as [cf cf' Hs|cf up r Hacc|cf]; cbn [proc_inv] in *.
  - by apply (step_conf_inv m0 cf).
  - destruct Hp as (H1 & H2 & H3). split_and!; [done|done|].
    apply Forall_app. split; [done|]. constructor; [|constructor].
    by apply dispatch_confined_calls.
  - by destruct Hp as (H1 & H2 & _).
Qed.

(** ** The claims *)

(** A process that accepts only requests whose [path] fields are
    non-empty strings that never go above [/data], started on a
    well-formed state, keeps
    the state well-formed and changes nothing outside [/data], whatever
    the order of arrivals, moves and [SIGTERM]. *)
Theorem process_confined m p :
  fs_wf m -> rtc (pstep (fun ur => paths_safe ur.2)) (start m) p ->
  fs_wf (pstate p) /\ same_outside m (pstate p).
Proof.
  intros Hm Hr. assert (Hinv : proc_inv m p).
  { assert (H0 : proc_inv m (start m)) by (cbn; split_and!; done).
    revert H0. induction Hr as [|p1 p2 p3 Hs _ IH]; [done|]. intros H1.
    apply IH. by eapply pstep_inv. }
  destruct p as [cf|m' out]; [by destruct Hinv as (H1 & H2 & _)|done].
Qed.

(** A write of [/a/b.txt] on the fresh state. *)
Definition write_ab : Q * request :=
  (0%Q, post "/mcp/write" [("path", JStr ‹"/a/b.txt"›); ("content", JStr ‹"hi"›)]).

(** Shutdown is not graceful: a [SIGTERM] that arrives while a
    write is between its [mkdir] and its [writeFile] ends the process
    with the new directory [/data/a], no file, and no answer sent. *)
Example sigterm_drops_write :
  rtc (pstep (fun ur => paths_safe ur.2)) (start m_data)
      (Exited (<[[Utf8.encode ‹"data"›; Utf8.encode ‹"a"›] := NDir]> m_data) []).
Proof.
  eapply rtc_l; [apply (ps_recv _ _ write_ab.1 write_ab.2); decide_it|].
  eapply rtc_l; [apply ps_move, (step_at_sound 0); vm_compute; reflexivity|].
  eapply rtc_l; [apply ps_sigterm|]. vm_compute. apply rtc_refl.
Qed.

End Lifecycle.
