(* ===== verification/Listen.v ===== *)
(** * Starting the server: the port

    index.js reads [const PORT = process.env.PORT || 3000] (line 7) and
    calls [app.listen(PORT, '0.0.0.0', cb)] (line 110).  Express 4's
    [app.listen] is [http.createServer(app).listen(...arguments)], and
    Node's [net] then decides, in this order:
    - [normalizeArgs]: a string that [toNumber] refuses ([Number(s)] is
      [NaN] or negative) is a pipe name: the server listens on the Unix
      socket of that path and ignores the host.  Anything else is a port,
      and the host is kept;
    - [validatePort(options.port, 'options.port')]: a blank string, a
      value that is not an integer of [0 .. 2^32) ([+port !== (+port >>> 0)])
      or one above [65535] throws [ERR_SOCKET_BAD_PORT], a [RangeError];
    - otherwise the server binds [options.port | 0] on the host.
    The throw happens inside [app.listen], at the top level of the module.
    The exception is uncaught, so the process ends before it listens, and
    the [SIGTERM] handler of line 116 is never installed.  [boot] composes
    this with [Lifecycle]: a process that listens starts as [start m], and
    one that throws is [Exited m []].

    Not modelled: errors of the bind itself ([EADDRINUSE], [EACCES]),
    which Node emits as an ['error'] event after [listen] has returned,
    and the two log lines of the callback. *)

From S2P Require Import Prelude Json JsNumber NodeFs Lifecycle.
From Stdlib Require Import QArith Qround.
Import Json JsNumber NodeFs Lifecycle.

Module Listen.

(** ** The port *)

(** The value [listen] receives as its port: the number [3000] or the
    string of the environment variable. *)
Inductive port_arg := PNum (n : num) | PStr (s : jstr).

(** [process.env.PORT || 3000]: an environment variable is a string or
    [undefined], and the empty string is falsy. *)
Definition PORT (env_port : option jstr) : port_arg :=
  match env_port with
  | Some s => if decide (s = []) then PNum (Fin 3000) else PStr s
  | None => PNum (Fin 3000)
  end.

Definition HOST : jstr := ‹"0.0.0.0"›.

(** [Number(port)], the [+port] of [validatePort]. *)
Definition number_of (v : port_arg) : num :=
  match v with PNum n => n | PStr s => string_to_number s end.

(** [net]'s [toNumber(x)]: [(x = Number(x)) >= 0 ? x : false] keeps [x]. *)
Definition to_number_ok (n : num) : bool :=
  match n with Fin q => Qle_bool 0 q | PosInf | NegZero => true | NaN | NegInf => false end.

(** [isPipeName(s)] of a string. *)
Definition is_pipe_name (s : jstr) : bool := negb (to_number_ok (string_to_number s)).

(** The condition under which [validatePort] throws. *)
Definition bad_port (v : port_arg) : bool :=
  match v with PStr s => bool_decide (trim s = []) | PNum _ => false end
  || match number_of v with
     | Fin q => negb (Qeq_bool q (inject_Z (to_uint32 (Fin q)))) || negb (Qle_bool q (inject_Z 65535))
     | NegZero => false
     | NaN | PosInf | NegInf => true
     end.

(** [determineSpecificType(port)]. *)
Definition port_type (v : port_arg) : jstr :=
  match v with
  | PStr s => received (Some (JStr s))
  | PNum n => received (Some (JNum n))
  end.

(** [new ERR_SOCKET_BAD_PORT('options.port', port, true)]. *)
Definition bad_port_error (v : port_arg) : js_error :=
  RangeError (‹"options.port should be >= 0 and < 65536. Received "› ++ port_type v ++ ‹"."›).

(** ** Listening *)

Inductive listen_target := Tcp (port : Z) (host : jstr) | Pipe (path : jstr).

#[export] Instance listen_target_eq_dec : EqDecision listen_target.
Proof. solve_decision. Defined.

(** The port branch of [Server.prototype.listen]. *)
Definition listen_port (v : port_arg) (host : jstr) : js_error + listen_target :=
  if bad_port v then inl (bad_port_error v) else inr (Tcp (to_int32 (number_of v)) host).

(** [server.listen(port, host, cb)]. *)
Definition listen (v : port_arg) (host : jstr) : js_error + listen_target :=
  match v with
  | PStr s => if is_pipe_name s then inr (Pipe s) else listen_port v host
  | PNum _ => listen_port v host
  end.

(** Running index.js on the state [m]: listening, or ended by the
    exception [listen] throws. *)
Definition boot (env_port : option jstr) (m : fsys) : (js_error + listen_target) * process :=
  match listen (PORT env_port) HOST with
  | inl e => (inl e, Exited m [])
  | inr t => (inr t, start m)
  end.

(** ** What [listen] does with a port *)

Lemma to_uint32_range n : (0 <= to_uint32 n < 2 ^ 32)%Z.
Proof. destruct n; simpl; try lia. apply Z.mod_pos_bound. lia. Qed.

(** A TCP listen binds a port of [0 .. 65535] that is the value of the
    argument. *)
Lemma listen_port_tcp v host n h :
  listen_port v host = inr (Tcp n h) ->
  h = host /\ (0 <= n <= 65535)%Z /\ num_is_Z (number_of v) n.
Proof.
  unfold listen_port, bad_port. destruct (number_of v) as [| | |q|];
    rewrite ?orb_true_r; [done..| |].
  2:{ destruct (_ || false); [done|]. intros E. injection E as <- <-. done. }
  destruct (_ || _) eqn:B; [done|]. intros E. injection E as <- <-.
  apply orb_false_elim in B as [_ B]. apply orb_false_elim in B as [B1 B2].
  apply negb_false_iff in B1, B2. apply Qeq_bool_iff in B1. apply Qle_bool_iff in B2.
  pose proof (to_uint32_range (Fin q)) as Hr. set (u := to_uint32 (Fin q)) in *.
  rewrite B1, <- Zle_Qle in B2. unfold to_int32. fold u.
  rewrite (proj2 (Z.leb_gt _ _)) by lia. split_and!; [done|lia|lia|done].
Qed.

(** [listen] on a non-empty string of decimal digits. *)
Lemma listen_digits ds :
  ds <> [] -> Forall (fun c => is_digit c = true) ds ->
  listen (PStr ds) HOST =
    if (digits_value ds <=? 65535)%Z then inr (Tcp (digits_value ds) HOST)
    else inl (bad_port_error (PStr ds)).
Proof.
  intros Hne Hd. pose proof (digits_value_nonneg ds Hd) as H0.
  unfold listen, is_pipe_name, listen_port, bad_port, number_of.
  rewrite string_to_number_digits, trim_digits, bool_decide_false by done. cbn [orb].
  set (v := digits_value ds) in *. destruct (Z.lt_ge_cases v (2 ^ 53)) as [Hs|Hl].
  - rewrite round_double_small by lia. cbn [to_number_ok to_uint32 negb].
    rewrite Qle_bool_0_Z, (proj2 (Z.leb_le 0 v)) by lia. cbn [negb].
    unfold Qtrunc. rewrite Qle_bool_0_Z, (proj2 (Z.leb_le 0 v)), Qfloor_Z by lia.
    rewrite Qle_bool_Z. destruct (Z.leb_spec v 65535); cbn [negb].
    + rewrite Z.mod_small, Qeq_bool_refl by lia. cbn. unfold to_int32, to_uint32, Qtrunc.
      rewrite Qle_bool_0_Z, (proj2 (Z.leb_le 0 v)), Qfloor_Z, Z.mod_small by lia.
      by rewrite (proj2 (Z.leb_gt _ _)) by lia.
    + by rewrite orb_true_r.
  - pose proof (round_double_large v Hl) as Hr.
    rewrite (proj2 (Z.leb_gt v 65535)) by lia.
    destruct (round_double (inject_Z v)) as [| | |q|]; [done|done|done| |done].
    assert (Hq : (0 <= q)%Q) by (eapply Qle_trans; [|exact Hr]; change 0%Q with (inject_Z 0); rewrite <- Zle_Qle; lia).
    apply Qle_bool_iff in Hq. cbn [to_number_ok]. rewrite Hq. cbn [negb].
    replace (Qle_bool q (inject_Z 65535)) with false; [by rewrite orb_true_r|].
    symmetry. apply not_true_iff_false. rewrite Qle_bool_iff. intros Hle.
    pose proof (Qle_trans _ _ _ Hr Hle) as Hc. rewrite <- Zle_Qle in Hc. lia.
Qed.

(** ** The claims *)

(** C28. A [PORT] made of decimal digits: the server listens on
    [0.0.0.0] at that port when it is at most [65535], and otherwise
    [app.listen] throws [ERR_SOCKET_BAD_PORT] and the process ends before
    it accepts a request, with [/data] as it was. *)
Theorem boot_decimal_port ds m :
  ds <> [] -> Forall (fun c => is_digit c = true) ds ->
  boot (Some ds) m =
    if (digits_value ds <=? 65535)%Z then (inr (Tcp (digits_value ds) HOST), start m)
    else (inl (bad_port_error (PStr ds)), Exited m []).
Proof.
  intros Hne Hd. unfold boot, PORT. rewrite decide_False by done.
  rewrite listen_digits by done. by destruct (_ <=? _)%Z.
Qed.

Lemma boot_decimal_port_witness :
  (‹"70000"› <> [] /\ Forall (fun c => is_digit c = true) ‹"70000"›) /\
  boot (Some ‹"70000"›) ∅ = (inl (bad_port_error (PStr ‹"70000"›)), Exited ∅ []).
Proof.
  split; [split; [discriminate|repeat constructor]|].
  rewrite (boot_decimal_port ‹"70000"› ∅); [reflexivity|discriminate|repeat constructor].
Defined.

(** C29. Whenever the server listens on TCP, the port is an integer of
    [0 .. 65535] equal to [Number(PORT)], the host is [0.0.0.0], and the
    process starts on [/data] as it is. *)
Theorem boot_tcp_port env m n h p :
  boot env m = (inr (Tcp n h), p) ->
  (0 <= n <= 65535)%Z /\ h = HOST /\ p = start m /\ num_is_Z (number_of (PORT env)) n.
Proof.
  unfold boot. destruct (listen (PORT env) HOST) as [e|t] eqn:E; [done|].
  intros F. injection F as -> <-. unfold listen in E.
  assert (Hp : listen_port (PORT env) HOST = inr (Tcp n h))
    by (destruct (PORT env) as [|s]; [done|by destruct (is_pipe_name s)]).
  apply listen_port_tcp in Hp as (-> & Hn & Hq). do 3 (split; [done|]). done.
Qed.

Lemma boot_tcp_port_witness :
  boot (Some ‹" 0x1F90 "›) ∅ = (inr (Tcp 8080 HOST), start ∅) /\
  ((0 <= 8080 <= 65535)%Z /\ HOST = HOST /\ start ∅ = start ∅ /\
   num_is_Z (number_of (PORT (Some ‹" 0x1F90 "›))) 8080).
Proof.
  assert (E : boot (Some ‹" 0x1F90 "›) ∅ = (inr (Tcp 8080 HOST), start ∅)) by (vm_compute; reflexivity).
  split; [exact E|]. exact (boot_tcp_port _ _ _ _ _ E).
Defined.

(** [PORT] values the specification does not foresee: a name such
    as [http] or a negative number makes the server listen on a Unix
    socket of that name; a blank value makes [app.listen] throw, and the
    process ends at startup. *)
Example port_pipe_or_crash m :
  boot (Some ‹"http"›) m = (inr (Pipe ‹"http"›), start m) /\
  boot (Some ‹"-1"›) m = (inr (Pipe ‹"-1"›), start m) /\
  boot (Some ‹" "›) m =
    (inl (RangeError ‹"options.port should be >= 0 and < 65536. Received type string (' ')."›),
     Exited m []).
Proof. split_and!; vm_compute; reflexivity. Qed.

End Listen.
